(** * A shallow embedding of the LevelDB / IndexedDB reader

    The Python sources embedded here are [leveldb/util.py],
    [leveldb/log_reader.py], [leveldb/table_reader.py], [leveldb/db.py] and
    [indexeddb.py].  Python integers are unbounded and become [Z]; a
    [bytes] object is a [list byte]; a raised exception is the [Raise]
    case of [result]; an object that the source updates in place is passed
    on from step to step.  The embedding comes first, module by module;
    then sample files, the vocabulary of the statements, and the
    properties. *)

From Stdlib Require Import ZArith List Lia Bool String Ascii DecimalString.
From Stdlib.Strings Require Import Byte.
From Stdlib Require DecimalN.
Import ListNotations.
Open Scope Z_scope.
Set Warnings "-register-all".

(** [String] also defines a [length]; lists are meant throughout. *)
Abbreviation length := Datatypes.length (only parsing).

(** ** Bytes, exceptions and the error monad *)

Definition bytes := list byte.

Definition byte_val (b : byte) : Z := Z.of_N (Byte.to_N b).

(** [bytes([z])]: a single byte from an integer, [ValueError] outside
    [range(256)]. *)
Definition byte_of_Z (z : Z) : option byte :=
  if (0 <=? z) && (z <? 256) then Byte.of_N (Z.to_N z) else None.

(** Total version used to write byte strings down as lists of numbers. *)
Definition B (z : Z) : byte :=
  match byte_of_Z z with Some b => b | None => x00 end.

Definition hex (l : list Z) : bytes := map B l.

(** The exceptions that the readers can raise.  [OutOfFuel] is not one of
    them: it is what a loop of the model returns when the bound on the
    number of its turns is used up, which the section on fuel below shows
    not to happen. *)
Inductive exn : Type :=
| AssertionError (msg : string)
| IndexError
| TypeError
| ValueError
| OverflowError
| OSError
| UnicodeDecodeError
| SnappyError
| OutOfFuel.

Inductive result (A : Type) : Type :=
| Ok (a : A)
| Raise (e : exn).
Arguments Ok {A} a.
Arguments Raise {A} e.

Definition bind {A B : Type} (m : result A) (k : A -> result B) : result B :=
  match m with
  | Ok a => k a
  | Raise e => Raise e
  end.

Notation "x <- m ;; k" := (bind m (fun x => k))
  (at level 61, m at next level, right associativity).
Notation "' p <- m ;; k" := (bind m (fun x => let p := x in k))
  (at level 61, p pattern, m at next level, right associativity).

(** [assert cond, msg] *)
Definition assert (cond : bool) (msg : string) : result unit :=
  if cond then Ok tt else Raise (AssertionError msg).

Definition len {A : Type} (l : list A) : Z := Z.of_nat (length l).
Arguments len : simpl never.

(** ** Slices and streams

    A stream ([io.BytesIO] or a binary file object) is modelled by the bytes
    that are still to be read.  [tell()] is recovered, where the source uses
    it, as the length of the buffer minus the length of what is left. *)

Definition stream := bytes.

Fixpoint take {A : Type} (n : Z) (l : list A) : list A :=
  match l with
  | [] => []
  | x :: l' => if n <=? 0 then [] else x :: take (n - 1) l'
  end.

Fixpoint drop {A : Type} (n : Z) (l : list A) : list A :=
  match l with
  | [] => []
  | x :: l' => if n <=? 0 then l else drop (n - 1) l'
  end.

(** Python's normalisation of a slice bound: a negative bound counts from
    the end, and the result is clamped to [0 .. len]. *)
Definition slice_index {A : Type} (l : list A) (i : Z) : Z :=
  if i <? 0 then Z.max 0 (i + len l) else Z.min i (len l).

(** [l[:stop]] *)
Definition slice_to {A : Type} (l : list A) (stop : Z) : list A :=
  take (slice_index l stop) l.

(** [l[start:]] *)
Definition slice_from {A : Type} (l : list A) (start : Z) : list A :=
  drop (slice_index l start) l.

(** [l[i]], with [IndexError] out of range. *)
Definition index {A : Type} (l : list A) (i : Z) : result A :=
  let i' := if i <? 0 then i + len l else i in
  if i' <? 0 then Raise IndexError
  else match drop i' l with
       | x :: _ => Ok x
       | [] => Raise IndexError
       end.

(** The largest size the interpreter accepts for a read or a seek
    ([sys.maxsize] on a 64-bit build). *)
Definition ssize_max : Z := 2 ^ 63 - 1.

(** [stream.read(n)]: at most [n] bytes; everything when [n] is -1.  The
    readers pass no other negative size, and the model is not to be relied
    on there: [io.BytesIO] returns everything down to [- 2 ^ 63] and raises
    [OverflowError] below, a file object raises [ValueError] below -1. *)
Definition stream_read (s : stream) (n : Z) : result (bytes * stream) :=
  if n >? ssize_max then Raise OverflowError
  else if n <? 0 then Ok (s, [])
  else Ok (take n s, drop n s).

(** [int.from_bytes(b, 'little')] *)
Fixpoint from_bytes_le (b : bytes) : Z :=
  match b with
  | [] => 0
  | x :: b' => byte_val x + 256 * from_bytes_le b'
  end.

Fixpoint to_bytes_le_aux (n : nat) (v : Z) : bytes :=
  match n with
  | O => []
  | S n' => B (v mod 256) :: to_bytes_le_aux n' (v / 256)
  end.

(** [int.to_bytes(v, n, 'little')]: [OverflowError] when [v] is negative or
    does not fit. *)
Definition to_bytes_le (v : Z) (n : nat) : result bytes :=
  if (v <? 0) || (256 ^ Z.of_nat n <=? v) then Raise OverflowError
  else Ok (to_bytes_le_aux n v).

(** ** leveldb/util.py *)

Module util.

(** The [while] loop of [read_varint].  Every iteration reads one byte, so
    the recursion is on the stream; [stream.read(1)[0]] raises [IndexError]
    at the end of the stream.  The loop is entered with [is_last_byte]
    false and left as soon as it becomes true. *)
Fixpoint read_varint_loop (max_bytes : Z) (s : stream)
    (byte_index retval : Z) : result (Z * stream) :=
  if byte_index <? max_bytes then
    match s with
    | [] => Raise IndexError
    | b :: s' =>
        let byte := byte_val b in
        let is_last_byte := Z.land byte 128 =? 0 in
        let byte := Z.land byte (Z.lnot 128) in
        let retval := retval + Z.shiftl byte (7 * byte_index) in
        let byte_index := byte_index + 1 in
        if is_last_byte then Ok (retval, s')
        else read_varint_loop max_bytes s' byte_index retval
    end
  else Ok (retval, s).

Definition read_varint (s : stream) (max_bytes : Z) : result (Z * stream) :=
  read_varint_loop max_bytes s 0 0.

Definition read_varint32 (s : stream) : result (Z * stream) :=
  read_varint s 5.

Definition read_varint64 (s : stream) : result (Z * stream) :=
  read_varint s 10.

Definition read_sint32 (s : stream) : result (Z * stream) :=
  '(n, s) <- read_varint32 s ;;
  let decoded :=
    Z.lxor (Z.shiftr (Z.land n 4294967295) 1) (- (Z.land n 1)) in
  Ok (decoded, s).

Definition read_safe (s : stream) (n : Z) : result (bytes * stream) :=
  '(ret, s) <- stream_read s n ;;
  _ <- assert (len ret =? n) "Unexpected EOF" ;;
  Ok (ret, s).

Definition unmask_leveldb_crc32c (masked : Z) : Z :=
  let kMaskDelta := 2726488792 in
  let UINT_MAX := 2 ^ 32 - 1 in
  let val := masked - kMaskDelta in
  let val := Z.land (val + UINT_MAX + 1) UINT_MAX in
  let val := Z.land (Z.lor (Z.shiftr val 17) (Z.shiftl val 15)) UINT_MAX in
  val.

Definition bytes_left (s : stream) : Z := len s.

(** The [for i in range(8-1, 0, -1)] loop of [int64_to_bytes_compact], on
    the list of indices still to visit. *)
Fixpoint trailing_zero_loop (buf : bytes) (indices : list Z)
    (trailing_zero_count : Z) : result Z :=
  match indices with
  | [] => Ok trailing_zero_count
  | i :: rest =>
      b <- index buf i ;;
      if byte_val b =? 0
      then trailing_zero_loop buf rest (trailing_zero_count + 1)
      else Ok trailing_zero_count
  end.

Definition int64_to_bytes_compact (val : Z) : result bytes :=
  buf <- to_bytes_le val 8 ;;
  trailing_zero_count <- trailing_zero_loop buf [7; 6; 5; 4; 3; 2; 1] 0 ;;
  let ret := slice_to buf (- trailing_zero_count) in
  Ok ret.

End util.

(** ** Python containers

    A [dict] keeps its keys in insertion order, and the readers iterate over
    dictionaries, so a dictionary is an association list without repeated
    keys: assigning to a key that is present replaces the value in place,
    assigning to a new key appends. *)

Section Dict.
Context {K V : Type} (eqb : K -> K -> bool).

Definition dict := list (K * V).

Fixpoint dict_get (d : dict) (k : K) : option V :=
  match d with
  | [] => None
  | (k', v) :: d' => if eqb k k' then Some v else dict_get d' k
  end.

(** [d[k] = v] *)
Fixpoint dict_set (d : dict) (k : K) (v : V) : dict :=
  match d with
  | [] => [(k, v)]
  | (k', v') :: d' =>
      if eqb k k' then (k', v) :: d' else (k', v') :: dict_set d' k v
  end.

(** [d.update(other)] *)
Definition dict_update (d other : dict) : dict :=
  fold_left (fun acc kv => dict_set acc (fst kv) (snd kv)) other d.

Fixpoint dict_remove (d : dict) (k : K) : dict :=
  match d with
  | [] => []
  | (k', v') :: d' =>
      if eqb k k' then d' else (k', v') :: dict_remove d' k
  end.

(** [d.pop(k, None)]: the value removed, if any, and the dictionary left. *)
Definition dict_pop (d : dict) (k : K) : option V * dict :=
  (dict_get d k, dict_remove d k).

Definition dict_keys (d : dict) : list K := map fst d.
End Dict.
Arguments dict K V : clear implicits.

(** A [set] is a list without repetition.  The order in which CPython
    iterates over a set depends on the hashes of its elements; where the
    source iterates over a set, the order is a parameter of the model. *)

Section PySet.
Context {A : Type} (eqb : A -> A -> bool).

Definition pyset := list A.

Definition set_mem (s : pyset) (x : A) : bool := existsb (eqb x) s.

(** [s.add(x)] *)
Definition set_add (s : pyset) (x : A) : pyset :=
  if set_mem s x then s else s ++ [x].

(** [s.update(t)] and [set(iterable)] *)
Definition set_update (s : pyset) (t : list A) : pyset :=
  fold_left set_add t s.

Definition set_of_list (l : list A) : pyset := set_update [] l.

(** [s - t] *)
Definition set_difference (s t : pyset) : pyset :=
  filter (fun x => negb (set_mem t x)) s.
End PySet.
Arguments pyset A : clear implicits.

Fixpoint bytes_eqb (a b : bytes) : bool :=
  match a, b with
  | [], [] => true
  | x :: a', y :: b' => Byte.eqb x y && bytes_eqb a' b'
  | _, _ => false
  end.

(** [bytes(ints)]: [ValueError] when an element is outside [range(256)]. *)
Fixpoint bytes_of_ints (l : list Z) : result bytes :=
  match l with
  | [] => Ok []
  | z :: l' =>
      match byte_of_Z z with
      | Some b => bs <- bytes_of_ints l' ;; Ok (b :: bs)
      | None => Raise ValueError
      end
  end.

Fixpoint foldM {A S : Type} (f : S -> A -> result S) (l : list A) (s : S)
    : result S :=
  match l with
  | [] => Ok s
  | a :: l' => s' <- f s a ;; foldM f l' s'
  end.

(** ** leveldb/crc32c.py *)

Module crc32c.

(** Modelled from the spec: the module [leveldb/crc32c.py], which the
    readers import, is described as CRC32C, with the Castagnoli polynomial
    and the standard reflected table.  This is the reflected polynomial. *)
Definition poly : Z := 0x82F63B78.

Fixpoint shift_rounds (n : nat) (c : Z) : Z :=
  match n with
  | O => c
  | S n' =>
      shift_rounds n'
        (if Z.odd c then Z.lxor (Z.shiftr c 1) poly else Z.shiftr c 1)
  end.

(** Modelled from the spec: the entry [i] of the standard reflected
    table, which [leveldb/crc32c.py] holds as a constant. *)
Definition table (i : Z) : Z := shift_rounds 8 i.

Definition step (c : Z) (b : byte) : Z :=
  Z.lxor (table (Z.land (Z.lxor c (byte_val b)) 255)) (Z.shiftr c 8).

(** Modelled from the spec: [crc_update(prev, bytes)] of
    [leveldb/crc32c.py], which continues an existing CRC. *)
Definition crc_update (prev : Z) (data : bytes) : Z :=
  Z.lxor (fold_left step data (Z.lxor prev 0xFFFFFFFF)) 0xFFFFFFFF.

(** Modelled from the spec: [crc(bytes)] of [leveldb/crc32c.py], the full
    CRC of a single slice. *)
Definition crc (data : bytes) : Z := crc_update 0 data.

End crc32c.

(** ** leveldb/log_reader.py *)

Module log_reader.

Definition RECORD_TYPE_FULL : Z := 1.
Definition RECORD_TYPE_FIRST : Z := 2.
Definition RECORD_TYPE_MIDDLE : Z := 3.
Definition RECORD_TYPE_LAST : Z := 4.

Definition kTypeDeletion : Z := 0.
Definition kTypeValue : Z := 1.

Section WithChecksum.
(** The two functions of [leveldb/crc32c.py] that the readers call. *)
Variable crc : bytes -> Z.
Variable crc_update : Z -> bytes -> Z.

(** [__get_record]: the payload, the record type and the stream left. *)
Definition get_record (block_stream : stream)
    : result (bytes * Z * stream) :=
  '(b, s) <- util.read_safe block_stream 4 ;;
  let expectec_checksum_masked := from_bytes_le b in
  let expectec_checksum :=
    util.unmask_leveldb_crc32c expectec_checksum_masked in
  '(b, s) <- util.read_safe s 2 ;;
  let length := from_bytes_le b in
  '(b, s) <- util.read_safe s 1 ;;
  record_type <- index b 0 ;;
  let record_type := byte_val record_type in
  '(data, s) <- util.read_safe s length ;;
  type_bytes <- bytes_of_ints [record_type] ;;
  let calculated_crc := crc type_bytes in
  let calculated_crc := crc_update calculated_crc data in
  _ <- assert (expectec_checksum =? calculated_crc)
         "block checksum mismatch" ;;
  Ok (data, record_type, s).

(** [__records_left_in_block] *)
Definition records_left_in_block (s : stream) : bool :=
  util.bytes_left s >? 6.

(** [__get_next_block]: [None] at the end of the file, otherwise the next
    block of at most 32 KiB and the file stream behind it. *)
Definition get_next_block (log : stream) : option (stream * stream) :=
  let buf := take (1024 * 32) log in
  match buf with
  | [] => None
  | _ => Some (buf, drop (1024 * 32) log)
  end.

(** The innermost [while True] of [get_log_records], which collects the
    fragments that follow a FIRST record. *)
Fixpoint fragments_loop (fuel : nat) (log block : stream)
    (full_record : bytes) : result (bytes * stream * stream) :=
  match fuel with
  | O => Raise OutOfFuel
  | S fuel =>
      '(log, block) <-
        (if negb (records_left_in_block block) then
           match get_next_block log with
           | Some (block, log) => Ok (log, block)
           | None => Raise (AssertionError "expecting another block")
           end
         else Ok (log, block)) ;;
      '(record, record_type, block) <- get_record block ;;
      let full_record := full_record ++ record in
      if record_type =? RECORD_TYPE_MIDDLE then
        fragments_loop fuel log block full_record
      else if record_type =? RECORD_TYPE_LAST then
        Ok (full_record, log, block)
      else Raise (AssertionError "unknown record type")
  end.

(** The loop over blocks ([blocks_loop]) and the loop over the records of a
    block ([block_records_loop]) of [get_log_records]. *)
Fixpoint blocks_loop (fuel : nat) (log : stream) (records : list bytes)
    : result (list bytes) :=
  match fuel with
  | O => Raise OutOfFuel
  | S fuel =>
      match get_next_block log with
      | None => Ok records
      | Some (block, log) => block_records_loop fuel log block records
      end
  end
with block_records_loop (fuel : nat) (log block : stream)
    (records : list bytes) : result (list bytes) :=
  match fuel with
  | O => Raise OutOfFuel
  | S fuel =>
      if records_left_in_block block then
        '(full_record, record_type, block) <- get_record block ;;
        '(full_record, log, block) <-
          (if negb (record_type =? RECORD_TYPE_FULL) then
             _ <- assert (record_type =? RECORD_TYPE_FIRST)
                    "if record isn't full, first is expected here" ;;
             fragments_loop fuel log block full_record
           else Ok (full_record, log, block)) ;;
        block_records_loop fuel log block (records ++ [full_record])
      else blocks_loop fuel log records
  end.

(** [get_log_records], on the content of the file at [path].  Every turn
    of a loop takes at least one byte from the file or from the current
    block, which bounds the number of turns. *)
Definition get_log_records (file : bytes) : result (list bytes) :=
  blocks_loop (3 * length file + 1) file [].

End WithChecksum.

(** The [while util.bytes_left(record)] loop of [__get_record_entries]. *)
Fixpoint record_entries_loop (fuel : nat) (record : stream)
    (entries : dict bytes bytes) (deleted_keys : pyset bytes)
    : result (dict bytes bytes * pyset bytes) :=
  match fuel with
  | O => Raise OutOfFuel
  | S fuel =>
      if util.bytes_left record =? 0 then Ok (entries, deleted_keys)
      else
        '(b, record) <- util.read_safe record 1 ;;
        record_type <- index b 0 ;;
        let record_type := byte_val record_type in
        if record_type =? kTypeValue then
          '(key_len, record) <- util.read_varint32 record ;;
          '(key, record) <- util.read_safe record key_len ;;
          '(val_len, record) <- util.read_varint32 record ;;
          '(val, record) <- util.read_safe record val_len ;;
          record_entries_loop fuel record
            (dict_set bytes_eqb entries key val) deleted_keys
        else if record_type =? kTypeDeletion then
          '(key_len, record) <- util.read_varint32 record ;;
          '(key, record) <- util.read_safe record key_len ;;
          record_entries_loop fuel record
            entries (set_add bytes_eqb deleted_keys key)
        else Raise (AssertionError "unknown record entry type")
  end.

(** [__get_record_entries] *)
Definition get_record_entries (record : stream)
    : result (dict bytes bytes * pyset bytes) :=
  '(b, record) <- util.read_safe record 8 ;;
  let sequence := from_bytes_le b in
  '(b, record) <- util.read_safe record 4 ;;
  let count := from_bytes_le b in
  '(entries, deleted_keys) <-
    record_entries_loop (S (length record)) record [] [] ;;
  _ <- assert (len entries + len deleted_keys =? count)
         "incorrect record entry count" ;;
  Ok (entries, deleted_keys).

(** The [for record in records] loop of [get_log_entries]. *)
Definition log_entries_loop (records : list bytes)
    (entries : dict bytes bytes) (deleted_keys : pyset bytes)
    : result (dict bytes bytes * pyset bytes) :=
  foldM (fun acc record =>
           let '(entries, deleted_keys) := acc in
           '(record_entries, record_deleted_keys) <-
             get_record_entries record ;;
           Ok (dict_update bytes_eqb entries record_entries,
               set_update bytes_eqb deleted_keys record_deleted_keys))
        records (entries, deleted_keys).

Section WithChecksum.
Variable crc : bytes -> Z.
Variable crc_update : Z -> bytes -> Z.

(** [get_log_entries], on the content of the file at [path]. *)
Definition get_log_entries (file : bytes)
    : result (dict bytes bytes * pyset bytes) :=
  records <- get_log_records crc crc_update file ;;
  log_entries_loop records [] [].
End WithChecksum.

(** *** The manifest *)

Record NewFile := mkNewFile {
  nf_level : Z;
  nf_number : Z;
  nf_size : Z;
  nf_smallest : bytes;
  nf_largest : bytes
}.

Record DeletedFile := mkDeletedFile {
  df_level : Z;
  df_number : Z
}.

(** The attributes of a [Manifest] object.  [comparator_name] starts as the
    string ['<none>'], here [None], and is a byte string once read. *)
Record Manifest := mkManifest {
  comparator_name : option bytes;
  log_number : Z;
  next_file_number : Z;
  last_sequence : Z;
  compact_pointers : list (Z * bytes);
  deleted_files : list DeletedFile;
  new_files : list NewFile;
  prev_log_number : Z;
  existing_files : pyset Z
}.

Definition kComparator : Z := 1.
Definition kLogNumber : Z := 2.
Definition kNextFileNumber : Z := 3.
Definition kLastSequence : Z := 4.
Definition kCompactPointer : Z := 5.
Definition kDeletedFile : Z := 6.
Definition kNewFile : Z := 7.
Definition kPrevLogNumber : Z := 9.

(** [Manifest.__get_internal_key_data] *)
Definition get_internal_key_data (s : stream) : result (bytes * stream) :=
  '(key_ley, s) <- util.read_varint32 s ;;
  '(key_data, s) <- util.read_safe s key_ley ;;
  let user_key := slice_to key_data (-8) in
  Ok (user_key, s).

(** The [while util.bytes_left(record_stream)] loop of [Manifest.__init__],
    which reads the fields of one record into [self]. *)
Fixpoint manifest_fields_loop (fuel : nat) (record_stream : stream)
    (self : Manifest) : result Manifest :=
  match fuel with
  | O => Raise OutOfFuel
  | S fuel =>
      if util.bytes_left record_stream =? 0 then Ok self
      else
        '(b, s) <- util.read_safe record_stream 1 ;;
        tag <- index b 0 ;;
        let tag := byte_val tag in
        let m := self in
        if tag =? kComparator then
          '(cmp_len, s) <- util.read_varint32 s ;;
          '(name, s) <- util.read_safe s cmp_len ;;
          manifest_fields_loop fuel s
            (mkManifest (Some name) (log_number m) (next_file_number m)
               (last_sequence m) (compact_pointers m) (deleted_files m)
               (new_files m) (prev_log_number m) (existing_files m))
        else if tag =? kLogNumber then
          '(v, s) <- util.read_varint64 s ;;
          manifest_fields_loop fuel s
            (mkManifest (comparator_name m) v (next_file_number m)
               (last_sequence m) (compact_pointers m) (deleted_files m)
               (new_files m) (prev_log_number m) (existing_files m))
        else if tag =? kNextFileNumber then
          '(v, s) <- util.read_varint64 s ;;
          manifest_fields_loop fuel s
            (mkManifest (comparator_name m) (log_number m) v
               (last_sequence m) (compact_pointers m) (deleted_files m)
               (new_files m) (prev_log_number m) (existing_files m))
        else if tag =? kLastSequence then
          '(v, s) <- util.read_varint64 s ;;
          manifest_fields_loop fuel s
            (mkManifest (comparator_name m) (log_number m)
               (next_file_number m) v (compact_pointers m) (deleted_files m)
               (new_files m) (prev_log_number m) (existing_files m))
        else if tag =? kCompactPointer then
          '(level, s) <- util.read_varint32 s ;;
          '(key, s) <- get_internal_key_data s ;;
          manifest_fields_loop fuel s
            (mkManifest (comparator_name m) (log_number m)
               (next_file_number m) (last_sequence m)
               (compact_pointers m ++ [(level, key)]) (deleted_files m)
               (new_files m) (prev_log_number m) (existing_files m))
        else if tag =? kDeletedFile then
          '(level, s) <- util.read_varint32 s ;;
          '(f_number, s) <- util.read_varint64 s ;;
          manifest_fields_loop fuel s
            (mkManifest (comparator_name m) (log_number m)
               (next_file_number m) (last_sequence m) (compact_pointers m)
               (deleted_files m ++ [mkDeletedFile level f_number])
               (new_files m) (prev_log_number m) (existing_files m))
        else if tag =? kNewFile then
          '(level, s) <- util.read_varint32 s ;;
          '(f_number, s) <- util.read_varint64 s ;;
          '(f_size, s) <- util.read_varint64 s ;;
          '(smallest, s) <- get_internal_key_data s ;;
          '(largest, s) <- get_internal_key_data s ;;
          manifest_fields_loop fuel s
            (mkManifest (comparator_name m) (log_number m)
               (next_file_number m) (last_sequence m) (compact_pointers m)
               (deleted_files m)
               (new_files m
                  ++ [mkNewFile level f_number f_size smallest largest])
               (prev_log_number m) (existing_files m))
        else if tag =? kPrevLogNumber then
          '(v, s) <- util.read_varint64 s ;;
          manifest_fields_loop fuel s
            (mkManifest (comparator_name m) (log_number m)
               (next_file_number m) (last_sequence m) (compact_pointers m)
               (deleted_files m) (new_files m) v (existing_files m))
        else Raise (AssertionError "unknown tag")
  end.

Section WithChecksum.
Variable crc : bytes -> Z.
Variable crc_update : Z -> bytes -> Z.

(** [Manifest.__init__], on the content of the manifest file. *)
Definition Manifest_init (file : bytes) : result Manifest :=
  let self := mkManifest None (-1) (-1) (-1) [] [] [] (-1) [] in
  records <- get_log_records crc crc_update file ;;
  self <-
    foldM (fun self record =>
             manifest_fields_loop (S (length record)) record self)
          records self ;;
  let existing :=
    set_difference Z.eqb
      (set_of_list Z.eqb (map nf_number (new_files self)))
      (set_of_list Z.eqb (map df_number (deleted_files self))) in
  Ok (mkManifest (comparator_name self) (log_number self)
        (next_file_number self) (last_sequence self)
        (compact_pointers self) (deleted_files self) (new_files self)
        (prev_log_number self) existing).
End WithChecksum.

End log_reader.

(** ** leveldb/table_reader.py *)

Module table_reader.

Definition MAGIC : Z := 0xDB4775248B80fB57.

Definition kBlockTrailerSize : Z := 1 + 4.
Definition kNoCompression : Z := 0.
Definition kSnappyCompression : Z := 1.

Definition kTypeDeletion : Z := 0.
Definition kTypeValue : Z := 1.

Record BlockHandle := mkBlockHandle {
  offset : Z;
  size : Z
}.

(** [BlockHandle.__init__] *)
Definition BlockHandle_init (s : stream) : result (BlockHandle * stream) :=
  '(offset, s) <- util.read_varint64 s ;;
  '(size, s) <- util.read_varint64 s ;;
  Ok (mkBlockHandle offset size, s).

Record Block := mkBlock {
  block_entries : dict bytes bytes;
  block_meta_entries : dict bytes bytes;
  block_deleted_entries : dict bytes bytes
}.

(** [stream.seek(offset)] on a file, from its start: [ValueError] for an
    offset that does not fit the offset type, [OSError] for a negative
    one.  The [OSError] that a file system raises for an offset far beyond
    the end of the file is not modelled. *)
Definition file_seek (file : bytes) (offset : Z) : result stream :=
  if offset >? ssize_max then Raise ValueError
  else if offset <? 0 then Raise OSError
  else Ok (drop offset file).

(** [stream.seek(-n, 2)] on a file: [n] bytes before its end. *)
Definition file_seek_end (file : bytes) (n : Z) : result stream :=
  if len file <? n then Raise OSError
  else Ok (drop (len file - n) file).

(** The [while data_stream.tell() < restart_offset] loop of
    [Block.__init__].  [data] is the whole buffer of [data_stream], so that
    [tell()] is [len data - len data_stream]; [prev_key] is [None] before
    the first entry. *)
Fixpoint block_entries_loop (fuel : nat) (is_meta : bool) (data : bytes)
    (restart_offset : Z) (data_stream : stream) (prev_key : option bytes)
    (self : Block) : result Block :=
  match fuel with
  | O => Raise OutOfFuel
  | S fuel =>
      if len data - len data_stream <? restart_offset then
        '(shared, s) <- util.read_varint32 data_stream ;;
        '(non_shared, s) <- util.read_varint32 s ;;
        '(val_len, s) <- util.read_varint32 s ;;
        shared_key_data <-
          (if shared >? 0 then
             match prev_key with
             | Some prev_key => Ok (slice_to prev_key shared)
             | None => Raise TypeError
             end
           else Ok []) ;;
        '(delta, s) <- stream_read s non_shared ;;
        let key := shared_key_data ++ delta in
        '(val, s) <- stream_read s val_len ;;
        _ <- assert (len key >? 8) "key too short" ;;
        let internal_key := from_bytes_le (slice_from key (-8)) in
        let user_key := slice_to key (-8) in
        let record_type := Z.land internal_key 255 in
        let sequence := Z.shiftr internal_key 8 in
        self <-
          (if is_meta then
             Ok (mkBlock (block_entries self)
                   (dict_set bytes_eqb (block_meta_entries self) user_key val)
                   (block_deleted_entries self))
           else if record_type =? kTypeValue then
             Ok (mkBlock
                   (dict_set bytes_eqb (block_entries self) user_key val)
                   (block_meta_entries self) (block_deleted_entries self))
           else if record_type =? kTypeDeletion then
             Ok (mkBlock (block_entries self) (block_meta_entries self)
                   (dict_set bytes_eqb (block_deleted_entries self)
                      user_key val))
           else Raise (AssertionError "unknown block entry type")) ;;
        block_entries_loop fuel is_meta data restart_offset s (Some key) self
      else Ok self
  end.

Section WithCodecs.
Variable crc : bytes -> Z.
Variable crc_update : Z -> bytes -> Z.
(** [snappy.uncompress], an external library. *)
Variable snappy_uncompress : bytes -> result bytes.

(** The first half of [Block.__init__]: read the block and its trailer at
    the place the handle names and validate the checksum.  Returns the
    payload and the block type. *)
Definition Block_read (handle : BlockHandle) (file : bytes)
    : result (bytes * Z) :=
  s <- file_seek file (offset handle) ;;
  '(buf, _) <- util.read_safe s (size handle + kBlockTrailerSize) ;;
  let data := slice_to buf (size handle) in
  block_type <- index buf (size handle) ;;
  let block_type := byte_val block_type in
  let masked_crc_bytes := slice_from buf (size handle + 1) in
  let masked_crc := from_bytes_le masked_crc_bytes in
  let crc_ := util.unmask_leveldb_crc32c masked_crc in
  let calculated_crc := crc data in
  type_bytes <- bytes_of_ints [block_type] ;;
  let calculated_crc := crc_update calculated_crc type_bytes in
  _ <- assert (crc_ =? calculated_crc) "block checksum mismatch" ;;
  Ok (data, block_type).

(** [Block.__init__] *)
Definition Block_init (handle : BlockHandle) (file : bytes)
    (is_meta : bool) : result Block :=
  '(data, block_type) <- Block_read handle file ;;
  data <-
    (if block_type =? kNoCompression then Ok data
     else if block_type =? kSnappyCompression then snappy_uncompress data
     else Raise (AssertionError "invalid block type")) ;;
  let max_restarts := (len data - 4) / 4 in
  let restarts := from_bytes_le (slice_from data (-4)) in
  _ <- assert (restarts <=? max_restarts) "invalid restarts" ;;
  let restart_offset := len data - (1 + restarts) * 4 in
  block_entries_loop (S (length data)) is_meta data restart_offset data
    None (mkBlock [] [] []).

Record Table := mkTable {
  entries : dict bytes bytes;
  meta_entries : dict bytes bytes;
  deleted_entries : dict bytes bytes
}.

(** [Table.__init__], on the content of the file at [path]. *)
Definition Table_init (file : bytes) : result Table :=
  s <- file_seek_end file 8 ;;
  '(b, _) <- util.read_safe s 8 ;;
  let magic := from_bytes_le b in
  _ <- assert (magic =? MAGIC) "Not a valid table file" ;;
  s <- file_seek_end file (40 + 8) ;;
  '(index_meta_blocks, _) <- util.read_safe s 40 ;;
  '(metaindex_handle, index_meta_blocks) <-
    BlockHandle_init index_meta_blocks ;;
  '(index_handle, index_meta_blocks) <-
    BlockHandle_init index_meta_blocks ;;
  index_block <- Block_init index_handle file false ;;
  meta_block <- Block_init metaindex_handle file true ;;
  data_blocks <-
    foldM (fun data_blocks kv =>
             let val := snd kv in
             '(data_block_handle, _) <- BlockHandle_init val ;;
             data_block <- Block_init data_block_handle file false ;;
             Ok (data_blocks ++ [data_block]))
          (block_entries index_block) [] ;;
  Ok (fold_left
        (fun self db =>
           mkTable
             (dict_update bytes_eqb (entries self) (block_entries db))
             (dict_update bytes_eqb (meta_entries self)
                (block_meta_entries db))
             (dict_update bytes_eqb (deleted_entries self)
                (block_deleted_entries db)))
        data_blocks (mkTable [] [] [])).
End WithCodecs.

End table_reader.

(** ** leveldb/db.py *)

Module db.

(** The directory at [base_path].  [current] is the text of the file
    [CURRENT] as opening it in text mode yields it, [None] when there is no
    such regular file; [files] gives the content of a file by name.  Names
    and text are strings of 8-bit characters. *)
Record directory := mkDirectory {
  current : option string;
  files : string -> option bytes
}.

(** [open(path, 'rb')] followed by reading: [OSError] when the file is
    missing. *)
Definition open_rb (dir : directory) (name : string) : result bytes :=
  match files dir name with
  | Some content => Ok content
  | None => Raise OSError
  end.

(** [f'{number:06}']: decimal digits, padded with zeros on the left to six
    characters. *)
Definition format_06 (number : Z) : string :=
  let digits := NilZero.string_of_uint (N.to_uint (Z.to_N (Z.abs number))) in
  let sign := if number <? 0 then "-"%string else EmptyString in
  let pad :=
    Nat.sub 6 (Nat.add (String.length sign) (String.length digits)) in
  String.append sign
    (String.append (string_of_list_ascii (repeat "0"%char pad)) digits).

(** [get_table_file] and [get_log_file]: the name of the file in the
    directory. *)
Definition get_table_file (number : Z) : string :=
  String.append (format_06 number) ".ldb".

Definition get_log_file (number : Z) : string :=
  String.append (format_06 number) ".log".

(** The characters that [str.strip()] removes, among the 8-bit ones. *)
Definition is_space (c : ascii) : bool :=
  let n := Z.of_nat (nat_of_ascii c) in
  ((9 <=? n) && (n <=? 13)) || ((28 <=? n) && (n <=? 32))
  || (n =? 133) || (n =? 160).

Fixpoint lstrip (l : list ascii) : list ascii :=
  match l with
  | c :: l' => if is_space c then lstrip l' else l
  | [] => []
  end.

Definition strip (s : string) : string :=
  string_of_list_ascii
    (rev (lstrip (rev (lstrip (list_ascii_of_string s))))).

Record DB := mkDB {
  manifest : log_reader.Manifest;
  entries : dict bytes bytes;
  meta_entries : dict bytes bytes;
  deleted_entries : dict bytes bytes
}.

(** The loop [for k in self.deleted_entries: self.entries.pop(k, None)]. *)
Definition purge_deleted (entries deleted_entries : dict bytes bytes)
    : dict bytes bytes :=
  fold_left (fun entries k => snd (dict_pop bytes_eqb entries k))
            (dict_keys deleted_entries) entries.

(** The truth value of a byte string, for [if deleted_val:]. *)
Definition truthy (b : bytes) : bool :=
  match b with
  | [] => false
  | _ :: _ => true
  end.

(** The loop [for k in deleted_keys], on the keys in iteration order.  The
    value popped is [None] when the key is absent, which is false as a
    condition, like the empty byte string. *)
Definition move_deleted (deleted_keys : list bytes)
    (entries deleted_entries : dict bytes bytes)
    : dict bytes bytes * dict bytes bytes :=
  fold_left
    (fun acc k =>
       let '(entries, deleted_entries) := acc in
       let '(deleted_val, entries) := dict_pop bytes_eqb entries k in
       match deleted_val with
       | Some v =>
           if truthy v
           then (entries, dict_set bytes_eqb deleted_entries k v)
           else (entries, deleted_entries)
       | None => (entries, deleted_entries)
       end)
    deleted_keys (entries, deleted_entries).

Section WithRuntime.
Variable crc : bytes -> Z.
Variable crc_update : Z -> bytes -> Z.
Variable snappy_uncompress : bytes -> result bytes.
(** The order in which the interpreter iterates over a set of file
    numbers and over a set of keys. *)
Variable iter_files : pyset Z -> list Z.
Variable iter_keys : pyset bytes -> list bytes.

(** [DB.get_manifest] *)
Definition get_manifest (dir : directory) : result log_reader.Manifest :=
  match current dir with
  | None =>
      Raise (AssertionError
        "CURRENT file doesn't exist or is a directory")
  | Some text =>
      let chars := list_ascii_of_string text in
      let manifest_name := string_of_list_ascii (take 20 chars) in
      _ <- assert (match drop 20 chars with [] => true | _ => false end)
             "invalid manifest" ;;
      last <- index (list_ascii_of_string manifest_name) (-1) ;;
      _ <- assert (Ascii.eqb last "010"%char) "invalid manifest" ;;
      _ <- assert (String.prefix "MANIFEST-" manifest_name)
             "invalid manifest" ;;
      file <- open_rb dir (strip manifest_name) ;;
      log_reader.Manifest_init crc crc_update file
  end.

(** [DB.__init__].  Logging and the bookkeeping of the file names that
    were not read, which only feed a printed warning, are left out. *)
Definition DB_init (dir : directory) : result DB :=
  manifest <- get_manifest dir ;;
  '(entries, meta_entries, deleted_entries) <-
    foldM (fun acc f_number =>
             let '(entries, meta_entries, deleted_entries) := acc in
             file <- open_rb dir (get_table_file f_number) ;;
             table <- table_reader.Table_init crc crc_update
                        snappy_uncompress file ;;
             Ok (dict_update bytes_eqb entries
                   (table_reader.entries table),
                 dict_update bytes_eqb meta_entries
                   (table_reader.meta_entries table),
                 dict_update bytes_eqb deleted_entries
                   (table_reader.deleted_entries table)))
          (iter_files (log_reader.existing_files manifest))
          ([], [], []) ;;
  '(entries, deleted_keys) <-
    (if log_reader.log_number manifest =? -1 then Ok (entries, [])
     else
       file <- open_rb dir
                 (get_log_file (log_reader.log_number manifest)) ;;
       '(log_entries, deleted_keys) <-
         log_reader.get_log_entries crc crc_update file ;;
       Ok (dict_update bytes_eqb entries log_entries,
           iter_keys deleted_keys)) ;;
  let entries := purge_deleted entries deleted_entries in
  let '(entries, deleted_entries) :=
    move_deleted deleted_keys entries deleted_entries in
  Ok (mkDB manifest entries meta_entries deleted_entries).
End WithRuntime.

End db.

(** ** indexeddb.py *)

Module indexeddb.

(** A Python [str], as the list of its code points. *)
Definition pystr := list Z.

Definition str_of_string (s : string) : pystr :=
  map (fun c => Z.of_nat (nat_of_ascii c)) (list_ascii_of_string s).

(** The 16-bit units of a byte string, little or big endian;
    [UnicodeDecodeError] on a byte string of odd length. *)
Fixpoint utf16_units (big_endian : bool) (b : bytes) : result (list Z) :=
  match b with
  | [] => Ok []
  | [_] => Raise UnicodeDecodeError
  | x :: y :: b' =>
      us <- utf16_units big_endian b' ;;
      Ok ((if big_endian then 256 * byte_val x + byte_val y
           else byte_val x + 256 * byte_val y) :: us)
  end.

(** Strict UTF-16: a surrogate pair makes one code point, a surrogate on
    its own is an error. *)
Fixpoint utf16_code_points (units : list Z) : result pystr :=
  match units with
  | [] => Ok []
  | u :: rest =>
      if (0xD800 <=? u) && (u <=? 0xDBFF) then
        match rest with
        | u' :: rest' =>
            if (0xDC00 <=? u') && (u' <=? 0xDFFF) then
              cps <- utf16_code_points rest' ;;
              Ok (0x10000 + Z.shiftl (u - 0xD800) 10 + (u' - 0xDC00) :: cps)
            else Raise UnicodeDecodeError
        | [] => Raise UnicodeDecodeError
        end
      else if (0xDC00 <=? u) && (u <=? 0xDFFF) then Raise UnicodeDecodeError
      else cps <- utf16_code_points rest ;; Ok (u :: cps)
  end.

(** [b.decode('utf-16be')] and [b.decode('utf-16le')] *)
Definition decode_utf16be (b : bytes) : result pystr :=
  units <- utf16_units true b ;; utf16_code_points units.

Definition decode_utf16le (b : bytes) : result pystr :=
  units <- utf16_units false b ;; utf16_code_points units.

(** [b.decode('ascii', 'replace')]: a byte outside ASCII becomes U+FFFD. *)
Definition decode_ascii_replace (b : bytes) : pystr :=
  map (fun x => if byte_val x <? 128 then byte_val x else 0xFFFD) b.

(** *** IDBKey *)

(** The value of [IDBKey.key].  A number is kept as the eight bytes that
    [struct.unpack('d', ...)] interprets as a double. *)
Inductive key : Type :=
| KNumber (double_bytes : bytes)
| KString (s : pystr)
| KBinary (b : bytes)
| KArray (items : list key).

(** [IDBKey.__parse_key] and the [for _ in range(arr_len)] loop of its
    array case. *)
Fixpoint parse_key (fuel : nat) (s : stream) : result (key * stream) :=
  match fuel with
  | O => Raise OutOfFuel
  | S fuel =>
      '(b, s) <- util.read_safe s 1 ;;
      tag <- index b 0 ;;
      let tag := byte_val tag in
      if tag =? 0 then Raise (AssertionError "unexpected null key")
      else if tag =? 3 then
        '(buf, s) <- util.read_safe s 8 ;;
        Ok (KNumber buf, s)
      else if tag =? 2 then Raise (AssertionError "date type not implemented")
      else if tag =? 1 then
        '(s_len, s) <- util.read_varint64 s ;;
        '(str, s) <- util.read_safe s (s_len * 2) ;;
        ret <- decode_utf16be str ;;
        Ok (KString ret, s)
      else if tag =? 6 then
        '(bin_len, s) <- util.read_varint64 s ;;
        '(ret, s) <- util.read_safe s bin_len ;;
        Ok (KBinary ret, s)
      else if tag =? 4 then
        '(arr_len, s) <- util.read_varint64 s ;;
        '(ret, s) <- parse_key_array fuel arr_len s [] ;;
        Ok (KArray ret, s)
      else Raise (AssertionError "unknown primitive type")
  end
with parse_key_array (fuel : nat) (remaining : Z) (s : stream)
    (ret : list key) : result (list key * stream) :=
  match fuel with
  | O => Raise OutOfFuel
  | S fuel =>
      if remaining <=? 0 then Ok (ret, s)
      else
        '(k, s) <- parse_key fuel s ;;
        parse_key_array fuel (remaining - 1) s (ret ++ [k])
  end.

Record IDBKey := mkIDBKey {
  db_id : Z;
  obj_store_id : Z;
  index_id : Z;
  key_ : key
}.

(** The first part of [IDBKey.__init__]: the lengths held by the first byte
    and the three ids.  In Python [>>] binds tighter than [&], so
    [first_byte & 0b11100000 >> 5] is [first_byte & (0b11100000 >> 5)]. *)
Definition IDBKey_read_ids (key_stream : stream)
    : result (Z * Z * Z * stream) :=
  '(b, s) <- util.read_safe key_stream 1 ;;
  first_byte <- index b 0 ;;
  let first_byte := byte_val first_byte in
  let db_id_len := Z.land first_byte (Z.shiftr 224 5) + 1 in
  let obj_store_id_len := Z.land first_byte (Z.shiftr 28 2) + 1 in
  let index_id_len := Z.land first_byte (Z.shiftr 3 0) + 1 in
  '(b, s) <- util.read_safe s db_id_len ;;
  let db_id := from_bytes_le b in
  '(b, s) <- util.read_safe s obj_store_id_len ;;
  let obj_store_id := from_bytes_le b in
  '(b, s) <- util.read_safe s index_id_len ;;
  let index_id := from_bytes_le b in
  Ok (db_id, obj_store_id, index_id, s).

(** [IDBKey.__init__] *)
Definition IDBKey_init (ldb_key : bytes) : result IDBKey :=
  '(db_id, obj_store_id, index_id, s) <- IDBKey_read_ids ldb_key ;;
  '(k, s) <- parse_key (2 * length s + 1) s ;;
  _ <- assert (util.bytes_left s =? 0) "unexpected trailing data" ;;
  Ok (mkIDBKey db_id obj_store_id index_id k).

(** [IDBKey.encode_key_prefix] *)
Definition encode_key_prefix (db_id obj_store_id idx_id : Z)
    : result bytes :=
  _ <- assert ((db_id >=? 0) && (obj_store_id >=? 0) && (idx_id >=? 0))
         "invalid IDs" ;;
  db_id_bytes <- util.int64_to_bytes_compact db_id ;;
  obj_store_id_bytes <- util.int64_to_bytes_compact obj_store_id ;;
  idx_id_bytes <- util.int64_to_bytes_compact idx_id ;;
  let first_byte := 0 in
  let first_byte := Z.lor first_byte (Z.shiftl (len db_id_bytes - 1) 5) in
  let first_byte :=
    Z.lor first_byte (Z.shiftl (len obj_store_id_bytes - 1) 2) in
  let first_byte := Z.lor first_byte (Z.shiftl (len idx_id_bytes - 1) 0) in
  first <- bytes_of_ints [first_byte] ;;
  Ok (first ++ db_id_bytes ++ obj_store_id_bytes ++ idx_id_bytes).

(** *** IDBValue *)

(** The Python values that [v8_deserizlize] builds.  A [float] is kept as
    its eight bytes; a [dict] as its items in insertion order; [VTuple] is
    the pair [(key, val)] appended to an array; [VEndMarker] is the named
    tuple [IDBValue.EndMarker]. *)
Inductive value : Type :=
| VNone
| VBool (b : bool)
| VInt (n : Z)
| VFloat (double_bytes : bytes)
| VStr (s : pystr)
| VList (items : list value)
| VTuple (k v : value)
| VDict (items : list (value * value))
| VEndMarker (count : Z).

(** The fields of the double held in eight bytes, as [struct.unpack('d',
    ...)] reads them on a little-endian machine. *)
Definition double_exponent (b : bytes) : Z :=
  Z.land (Z.shiftr (from_bytes_le b) 52) 2047.
Definition double_fraction (b : bytes) : Z :=
  Z.land (from_bytes_le b) (2 ^ 52 - 1).
Definition double_negative (b : bytes) : bool :=
  Z.testbit (from_bytes_le b) 63.

Definition double_is_nan (b : bytes) : bool :=
  (double_exponent b =? 2047) && negb (double_fraction b =? 0).

(** The integer a double is equal to, if any. *)
Definition double_to_Z (b : bytes) : option Z :=
  let e := double_exponent b in
  let f := double_fraction b in
  if e =? 2047 then None
  else
    let m := if e =? 0 then f else f + 2 ^ 52 in
    let x := if e =? 0 then -1074 else e - 1075 in
    let sign := if double_negative b then -1 else 1 in
    if x >=? 0 then Some (sign * (m * 2 ^ x))
    else if m mod 2 ^ (- x) =? 0 then Some (sign * (m / 2 ^ (- x)))
    else None.

Fixpoint str_eqb (a b : pystr) : bool :=
  match a, b with
  | [], [] => true
  | x :: a', y :: b' => (x =? y) && str_eqb a' b'
  | _, _ => false
  end.

(** Python's [==] between two keys of a dictionary, for the values that can
    be keys: [True == 1 == 1.0], a NaN is equal to nothing. *)
Definition key_eqb (a b : value) : bool :=
  let as_int (v : value) : option Z :=
    match v with
    | VBool true => Some 1
    | VBool false => Some 0
    | VInt n => Some n
    | _ => None
    end in
  match a, b with
  | VNone, VNone => true
  | VStr x, VStr y => str_eqb x y
  | VFloat x, VFloat y =>
      negb (double_is_nan x) && negb (double_is_nan y)
      && (bytes_eqb x y
          || match double_to_Z x, double_to_Z y with
             | Some n, Some m => n =? m
             | _, _ => false
             end)
  | VFloat x, _ =>
      match double_to_Z x, as_int b with
      | Some n, Some m => n =? m
      | _, _ => false
      end
  | _, VFloat y =>
      match as_int a, double_to_Z y with
      | Some n, Some m => n =? m
      | _, _ => false
      end
  | _, _ =>
      match as_int a, as_int b with
      | Some n, Some m => n =? m
      | _, _ => false
      end
  end.

(** [obj[key] = val]: [TypeError] for a key that cannot be hashed.  The
    keys are results of [v8_deserizlize], which returns no tuple. *)
Definition setitem (obj : list (value * value)) (k v : value)
    : result (list (value * value)) :=
  match k with
  | VList _ | VDict _ => Raise TypeError
  | _ => Ok (dict_set key_eqb obj k v)
  end.

Definition is_tag (tag : bytes) (c : byte) : bool := bytes_eqb tag [c].

(** [IDBValue.v8_deserizlize] with its loops: the [while True] of an object
    ([object_loop]) and of a sparse array ([sparse_loop]), the
    [for _ in range(arr_len1)] ([dense_elements]) and the [while True]
    ([dense_properties]) of a dense array. *)
Fixpoint v8_deserizlize_fuel (fuel : nat) (s : stream)
    : result (value * stream) :=
  match fuel with
  | O => Raise OutOfFuel
  | S fuel =>
      '(tag, s) <- util.read_safe s 1 ;;
      if is_tag tag x00 then v8_deserizlize_fuel fuel s
      else if is_tag tag "o" then object_loop fuel s []
      else if is_tag tag "{" || is_tag tag "@" || is_tag tag "$" then
        '(count, s) <- util.read_varint64 s ;;
        Ok (VEndMarker count, s)
      else if is_tag tag x22 then
        '(str_len, s) <- util.read_varint32 s ;;
        '(str_val, s) <- util.read_safe s str_len ;;
        Ok (VStr (decode_ascii_replace str_val), s)
      else if is_tag tag "c" then
        '(str_len, s) <- util.read_varint64 s ;;
        '(str_val, s) <- util.read_safe s str_len ;;
        str_val <- decode_utf16le str_val ;;
        Ok (VStr str_val, s)
      else if is_tag tag "I" then
        '(n, s) <- util.read_sint32 s ;;
        Ok (VInt n, s)
      else if is_tag tag "N" then
        '(buf, s) <- util.read_safe s 8 ;;
        Ok (VFloat buf, s)
      else if is_tag tag "a" then
        '(arr_len1, s) <- util.read_varint32 s ;;
        sparse_loop fuel s [] arr_len1
      else if is_tag tag "A" then
        '(arr_len1, s) <- util.read_varint32 s ;;
        '(arr, s) <- dense_elements fuel s arr_len1 [] ;;
        dense_properties fuel s arr 0 arr_len1
      else if is_tag tag "_" || is_tag tag "0" then Ok (VNone, s)
      else if is_tag tag "T" then Ok (VBool true, s)
      else if is_tag tag "F" then Ok (VBool false, s)
      else Raise (AssertionError "unknown tag")
  end
with object_loop (fuel : nat) (s : stream) (obj : list (value * value))
    : result (value * stream) :=
  match fuel with
  | O => Raise OutOfFuel
  | S fuel =>
      '(k, s) <- v8_deserizlize_fuel fuel s ;;
      match k with
      | VEndMarker count =>
          _ <- assert (len obj =? count) "obj property count" ;;
          Ok (VDict obj, s)
      | _ =>
          '(val, s) <- v8_deserizlize_fuel fuel s ;;
          obj <- setitem obj k val ;;
          object_loop fuel s obj
      end
  end
with sparse_loop (fuel : nat) (s : stream) (arr : list value)
    (arr_len1 : Z) : result (value * stream) :=
  match fuel with
  | O => Raise OutOfFuel
  | S fuel =>
      '(k, s) <- v8_deserizlize_fuel fuel s ;;
      match k with
      | VEndMarker count =>
          _ <- assert (len arr =? count) "arr property count" ;;
          '(arr_len2, s) <- util.read_varint32 s ;;
          _ <- assert (arr_len1 =? arr_len2) "array length mismatch" ;;
          Ok (VList arr, s)
      | _ =>
          '(val, s) <- v8_deserizlize_fuel fuel s ;;
          sparse_loop fuel s (arr ++ [VTuple k val]) arr_len1
      end
  end
with dense_elements (fuel : nat) (s : stream) (remaining : Z)
    (arr : list value) : result (list value * stream) :=
  match fuel with
  | O => Raise OutOfFuel
  | S fuel =>
      if remaining <=? 0 then Ok (arr, s)
      else
        '(val, s) <- v8_deserizlize_fuel fuel s ;;
        dense_elements fuel s (remaining - 1) (arr ++ [val])
  end
with dense_properties (fuel : nat) (s : stream) (arr : list value)
    (property_count arr_len1 : Z) : result (value * stream) :=
  match fuel with
  | O => Raise OutOfFuel
  | S fuel =>
      '(k, s) <- v8_deserizlize_fuel fuel s ;;
      match k with
      | VEndMarker count =>
          _ <- assert (property_count =? count) "arr property count" ;;
          '(arr_len2, s) <- util.read_varint32 s ;;
          _ <- assert (arr_len1 =? arr_len2) "array length mismatch" ;;
          Ok (VList arr, s)
      | _ =>
          '(val, s) <- v8_deserizlize_fuel fuel s ;;
          dense_properties fuel s (arr ++ [VTuple k val])
            (property_count + 1) arr_len1
      end
  end.

(** [IDBValue.v8_deserizlize].  Each call and each turn of a loop reads at
    least one byte, which bounds the depth of the calls; the interpreter's
    own limit on that depth is not modelled. *)
Definition v8_deserizlize (s : stream) : result (value * stream) :=
  v8_deserizlize_fuel (2 * length s + 2) s.

(** [IDBValue.__init__]: the value of [self.value]. *)
Definition IDBValue_init (value_ : bytes) : result value :=
  '(db_version, s) <- util.read_varint64 value_ ;;
  '(header, s) <- stream_read s 2 ;;
  _ <- assert (match header with
               | [h0; h1] =>
                   negb ((negb (byte_val h0 =? 0xFF))
                         || (byte_val h1 <? 0x11))
               | _ => false
               end) "doesn't look like an IDB serialized value" ;;
  '(b, s) <- util.read_safe s 1 ;;
  tag <- index b 0 ;;
  let tag := byte_val tag in
  if tag =? 0x01 then Ok (VStr (str_of_string "<blob>"))
  else
    _ <- assert (tag =? 0xFF) "invalid tag" ;;
    '(b, s) <- util.read_safe s 1 ;;
    v8_serialization_version <- index b 0 ;;
    '(v, s) <- v8_deserizlize s ;;
    _ <- assert (util.bytes_left s =? 0) "unexpected trailing data" ;;
    Ok v.

End indexeddb.

(** ** Sample files

    Writers for the formats above, used to build the concrete files on
    which the readers are run below.  They are not part of the sources. *)

Module sample.

Definition le (v : Z) (n : nat) : bytes := to_bytes_le_aux n v.

(** The masking of a CRC that [util.unmask_leveldb_crc32c] undoes. *)
Definition mask (c : Z) : Z :=
  Z.land (Z.land (Z.lor (Z.shiftr c 15) (Z.shiftl c 17)) 0xFFFFFFFF
          + 0xA282EAD8) 0xFFFFFFFF.

Fixpoint varint_aux (fuel : nat) (v : Z) : bytes :=
  match fuel with
  | O => []
  | S fuel =>
      if v <? 128 then [B v]
      else B (Z.lor (Z.land v 127) 128) :: varint_aux fuel (Z.shiftr v 7)
  end.
Definition varint (v : Z) : bytes := varint_aux 10 v.

Definition ascii_bytes (s : string) : bytes :=
  map (fun c => B (Z.of_nat (nat_of_ascii c))) (list_ascii_of_string s).

(** A physical record of a log or manifest file. *)
Definition record (record_type : Z) (payload : bytes) : bytes :=
  let c := crc32c.crc_update (crc32c.crc [B record_type]) payload in
  le (mask c) 4 ++ le (len payload) 2 ++ [B record_type] ++ payload.

Definition put (k v : string) : bytes :=
  [B 1] ++ varint (len (ascii_bytes k)) ++ ascii_bytes k
  ++ varint (len (ascii_bytes v)) ++ ascii_bytes v.

Definition del (k : string) : bytes :=
  [B 0] ++ varint (len (ascii_bytes k)) ++ ascii_bytes k.

(** A write batch: sequence number, declared count, operations. *)
Definition batch (sequence count : Z) (ops : list bytes) : bytes :=
  le sequence 8 ++ le count 4 ++ List.concat ops.

(** An internal key: the user key, then kind and sequence number. *)
Definition ikey (k : string) (sequence kind : Z) : bytes :=
  ascii_bytes k ++ le (Z.lor (Z.shiftl sequence 8) kind) 8.

(** A table entry without a shared prefix. *)
Definition entry (k v : bytes) : bytes :=
  varint 0 ++ varint (len k) ++ varint (len v) ++ k ++ v.

(** An uncompressed block with one restart point, with its trailer. *)
Definition block (entries : list bytes) : bytes :=
  let payload := List.concat entries ++ le 0 4 ++ le 1 4 in
  let c := crc32c.crc_update (crc32c.crc payload) [B 0] in
  payload ++ [B 0] ++ le (mask c) 4.

Definition handle (offset size : Z) : bytes := varint offset ++ varint size.

(** A table file with one data block and an empty meta-index block. *)
Definition table_with_meta (meta data_entries : list bytes) : bytes :=
  let data_block := block data_entries in
  let meta_block := block meta in
  let index_block :=
    block [entry (ikey "zz" 0 1) (handle 0 (len data_block - 5))] in
  let meta_handle := handle (len data_block) (len meta_block - 5) in
  let index_handle :=
    handle (len data_block + len meta_block) (len index_block - 5) in
  let handles := meta_handle ++ index_handle in
  data_block ++ meta_block ++ index_block
  ++ handles ++ repeat x00 (40 - length handles)
  ++ le table_reader.MAGIC 8.

Definition table (data_entries : list bytes) : bytes :=
  table_with_meta [] data_entries.

(** Fields of a version edit. *)
Definition comparator (name : string) : bytes :=
  [B 1] ++ varint (len (ascii_bytes name)) ++ ascii_bytes name.
Definition log_number (n : Z) : bytes := [B 2] ++ varint n.
Definition new_file (level number size : Z) (smallest largest : bytes)
    : bytes :=
  [B 7] ++ varint level ++ varint number ++ varint size
  ++ varint (len smallest) ++ smallest ++ varint (len largest) ++ largest.

Definition directory (manifest : bytes) (others : list (string * bytes))
    : db.directory :=
  db.mkDirectory
    (Some (String.append "MANIFEST-000001" (String "010"%char EmptyString)))
    (fun name =>
       if String.eqb name "MANIFEST-000001" then Some manifest
       else
         match find (fun kv => String.eqb name (fst kv)) others with
         | Some kv => Some (snd kv)
         | None => None
         end).

(** A runtime without a Snappy codec: every compressed block is refused. *)
Definition no_snappy (b : bytes) : result bytes := Raise SnappyError.

Definition DB_init (dir : db.directory) : result db.DB :=
  db.DB_init crc32c.crc crc32c.crc_update no_snappy
    (fun s => s) (fun s => s) dir.

(** Scenario S1: only a comparator in the manifest. *)
Definition manifest_s1 : bytes :=
  record 1 (comparator "leveldb.BytewiseComparator").
Definition dir_s1 : db.directory := directory manifest_s1 [].

(** Scenario S2: one table with two values and one tombstone. *)
Definition table_s2 : bytes :=
  table [entry (ikey "alpha" 3 0) [];
         entry (ikey "alpha" 1 1) (ascii_bytes "1");
         entry (ikey "beta" 2 1) (ascii_bytes "2")].
Definition manifest_s2 : bytes :=
  record 1 (comparator "leveldb.BytewiseComparator"
            ++ new_file 0 6 (len table_s2) (ikey "alpha" 3 0)
                 (ikey "beta" 2 1)).
Definition dir_s2 : db.directory :=
  directory manifest_s2 [("000006.ldb"%string, table_s2)].

(** Scenario S3: S2 with a log file that writes gamma and deletes beta. *)
Definition log_s3 : bytes :=
  record 1 (batch 4 2 [put "gamma" "3"; del "beta"]).
Definition manifest_s3 : bytes :=
  record 1 (comparator "leveldb.BytewiseComparator"
            ++ log_number 7
            ++ new_file 0 6 (len table_s2) (ikey "alpha" 3 0)
                 (ikey "beta" 2 1)).
Definition dir_s3 : db.directory :=
  directory manifest_s3
    [("000006.ldb"%string, table_s2); ("000007.log"%string, log_s3)].

(** A log file that writes alpha over the table of S2, in which alpha has
    a value and a tombstone. *)
Definition log_alpha : bytes :=
  record 1 (batch 4 1 [put "alpha" "9"]).
Definition dir_alpha : db.directory :=
  directory manifest_s3
    [("000006.ldb"%string, table_s2); ("000007.log"%string, log_alpha)].

(** A table in which the key empty has the empty value, and a log file
    that deletes ghost, which no table holds, empty and beta. *)
Definition table_empty : bytes :=
  table [entry (ikey "beta" 2 1) (ascii_bytes "2");
         entry (ikey "empty" 1 1) []].
Definition log_tombstones : bytes :=
  record 1 (batch 4 3 [del "ghost"; del "empty"; del "beta"]).
Definition manifest_tombstones : bytes :=
  record 1 (comparator "leveldb.BytewiseComparator"
            ++ log_number 7
            ++ new_file 0 6 (len table_empty) (ikey "beta" 2 1)
                 (ikey "empty" 1 1)).
Definition dir_tombstones : db.directory :=
  directory manifest_tombstones
    [("000006.ldb"%string, table_empty);
     ("000007.log"%string, log_tombstones)].

End sample.

(** ** Vocabulary of the statements *)

(** The value of a sequence of 7-bit groups, least significant first. *)
Fixpoint groups7 (l : bytes) : Z :=
  match l with
  | [] => 0
  | b :: l' => Z.land (byte_val b) 127 + 128 * groups7 l'
  end.

(** The top bit of the byte is set: another byte follows. *)
Definition continues (b : byte) : Prop := Z.land (byte_val b) 128 <> 0.

(** The result of [int64_to_bytes_compact] put back to eight bytes with
    zero bytes at the end. *)
Definition pad8 (b : bytes) : bytes := b ++ repeat x00 (8 - length b).

(** The decoding of a key prefix in the words of the specification: each
    length is taken out of the first byte by masking, then shifting.
    [indexeddb.IDBKey_read_ids] differs from it in the three length
    expressions only, where it shifts the mask. *)
Definition read_ids_mask_then_shift (key_stream : stream)
    : result (Z * Z * Z * stream) :=
  '(b, s) <- util.read_safe key_stream 1 ;;
  first_byte <- index b 0 ;;
  let first_byte := byte_val first_byte in
  let db_id_len := Z.shiftr (Z.land first_byte 224) 5 + 1 in
  let obj_store_id_len := Z.shiftr (Z.land first_byte 28) 2 + 1 in
  let index_id_len := Z.shiftr (Z.land first_byte 3) 0 + 1 in
  '(b, s) <- util.read_safe s db_id_len ;;
  let db_id := from_bytes_le b in
  '(b, s) <- util.read_safe s obj_store_id_len ;;
  let obj_store_id := from_bytes_le b in
  '(b, s) <- util.read_safe s index_id_len ;;
  let index_id := from_bytes_le b in
  Ok (db_id, obj_store_id, index_id, s).

(** The first byte of a key prefix as the specification gives it, from the
    lengths of the three encoded ids. *)
Definition prefix_first_byte (db_len store_len idx_len : Z) : Z :=
  Z.lor (Z.lor (Z.shiftl (db_len - 1) 5) (Z.shiftl (store_len - 1) 2))
        (idx_len - 1).

(** An operation of a write batch in a log record. *)
Inductive op : Type :=
| Put (k v : bytes)
| Delete (k : bytes).

(** The operations of a record in the order in which
    [log_reader.record_entries_loop] reads them. *)
Fixpoint record_ops_loop (fuel : nat) (record : stream) : result (list op) :=
  match fuel with
  | O => Raise OutOfFuel
  | S fuel =>
      if util.bytes_left record =? 0 then Ok []
      else
        '(b, record) <- util.read_safe record 1 ;;
        record_type <- index b 0 ;;
        let record_type := byte_val record_type in
        if record_type =? log_reader.kTypeValue then
          '(key_len, record) <- util.read_varint32 record ;;
          '(key, record) <- util.read_safe record key_len ;;
          '(val_len, record) <- util.read_varint32 record ;;
          '(val, record) <- util.read_safe record val_len ;;
          ops <- record_ops_loop fuel record ;;
          Ok (Put key val :: ops)
        else if record_type =? log_reader.kTypeDeletion then
          '(key_len, record) <- util.read_varint32 record ;;
          '(key, record) <- util.read_safe record key_len ;;
          ops <- record_ops_loop fuel record ;;
          Ok (Delete key :: ops)
        else Raise (AssertionError "unknown record entry type")
  end.

Definition record_ops (record : bytes) : result (list op) :=
  '(_, record) <- util.read_safe record 8 ;;
  '(_, record) <- util.read_safe record 4 ;;
  record_ops_loop (S (length record)) record.

(** The operations of all the records of a file, in order. *)
Definition log_ops_from (records : list bytes) (acc : list op)
    : result (list op) :=
  foldM (fun acc record => ops <- record_ops record ;; Ok (acc ++ ops))
        records acc.

Definition log_ops (records : list bytes) : result (list op) :=
  log_ops_from records [].

(** What an operation does to the dictionary and the set that
    [log_reader.record_entries_loop] builds. *)
Definition apply_op (state : dict bytes bytes * pyset bytes) (o : op)
    : dict bytes bytes * pyset bytes :=
  match o with
  | Put k v => (dict_set bytes_eqb (fst state) k v, snd state)
  | Delete k => (fst state, set_add bytes_eqb (snd state) k)
  end.

(** The value of the last [Put] for [k] among [ops], or [default]. *)
Definition last_put_or (k : bytes) (ops : list op) (default : option bytes)
    : option bytes :=
  fold_left
    (fun acc o =>
       match o with
       | Put k' v => if bytes_eqb k k' then Some v else acc
       | Delete _ => acc
       end)
    ops default.

Definition last_put (k : bytes) (ops : list op) : option bytes :=
  last_put_or k ops None.

(** The operation count that a record declares: the four bytes after the
    eight bytes of the sequence number. *)
Definition declared_count (record : bytes) : Z :=
  from_bytes_le (take 4 (drop 8 record)).

Definition total_declared_count (records : list bytes) : Z :=
  fold_right (fun record total => declared_count record + total) 0 records.

(** No key of the one dictionary is a key of the other. *)
Definition disjoint_keys (a b : dict bytes bytes) : Prop :=
  forall k, In k (dict_keys a) -> In k (dict_keys b) -> False.


(** The result is not the artefact of a recursion that ran out of fuel. *)
Definition fueled {A : Type} (r : result A) : Prop := r <> Raise OutOfFuel.

(** ** Vocabulary of the further properties *)

(** The zigzag encoding of a signed 32-bit integer, which
    [util.read_sint32] decodes: [(v << 1) ^ (v >> 31)]. *)
Definition zigzag32 (v : Z) : Z := Z.lxor (Z.shiftl v 1) (Z.shiftr v 31).

(** [refines r r']: [r'] is the result [r], unless [r] is the lack of
    fuel.  A loop run with more fuel refines the same loop run with less. *)
Definition refines {A : Type} (r r' : result A) : Prop :=
  r = Raise OutOfFuel \/ r = r'.

(** *** The layout of a log file

    A log or manifest file as the log format describes it: blocks of 32 KiB,
    each a sequence of physical records followed by a trailer of at most six
    bytes; a physical record is a stored checksum, the length of its
    payload, a type byte and the payload. *)

Record fragment := mkFragment {
  frag_crc : bytes;
  frag_type : byte;
  frag_data : bytes
}.

Definition fragment_bytes (f : fragment) : bytes :=
  frag_crc f ++ sample.le (len (frag_data f)) 2 ++ [frag_type f]
  ++ frag_data f.

(** The stored checksum is four bytes that unmask to the checksum of the
    type byte continued with the payload, and the payload fits the two
    bytes of its length. *)
Definition fragment_ok (crc : bytes -> Z) (crc_update : Z -> bytes -> Z)
    (f : fragment) : Prop :=
  len (frag_crc f) = 4
  /\ len (frag_data f) < 65536
  /\ util.unmask_leveldb_crc32c (from_bytes_le (frag_crc f))
     = crc_update (crc [frag_type f]) (frag_data f).

Record block_layout := mkBlockLayout {
  fragments : list fragment;
  trailer : bytes
}.

Definition fragments_bytes (frs : list fragment) : bytes :=
  List.concat (map fragment_bytes frs).

Definition block_bytes (b : block_layout) : bytes :=
  fragments_bytes (fragments b) ++ trailer b.

Definition file_bytes (bs : list block_layout) : bytes :=
  List.concat (map block_bytes bs).

(** Every block but the last is full, the last is not empty, and no
    trailer is long enough to hold a record header. *)
Fixpoint blocks_ok (bs : list block_layout) : Prop :=
  match bs with
  | [] => True
  | b :: bs' =>
      len (trailer b) <= 6
      /\ match bs' with
         | [] => 1 <= len (block_bytes b) <= 1024 * 32
         | _ :: _ => len (block_bytes b) = 1024 * 32
         end
      /\ blocks_ok bs'
  end.

(** The logical records that a sequence of physical records makes: a FULL
    record on its own, or a FIRST record, MIDDLE records and a LAST record
    put together.  [pending] is the payload collected since a FIRST
    record. *)
Fixpoint assemble (frs : list fragment) (pending : option bytes)
    : option (list bytes) :=
  match frs with
  | [] =>
      match pending with
      | None => Some []
      | Some _ => None
      end
  | f :: frs' =>
      let ty := byte_val (frag_type f) in
      match pending with
      | None =>
          if ty =? log_reader.RECORD_TYPE_FULL then
            match assemble frs' None with
            | Some records => Some (frag_data f :: records)
            | None => None
            end
          else if ty =? log_reader.RECORD_TYPE_FIRST then
            assemble frs' (Some (frag_data f))
          else None
      | Some full =>
          if ty =? log_reader.RECORD_TYPE_MIDDLE then
            assemble frs' (Some (full ++ frag_data f))
          else if ty =? log_reader.RECORD_TYPE_LAST then
            match assemble frs' None with
            | Some records => Some ((full ++ frag_data f) :: records)
            | None => None
            end
          else None
      end
  end.

Section LogLoops.
Variable crc : bytes -> Z.
Variable crc_update : Z -> bytes -> Z.

(** The loops at the fuel that their state calls for. *)
Definition fragments_run (log block : stream) (full : bytes) :=
  log_reader.fragments_loop crc crc_update
    (length log + length block + 1) log block full.

Definition blocks_run (log : stream) (records : list bytes) :=
  log_reader.blocks_loop crc crc_update (3 * length log + 1) log records.

Definition block_records_run (log block : stream) (records : list bytes) :=
  log_reader.block_records_loop crc crc_update
    (3 * length log + length block + 2) log block records.

(** What is left to run when the reader stands before the fragments [frs]
    of the current block: the loop over the records of the block, or, when
    a FIRST record has been read, the loop that collects its fragments
    followed by the loop over the records. *)
Definition run_layout (frs : list fragment) (t : bytes)
    (bs : list block_layout) (pending : option bytes) (acc : list bytes)
    : result (list bytes) :=
  match pending with
  | None => block_records_run (file_bytes bs) (fragments_bytes frs ++ t) acc
  | Some full =>
      bind (fragments_run (file_bytes bs) (fragments_bytes frs ++ t) full)
           (fun r => let '(full', log', block') := r in
                     block_records_run log' block' (acc ++ [full']))
  end.

End LogLoops.

(** No key of the three maps of a block is empty. *)
Definition block_keys_nonempty (b : table_reader.Block) : Prop :=
  forall k : bytes,
    In k (dict_keys (table_reader.block_entries b))
    \/ In k (dict_keys (table_reader.block_meta_entries b))
    \/ In k (dict_keys (table_reader.block_deleted_entries b)) ->
    1 <= len k.


(** The loop of [DB.__init__] over the table files: the entries, the meta
    entries and the deleted entries of the tables read so far. *)
Definition read_tables (crc : bytes -> Z) (crc_update : Z -> bytes -> Z)
    (snappy_uncompress : bytes -> result bytes) (dir : db.directory)
    (numbers : list Z)
    (acc : dict bytes bytes * dict bytes bytes * dict bytes bytes)
    : result (dict bytes bytes * dict bytes bytes * dict bytes bytes) :=
  foldM (fun acc f_number =>
           let '(entries, meta_entries, deleted_entries) := acc in
           file <- db.open_rb dir (db.get_table_file f_number) ;;
           table <- table_reader.Table_init crc crc_update
                      snappy_uncompress file ;;
           Ok (dict_update bytes_eqb entries
                 (table_reader.entries table),
               dict_update bytes_eqb meta_entries
                 (table_reader.meta_entries table),
               dict_update bytes_eqb deleted_entries
                 (table_reader.deleted_entries table)))
        numbers acc.

Section SnapshotSources.
Variable crc : bytes -> Z.
Variable crc_update : Z -> bytes -> Z.
Variable snappy_uncompress : bytes -> result bytes.

(** The key [k] has the value [v] in the map [field] of one of the table
    files whose numbers are in [numbers]. *)
Definition from_table (dir : db.directory) (numbers : list Z)
    (field : table_reader.Table -> dict bytes bytes) (k v : bytes) : Prop :=
  exists (n : Z) (file : bytes) (t : table_reader.Table),
    In n numbers
    /\ db.files dir (db.get_table_file n) = Some file
    /\ table_reader.Table_init crc crc_update snappy_uncompress file = Ok t
    /\ dict_get bytes_eqb (field t) k = Some v.

(** The manifest names a log file, in which [v] is the last value
    written for the key [k]. *)
Definition from_log (dir : db.directory) (m : log_reader.Manifest)
    (k v : bytes) : Prop :=
  log_reader.log_number m <> -1
  /\ exists (file : bytes) (live : dict bytes bytes)
            (tombstones : pyset bytes),
      db.files dir (db.get_log_file (log_reader.log_number m)) = Some file
      /\ log_reader.get_log_entries crc crc_update file
         = Ok (live, tombstones)
      /\ dict_get bytes_eqb live k = Some v.

End SnapshotSources.

(** The number that a string of decimal digits denotes, zeros in front
    allowed. *)
Definition parse_number (s : string) : option Z :=
  match NilZero.uint_of_string s with
  | Some d => Some (Z.of_N (N.of_uint d))
  | None => None
  end.

(** ** More sample files *)

Module examples.

(** A physical record with the checksum that CRC32C gives it. *)
Definition frag (record_type : Z) (payload : bytes) : fragment :=
  mkFragment
    (sample.le
       (sample.mask
          (crc32c.crc_update (crc32c.crc [B record_type]) payload)) 4)
    (B record_type) payload.

(** One block: a record in three fragments, a FULL record, three stray
    bytes. *)
Definition block_fragmented : block_layout :=
  mkBlockLayout
    [frag 2 (sample.ascii_bytes "ab"); frag 3 (sample.ascii_bytes "cd");
     frag 4 (sample.ascii_bytes "e"); frag 1 (sample.ascii_bytes "xyz")]
    (hex [0; 0; 0]).

Definition deleted_file (level number : Z) : bytes :=
  [B 6] ++ sample.varint level ++ sample.varint number.

(** A manifest that adds the files 6 and 7, then deletes 6, then adds it
    again. *)
Definition manifest_readded : bytes :=
  sample.record 1
    (sample.new_file 0 6 100 (sample.ikey "a" 1 1) (sample.ikey "b" 2 1)
     ++ sample.new_file 0 7 100 (sample.ikey "c" 3 1) (sample.ikey "d" 4 1)
     ++ deleted_file 0 6
     ++ sample.new_file 1 6 100 (sample.ikey "a" 1 1) (sample.ikey "b" 2 1)).

(** A log file that deletes beta and then writes it, over the table of
    scenario S2. *)
Definition log_del_put : bytes :=
  sample.record 1
    (sample.batch 4 2 [sample.del "beta"; sample.put "beta" "7"]).
Definition dir_del_put : db.directory :=
  sample.directory sample.manifest_s3
    [("000006.ldb"%string, sample.table_s2);
     ("000007.log"%string, log_del_put)].

End examples.

(** *** A writer for V8 values

    The serialisation that [indexeddb.v8_deserizlize] reads, for the values
    made of null, booleans, 32-bit integers, doubles, ASCII strings, dense
    arrays without properties and objects. *)

Definition tag_byte (c : ascii) : byte := B (Z.of_nat (nat_of_ascii c)).

Fixpoint v8_serialize (v : indexeddb.value) : bytes :=
  match v with
  | indexeddb.VNone => [tag_byte "0"]
  | indexeddb.VBool true => [tag_byte "T"]
  | indexeddb.VBool false => [tag_byte "F"]
  | indexeddb.VInt n => tag_byte "I" :: sample.varint (zigzag32 n)
  | indexeddb.VFloat b => tag_byte "N" :: b
  | indexeddb.VStr s =>
      B 0x22 :: sample.varint (len s) ++ map B s
  | indexeddb.VList items =>
      tag_byte "A" :: sample.varint (len items)
      ++ List.concat (map v8_serialize items)
      ++ tag_byte "$" :: sample.varint 0 ++ sample.varint (len items)
  | indexeddb.VDict items =>
      tag_byte "o"
      :: List.concat
           (map (fun kv => let '(k, v) := kv in
                           v8_serialize k ++ v8_serialize v) items)
      ++ tag_byte "{" :: sample.varint (len items)
  | indexeddb.VTuple _ _ | indexeddb.VEndMarker _ => []
  end.

(** No key is equal, as a key of a dictionary, to a key before it. *)
Fixpoint distinct_keys (keys : list indexeddb.value) : Prop :=
  match keys with
  | [] => True
  | k :: keys' =>
      Forall (fun k' => indexeddb.key_eqb k' k = false) keys'
      /\ distinct_keys keys'
  end.

(** The values that the writer covers.  The keys of an object are strings
    or integers, no two of them equal. *)
Inductive serializable : indexeddb.value -> Prop :=
| ser_none : serializable indexeddb.VNone
| ser_bool (b : bool) : serializable (indexeddb.VBool b)
| ser_int (n : Z) : - 2 ^ 31 <= n < 2 ^ 31 -> serializable (indexeddb.VInt n)
| ser_float (b : bytes) : len b = 8 -> serializable (indexeddb.VFloat b)
| ser_str (s : indexeddb.pystr) :
    Forall (fun c => 0 <= c < 128) s -> len s < 2 ^ 35 ->
    serializable (indexeddb.VStr s)
| ser_list (items : list indexeddb.value) :
    Forall serializable items -> len items < 2 ^ 35 ->
    serializable (indexeddb.VList items)
| ser_dict (items : list (indexeddb.value * indexeddb.value)) :
    Forall (fun kv => serializable (fst kv) /\ serializable (snd kv)
                      /\ match fst kv with
                         | indexeddb.VStr _ | indexeddb.VInt _ => True
                         | _ => False
                         end) items ->
    distinct_keys (map fst items) ->
    len items < 2 ^ 35 ->
    serializable (indexeddb.VDict items).

(** [v8_deserizlize] and its loops at the fuel that their stream calls
    for. *)
Definition v8_value (s : stream) : result (indexeddb.value * stream) :=
  indexeddb.v8_deserizlize_fuel (2 * length s + 1) s.

Definition v8_object (s : stream)
    (obj : list (indexeddb.value * indexeddb.value))
    : result (indexeddb.value * stream) :=
  indexeddb.object_loop (2 * length s + 2) s obj.

Definition v8_dense_elements (s : stream) (remaining : Z)
    (arr : list indexeddb.value) : result (list indexeddb.value * stream) :=
  indexeddb.dense_elements (2 * length s + 2) s remaining arr.

Definition v8_dense_properties (s : stream) (arr : list indexeddb.value)
    (property_count arr_len1 : Z) : result (indexeddb.value * stream) :=
  indexeddb.dense_properties (2 * length s + 2) s arr property_count
    arr_len1.

(** ** indexeddb.py: the class IDB *)

Module IDB.

Record DbStore := mkDbStore {
  store_name : indexeddb.pystr;
  store_id : Z
}.

Record DbName := mkDbName {
  origin : indexeddb.pystr;
  name : indexeddb.pystr;
  id : Z;
  stores : list DbStore
}.

Record Entry := mkEntry {
  key : indexeddb.key;
  value : indexeddb.value
}.

(** [b.startswith(prefix)] and [b.endswith(suffix)] *)
Definition startswith (b prefix : bytes) : bool :=
  bytes_eqb (take (len prefix) b) prefix.

Definition endswith (b suffix : bytes) : bool :=
  (len suffix <=? len b) && bytes_eqb (drop (len b - len suffix) b) suffix.

(** [IDB.__read_db_name_key] *)
Definition read_db_name_key (name_key : bytes)
    : result (indexeddb.pystr * indexeddb.pystr) :=
  '(origin_len, s) <- util.read_varint64 name_key ;;
  '(b, s) <- util.read_safe s (origin_len * 2) ;;
  origin <- indexeddb.decode_utf16be b ;;
  '(db_name_len, s) <- util.read_varint64 s ;;
  '(b, s) <- util.read_safe s (db_name_len * 2) ;;
  db_name <- indexeddb.decode_utf16be b ;;
  _ <- assert (util.bytes_left s =? 0) "unexpected trailing data" ;;
  Ok (origin, db_name).

(** [IDB.get_obj_stores], on the dictionary [self.entries]. *)
Definition get_obj_stores (entries : dict bytes bytes) (db_id : Z)
    : result (list DbStore) :=
  store_info_type <- bytes_of_ints [50] ;;
  key_end <- bytes_of_ints [0] ;;
  prefix <- indexeddb.encode_key_prefix db_id 0 0 ;;
  let key_prefix := prefix ++ store_info_type in
  let store_keys :=
    filter (fun e => startswith (fst e) key_prefix
                     && endswith (fst e) key_end) entries in
  foldM (fun ret e =>
           let '(k, v) := e in
           '(_, stream) <- util.read_safe k (len key_prefix) ;;
           '(store_id, _) <- util.read_varint64 stream ;;
           store_name <- indexeddb.decode_utf16be v ;;
           Ok (ret ++ [mkDbStore store_name store_id]))
        store_keys [].

(** [IDB.get_db_names] *)
Definition get_db_names (entries : dict bytes bytes)
    : result (list DbName) :=
  let db_name_key_prefix := hex [0x00; 0x00; 0x00; 0x00; 0xC9] in
  let db_name_keys :=
    filter (fun e => startswith (fst e) db_name_key_prefix) entries in
  foldM (fun ret e =>
           let '(k, v) := e in
           '(origin, db_name) <-
             read_db_name_key (slice_from k (len db_name_key_prefix)) ;;
           '(db_id, _) <- util.read_varint64 v ;;
           stores <- get_obj_stores entries db_id ;;
           Ok (ret ++ [mkDbName origin db_name db_id stores]))
        db_name_keys [].

(** The two loops of [IDB.get_obj_store_entries] over the selected
    entries. *)
Definition read_entries (selected : list (bytes * bytes))
    : result (list Entry) :=
  foldM (fun acc e =>
           let '(k, v) := e in
           key <- indexeddb.IDBKey_init k ;;
           val <- indexeddb.IDBValue_init v ;;
           Ok (acc ++ [mkEntry (indexeddb.key_ key) val]))
        selected [].

(** [IDB.get_obj_store_entries], on the dictionaries [self.entries] and
    [self.deleted_entries]. *)
Definition get_obj_store_entries (entries deleted_entries : dict bytes bytes)
    (db_id obj_store_id : Z) : result (list Entry * list Entry) :=
  let index_id := 1 in
  key_prefix <- indexeddb.encode_key_prefix db_id obj_store_id index_id ;;
  let ldb_store_entries :=
    filter (fun e => startswith (fst e) key_prefix) entries in
  let ldb_store_deleted_entries :=
    filter (fun e => startswith (fst e) key_prefix) deleted_entries in
  store_entries <- read_entries ldb_store_entries ;;
  store_deleted_entries <- read_entries ldb_store_deleted_entries ;;
  Ok (store_entries, store_deleted_entries).

End IDB.

(** The entry [e] of an object store comes from the LevelDB entry [kv]:
    [IDBKey] reads in the key of [kv] the ids [db], [store] and the index
    1, the key of [e] is the key part that [IDBKey] reads, and its value is
    the value of [kv] as [IDBValue] reads it. *)
Definition entry_of (db store : Z) (e : IDB.Entry) (kv : bytes * bytes)
    : Prop :=
  exists key : indexeddb.IDBKey,
    indexeddb.IDBKey_init (fst kv) = Ok key
    /\ indexeddb.IDBValue_init (snd kv) = Ok (IDB.value e)
    /\ IDB.key e = indexeddb.key_ key
    /\ indexeddb.db_id key = db
    /\ indexeddb.obj_store_id key = store
    /\ indexeddb.index_id key = 1.

(** Two LevelDB maps with the entries of the object stores 2 and 3 of the
    database 1. *)
Module idb_examples.

Definition live : dict bytes bytes :=
  [(hex [0x00; 0x01; 0x02; 0x01; 0x06; 0x00],
    hex [0x05; 0xFF; 0x11; 0xFF; 0x0D; 0x54]);
   (hex [0x00; 0x01; 0x03; 0x01; 0x06; 0x00],
    hex [0x05; 0xFF; 0x11; 0xFF; 0x0D; 0x46]);
   (hex [0x00; 0x01; 0x02; 0x01; 0x06; 0x01; 0xAA],
    hex [0x05; 0xFF; 0x11; 0xFF; 0x0D; 0x49; 0x0E])].

Definition deleted : dict bytes bytes :=
  [(hex [0x00; 0x01; 0x02; 0x01; 0x06; 0x01; 0xBB], [])].

End idb_examples.

(** *** The layout of a write batch

    The operations of a record of a log file: a key written with a value,
    or a key deleted. *)

Inductive batch_op : Type :=
| OpPut (key value : bytes)
| OpDelete (key : bytes).

Definition batch_op_bytes (op : batch_op) : bytes :=
  match op with
  | OpPut key value =>
      [B log_reader.kTypeValue] ++ sample.varint (len key) ++ key
      ++ sample.varint (len value) ++ value
  | OpDelete key =>
      [B log_reader.kTypeDeletion] ++ sample.varint (len key) ++ key
  end.

(** The lengths of an operation fit a varint of five bytes. *)
Definition batch_op_fits (op : batch_op) : Prop :=
  match op with
  | OpPut key value => len key < 2 ^ 35 /\ len value < 2 ^ 35
  | OpDelete key => len key < 2 ^ 35
  end.

(** The dictionary of the values and the set of the deleted keys, after an
    operation. *)
Definition batch_apply (acc : dict bytes bytes * pyset bytes)
    (op : batch_op) : dict bytes bytes * pyset bytes :=
  match op with
  | OpPut key value => (dict_set bytes_eqb (fst acc) key value, snd acc)
  | OpDelete key => (fst acc, set_add bytes_eqb (snd acc) key)
  end.

(** The result of the operations of a batch, from the empty dictionary and
    the empty set. *)
Definition batch_result (ops : list batch_op)
    : dict bytes bytes * pyset bytes :=
  fold_left batch_apply ops ([], []).

(** A write batch: the eight bytes of its sequence number, the four bytes
    of its count, its operations. *)
Record batch := mkBatch {
  b_sequence : bytes;
  b_count : bytes;
  b_ops : list batch_op
}.

Definition batch_bytes (b : batch) : bytes :=
  b_sequence b ++ b_count b ++ List.concat (map batch_op_bytes (b_ops b)).

Definition batch_fits (b : batch) : Prop :=
  len (b_sequence b) = 8 /\ len (b_count b) = 4
  /\ Forall batch_op_fits (b_ops b).

(** The count of a batch is the number of the distinct keys that it writes
    plus the number of the distinct keys that it deletes. *)
Definition batch_count_ok (b : batch) : bool :=
  len (fst (batch_result (b_ops b))) + len (snd (batch_result (b_ops b)))
  =? from_bytes_le (b_count b).

(** A log file of two batches: the second deletes a key that the first
    wrote and writes it again. *)
Module batch_examples.

Definition first : batch :=
  mkBatch (sample.le 4 8) (sample.le 2 4)
    [OpPut (sample.ascii_bytes "a") (sample.ascii_bytes "1");
     OpPut (sample.ascii_bytes "b") (sample.ascii_bytes "2")].

Definition second : batch :=
  mkBatch (sample.le 6 8) (sample.le 3 4)
    [OpDelete (sample.ascii_bytes "b");
     OpPut (sample.ascii_bytes "a") (sample.ascii_bytes "3");
     OpPut (sample.ascii_bytes "b") (sample.ascii_bytes "4")].

Definition log : bytes :=
  sample.record 1 (batch_bytes first) ++ sample.record 1 (batch_bytes second).

End batch_examples.

(** *** The layout of a block of a table file

    The entries of a block as they are written: the number of bytes that
    the key shares with the key before it, the rest of the key and the
    value.  The key is an internal key: a user key followed by eight bytes
    whose first is the type of the entry. *)

Record block_entry := mkBlockEntry {
  be_shared : Z;
  be_delta : bytes;
  be_value : bytes
}.

Definition block_entry_bytes (e : block_entry) : bytes :=
  sample.varint (be_shared e) ++ sample.varint (len (be_delta e))
  ++ sample.varint (len (be_value e)) ++ be_delta e ++ be_value e.

(** The internal keys of the entries, with their values, [prev] being the
    key before the first of them. *)
Fixpoint block_keys (prev : bytes) (es : list block_entry)
    : list (bytes * bytes) :=
  match es with
  | [] => []
  | e :: es' =>
      let key :=
        (if be_shared e >? 0 then slice_to prev (be_shared e) else [])
        ++ be_delta e in
      (key, be_value e) :: block_keys key es'
  end.

Definition entry_type (key : bytes) : Z :=
  Z.land (from_bytes_le (slice_from key (-8))) 255.

(** The dictionary of a block that takes the entry with the internal key
    [fst kv]. *)
Definition block_put (is_meta : bool) (self : table_reader.Block)
    (kv : bytes * bytes) : table_reader.Block :=
  let user_key := slice_to (fst kv) (-8) in
  if is_meta then
    table_reader.mkBlock (table_reader.block_entries self)
      (dict_set bytes_eqb (table_reader.block_meta_entries self)
         user_key (snd kv))
      (table_reader.block_deleted_entries self)
  else if entry_type (fst kv) =? table_reader.kTypeValue then
    table_reader.mkBlock
      (dict_set bytes_eqb (table_reader.block_entries self)
         user_key (snd kv))
      (table_reader.block_meta_entries self)
      (table_reader.block_deleted_entries self)
  else
    table_reader.mkBlock (table_reader.block_entries self)
      (table_reader.block_meta_entries self)
      (dict_set bytes_eqb (table_reader.block_deleted_entries self)
         user_key (snd kv)).

(** The lengths of an entry fit a varint of five bytes. *)
Definition entry_fits (e : block_entry) : Prop :=
  0 <= be_shared e < 2 ^ 35
  /\ len (be_delta e) < 2 ^ 35 /\ len (be_value e) < 2 ^ 35.

(** An internal key is longer than its last eight bytes and, in a block
    that is not the meta-index, its type is a value or a deletion. *)
Definition internal_key_ok (is_meta : bool) (kv : bytes * bytes) : Prop :=
  8 < len (fst kv)
  /\ (is_meta = false ->
      entry_type (fst kv) = table_reader.kTypeValue
      \/ entry_type (fst kv) = table_reader.kTypeDeletion).

Definition first_not_shared (es : list block_entry) : Prop :=
  match es with
  | e :: _ => be_shared e = 0
  | [] => True
  end.

(** A block with two entries, the second sharing three bytes of its key
    with the first, and two restart points. *)
Module block_examples.

Definition entries : list block_entry :=
  [mkBlockEntry 0 (sample.ikey "apple" 7 1) (sample.ascii_bytes "red");
   mkBlockEntry 3 (sample.ascii_bytes "ly" ++ sample.le 0x0800 8) []].

Definition payload : bytes :=
  List.concat (map block_entry_bytes entries)
  ++ (sample.le 0 4 ++ sample.le 0 4) ++ sample.le 2 4.

Definition file : bytes :=
  hex [0xEE]
  ++ payload ++ [B 0]
  ++ sample.le
       (sample.mask (crc32c.crc_update (crc32c.crc payload) [B 0])) 4
  ++ hex [0xEE; 0xEE].

End block_examples.

(** *** A writer for IndexedDB keys *)

(** UTF-16, big endian, of the code points of the basic plane. *)
Definition utf16be (s : indexeddb.pystr) : bytes :=
  List.concat (map (fun c => [B (c / 256); B (c mod 256)]) s).

(** A code point that UTF-16 writes as one unit. *)
Definition one_unit (c : Z) : Prop :=
  0 <= c < 0xD800 \/ 0xE000 <= c < 0x10000.

(** The encoding of a key that [indexeddb.parse_key] reads. *)
Fixpoint encode_key (k : indexeddb.key) : bytes :=
  match k with
  | indexeddb.KNumber b => B 3 :: b
  | indexeddb.KString s => B 1 :: sample.varint (len s) ++ utf16be s
  | indexeddb.KBinary b => B 6 :: sample.varint (len b) ++ b
  | indexeddb.KArray items =>
      B 4 :: sample.varint (len items)
      ++ List.concat (map encode_key items)
  end.

(** The keys that the writer covers: a number of eight bytes, a string of
    code points that UTF-16 writes as one unit each, a byte string, an
    array of such keys.  The bounds on the lengths are those of a length
    that a varint of ten bytes holds and that [read] accepts. *)
Inductive encodable_key : indexeddb.key -> Prop :=
| enc_number (b : bytes) : len b = 8 -> encodable_key (indexeddb.KNumber b)
| enc_string (s : indexeddb.pystr) :
    Forall one_unit s -> len s < 2 ^ 62 ->
    encodable_key (indexeddb.KString s)
| enc_binary (b : bytes) :
    len b < 2 ^ 63 -> encodable_key (indexeddb.KBinary b)
| enc_array (items : list indexeddb.key) :
    Forall encodable_key items -> len items < 2 ^ 70 ->
    encodable_key (indexeddb.KArray items).

(** [parse_key] and the loop of its array case at the fuel that their
    stream calls for. *)
Definition key_value (s : stream) : result (indexeddb.key * stream) :=
  indexeddb.parse_key (2 * length s + 1) s.

Definition key_array (remaining : Z) (s : stream) (ret : list indexeddb.key)
    : result (list indexeddb.key * stream) :=
  indexeddb.parse_key_array (2 * length s + 2) remaining s ret.

(** * Properties *)

(** ** The error monad *)

Lemma bind_Ok {A B : Type} (m : result A) (k : A -> result B) (b : B) :
  bind m k = Ok b -> exists a, m = Ok a /\ k a = Ok b.
Proof.
  destruct m as [a|e]; simpl; intros H; [eauto | discriminate].
Qed.

Lemma assert_Ok (c : bool) (msg : string) (u : unit) :
  assert c msg = Ok u -> c = true.
Proof.
  destruct c; simpl; [reflexivity | discriminate].
Qed.

(** Take apart a hypothesis that says a sequence of binds succeeded. *)
Tactic Notation "inv_bind" hyp(H) "as" simple_intropattern(p) :=
  let Ha := fresh "Ha" in
  apply bind_Ok in H; destruct H as (p & Ha & H); cbv beta iota in H.

Tactic Notation "inv_bind" hyp(H) :=
  let a := fresh "a" in inv_bind H as a.

Ltac inv_Ok H := injection H as H; subst.

(** ** Bytes *)

Lemma byte_val_range (b : byte) : 0 <= byte_val b < 256.
Proof.
  unfold byte_val. pose proof (Byte.to_N_bounded b). lia.
Qed.

Lemma B_byte_val (b : byte) : B (byte_val b) = b.
Proof.
  unfold B, byte_of_Z. pose proof (byte_val_range b) as R.
  replace ((0 <=? byte_val b) && (byte_val b <? 256)) with true
    by (symmetry; apply andb_true_iff; split; [apply Z.leb_le | apply Z.ltb_lt]; lia).
  unfold byte_val. rewrite N2Z.id, Byte.of_to_N. reflexivity.
Qed.

Lemma byte_of_Z_byte_val (b : byte) : byte_of_Z (byte_val b) = Some b.
Proof.
  unfold byte_of_Z. pose proof (byte_val_range b) as R.
  replace ((0 <=? byte_val b) && (byte_val b <? 256)) with true
    by (symmetry; apply andb_true_iff; split; [apply Z.leb_le | apply Z.ltb_lt]; lia).
  unfold byte_val. rewrite N2Z.id, Byte.of_to_N. reflexivity.
Qed.

Lemma byte_val_B (z : Z) : 0 <= z < 256 -> byte_val (B z) = z.
Proof.
  intros R. unfold B, byte_of_Z.
  replace ((0 <=? z) && (z <? 256)) with true
    by (symmetry; apply andb_true_iff; split; [apply Z.leb_le | apply Z.ltb_lt]; lia).
  destruct (Byte.of_N (Z.to_N z)) as [b|] eqn:E.
  - apply Byte.to_of_N in E. unfold byte_val. rewrite E. lia.
  - apply Byte.of_N_None_iff in E. lia.
Qed.

Lemma bytes_eqb_eq (a b : bytes) : bytes_eqb a b = true <-> a = b.
Proof.
  revert b. induction a as [|x a IH]; intros [|y b]; simpl;
    try (split; [discriminate | discriminate]); try tauto.
  rewrite andb_true_iff, IH. split.
  - intros [H1 H2]. apply Byte.byte_dec_bl in H1. congruence.
  - intros H. inversion H; subst. split; [apply Byte.byte_dec_lb | ]; reflexivity.
Qed.

Lemma bytes_eqb_refl (a : bytes) : bytes_eqb a a = true.
Proof. apply bytes_eqb_eq. reflexivity. Qed.

Lemma bytes_eqb_neq (a b : bytes) : bytes_eqb a b = false <-> a <> b.
Proof.
  split.
  - intros H E. apply bytes_eqb_eq in E. congruence.
  - intros H. destruct (bytes_eqb a b) eqn:E; [|reflexivity].
    apply bytes_eqb_eq in E. contradiction.
Qed.

(** ** Slices and reads *)

Lemma len_nonneg {A : Type} (l : list A) : 0 <= len l.
Proof. unfold len. lia. Qed.

Lemma len_app {A : Type} (l1 l2 : list A) : len (l1 ++ l2) = len l1 + len l2.
Proof. unfold len. rewrite length_app. lia. Qed.

Lemma len_cons {A : Type} (x : A) (l : list A) : len (x :: l) = 1 + len l.
Proof. unfold len. simpl length. lia. Qed.

Lemma take_app_len {A : Type} (l1 l2 : list A) :
  take (len l1) (l1 ++ l2) = l1.
Proof.
  induction l1 as [|x l1 IH].
  - destruct l2; reflexivity.
  - rewrite len_cons. pose proof (len_nonneg l1). cbn [take app].
    destruct (1 + len l1 <=? 0) eqn:E; [apply Z.leb_le in E; lia|].
    replace (1 + len l1 - 1) with (len l1) by lia. rewrite IH. reflexivity.
Qed.

Lemma drop_app_len {A : Type} (l1 l2 : list A) :
  drop (len l1) (l1 ++ l2) = l2.
Proof.
  induction l1 as [|x l1 IH].
  - destruct l2; reflexivity.
  - rewrite len_cons. pose proof (len_nonneg l1). cbn [drop app].
    destruct (1 + len l1 <=? 0) eqn:E; [apply Z.leb_le in E; lia|].
    replace (1 + len l1 - 1) with (len l1) by lia. apply IH.
Qed.

Lemma take_drop {A : Type} (n : Z) (l : list A) : take n l ++ drop n l = l.
Proof.
  revert n. induction l as [|x l IH]; intros n; simpl; [reflexivity|].
  destruct (n <=? 0); simpl; [reflexivity|]. rewrite IH. reflexivity.
Qed.

Lemma len_take {A : Type} (n : Z) (l : list A) :
  len (take n l) = Z.max 0 (Z.min n (len l)).
Proof.
  revert n. induction l as [|x l IH]; intros n; cbn [take].
  - unfold len; simpl. lia.
  - pose proof (len_nonneg l). rewrite len_cons.
    destruct (n <=? 0) eqn:E.
    + apply Z.leb_le in E. unfold len at 1; simpl. lia.
    + apply Z.leb_gt in E. rewrite len_cons, IH. lia.
Qed.

Lemma len_drop {A : Type} (n : Z) (l : list A) :
  len (drop n l) = len l - Z.max 0 (Z.min n (len l)).
Proof.
  revert n. induction l as [|x l IH]; intros n; cbn [drop].
  - unfold len; simpl. lia.
  - pose proof (len_nonneg l).
    destruct (n <=? 0) eqn:E.
    + apply Z.leb_le in E. rewrite len_cons. lia.
    + apply Z.leb_gt in E. rewrite IH, len_cons. lia.
Qed.

Lemma read_safe_app (b s : bytes) :
  len b <= ssize_max -> util.read_safe (b ++ s) (len b) = Ok (b, s).
Proof.
  intros Hmax. unfold util.read_safe, stream_read.
  pose proof (len_nonneg b).
  destruct (len b >? ssize_max) eqn:E1; [apply Z.gtb_lt in E1; lia|].
  destruct (len b <? 0) eqn:E2; [apply Z.ltb_lt in E2; lia|].
  simpl. rewrite take_app_len, drop_app_len, Z.eqb_refl. reflexivity.
Qed.

Lemma read_safe_Ok (s : stream) (n : Z) (b : bytes) (s' : stream) :
  util.read_safe s n = Ok (b, s') -> s = b ++ s' /\ len b = n.
Proof.
  unfold util.read_safe, stream_read. intros H.
  destruct (n >? ssize_max); [discriminate|].
  destruct (n <? 0) eqn:E; simpl in H.
  - inv_bind H. inv_Ok H. apply assert_Ok, Z.eqb_eq in Ha.
    rewrite app_nil_r. auto.
  - inv_bind H. inv_Ok H. apply assert_Ok, Z.eqb_eq in Ha.
    rewrite take_drop. auto.
Qed.

(** ** util.read_varint *)

Lemma land_lnot_128 (b : byte) :
  Z.land (byte_val b) (Z.lnot 128) = Z.land (byte_val b) 127.
Proof. destruct b; reflexivity. Qed.

Lemma read_varint_loop_terminated (max_bytes : Z) (pre : bytes) :
  forall (t : byte) (rest : stream) (i r : Z),
    Forall continues pre -> ~ continues t ->
    0 <= i -> i + len pre < max_bytes ->
    util.read_varint_loop max_bytes (pre ++ t :: rest) i r
    = Ok (r + 2 ^ (7 * i) * groups7 (pre ++ [t]), rest).
Proof.
  induction pre as [|b pre IH]; intros t rest i r Hpre Ht Hi Hlen.
  - cbn [app util.read_varint_loop groups7].
    unfold len in Hlen; simpl in Hlen.
    destruct (i <? max_bytes) eqn:E; [|apply Z.ltb_ge in E; lia].
    unfold continues in Ht.
    destruct (Z.land (byte_val t) 128 =? 0) eqn:E0;
      [|apply Z.eqb_neq in E0; contradiction].
    rewrite land_lnot_128, Z.shiftl_mul_pow2 by lia.
    f_equal. f_equal. lia.
  - rewrite len_cons in Hlen. pose proof (len_nonneg pre).
    inversion Hpre as [|? ? Hb Hpre']; subst.
    cbn [app util.read_varint_loop groups7].
    destruct (i <? max_bytes) eqn:E; [|apply Z.ltb_ge in E; lia].
    unfold continues in Hb.
    destruct (Z.land (byte_val b) 128 =? 0) eqn:E0;
      [apply Z.eqb_eq in E0; contradiction|].
    rewrite IH by (auto; lia).
    rewrite land_lnot_128, Z.shiftl_mul_pow2 by lia.
    f_equal. f_equal.
    replace (7 * (i + 1)) with (7 * i + 7) by lia.
    rewrite Z.pow_add_r by lia. change (2 ^ 7) with 128.
    cbn [app groups7]. lia.
Qed.

Lemma read_varint_loop_exhausted (max_bytes : Z) (pre : bytes) :
  forall (rest : stream) (i r : Z),
    Forall continues pre ->
    0 <= i -> i + len pre = Z.max i max_bytes ->
    util.read_varint_loop max_bytes (pre ++ rest) i r
    = Ok (r + 2 ^ (7 * i) * groups7 pre, rest).
Proof.
  induction pre as [|b pre IH]; intros rest i r Hpre Hi Hlen.
  - unfold len in Hlen; simpl in Hlen. cbn [app groups7].
    replace (util.read_varint_loop max_bytes rest i r) with (Ok (r, rest)).
    + f_equal. f_equal. lia.
    + destruct rest; cbn [util.read_varint_loop];
        (destruct (i <? max_bytes) eqn:E; [apply Z.ltb_lt in E; lia|]);
        reflexivity.
  - rewrite len_cons in Hlen. pose proof (len_nonneg pre).
    inversion Hpre as [|? ? Hb Hpre']; subst.
    cbn [app util.read_varint_loop groups7].
    destruct (i <? max_bytes) eqn:E; [|apply Z.ltb_ge in E; lia].
    apply Z.ltb_lt in E. unfold continues in Hb.
    destruct (Z.land (byte_val b) 128 =? 0) eqn:E0;
      [apply Z.eqb_eq in E0; contradiction|].
    rewrite IH by (auto; lia).
    rewrite land_lnot_128, Z.shiftl_mul_pow2 by lia.
    f_equal. f_equal.
    replace (7 * (i + 1)) with (7 * i + 7) by lia.
    rewrite Z.pow_add_r by lia. change (2 ^ 7) with 128. lia.
Qed.

Lemma read_varint_loop_eof (max_bytes : Z) (pre : bytes) :
  forall (i r : Z),
    Forall continues pre -> i + len pre < max_bytes ->
    util.read_varint_loop max_bytes pre i r = Raise IndexError.
Proof.
  induction pre as [|b pre IH]; intros i r Hpre Hlen.
  - unfold len in Hlen; simpl in Hlen. cbn [util.read_varint_loop].
    destruct (i <? max_bytes) eqn:E; [reflexivity|apply Z.ltb_ge in E; lia].
  - rewrite len_cons in Hlen. pose proof (len_nonneg pre).
    inversion Hpre as [|? ? Hb Hpre']; subst.
    cbn [util.read_varint_loop].
    destruct (i <? max_bytes) eqn:E; [|apply Z.ltb_ge in E; lia].
    unfold continues in Hb.
    destruct (Z.land (byte_val b) 128 =? 0) eqn:E0;
      [apply Z.eqb_eq in E0; contradiction|].
    apply IH; [assumption | lia].
Qed.

Lemma continues_dec (b : byte) : continues b \/ ~ continues b.
Proof.
  unfold continues. destruct (Z.eq_dec (Z.land (byte_val b) 128) 0); auto.
Qed.

(** Every stream has, for every limit, one of three shapes. *)
Lemma read_varint_shapes (s : stream) :
  forall max_bytes : Z,
    (exists pre t rest,
        s = pre ++ t :: rest /\ Forall continues pre /\ ~ continues t
        /\ len pre < max_bytes)
    \/ (exists pre rest,
          s = pre ++ rest /\ Forall continues pre
          /\ len pre = Z.max 0 max_bytes)
    \/ (Forall continues s /\ len s < max_bytes).
Proof.
  induction s as [|b s IH]; intros max_bytes.
  - destruct (Z_le_gt_dec max_bytes 0) as [Hm|Hm].
    + right. left. exists [], []. repeat split; [constructor|].
      change (len (@nil byte)) with 0. lia.
    + right. right. split; [constructor|].
      change (len (@nil byte)) with 0. lia.
  - destruct (Z_le_gt_dec max_bytes 0) as [Hm|Hm].
    { right. left. exists [], (b :: s). repeat split; [constructor|].
      change (len (@nil byte)) with 0. lia. }
    destruct (continues_dec b) as [Hb|Hb].
    + destruct (IH (max_bytes - 1))
        as [(pre & t & rest & -> & Hpre & Ht & Hl)
           |[(pre & rest & -> & Hpre & Hl)|(Hall & Hl)]].
      * left. exists (b :: pre), t, rest.
        repeat split; [constructor; assumption|assumption|].
        rewrite len_cons. lia.
      * right. left. exists (b :: pre), rest.
        repeat split; [constructor; assumption|].
        rewrite len_cons. lia.
      * right. right. split; [constructor; assumption|].
        rewrite len_cons. lia.
    + left. exists [], b, s. repeat split; [constructor|assumption|].
      change (len (@nil byte)) with 0. lia.
Qed.

(** C8 (as amended).  [read_varint] adds up 7-bit groups, least significant
    first.  It stops at the first byte whose top bit is zero, when that byte
    is among the first [max_bytes]; when the first [max_bytes] bytes all
    have the top bit set it stops after them and returns what it has added
    up, without an error; it fails only when the stream ends before either
    happens.  Every stream is in one of the three cases. *)
Theorem read_varint_cases (max_bytes : Z) :
  (forall (pre : bytes) (t : byte) (rest : stream),
      Forall continues pre -> ~ continues t -> len pre < max_bytes ->
      util.read_varint (pre ++ t :: rest) max_bytes
      = Ok (groups7 (pre ++ [t]), rest))
  /\ (forall (pre : bytes) (rest : stream),
      Forall continues pre -> len pre = Z.max 0 max_bytes ->
      util.read_varint (pre ++ rest) max_bytes = Ok (groups7 pre, rest))
  /\ (forall (pre : bytes),
      Forall continues pre -> len pre < max_bytes ->
      util.read_varint pre max_bytes = Raise IndexError)
  /\ (forall s : stream,
      (exists pre t rest,
          s = pre ++ t :: rest /\ Forall continues pre /\ ~ continues t
          /\ len pre < max_bytes)
      \/ (exists pre rest,
            s = pre ++ rest /\ Forall continues pre
            /\ len pre = Z.max 0 max_bytes)
      \/ (Forall continues s /\ len s < max_bytes)).
Proof.
  unfold util.read_varint. split; [|split; [|split]].
  - intros pre t rest Hpre Ht Hlen.
    rewrite read_varint_loop_terminated by (auto; lia).
    f_equal. f_equal. change (2 ^ (7 * 0)) with 1. lia.
  - intros pre rest Hpre Hlen.
    rewrite read_varint_loop_exhausted by (auto; lia).
    f_equal. f_equal. change (2 ^ (7 * 0)) with 1. lia.
  - intros pre Hpre Hlen. apply read_varint_loop_eof; [assumption | lia].
  - intros s. apply read_varint_shapes.
Qed.

Lemma continues_0x80 : continues (B 0x80).
Proof. unfold continues. vm_compute. discriminate. Qed.

Lemma continues_0xAC : continues (B 0xAC).
Proof. unfold continues. vm_compute. discriminate. Qed.

Lemma read_varint_cases_witness :
  util.read_varint (hex [0xAC; 0x02; 0xFF]) 5 = Ok (300, hex [0xFF])
  /\ util.read_varint (hex [0x80; 0x80; 0x80; 0x80; 0x80; 0x01]) 5
     = Ok (0, hex [0x01])
  /\ util.read_varint (hex [0x80; 0x80]) 5 = Raise IndexError.
Proof.
  destruct (read_varint_cases 5) as (H1 & H2 & H3 & _).
  split; [|split].
  - apply (H1 [B 0xAC] (B 0x02) [B 0xFF]).
    + repeat constructor. apply continues_0xAC.
    + unfold continues. vm_compute. intros H; apply H; reflexivity.
    + reflexivity.
  - apply (H2 (hex [0x80; 0x80; 0x80; 0x80; 0x80]) (hex [0x01])).
    + repeat constructor; apply continues_0x80.
    + reflexivity.
  - apply (H3 (hex [0x80; 0x80])).
    + repeat constructor; apply continues_0x80.
    + reflexivity.
Defined.

(** C8 (counterexample).  Five bytes with the top bit set and a limit of
    five bytes: all five are consumed without a terminating byte, and the
    call returns a value. *)
Lemma read_varint_limit_returns :
  util.read_varint (hex [0x80; 0x80; 0x80; 0x80; 0x80]) 5 = Ok (0, []).
Proof. reflexivity. Qed.

(** ** util.read_sint32 *)

Lemma zigzag_range (n : Z) :
  - 2 ^ 31
  <= Z.lxor (Z.shiftr (Z.land n 4294967295) 1) (- (Z.land n 1))
  < 2 ^ 31.
Proof.
  replace (Z.land n 4294967295) with (n mod 2 ^ 32)
    by (symmetry; apply (Z.land_ones n 32); lia).
  replace (Z.land n 1) with (n mod 2)
    by (symmetry; apply (Z.land_ones n 1); lia).
  rewrite Z.shiftr_div_pow2 by lia. change (2 ^ 1) with 2.
  assert (Hm : 0 <= n mod 2 ^ 32 < 2 ^ 32) by (apply Z.mod_pos_bound; lia).
  assert (Hd : 0 <= n mod 2 ^ 32 / 2 < 2 ^ 31).
  { split; [apply Z.div_pos; lia|].
    apply Z.div_lt_upper_bound; [lia|]. change (2 * 2 ^ 31) with (2 ^ 32). lia. }
  assert (Hb : n mod 2 = 0 \/ n mod 2 = 1)
    by (pose proof (Z.mod_pos_bound n 2 ltac:(lia)); lia).
  destruct Hb as [Hb|Hb]; rewrite Hb.
  - change (- 0) with 0. rewrite Z.lxor_0_r. lia.
  - rewrite Z.lxor_m1_r. unfold Z.lnot. lia.
Qed.

(** C10.  Whatever the stream, a value returned by [read_sint32] is in the
    signed 32-bit range; the varint read, which can be as wide as 35 bits,
    is cut to 32 bits before the zigzag transform. *)
Theorem read_sint32_range (s : stream) (v : Z) (s' : stream) :
  util.read_sint32 s = Ok (v, s') -> - 2 ^ 31 <= v < 2 ^ 31.
Proof.
  unfold util.read_sint32. intros H. inv_bind H as [n s1].
  inv_Ok H. apply zigzag_range.
Qed.

Lemma read_sint32_range_witness :
  util.read_varint32 (hex [0xFF; 0xFF; 0xFF; 0xFF; 0x7F])
  = Ok (2 ^ 35 - 1, [])
  /\ util.read_sint32 (hex [0xFF; 0xFF; 0xFF; 0xFF; 0x7F])
     = Ok (- 2 ^ 31, [])
  /\ - 2 ^ 31 <= - 2 ^ 31 < 2 ^ 31.
Proof.
  split; [reflexivity|]. split; [reflexivity|].
  apply (read_sint32_range (hex [0xFF; 0xFF; 0xFF; 0xFF; 0x7F])
           (- 2 ^ 31) []).
  reflexivity.
Defined.

(** ** util.int64_to_bytes_compact *)

Lemma length_to_bytes_le_aux (k : nat) (n : Z) :
  length (to_bytes_le_aux k n) = k.
Proof.
  revert n. induction k as [|k IH]; intros n; simpl; [reflexivity|].
  rewrite IH. reflexivity.
Qed.

Lemma from_to_bytes_le (k : nat) (n : Z) :
  0 <= n < 256 ^ Z.of_nat k -> from_bytes_le (to_bytes_le_aux k n) = n.
Proof.
  revert n. induction k as [|k IH]; intros n Hn.
  - simpl in *. lia.
  - cbn [to_bytes_le_aux from_bytes_le].
    rewrite Nat2Z.inj_succ, Z.pow_succ_r in Hn by lia.
    rewrite byte_val_B by (apply Z.mod_pos_bound; lia).
    rewrite IH.
    + pose proof (Z.div_mod n 256 ltac:(lia)). lia.
    + split; [apply Z.div_pos; lia|].
      apply Z.div_lt_upper_bound; lia.
Qed.

(** The eight bytes of [n], in terms of the successive quotients by 256. *)
Lemma to_bytes_le_8 (n : Z) :
  0 <= n < 2 ^ 64 ->
  exists d1 d2 d3 d4 d5 d6 d7,
    d1 = n / 256 /\ d2 = d1 / 256 /\ d3 = d2 / 256 /\ d4 = d3 / 256
    /\ d5 = d4 / 256 /\ d6 = d5 / 256 /\ d7 = d6 / 256 /\ d7 < 256
    /\ to_bytes_le n 8
       = Ok [B (n mod 256); B (d1 mod 256); B (d2 mod 256); B (d3 mod 256);
             B (d4 mod 256); B (d5 mod 256); B (d6 mod 256); B (d7 mod 256)].
Proof.
  intros Hn. unfold to_bytes_le.
  change (256 ^ Z.of_nat 8) with (2 ^ 64).
  destruct (n <? 0) eqn:E1; [apply Z.ltb_lt in E1; lia|].
  destruct (2 ^ 64 <=? n) eqn:E2; [apply Z.leb_le in E2; lia|].
  cbn [orb to_bytes_le_aux].
  do 7 eexists. repeat (split; [reflexivity|]).
  split; [|reflexivity].
  change (2 ^ 64) with 18446744073709551616 in Hn.
  Z.div_mod_to_equations. lia.
Qed.

Ltac byte_is_zero d :=
  replace (d mod 256) with 0 by (Z.div_mod_to_equations; lia);
  change (byte_val (B 0) =? 0) with true; cbv iota.

Ltac byte_is_not_zero d :=
  rewrite (byte_val_B (d mod 256)) by (apply Z.mod_pos_bound; lia);
  replace (d mod 256 =? 0) with false
    by (symmetry; apply Z.eqb_neq; Z.div_mod_to_equations; lia);
  cbv iota.

Ltac eval_slice_to :=
  match goal with
  | |- context [slice_to ?l ?i] =>
      let v := eval lazy -[B Z.modulo Z.div byte_val] in (slice_to l i) in
      change (slice_to l i) with v
  end.

Ltac eval_len :=
  match goal with
  | |- context [@len ?A ?l] =>
      let v := eval lazy -[B Z.modulo Z.div byte_val] in (@len A l) in
      change (@len A l) with v
  end.

Ltac compact_case :=
  eexists; split; [reflexivity|];
  repeat eval_slice_to; repeat eval_len; cbn [from_bytes_le];
  rewrite ?byte_val_B by (apply Z.mod_pos_bound; lia);
  repeat split; try lia; Z.div_mod_to_equations; lia.

(** Below [2 ^ 56] the result is the little-endian bytes of [n] without
    the zero bytes at its end, of which the first byte is always kept. *)
Lemma int64_to_bytes_compact_small (n : Z) :
  0 <= n < 2 ^ 56 ->
  exists b,
    util.int64_to_bytes_compact n = Ok b
    /\ 1 <= len b <= 7
    /\ from_bytes_le b = n
    /\ (len b = 1 <-> n < 256)
    /\ (len b <= 4 <-> n < 2 ^ 32).
Proof.
  intros Hn.
  destruct (to_bytes_le_8 n ltac:(lia))
    as (d1 & d2 & d3 & d4 & d5 & d6 & d7
        & H1 & H2 & H3 & H4 & H5 & H6 & H7 & H8 & Hbuf).
  unfold util.int64_to_bytes_compact. rewrite Hbuf. cbn [bind].
  change (2 ^ 56) with 72057594037927936 in Hn.
  change (2 ^ 32) with 4294967296.
  cbn [util.trailing_zero_loop bind index].
  cbn -[Z.modulo B byte_val Z.eqb slice_to].
  assert (C : n < 256 \/ 256 <= n < 65536 \/ 65536 <= n < 16777216
              \/ 16777216 <= n < 4294967296
              \/ 4294967296 <= n < 1099511627776
              \/ 1099511627776 <= n < 281474976710656
              \/ 281474976710656 <= n) by lia.
  byte_is_zero d7.
  destruct C as [C|[C|[C|[C|[C|[C|C]]]]]].
  - byte_is_zero d6. byte_is_zero d5. byte_is_zero d4. byte_is_zero d3.
    byte_is_zero d2. byte_is_zero d1.
    compact_case.
  - byte_is_zero d6. byte_is_zero d5. byte_is_zero d4. byte_is_zero d3.
    byte_is_zero d2. byte_is_not_zero d1.
    compact_case.
  - byte_is_zero d6. byte_is_zero d5. byte_is_zero d4. byte_is_zero d3.
    byte_is_not_zero d2.
    compact_case.
  - byte_is_zero d6. byte_is_zero d5. byte_is_zero d4. byte_is_not_zero d3.
    compact_case.
  - byte_is_zero d6. byte_is_zero d5. byte_is_not_zero d4.
    compact_case.
  - byte_is_zero d6. byte_is_not_zero d5.
    compact_case.
  - byte_is_not_zero d6.
    compact_case.
Qed.

(** C9 (code bug).  When the top byte of [n] is not zero no zero byte is
    counted, and the slice [buf[:-0]] is empty: the result has length 0,
    not 8, and padding it to eight bytes gives 0, not [n]. *)
Theorem int64_to_bytes_compact_top_byte (n : Z) :
  2 ^ 56 <= n < 2 ^ 64 ->
  util.int64_to_bytes_compact n = Ok []
  /\ from_bytes_le (pad8 []) <> n.
Proof.
  intros Hn.
  change (2 ^ 56) with 72057594037927936 in Hn.
  change (2 ^ 64) with 18446744073709551616 in Hn.
  split; [|change (from_bytes_le (pad8 [])) with 0; lia].
  destruct (to_bytes_le_8 n ltac:(change (2 ^ 64) with 18446744073709551616; lia))
    as (d1 & d2 & d3 & d4 & d5 & d6 & d7
        & H1 & H2 & H3 & H4 & H5 & H6 & H7 & H8 & Hbuf).
  unfold util.int64_to_bytes_compact. rewrite Hbuf. cbn [bind].
  cbn [util.trailing_zero_loop bind index].
  cbn -[Z.modulo B byte_val Z.eqb slice_to].
  byte_is_not_zero d7.
  repeat eval_slice_to. reflexivity.
Qed.

Lemma int64_to_bytes_compact_top_byte_witness :
  util.int64_to_bytes_compact (2 ^ 56) = Ok []
  /\ from_bytes_le (pad8 []) <> 2 ^ 56.
Proof.
  apply (int64_to_bytes_compact_top_byte (2 ^ 56)).
  split; [apply Z.le_refl | reflexivity].
Defined.

(** ** indexeddb.IDBKey.encode_key_prefix *)

Ltac enum_len l :=
  match goal with
  | H : 1 <= l <= 8 |- _ =>
      assert (l = 1 \/ l = 2 \/ l = 3 \/ l = 4 \/ l = 5 \/ l = 6 \/ l = 7
              \/ l = 8) as [?|[?|[?|[?|[?|[?|[?|?]]]]]]] by lia; subst l
  | H : 1 <= l <= 4 |- _ =>
      assert (l = 1 \/ l = 2 \/ l = 3 \/ l = 4) as [?|[?|[?|?]]] by lia;
      subst l
  end.

Lemma prefix_first_byte_fields (la lb lc : Z) :
  1 <= la <= 8 -> 1 <= lb <= 8 -> 1 <= lc <= 4 ->
  0 <= prefix_first_byte la lb lc < 256
  /\ Z.shiftr (Z.land (prefix_first_byte la lb lc) 224) 5 + 1 = la
  /\ Z.shiftr (Z.land (prefix_first_byte la lb lc) 28) 2 + 1 = lb
  /\ Z.shiftr (Z.land (prefix_first_byte la lb lc) 3) 0 + 1 = lc.
Proof.
  intros Ha Hb Hc. enum_len la; enum_len lb; enum_len lc;
    vm_compute; repeat split; congruence.
Qed.

Lemma bytes_of_ints_single (z : Z) :
  0 <= z < 256 -> bytes_of_ints [z] = Ok [B z].
Proof.
  intros Hz. cbn [bytes_of_ints]. unfold B.
  destruct (byte_of_Z z) as [b|] eqn:E; [reflexivity|].
  unfold byte_of_Z in E.
  replace ((0 <=? z) && (z <? 256)) with true in E
    by (symmetry; apply andb_true_iff; split;
        [apply Z.leb_le | apply Z.ltb_lt]; lia).
  apply Byte.of_N_None_iff in E. lia.
Qed.

Lemma index_single {A : Type} (x : A) : index [x] 0 = Ok x.
Proof. reflexivity. Qed.

Lemma encode_key_prefix_Ok (db store idx : Z) (dbb sb ib : bytes) :
  0 <= db -> 0 <= store -> 0 <= idx ->
  util.int64_to_bytes_compact db = Ok dbb ->
  util.int64_to_bytes_compact store = Ok sb ->
  util.int64_to_bytes_compact idx = Ok ib ->
  0 <= prefix_first_byte (len dbb) (len sb) (len ib) < 256 ->
  indexeddb.encode_key_prefix db store idx
  = Ok (B (prefix_first_byte (len dbb) (len sb) (len ib))
        :: dbb ++ sb ++ ib).
Proof.
  intros H1 H2 H3 Ea Eb Ec Hfb. unfold indexeddb.encode_key_prefix.
  replace ((db >=? 0) && (store >=? 0) && (idx >=? 0)) with true
    by (symmetry; rewrite !andb_true_iff, !Z.geb_le; lia).
  cbn [assert bind]. rewrite Ea, Eb, Ec. cbn [bind].
  rewrite Z.lor_0_l, Z.shiftl_0_r.
  fold (prefix_first_byte (len dbb) (len sb) (len ib)).
  rewrite bytes_of_ints_single by assumption. reflexivity.
Qed.

Lemma read_ids_mask_then_shift_Ok (dbb sb ib tail : bytes) :
  1 <= len dbb <= 8 -> 1 <= len sb <= 8 -> 1 <= len ib <= 4 ->
  read_ids_mask_then_shift
    ((B (prefix_first_byte (len dbb) (len sb) (len ib))
      :: dbb ++ sb ++ ib) ++ tail)
  = Ok (from_bytes_le dbb, from_bytes_le sb, from_bytes_le ib, tail).
Proof.
  intros Ha Hb Hc.
  destruct (prefix_first_byte_fields _ _ _ Ha Hb Hc) as (Hfb & Fa & Fb & Fc).
  unfold read_ids_mask_then_shift.
  change ((?x :: ?l) ++ tail) with ([x] ++ (l ++ tail)).
  change 1 with (len [B (prefix_first_byte (len dbb) (len sb) (len ib))])
    at 1.
  rewrite read_safe_app by (vm_compute; discriminate).
  cbn [bind]. rewrite index_single. cbn [bind].
  rewrite byte_val_B by assumption.
  rewrite Fa, Fb, Fc. rewrite <- !app_assoc.
  unfold ssize_max in *.
  rewrite read_safe_app by (unfold ssize_max; lia). cbn [bind].
  rewrite read_safe_app by (unfold ssize_max; lia). cbn [bind].
  rewrite read_safe_app by (unfold ssize_max; lia). cbn [bind].
  reflexivity.
Qed.

(** The encoder on its own.  For ids [db] and [store] below [2 ^ 56] and
    [idx] below [2 ^ 32], [encode_key_prefix] gives the first byte
    [(len(db_bytes)-1) << 5 | (len(store_bytes)-1) << 2 | (len(idx_bytes)-1)]
    followed by the three compact little-endian integers, from which the
    decoding of the specification, [read_ids_mask_then_shift], recovers
    [(db, store, idx)].  This is not the decoder of the source:
    [IDBKey_read_ids] agrees with it on [(1, 2, 1)], which gives
    [00 01 02 01], and not on [(256, 0, 0)]. *)
Theorem encode_key_prefix_roundtrip :
  (forall db store idx : Z,
      0 <= db < 2 ^ 56 -> 0 <= store < 2 ^ 56 -> 0 <= idx < 2 ^ 32 ->
      exists dbb sb ib : bytes,
        util.int64_to_bytes_compact db = Ok dbb
        /\ util.int64_to_bytes_compact store = Ok sb
        /\ util.int64_to_bytes_compact idx = Ok ib
        /\ 1 <= len dbb <= 8 /\ 1 <= len sb <= 8 /\ 1 <= len ib <= 8
        /\ indexeddb.encode_key_prefix db store idx
           = Ok (B (prefix_first_byte (len dbb) (len sb) (len ib))
                 :: dbb ++ sb ++ ib)
        /\ forall tail : bytes,
            read_ids_mask_then_shift
              ((B (prefix_first_byte (len dbb) (len sb) (len ib))
                :: dbb ++ sb ++ ib) ++ tail)
            = Ok (db, store, idx, tail))
  /\ indexeddb.encode_key_prefix 1 2 1 = Ok (hex [0x00; 0x01; 0x02; 0x01])
  /\ read_ids_mask_then_shift (hex [0x00; 0x01; 0x02; 0x01])
     = Ok (1, 2, 1, [])
  /\ indexeddb.IDBKey_read_ids (hex [0x00; 0x01; 0x02; 0x01])
     = Ok (1, 2, 1, []).
Proof.
  split; [|repeat split; reflexivity].
  intros db store idx Hdb Hstore Hidx.
  destruct (int64_to_bytes_compact_small db Hdb)
    as (dbb & Ea & La & Va & _ & _).
  destruct (int64_to_bytes_compact_small store Hstore)
    as (sb & Eb & Lb & Vb & _ & _).
  assert (Hidx' : 0 <= idx < 2 ^ 56).
  { split; [lia|]. apply Z.lt_trans with (2 ^ 32); [lia|reflexivity]. }
  destruct (int64_to_bytes_compact_small idx Hidx')
    as (ib & Ec & Lc & Vc & _ & L4).
  assert (Lc' : 1 <= len ib <= 4) by (split; [lia | apply L4; lia]).
  exists dbb, sb, ib.
  destruct (prefix_first_byte_fields (len dbb) (len sb) (len ib))
    as (Hfb & _); try lia.
  repeat (split; [assumption || lia|]).
  split.
  - apply encode_key_prefix_Ok; assumption || lia.
  - intros tail. rewrite read_ids_mask_then_shift_Ok by lia.
    rewrite Va, Vb, Vc. reflexivity.
Qed.

Lemma encode_key_prefix_roundtrip_witness :
  exists dbb sb ib : bytes,
    util.int64_to_bytes_compact 300 = Ok dbb
    /\ util.int64_to_bytes_compact 2 = Ok sb
    /\ util.int64_to_bytes_compact 70000 = Ok ib
    /\ 1 <= len dbb <= 8 /\ 1 <= len sb <= 8 /\ 1 <= len ib <= 8
    /\ indexeddb.encode_key_prefix 300 2 70000
       = Ok (B (prefix_first_byte (len dbb) (len sb) (len ib))
             :: dbb ++ sb ++ ib)
    /\ forall tail : bytes,
        read_ids_mask_then_shift
          ((B (prefix_first_byte (len dbb) (len sb) (len ib))
            :: dbb ++ sb ++ ib) ++ tail)
        = Ok (300, 2, 70000, tail).
Proof.
  apply (proj1 encode_key_prefix_roundtrip 300 2 70000); lia.
Defined.

(** The index id [2 ^ 32] takes five bytes, and
    [5 - 1] does not fit the two low bits of the first byte: the prefix of
    [(0, 0, 2 ^ 32)] starts with the byte [04], like the prefix of
    [(0, 256, 0)], and decoding it by masking then shifting gives
    [(0, 0, 0)]. *)
Lemma encode_key_prefix_wide_index :
  indexeddb.encode_key_prefix 0 0 (2 ^ 32)
  = Ok (hex [0x04; 0x00; 0x00; 0x00; 0x00; 0x00; 0x00; 0x01])
  /\ prefix_first_byte 1 1 5 = 4
  /\ read_ids_mask_then_shift
       (hex [0x04; 0x00; 0x00; 0x00; 0x00; 0x00; 0x00; 0x01])
     = Ok (0, 0, 0, hex [0x00; 0x00; 0x01])
  /\ indexeddb.encode_key_prefix 0 256 0
     = Ok (hex [0x04; 0x00; 0x00; 0x01; 0x00]).
Proof. repeat split; reflexivity. Qed.

(** The decoder of the source shifts the masks, not the masked byte: the
    lengths it reads are [(b & 7) + 1], [(b & 7) + 1] and [(b & 3) + 1].
    On the prefix of [(256, 0, 0)] it reads one byte for the first id. *)
Remark IDBKey_read_ids_shifts_mask :
  indexeddb.encode_key_prefix 256 0 0
  = Ok (hex [0x20; 0x00; 0x01; 0x00; 0x00])
  /\ indexeddb.IDBKey_read_ids (hex [0x20; 0x00; 0x01; 0x00; 0x00])
     = Ok (0, 1, 0, hex [0x00])
  /\ read_ids_mask_then_shift (hex [0x20; 0x00; 0x01; 0x00; 0x00])
     = Ok (256, 0, 0, []).
Proof. repeat split; reflexivity. Qed.

(** ** Checksums of log records and of table blocks *)

(** The CRC of the digits [1] to [9] is the check value of CRC32C. *)
Example crc32c_check_value :
  crc32c.crc (sample.ascii_bytes "123456789") = 0xE3069283.
Proof. reflexivity. Qed.

Example unmask_mask :
  util.unmask_leveldb_crc32c (sample.mask 0xE3069283) = 0xE3069283.
Proof. reflexivity. Qed.

Lemma from_bytes_le_bound (b : bytes) :
  0 <= from_bytes_le b < 256 ^ len b.
Proof.
  induction b as [|x b IH].
  - change (len (@nil byte)) with 0. simpl. lia.
  - rewrite len_cons. cbn [from_bytes_le].
    pose proof (byte_val_range x). pose proof (len_nonneg b).
    rewrite Z.pow_add_r, Z.pow_1_r by lia. lia.
Qed.

Lemma slice_to_app_len {A : Type} (l1 l2 : list A) :
  slice_to (l1 ++ l2) (len l1) = l1.
Proof.
  unfold slice_to, slice_index. pose proof (len_nonneg l1).
  pose proof (len_nonneg l2).
  destruct (len l1 <? 0) eqn:E; [apply Z.ltb_lt in E; lia|].
  rewrite len_app, Z.min_l by lia. apply take_app_len.
Qed.

Lemma slice_from_app_len {A : Type} (l1 l2 : list A) :
  slice_from (l1 ++ l2) (len l1) = l2.
Proof.
  unfold slice_from, slice_index. pose proof (len_nonneg l1).
  pose proof (len_nonneg l2).
  destruct (len l1 <? 0) eqn:E; [apply Z.ltb_lt in E; lia|].
  rewrite len_app, Z.min_l by lia. apply drop_app_len.
Qed.

Lemma index_app_len {A : Type} (l1 : list A) (x : A) (l2 : list A) :
  index (l1 ++ x :: l2) (len l1) = Ok x.
Proof.
  unfold index. pose proof (len_nonneg l1).
  destruct (len l1 <? 0) eqn:E; [apply Z.ltb_lt in E; lia|].
  rewrite E, drop_app_len. reflexivity.
Qed.

Ltac ssize := change ssize_max with 9223372036854775807 in *; lia.

Section Checksum.
Variable crc : bytes -> Z.
Variable crc_update : Z -> bytes -> Z.

Lemma get_record_checked (c4 l2 : bytes) (t : byte) (data rest : bytes) :
  len c4 = 4 -> len l2 = 2 -> from_bytes_le l2 = len data ->
  log_reader.get_record crc crc_update (c4 ++ l2 ++ [t] ++ data ++ rest)
  = if util.unmask_leveldb_crc32c (from_bytes_le c4)
       =? crc_update (crc [t]) data
    then Ok (data, byte_val t, rest)
    else Raise (AssertionError "block checksum mismatch").
Proof.
  intros H4 H2 Hlen. unfold log_reader.get_record.
  rewrite <- H4 at 1. rewrite read_safe_app by ssize.
  cbn [bind]. rewrite <- H2 at 1.
  rewrite read_safe_app by ssize.
  cbn [bind]. change 1 with (len [t]) at 1.
  rewrite read_safe_app by (vm_compute; discriminate).
  cbn [bind]. rewrite index_single. cbn [bind]. rewrite Hlen.
  assert (Hd : len data <= ssize_max).
  { pose proof (from_bytes_le_bound l2) as Hb. rewrite H2, Hlen in Hb.
    change (256 ^ 2) with 65536 in Hb. ssize. }
  rewrite read_safe_app by assumption. cbn [bind].
  rewrite bytes_of_ints_single by apply byte_val_range.
  cbn [bind]. rewrite B_byte_val. unfold assert.
  destruct (util.unmask_leveldb_crc32c (from_bytes_le c4)
            =? crc_update (crc [t]) data); reflexivity.
Qed.

Lemma Block_read_checked (handle : table_reader.BlockHandle)
    (pre data : bytes) (t : byte) (c4 post : bytes) :
  len pre = table_reader.offset handle ->
  len data = table_reader.size handle ->
  len c4 = 4 ->
  len (pre ++ data ++ [t] ++ c4 ++ post) <= ssize_max ->
  table_reader.Block_read crc crc_update handle
    (pre ++ data ++ [t] ++ c4 ++ post)
  = if util.unmask_leveldb_crc32c (from_bytes_le c4)
       =? crc_update (crc data) [t]
    then Ok (data, byte_val t)
    else Raise (AssertionError "block checksum mismatch").
Proof.
  intros Hoff Hsize H4 Hmax. unfold table_reader.Block_read.
  rewrite !len_app in Hmax.
  pose proof (len_nonneg pre). pose proof (len_nonneg data).
  pose proof (len_nonneg post). pose proof (len_nonneg [t]).
  unfold table_reader.file_seek. rewrite <- Hoff, <- Hsize.
  destruct (len pre >? ssize_max) eqn:E1; [apply Z.gtb_lt in E1; ssize|].
  destruct (len pre <? 0) eqn:E2; [apply Z.ltb_lt in E2; lia|].
  cbn [bind]. rewrite drop_app_len.
  replace (data ++ [t] ++ c4 ++ post)
    with ((data ++ [t] ++ c4) ++ post)
    by (rewrite <- !app_assoc; reflexivity).
  replace (len data + table_reader.kBlockTrailerSize)
    with (len (data ++ [t] ++ c4))
    by (rewrite !len_app, H4; reflexivity).
  rewrite read_safe_app by (rewrite !len_app; ssize).
  cbn [bind]. rewrite slice_to_app_len.
  cbn [app]. rewrite index_app_len. cbn [bind].
  replace (data ++ t :: c4) with ((data ++ [t]) ++ c4)
    by (rewrite <- app_assoc; reflexivity).
  replace (len data + 1) with (len (data ++ [t]))
    by (rewrite len_app; reflexivity).
  rewrite slice_from_app_len.
  rewrite bytes_of_ints_single by apply byte_val_range.
  cbn [bind]. rewrite B_byte_val. unfold assert.
  destruct (util.unmask_leveldb_crc32c (from_bytes_le c4)
            =? crc_update (crc data) [t]); reflexivity.
Qed.
End Checksum.

(** C4 (as amended).  A table block is verified against the CRC of its
    payload continued with its type byte; a log record is verified against
    the CRC of its type byte continued with its payload.  In both cases the
    check passes exactly when the stored CRC, unmasked, is equal to the CRC
    computed in that order, and fails with an assertion otherwise. *)
Theorem checksum_order (crc : bytes -> Z) (crc_update : Z -> bytes -> Z) :
  (forall (c4 l2 : bytes) (t : byte) (data rest : bytes),
      len c4 = 4 -> len l2 = 2 -> from_bytes_le l2 = len data ->
      log_reader.get_record crc crc_update (c4 ++ l2 ++ [t] ++ data ++ rest)
      = if util.unmask_leveldb_crc32c (from_bytes_le c4)
           =? crc_update (crc [t]) data
        then Ok (data, byte_val t, rest)
        else Raise (AssertionError "block checksum mismatch"))
  /\ (forall (handle : table_reader.BlockHandle)
        (pre data : bytes) (t : byte) (c4 post : bytes),
      len pre = table_reader.offset handle ->
      len data = table_reader.size handle ->
      len c4 = 4 ->
      len (pre ++ data ++ [t] ++ c4 ++ post) <= ssize_max ->
      table_reader.Block_read crc crc_update handle
        (pre ++ data ++ [t] ++ c4 ++ post)
      = if util.unmask_leveldb_crc32c (from_bytes_le c4)
           =? crc_update (crc data) [t]
        then Ok (data, byte_val t)
        else Raise (AssertionError "block checksum mismatch")).
Proof.
  split.
  - apply get_record_checked.
  - apply Block_read_checked.
Qed.

Lemma checksum_order_witness :
  log_reader.get_record crc32c.crc crc32c.crc_update
    (hex [0xB5; 0xCD; 0x0B; 0xA2] ++ hex [0x01; 0x00] ++ [B 0x01]
     ++ hex [0x61] ++ hex [0xFF])
  = Ok (hex [0x61], 1, hex [0xFF])
  /\ table_reader.Block_read crc32c.crc crc32c.crc_update
       (table_reader.mkBlockHandle 1 1)
       (hex [0xFF] ++ hex [0x61] ++ [B 0x01]
        ++ hex [0x40; 0x0B; 0xC4; 0x35] ++ hex [0xFF])
     = Ok (hex [0x61], 1).
Proof.
  destruct (checksum_order crc32c.crc crc32c.crc_update) as [H1 H2].
  split.
  - rewrite H1 by reflexivity. reflexivity.
  - rewrite H2 by (vm_compute; try reflexivity; discriminate). reflexivity.
Defined.

(** C4 (counterexample).  The log record [B5 CD 0B A2 | 01 00 | 01 | 61]
    stores the CRC of the type byte [01] continued with the payload [61].
    It is accepted, although the stored CRC is not the one of the payload
    continued with the type byte; the same record with that other CRC,
    [40 0B C4 35], is rejected. *)
Lemma log_record_checksum_type_first :
  log_reader.get_record crc32c.crc crc32c.crc_update
    (hex [0xB5; 0xCD; 0x0B; 0xA2; 0x01; 0x00; 0x01; 0x61])
  = Ok (hex [0x61], 1, [])
  /\ util.unmask_leveldb_crc32c
       (from_bytes_le (hex [0xB5; 0xCD; 0x0B; 0xA2]))
     <> crc32c.crc_update (crc32c.crc (hex [0x61])) (hex [0x01])
  /\ util.unmask_leveldb_crc32c
       (from_bytes_le (hex [0x40; 0x0B; 0xC4; 0x35]))
     = crc32c.crc_update (crc32c.crc (hex [0x61])) (hex [0x01])
  /\ log_reader.get_record crc32c.crc crc32c.crc_update
       (hex [0x40; 0x0B; 0xC4; 0x35; 0x01; 0x00; 0x01; 0x61])
     = Raise (AssertionError "block checksum mismatch").
Proof.
  repeat split; try reflexivity. vm_compute. discriminate.
Qed.

(** ** IDBValue: the scenario payloads *)

(** C5 (as amended).  The V8 body [6F 22 01 61 49 04 7B 01] decodes to the
    object [{"a": 2}] and the body [41 02 49 02 49 04 24 00 02] to the array
    [[1, 2]], with no byte left.  Behind a header that [IDBValue] accepts
    -- a varint, here [FF 0F]; the two bytes [FF 11]; the tag [FF] and a
    version byte, here [0D] -- they decode to the same values. *)
Theorem v8_scenario_bodies :
  indexeddb.v8_deserizlize (hex [0x6F; 0x22; 0x01; 0x61; 0x49; 0x04; 0x7B; 0x01])
  = Ok (indexeddb.VDict
          [(indexeddb.VStr (indexeddb.str_of_string "a"), indexeddb.VInt 2)],
        [])
  /\ indexeddb.v8_deserizlize
       (hex [0x41; 0x02; 0x49; 0x02; 0x49; 0x04; 0x24; 0x00; 0x02])
     = Ok (indexeddb.VList [indexeddb.VInt 1; indexeddb.VInt 2], [])
  /\ indexeddb.IDBValue_init
       (hex [0xFF; 0x0F; 0xFF; 0x11; 0xFF; 0x0D;
             0x6F; 0x22; 0x01; 0x61; 0x49; 0x04; 0x7B; 0x01])
     = Ok (indexeddb.VDict
             [(indexeddb.VStr (indexeddb.str_of_string "a"),
               indexeddb.VInt 2)])
  /\ indexeddb.IDBValue_init
       (hex [0xFF; 0x0F; 0xFF; 0x11; 0xFF; 0x0D;
             0x41; 0x02; 0x49; 0x02; 0x49; 0x04; 0x24; 0x00; 0x02])
     = Ok (indexeddb.VList [indexeddb.VInt 1; indexeddb.VInt 2]).
Proof. repeat split; reflexivity. Qed.

(** C5 (counterexample).  [IDBValue] reads [FF 0F] as the varint 2047 and
    then finds the header [FF 0D], whose second byte is below [0x11]: both
    payloads of the claim are refused.  [v8_deserizlize] alone refuses them
    as well, [FF] being no tag of a value. *)
Lemma v8_scenario_payloads_refused :
  util.read_varint64
    (hex [0xFF; 0x0F; 0xFF; 0x0D; 0x6F; 0x22; 0x01; 0x61; 0x49; 0x04; 0x7B; 0x01])
  = Ok (2047, hex [0xFF; 0x0D; 0x6F; 0x22; 0x01; 0x61; 0x49; 0x04; 0x7B; 0x01])
  /\ indexeddb.IDBValue_init
       (hex [0xFF; 0x0F; 0xFF; 0x0D; 0x6F; 0x22; 0x01; 0x61; 0x49; 0x04; 0x7B; 0x01])
     = Raise (AssertionError "doesn't look like an IDB serialized value")
  /\ indexeddb.IDBValue_init
       (hex [0xFF; 0x0F; 0xFF; 0x0D;
             0x41; 0x02; 0x49; 0x02; 0x49; 0x04; 0x24; 0x00; 0x02])
     = Raise (AssertionError "doesn't look like an IDB serialized value")
  /\ indexeddb.v8_deserizlize
       (hex [0xFF; 0x0F; 0xFF; 0x0D; 0x6F; 0x22; 0x01; 0x61; 0x49; 0x04; 0x7B; 0x01])
     = Raise (AssertionError "unknown tag")
  /\ indexeddb.v8_deserizlize
       (hex [0xFF; 0x0F; 0xFF; 0x0D;
             0x41; 0x02; 0x49; 0x02; 0x49; 0x04; 0x24; 0x00; 0x02])
     = Raise (AssertionError "unknown tag").
Proof. repeat split; reflexivity. Qed.

(** ** Dictionaries and sets *)

Section DictFacts.
Context {K V : Type} (eqb : K -> K -> bool).
Hypothesis eqb_eq : forall a b : K, eqb a b = true <-> a = b.

Lemma eqb_refl (a : K) : eqb a a = true.
Proof. apply eqb_eq. reflexivity. Qed.

Lemma eqb_false (a b : K) : a <> b -> eqb a b = false.
Proof.
  intros H. destruct (eqb a b) eqn:E; [|reflexivity].
  apply eqb_eq in E. contradiction.
Qed.

Lemma eqb_dec (a b : K) : a = b \/ a <> b.
Proof.
  destruct (eqb a b) eqn:E.
  - left. apply eqb_eq. assumption.
  - right. intros H. apply eqb_eq in H. congruence.
Qed.

Lemma dict_get_Some_In (d : dict K V) (k : K) (v : V) :
  dict_get eqb d k = Some v -> In k (dict_keys d).
Proof.
  induction d as [|[k' v'] d IH]; simpl; [discriminate|].
  destruct (eqb k k') eqn:E.
  - apply eqb_eq in E. auto.
  - auto.
Qed.

Lemma dict_get_None_iff (d : dict K V) (k : K) :
  dict_get eqb d k = None <-> ~ In k (dict_keys d).
Proof.
  induction d as [|[k' v'] d IH]; simpl; [tauto|].
  destruct (eqb k k') eqn:E.
  - apply eqb_eq in E. split; [discriminate | intros H; exfalso; auto].
  - rewrite IH. split; [|tauto].
    intros H [H1|H1]; [|auto]. subst. rewrite eqb_refl in E. discriminate.
Qed.

Lemma dict_get_set (d : dict K V) (k : K) (v : V) (k' : K) :
  dict_get eqb (dict_set eqb d k v) k'
  = if eqb k' k then Some v else dict_get eqb d k'.
Proof.
  induction d as [|[k0 v0] d IH]; simpl.
  - reflexivity.
  - destruct (eqb k k0) eqn:E; simpl.
    + apply eqb_eq in E. subst.
      destruct (eqb k' k0); reflexivity.
    + rewrite IH. destruct (eqb k' k0) eqn:E0; [|reflexivity].
      apply eqb_eq in E0. subst.
      destruct (eqb k0 k) eqn:E1; [|reflexivity].
      apply eqb_eq in E1. subst. rewrite eqb_refl in E. discriminate.
Qed.

Lemma dict_keys_set (d : dict K V) (k : K) (v : V) (k' : K) :
  In k' (dict_keys (dict_set eqb d k v)) <-> k' = k \/ In k' (dict_keys d).
Proof.
  induction d as [|[k0 v0] d IH]; simpl.
  - intuition.
  - destruct (eqb k k0) eqn:E; simpl.
    + apply eqb_eq in E. subst. intuition.
    + rewrite IH. intuition.
Qed.

Lemma dict_set_NoDup (d : dict K V) (k : K) (v : V) :
  NoDup (dict_keys d) -> NoDup (dict_keys (dict_set eqb d k v)).
Proof.
  induction d as [|[k0 v0] d IH]; simpl; intros H.
  - constructor; [intros []|constructor].
  - inversion H as [|? ? Hn Hd]; subst.
    destruct (eqb k k0) eqn:E; simpl.
    + constructor; assumption.
    + constructor; [|auto].
      intros Hin. apply dict_keys_set in Hin. destruct Hin as [->|Hin].
      * rewrite eqb_refl in E. discriminate.
      * contradiction.
Qed.

Lemma length_dict_set (d : dict K V) (k : K) (v : V) :
  (length (dict_set eqb d k v) <= S (length d))%nat.
Proof.
  induction d as [|[k0 v0] d IH]; simpl; [lia|].
  destruct (eqb k k0); simpl; lia.
Qed.

Lemma dict_keys_update (o d : dict K V) (k : K) :
  In k (dict_keys (dict_update eqb d o))
  <-> In k (dict_keys d) \/ In k (dict_keys o).
Proof.
  unfold dict_update. revert d.
  induction o as [|[k0 v0] o IH]; intros d; simpl.
  - tauto.
  - rewrite IH, dict_keys_set. intuition.
Qed.

Lemma dict_update_NoDup (o d : dict K V) :
  NoDup (dict_keys d) -> NoDup (dict_keys (dict_update eqb d o)).
Proof.
  unfold dict_update. revert d.
  induction o as [|[k0 v0] o IH]; intros d H; simpl; [assumption|].
  apply IH, dict_set_NoDup, H.
Qed.

Lemma dict_get_update (o d : dict K V) (k : K) :
  NoDup (dict_keys o) ->
  dict_get eqb (dict_update eqb d o) k
  = match dict_get eqb o k with
    | Some v => Some v
    | None => dict_get eqb d k
    end.
Proof.
  unfold dict_update. revert d.
  induction o as [|[k0 v0] o IH]; intros d H; simpl; [reflexivity|].
  inversion H as [|? ? Hn Hd]; subst.
  rewrite IH by assumption. rewrite dict_get_set.
  destruct (eqb k k0) eqn:E; [|reflexivity].
  apply eqb_eq in E. subst.
  destruct (dict_get eqb o k0) eqn:G; [|reflexivity].
  apply dict_get_Some_In in G. contradiction.
Qed.

Lemma length_dict_update (o d : dict K V) :
  (length (dict_update eqb d o) <= length d + length o)%nat.
Proof.
  unfold dict_update. revert d.
  induction o as [|[k0 v0] o IH]; intros d; simpl; [lia|].
  specialize (IH (dict_set eqb d k0 v0)).
  pose proof (length_dict_set d k0 v0). lia.
Qed.

Lemma dict_keys_remove (d : dict K V) (k k' : K) :
  NoDup (dict_keys d) ->
  (In k' (dict_keys (dict_remove eqb d k))
   <-> In k' (dict_keys d) /\ k' <> k).
Proof.
  induction d as [|[k0 v0] d IH]; simpl; intros H; [tauto|].
  inversion H as [|? ? Hn Hd]; subst.
  destruct (eqb k k0) eqn:E; simpl.
  - apply eqb_eq in E. subst. split.
    + intros Hin. split; [auto|]. intros ->. contradiction.
    + intros [[->|Hin] Hne]; [congruence | assumption].
  - rewrite IH by assumption. split.
    + intros [->|[Hin Hne]]; [|tauto].
      split; [auto|]. intros ->. rewrite eqb_refl in E. discriminate.
    + intros [[->|Hin] Hne]; auto.
Qed.

Lemma dict_remove_NoDup (d : dict K V) (k : K) :
  NoDup (dict_keys d) -> NoDup (dict_keys (dict_remove eqb d k)).
Proof.
  induction d as [|[k0 v0] d IH]; simpl; intros H; [assumption|].
  inversion H as [|? ? Hn Hd]; subst.
  destruct (eqb k k0) eqn:E; simpl; [assumption|].
  constructor; [|auto].
  intros Hin. apply dict_keys_remove in Hin; [|assumption]. tauto.
Qed.

Lemma dict_get_remove (d : dict K V) (k k' : K) :
  NoDup (dict_keys d) ->
  dict_get eqb (dict_remove eqb d k) k'
  = if eqb k' k then None else dict_get eqb d k'.
Proof.
  induction d as [|[k0 v0] d IH]; simpl; intros H.
  - destruct (eqb k' k); reflexivity.
  - inversion H as [|? ? Hn Hd]; subst.
    destruct (eqb k k0) eqn:E; simpl.
    + apply eqb_eq in E. subst.
      destruct (eqb k' k0) eqn:E0; [|reflexivity].
      apply eqb_eq in E0. subst. apply dict_get_None_iff. assumption.
    + rewrite IH by assumption.
      destruct (eqb k' k0) eqn:E0; [|reflexivity].
      apply eqb_eq in E0. subst.
      destruct (eqb k0 k) eqn:E1; [|reflexivity].
      apply eqb_eq in E1. subst. rewrite eqb_refl in E. discriminate.
Qed.

Lemma set_mem_In (s : pyset K) (x : K) :
  set_mem eqb s x = true <-> In x s.
Proof.
  unfold set_mem. rewrite existsb_exists. split.
  - intros (y & Hy & E). apply eqb_eq in E. subst. assumption.
  - intros H. exists x. split; [assumption | apply eqb_refl].
Qed.

Lemma In_set_add (s : pyset K) (x y : K) :
  In y (set_add eqb s x) <-> y = x \/ In y s.
Proof.
  unfold set_add. destruct (set_mem eqb s x) eqn:E.
  - apply set_mem_In in E. split; [auto|]. intros [->|H]; assumption.
  - rewrite in_app_iff. simpl. intuition.
Qed.

Lemma length_set_add (s : pyset K) (x : K) :
  (length (set_add eqb s x) <= S (length s))%nat.
Proof.
  unfold set_add. destruct (set_mem eqb s x); [lia|].
  rewrite length_app. simpl. lia.
Qed.

Lemma In_set_update (t s : pyset K) (y : K) :
  In y (set_update eqb s t) <-> In y s \/ In y t.
Proof.
  unfold set_update. revert s.
  induction t as [|x t IH]; intros s; simpl; [tauto|].
  rewrite IH, In_set_add. intuition.
Qed.

Lemma length_set_update (t s : pyset K) :
  (length (set_update eqb s t) <= length s + length t)%nat.
Proof.
  unfold set_update. revert s.
  induction t as [|x t IH]; intros s; simpl; [lia|].
  specialize (IH (set_add eqb s x)).
  pose proof (length_set_add s x). lia.
Qed.
End DictFacts.

(** ** log_reader: the entries of a log file *)

Lemma bind_bind {A B C : Type} (m : result A) (f : A -> result B)
    (g : B -> result C) :
  bind (bind m f) g = bind m (fun a => bind (f a) g).
Proof. destruct m; reflexivity. Qed.

Lemma record_entries_loop_ops (fuel : nat) :
  forall (s : stream) (e : dict bytes bytes) (d : pyset bytes),
    log_reader.record_entries_loop fuel s e d
    = bind (record_ops_loop fuel s)
           (fun ops => Ok (fold_left apply_op ops (e, d))).
Proof.
  induction fuel as [|fuel IH]; intros s e d; [reflexivity|].
  cbn [log_reader.record_entries_loop record_ops_loop].
  destruct (util.bytes_left s =? 0); [reflexivity|].
  destruct (util.read_safe s 1) as [[b s1]|]; [|reflexivity]. cbn [bind].
  destruct (index b 0) as [t|]; [|reflexivity]. cbn [bind].
  destruct (byte_val t =? log_reader.kTypeValue).
  - destruct (util.read_varint32 s1) as [[kl s2]|]; [|reflexivity].
    cbn [bind].
    destruct (util.read_safe s2 kl) as [[k s3]|]; [|reflexivity]. cbn [bind].
    destruct (util.read_varint32 s3) as [[vl s4]|]; [|reflexivity].
    cbn [bind].
    destruct (util.read_safe s4 vl) as [[v s5]|]; [|reflexivity]. cbn [bind].
    rewrite IH, bind_bind. reflexivity.
  - destruct (byte_val t =? log_reader.kTypeDeletion); [|reflexivity].
    destruct (util.read_varint32 s1) as [[kl s2]|]; [|reflexivity].
    cbn [bind].
    destruct (util.read_safe s2 kl) as [[k s3]|]; [|reflexivity]. cbn [bind].
    rewrite IH, bind_bind. reflexivity.
Qed.

Lemma last_put_or_default (k : bytes) (ops : list op) (dflt : option bytes) :
  last_put_or k ops dflt
  = match last_put k ops with
    | Some v => Some v
    | None => dflt
    end.
Proof.
  unfold last_put, last_put_or. revert dflt.
  induction ops as [|o ops IH] using rev_ind; intros dflt; [reflexivity|].
  rewrite !fold_left_app. cbn [fold_left].
  destruct o as [k' v|k']; [|apply IH].
  destruct (bytes_eqb k k'); [reflexivity | apply IH].
Qed.

Lemma last_put_or_app (k : bytes) (ops1 ops2 : list op)
    (dflt : option bytes) :
  last_put_or k (ops1 ++ ops2) dflt
  = last_put_or k ops2 (last_put_or k ops1 dflt).
Proof. unfold last_put_or. apply fold_left_app. Qed.

Lemma apply_ops_get (ops : list op) :
  forall (e : dict bytes bytes) (d : pyset bytes) (k : bytes),
    dict_get bytes_eqb (fst (fold_left apply_op ops (e, d))) k
    = last_put_or k ops (dict_get bytes_eqb e k).
Proof.
  induction ops as [|o ops IH]; intros e d k; [reflexivity|].
  cbn [fold_left]. destruct o as [k' v|k']; cbn [apply_op fst snd].
  - rewrite IH. unfold last_put_or. cbn [fold_left].
    rewrite (dict_get_set bytes_eqb bytes_eqb_eq). reflexivity.
  - rewrite IH. reflexivity.
Qed.

Lemma apply_ops_NoDup (ops : list op) :
  forall (e : dict bytes bytes) (d : pyset bytes),
    NoDup (dict_keys e) ->
    NoDup (dict_keys (fst (fold_left apply_op ops (e, d)))).
Proof.
  induction ops as [|o ops IH]; intros e d H; [assumption|].
  cbn [fold_left]. destruct o as [k' v|k']; cbn [apply_op fst snd].
  - apply IH, (dict_set_NoDup bytes_eqb bytes_eqb_eq), H.
  - apply IH, H.
Qed.

Lemma apply_ops_deleted (ops : list op) :
  forall (e : dict bytes bytes) (d : pyset bytes) (k : bytes),
    In k (snd (fold_left apply_op ops (e, d)))
    <-> In k d \/ In (Delete k) ops.
Proof.
  induction ops as [|o ops IH]; intros e d k; cbn [fold_left].
  - simpl. tauto.
  - destruct o as [k' v|k']; cbn [apply_op fst snd]; rewrite IH.
    + simpl. split; [tauto|]. intros [H|[H|H]]; auto. discriminate.
    + rewrite (In_set_add bytes_eqb bytes_eqb_eq). simpl. split.
      * intros [[->|H]|H]; auto.
      * intros [H|[H|H]]; auto. inversion H. auto.
Qed.

Lemma declared_count_read (record b8 b4 : bytes) (r1 r2 : stream) :
  util.read_safe record 8 = Ok (b8, r1) ->
  util.read_safe r1 4 = Ok (b4, r2) ->
  declared_count record = from_bytes_le b4.
Proof.
  intros H1 H2. apply read_safe_Ok in H1, H2.
  destruct H1 as [-> L8], H2 as [-> L4]. unfold declared_count.
  rewrite <- L8, drop_app_len, <- L4, take_app_len. reflexivity.
Qed.

(** What a record that [get_record_entries] accepts holds. *)
Lemma get_record_entries_Ok (record : bytes) (e : dict bytes bytes)
    (d : pyset bytes) :
  log_reader.get_record_entries record = Ok (e, d) ->
  exists ops,
    record_ops record = Ok ops
    /\ (e, d) = fold_left apply_op ops ([], [])
    /\ len e + len d = declared_count record.
Proof.
  unfold log_reader.get_record_entries, record_ops. intros H.
  inv_bind H as [b8 r1]. inv_bind H as [b4 r2]. inv_bind H as [e' d'].
  inv_bind H as u. inv_Ok H. apply assert_Ok, Z.eqb_eq in Ha2.
  rewrite Ha. cbn [bind]. rewrite Ha0. cbn [bind].
  rewrite record_entries_loop_ops in Ha1.
  apply bind_Ok in Ha1. destruct Ha1 as (ops & Hops & Hst).
  exists ops. split; [assumption|].
  split; [injection Hst as Hst; symmetry; exact Hst|].
  rewrite (declared_count_read _ _ _ _ _ Ha Ha0). assumption.
Qed.

Lemma log_entries_loop_Ok (records : list bytes) :
  forall (e : dict bytes bytes) (d : pyset bytes) (acc : list op)
         (live : dict bytes bytes) (tombs : pyset bytes),
    log_reader.log_entries_loop records e d = Ok (live, tombs) ->
    NoDup (dict_keys e) ->
    Forall (fun record =>
              exists re rd,
                log_reader.get_record_entries record = Ok (re, rd)
                /\ len re + len rd = declared_count record) records
    /\ len live + len tombs <= len e + len d + total_declared_count records
    /\ NoDup (dict_keys live)
    /\ exists ops,
        log_ops_from records acc = Ok (acc ++ ops)
        /\ (forall k, dict_get bytes_eqb live k
                      = last_put_or k ops (dict_get bytes_eqb e k))
        /\ (forall k, In k tombs <-> In k d \/ In (Delete k) ops).
Proof.
  unfold log_reader.log_entries_loop, log_ops_from.
  induction records as [|record records IH];
    intros e d acc live tombs H Hnd; cbn [foldM] in *.
  - inv_Ok H. repeat split; try assumption; try constructor.
    + simpl. lia.
    + exists []. rewrite app_nil_r. repeat split; try reflexivity;
        simpl; tauto.
  - inv_bind H as [e1 d1].
    inv_bind Ha as [re rd]. inv_Ok Ha.
    destruct (get_record_entries_Ok _ _ _ Ha0) as (rops & Hrops & Hst & Hcnt).
    assert (Hre : re = fst (fold_left apply_op rops ([], [])))
      by (rewrite <- Hst; reflexivity).
    assert (Hrd : rd = snd (fold_left apply_op rops ([], [])))
      by (rewrite <- Hst; reflexivity).
    assert (Hrend : NoDup (dict_keys re)).
    { rewrite Hre. apply apply_ops_NoDup. constructor. }
    assert (Hnd1 : NoDup (dict_keys (dict_update bytes_eqb e re)))
      by (apply (dict_update_NoDup bytes_eqb bytes_eqb_eq), Hnd).
    destruct (IH _ _ (acc ++ rops) _ _ H Hnd1)
      as (HF & Hlen & Hlnd & ops & Hops & Hget & Htomb).
    split; [|split; [|split]].
    + constructor; [|assumption]. exists re, rd. auto.
    + cbn [total_declared_count fold_right].
      fold (total_declared_count records).
      pose proof (length_dict_update bytes_eqb re e).
      pose proof (length_set_update bytes_eqb rd d).
      unfold len in *. lia.
    + assumption.
    + exists (rops ++ ops). rewrite Hrops. cbn [bind].
      rewrite app_assoc. split; [assumption|]. split.
      * intros k. rewrite Hget, last_put_or_app.
        rewrite (dict_get_update bytes_eqb bytes_eqb_eq) by assumption.
        f_equal. rewrite Hre, apply_ops_get. cbn [dict_get].
        rewrite (last_put_or_default k rops (dict_get bytes_eqb e k)).
        reflexivity.
      * intros k. rewrite Htomb.
        rewrite (In_set_update bytes_eqb bytes_eqb_eq).
        rewrite Hrd, apply_ops_deleted, in_app_iff. simpl. tauto.
Qed.

(** C7 (as amended).  When a log file decodes, every record of it has as
    many distinct live keys and distinct deleted keys as it declares
    operations; over the whole file the live map and the tombstone set
    together have at most as many elements as the records declare in total;
    the live map gives each key the value of the last write to it in the
    file, and the tombstone set holds the keys of the deletions. *)
Theorem get_log_entries_counts (crc : bytes -> Z)
    (crc_update : Z -> bytes -> Z) (file : bytes)
    (live : dict bytes bytes) (tombstones : pyset bytes) :
  log_reader.get_log_entries crc crc_update file = Ok (live, tombstones) ->
  exists records ops,
    log_reader.get_log_records crc crc_update file = Ok records
    /\ log_ops records = Ok ops
    /\ Forall (fun record =>
                 exists re rd,
                   log_reader.get_record_entries record = Ok (re, rd)
                   /\ len re + len rd = declared_count record) records
    /\ len live + len tombstones <= total_declared_count records
    /\ (forall k, dict_get bytes_eqb live k = last_put k ops)
    /\ (forall k, In k tombstones <-> In (Delete k) ops).
Proof.
  unfold log_reader.get_log_entries. intros H. inv_bind H.
  rename a into records.
  destruct (log_entries_loop_Ok records [] [] [] live tombstones H)
    as (HF & Hlen & _ & ops & Hops & Hget & Htomb); [constructor|].
  exists records, ops.
  split; [assumption|]. split; [exact Hops|]. split; [assumption|].
  split; [unfold len in Hlen |- *; cbn [length] in Hlen; lia|].
  split; [intros k; apply Hget|].
  intros k. rewrite Htomb. simpl. tauto.
Qed.

Lemma get_log_entries_counts_witness :
  exists records ops,
    log_reader.get_log_records crc32c.crc crc32c.crc_update sample.log_s3
    = Ok records
    /\ log_ops records = Ok ops
    /\ Forall (fun record =>
                 exists re rd,
                   log_reader.get_record_entries record = Ok (re, rd)
                   /\ len re + len rd = declared_count record) records
    /\ len [(sample.ascii_bytes "gamma", sample.ascii_bytes "3")]
       + len [sample.ascii_bytes "beta"]
       <= total_declared_count records
    /\ (forall k,
          dict_get bytes_eqb
            [(sample.ascii_bytes "gamma", sample.ascii_bytes "3")] k
          = last_put k ops)
    /\ (forall k, In k [sample.ascii_bytes "beta"] <-> In (Delete k) ops).
Proof.
  apply (get_log_entries_counts crc32c.crc crc32c.crc_update sample.log_s3).
  reflexivity.
Defined.

(** C7 (counterexample).  A log file of two records, each of which
    declares one operation and writes the key [a]: the file decodes, the
    records declare two operations in total, and the live map and the
    tombstone set together have one element. *)
Lemma log_count_below_total :
  log_reader.get_log_records crc32c.crc crc32c.crc_update
    (hex [90; 177; 152; 156; 17; 0; 1;
          1; 0; 0; 0; 0; 0; 0; 0; 1; 0; 0; 0; 1; 1; 97; 1; 120;
          231; 204; 84; 216; 17; 0; 1;
          2; 0; 0; 0; 0; 0; 0; 0; 1; 0; 0; 0; 1; 1; 97; 1; 121])
  = Ok [hex [1; 0; 0; 0; 0; 0; 0; 0; 1; 0; 0; 0; 1; 1; 97; 1; 120];
        hex [2; 0; 0; 0; 0; 0; 0; 0; 1; 0; 0; 0; 1; 1; 97; 1; 121]]
  /\ total_declared_count
       [hex [1; 0; 0; 0; 0; 0; 0; 0; 1; 0; 0; 0; 1; 1; 97; 1; 120];
        hex [2; 0; 0; 0; 0; 0; 0; 0; 1; 0; 0; 0; 1; 1; 97; 1; 121]]
     = 2
  /\ log_reader.get_log_entries crc32c.crc crc32c.crc_update
       (hex [90; 177; 152; 156; 17; 0; 1;
             1; 0; 0; 0; 0; 0; 0; 0; 1; 0; 0; 0; 1; 1; 97; 1; 120;
             231; 204; 84; 216; 17; 0; 1;
             2; 0; 0; 0; 0; 0; 0; 0; 1; 0; 0; 0; 1; 1; 97; 1; 121])
     = Ok ([(hex [97], hex [121])], [])
  /\ len [(hex [97], hex [121])] + len (@nil bytes) = 1.
Proof. repeat split; reflexivity. Qed.

(** ** The snapshot *)

Lemma foldM_invariant {A S : Type} (P : S -> Prop)
    (f : S -> A -> result S) (l : list A) :
  (forall s a s', P s -> f s a = Ok s' -> P s') ->
  forall s s', P s -> foldM f l s = Ok s' -> P s'.
Proof.
  intros Hstep. induction l as [|a l IH]; intros s s' Hs H; cbn [foldM] in H.
  - inv_Ok H. assumption.
  - inv_bind H as s1. eapply IH; [|eassumption]. eapply Hstep; eassumption.
Qed.

Lemma block_entries_loop_meta (fuel : nat) :
  forall (data : bytes) (restart_offset : Z) (s : stream)
         (prev_key : option bytes) (self b : table_reader.Block),
    table_reader.block_entries_loop fuel false data restart_offset s
      prev_key self = Ok b ->
    table_reader.block_meta_entries b = table_reader.block_meta_entries self.
Proof.
  induction fuel as [|fuel IH]; intros data ro s prev self b H;
    cbn [table_reader.block_entries_loop] in H; [discriminate|].
  destruct (len data - len s <? ro); [|inv_Ok H; reflexivity].
  inv_bind H as [shared s1]. inv_bind H as [non_shared s2].
  inv_bind H as [val_len s3]. inv_bind H as shared_key_data.
  inv_bind H as [delta s4]. inv_bind H as [val s5]. inv_bind H as u.
  inv_bind H as self'. apply IH in H. rewrite H.
  destruct (Z.land _ 255 =? table_reader.kTypeValue) in Ha6.
  - inv_Ok Ha6. reflexivity.
  - destruct (Z.land _ 255 =? table_reader.kTypeDeletion) in Ha6;
      [|discriminate].
    inv_Ok Ha6. reflexivity.
Qed.

Section TableFacts.
Variable crc : bytes -> Z.
Variable crc_update : Z -> bytes -> Z.
Variable snappy_uncompress : bytes -> result bytes.

Lemma Block_init_data_meta (handle : table_reader.BlockHandle)
    (file : bytes) (b : table_reader.Block) :
  table_reader.Block_init crc crc_update snappy_uncompress handle file
    false = Ok b ->
  table_reader.block_meta_entries b = [].
Proof.
  unfold table_reader.Block_init. intros H.
  inv_bind H as [data block_type]. inv_bind H as data'.
  inv_bind H as u. apply block_entries_loop_meta in H. exact H.
Qed.

(** The meta-index block is read, but what goes into [meta_entries] comes
    from the data blocks, which are read with [is_meta] false. *)
Lemma Table_init_meta_entries (file : bytes)
    (t : table_reader.Table) :
  table_reader.Table_init crc crc_update snappy_uncompress file = Ok t ->
  table_reader.meta_entries t = [].
Proof.
  unfold table_reader.Table_init. intros H.
  inv_bind H as s1. inv_bind H as [b8 s2]. inv_bind H as u.
  inv_bind H as s3. inv_bind H as [footer s4].
  inv_bind H as [metaindex_handle footer1].
  inv_bind H as [index_handle footer2].
  inv_bind H as index_block. inv_bind H as meta_block.
  inv_bind H as data_blocks. inv_Ok H.
  assert (HF : Forall (fun b => table_reader.block_meta_entries b = [])
                 data_blocks).
  { revert Ha8. apply foldM_invariant; [|constructor].
    intros bs kv bs' Hbs Hstep.
    inv_bind Hstep as [h rest]. inv_bind Hstep as blk. inv_Ok Hstep.
    apply Forall_app. split; [assumption|].
    constructor; [|constructor].
    eapply Block_init_data_meta. eassumption. }
  clear Ha8.
  assert (G : forall init,
             table_reader.meta_entries init = [] ->
             table_reader.meta_entries
               (fold_left
                  (fun self db =>
                     table_reader.mkTable
                       (dict_update bytes_eqb (table_reader.entries self)
                          (table_reader.block_entries db))
                       (dict_update bytes_eqb
                          (table_reader.meta_entries self)
                          (table_reader.block_meta_entries db))
                       (dict_update bytes_eqb
                          (table_reader.deleted_entries self)
                          (table_reader.block_deleted_entries db)))
                  data_blocks init) = []).
  { induction HF as [|blk blks Hblk HF IH]; intros init Hinit;
      cbn [fold_left]; [assumption|].
    apply IH. cbn [table_reader.meta_entries]. rewrite Hinit, Hblk.
    reflexivity. }
  apply G. reflexivity.
Qed.
End TableFacts.

Lemma purge_keys_spec (ks : list bytes) :
  forall entries : dict bytes bytes,
    NoDup (dict_keys entries) ->
    NoDup (dict_keys
             (fold_left (fun entries k => snd (dict_pop bytes_eqb entries k))
                ks entries))
    /\ forall k,
        (In k ks ->
         dict_get bytes_eqb
           (fold_left (fun entries k => snd (dict_pop bytes_eqb entries k))
              ks entries) k = None)
        /\ (~ In k ks ->
            dict_get bytes_eqb
              (fold_left (fun entries k => snd (dict_pop bytes_eqb entries k))
                 ks entries) k = dict_get bytes_eqb entries k).
Proof.
  induction ks as [|k0 ks IH]; intros entries Hnd; cbn [fold_left].
  - split; [assumption|]. intros k. split; [intros []|reflexivity].
  - change (snd (dict_pop bytes_eqb entries k0))
      with (dict_remove bytes_eqb entries k0).
    destruct (IH (dict_remove bytes_eqb entries k0)) as [Hnd' Hget].
    { apply (dict_remove_NoDup bytes_eqb bytes_eqb_eq), Hnd. }
    split; [assumption|]. intros k. destruct (Hget k) as [Hin Hout].
    destruct (in_dec (list_eq_dec Byte.byte_eq_dec) k ks) as [Hk|Hk].
    + split; [auto|]. intros Hn. exfalso. apply Hn. right. assumption.
    + rewrite (Hout Hk).
      rewrite (dict_get_remove bytes_eqb bytes_eqb_eq) by assumption.
      split.
      * intros [->|Hk']; [|contradiction].
        rewrite bytes_eqb_refl. reflexivity.
      * intros Hn. rewrite (proj2 (bytes_eqb_neq k k0)); [reflexivity|].
        intros ->. apply Hn. left. reflexivity.
Qed.

Lemma purge_deleted_spec (entries deleted : dict bytes bytes) :
  NoDup (dict_keys entries) ->
  NoDup (dict_keys (db.purge_deleted entries deleted))
  /\ forall k,
      (In k (dict_keys deleted) ->
       dict_get bytes_eqb (db.purge_deleted entries deleted) k = None)
      /\ (~ In k (dict_keys deleted) ->
          dict_get bytes_eqb (db.purge_deleted entries deleted) k
          = dict_get bytes_eqb entries k).
Proof. apply purge_keys_spec. Qed.

Lemma move_deleted_spec (ks : list bytes) :
  forall entries deleted : dict bytes bytes,
    NoDup (dict_keys entries) ->
    disjoint_keys entries deleted ->
    NoDup (dict_keys (fst (db.move_deleted ks entries deleted)))
    /\ disjoint_keys (fst (db.move_deleted ks entries deleted))
         (snd (db.move_deleted ks entries deleted))
    /\ (forall k, In k (dict_keys deleted) ->
                  In k (dict_keys (snd (db.move_deleted ks entries deleted))))
    /\ (forall k, ~ In k ks ->
                  dict_get bytes_eqb
                    (fst (db.move_deleted ks entries deleted)) k
                  = dict_get bytes_eqb entries k).
Proof.
  unfold db.move_deleted.
  induction ks as [|k0 ks IH]; intros entries deleted Hnd Hdis;
    cbn [fold_left fst snd].
  - repeat split; auto.
  - cbn [dict_pop].
    assert (Hnd1 : NoDup (dict_keys (dict_remove bytes_eqb entries k0)))
      by (apply (dict_remove_NoDup bytes_eqb bytes_eqb_eq), Hnd).
    assert (Hget1 : forall k, k <> k0 ->
              dict_get bytes_eqb (dict_remove bytes_eqb entries k0) k
              = dict_get bytes_eqb entries k).
    { intros k Hk.
      rewrite (dict_get_remove bytes_eqb bytes_eqb_eq) by assumption.
      rewrite (proj2 (bytes_eqb_neq k k0)) by assumption. reflexivity. }
    assert (Hdis1 : forall deleted',
              (forall k, In k (dict_keys deleted') ->
                         k = k0 \/ In k (dict_keys deleted)) ->
              disjoint_keys (dict_remove bytes_eqb entries k0) deleted').
    { intros deleted' Hsub k Hin Hin'.
      apply (dict_keys_remove bytes_eqb bytes_eqb_eq) in Hin; [|assumption].
      destruct Hin as [Hin Hne].
      destruct (Hsub k Hin') as [->|Hd]; [congruence|].
      exact (Hdis k Hin Hd). }
    destruct (dict_get bytes_eqb entries k0) as [v|] eqn:G;
      [destruct (db.truthy v)|].
    + destruct (IH (dict_remove bytes_eqb entries k0)
                  (dict_set bytes_eqb deleted k0 v) Hnd1)
        as (H1 & H2 & H3 & H4).
      { apply Hdis1. intros k Hk.
        apply (dict_keys_set bytes_eqb bytes_eqb_eq) in Hk. exact Hk. }
      repeat split; try assumption.
      * intros k Hk. apply H3.
        apply (dict_keys_set bytes_eqb bytes_eqb_eq). right. assumption.
      * intros k Hk. rewrite H4 by (intros Hin; apply Hk; right; assumption).
        apply Hget1. intros ->. apply Hk. left. reflexivity.
    + destruct (IH (dict_remove bytes_eqb entries k0) deleted Hnd1)
        as (H1 & H2 & H3 & H4).
      { apply Hdis1. auto. }
      repeat split; try assumption.
      intros k Hk. rewrite H4 by (intros Hin; apply Hk; right; assumption).
      apply Hget1. intros ->. apply Hk. left. reflexivity.
    + destruct (IH (dict_remove bytes_eqb entries k0) deleted Hnd1)
        as (H1 & H2 & H3 & H4).
      { apply Hdis1. auto. }
      repeat split; try assumption.
      intros k Hk. rewrite H4 by (intros Hin; apply Hk; right; assumption).
      apply Hget1. intros ->. apply Hk. left. reflexivity.
Qed.

Lemma purge_deleted_disjoint (entries deleted : dict bytes bytes) :
  NoDup (dict_keys entries) ->
  disjoint_keys (db.purge_deleted entries deleted) deleted.
Proof.
  intros Hnd k Hin Hd.
  destruct (purge_deleted_spec entries deleted Hnd) as [_ Hget].
  destruct (Hget k) as [Hnone _]. specialize (Hnone Hd).
  apply (dict_get_None_iff bytes_eqb bytes_eqb_eq) in Hnone. contradiction.
Qed.

Section LogFacts.
Variable crc : bytes -> Z.
Variable crc_update : Z -> bytes -> Z.

Lemma get_log_entries_Ok (file : bytes) (live : dict bytes bytes)
    (tombstones : pyset bytes) :
  log_reader.get_log_entries crc crc_update file = Ok (live, tombstones) ->
  exists records ops,
    log_reader.get_log_records crc crc_update file = Ok records
    /\ log_ops records = Ok ops
    /\ NoDup (dict_keys live)
    /\ (forall k, dict_get bytes_eqb live k = last_put k ops)
    /\ (forall k, In k tombstones <-> In (Delete k) ops).
Proof.
  unfold log_reader.get_log_entries. intros H. inv_bind H as records.
  destruct (log_entries_loop_Ok records [] [] [] live tombstones H)
    as (_ & _ & Hnd & ops & Hops & Hget & Htomb); [constructor|].
  exists records, ops.
  split; [assumption|]. split; [exact Hops|]. split; [assumption|].
  split; [intros k; apply Hget|].
  intros k. rewrite Htomb. simpl. tauto.
Qed.
End LogFacts.

Section SnapshotFacts.
Variable crc : bytes -> Z.
Variable crc_update : Z -> bytes -> Z.
Variable snappy_uncompress : bytes -> result bytes.
Variable iter_files : pyset Z -> list Z.
Variable iter_keys : pyset bytes -> list bytes.

(** The steps of a construction that succeeds. *)
Lemma DB_init_Ok (dir : db.directory) (d : db.DB) :
  db.DB_init crc crc_update snappy_uncompress iter_files iter_keys dir
  = Ok d ->
  exists (e0 d0 e1 : dict bytes bytes) (deleted_keys : list bytes),
    db.get_manifest crc crc_update dir = Ok (db.manifest d)
    /\ db.meta_entries d = []
    /\ NoDup (dict_keys e0)
    /\ ((log_reader.log_number (db.manifest d) = -1
         /\ e1 = e0 /\ deleted_keys = [])
        \/ (log_reader.log_number (db.manifest d) <> -1
            /\ exists file live tombstones,
                db.files dir
                  (db.get_log_file
                     (log_reader.log_number (db.manifest d)))
                = Some file
                /\ log_reader.get_log_entries crc crc_update file
                   = Ok (live, tombstones)
                /\ e1 = dict_update bytes_eqb e0 live
                /\ deleted_keys = iter_keys tombstones))
    /\ db.entries d
       = fst (db.move_deleted deleted_keys (db.purge_deleted e1 d0) d0)
    /\ db.deleted_entries d
       = snd (db.move_deleted deleted_keys (db.purge_deleted e1 d0) d0).
Proof.
  unfold db.DB_init. intros H.
  inv_bind H as m. inv_bind H as [[e0 m0] d0].
  inv_bind H as [e1 deleted_keys].
  destruct (db.move_deleted deleted_keys (db.purge_deleted e1 d0) d0)
    as [e2 d2] eqn:Hmove.
  inv_Ok H. cbn [db.manifest db.meta_entries db.entries db.deleted_entries].
  assert (Hinv : NoDup (dict_keys e0) /\ m0 = []).
  { revert Ha0.
    apply (foldM_invariant
             (fun s : dict bytes bytes * dict bytes bytes
                      * dict bytes bytes =>
                NoDup (dict_keys (fst (fst s))) /\ snd (fst s) = []));
      [|split; [constructor|reflexivity]].
    intros [[e m'] d'] f_number s' [Hnd Hm] Hstep.
    cbn [fst snd] in *. subst m'.
    inv_bind Hstep as file. inv_bind Hstep as table. inv_Ok Hstep.
    cbn [fst snd]. split.
    - apply (dict_update_NoDup bytes_eqb bytes_eqb_eq), Hnd.
    - rewrite (Table_init_meta_entries _ _ _ _ _ Ha2). reflexivity. }
  destruct Hinv as [Hnd0 ->].
  exists e0, d0, e1, deleted_keys.
  split; [assumption|]. split; [reflexivity|]. split; [assumption|].
  split; [|rewrite Hmove; split; reflexivity].
  destruct (log_reader.log_number m =? -1) eqn:E.
  - apply Z.eqb_eq in E. inv_Ok Ha1. left. auto.
  - apply Z.eqb_neq in E. right. split; [assumption|].
    inv_bind Ha1 as file. inv_bind Ha1 as [live tombstones]. inv_Ok Ha1.
    unfold db.open_rb in Ha2.
    destruct (db.files dir _) as [content|] eqn:F; [|discriminate].
    inv_Ok Ha2. exists file, live, tombstones. auto.
Qed.

(** C1.  After the construction of a snapshot from a directory no key is
    in two of the three maps: no key of [entries] is a key of
    [deleted_entries], and [meta_entries], which is only ever filled from
    data blocks, has no key at all. *)
Theorem snapshot_partition (dir : db.directory) (d : db.DB) :
  db.DB_init crc crc_update snappy_uncompress iter_files iter_keys dir
  = Ok d ->
  disjoint_keys (db.entries d) (db.deleted_entries d)
  /\ disjoint_keys (db.meta_entries d) (db.entries d)
  /\ disjoint_keys (db.meta_entries d) (db.deleted_entries d).
Proof.
  intros H.
  destruct (DB_init_Ok dir d H)
    as (e0 & d0 & e1 & ks & _ & Hmeta & Hnd0 & Hlog & He & Hd).
  assert (Hnd1 : NoDup (dict_keys e1)).
  { destruct Hlog as [(_ & -> & _)|(_ & file & live & tombs & _ & _ & -> & _)];
      [assumption|].
    apply (dict_update_NoDup bytes_eqb bytes_eqb_eq), Hnd0. }
  destruct (purge_deleted_spec e1 d0 Hnd1) as [Hnd2 _].
  destruct (move_deleted_spec ks _ d0 Hnd2
              (purge_deleted_disjoint e1 d0 Hnd1)) as (_ & Hdis & _).
  rewrite He, Hd, Hmeta. split; [exact Hdis|].
  split; intros k [].
Qed.

(** C3 (as amended).  When the manifest names a log file, a key that the
    log file writes and does not delete, and that is not a key of
    [deleted_entries] -- no table file holds a tombstone for it -- has in
    [entries] the last value written for it in the log file, whatever the
    table files hold for it.  The iteration over the set of deleted keys
    is assumed to visit only elements of the set. *)
Theorem log_overlay_precedence (dir : db.directory) (d : db.DB) :
  (forall (s : pyset bytes) (k : bytes), In k (iter_keys s) -> In k s) ->
  db.DB_init crc crc_update snappy_uncompress iter_files iter_keys dir
  = Ok d ->
  log_reader.log_number (db.manifest d) <> -1 ->
  exists file records ops,
    db.files dir (db.get_log_file (log_reader.log_number (db.manifest d)))
    = Some file
    /\ log_reader.get_log_records crc crc_update file = Ok records
    /\ log_ops records = Ok ops
    /\ forall k v,
        last_put k ops = Some v ->
        ~ In (Delete k) ops ->
        ~ In k (dict_keys (db.deleted_entries d)) ->
        dict_get bytes_eqb (db.entries d) k = Some v.
Proof.
  intros Hiter H Hlogn.
  destruct (DB_init_Ok dir d H)
    as (e0 & d0 & e1 & ks & _ & Hmeta & Hnd0 & Hlog & He & Hd).
  destruct Hlog as [(E & _)|(_ & file & live & tombs & F & L & -> & ->)];
    [contradiction|].
  destruct (get_log_entries_Ok crc crc_update file live tombs L)
    as (records & ops & Hrec & Hops & Hndl & Hget & Htomb).
  exists file, records, ops. repeat (split; [assumption|]).
  intros k v Hlast Hndel Hnd.
  assert (Hnd1 : NoDup (dict_keys (dict_update bytes_eqb e0 live)))
    by (apply (dict_update_NoDup bytes_eqb bytes_eqb_eq), Hnd0).
  destruct (purge_deleted_spec _ d0 Hnd1) as [Hnd2 Hpurge].
  destruct (move_deleted_spec (iter_keys tombs) _ d0 Hnd2
              (purge_deleted_disjoint _ d0 Hnd1)) as (_ & _ & Hsub & Hmove).
  rewrite He, Hmove.
  - destruct (Hpurge k) as [_ Hout]. rewrite Hout.
    + rewrite (dict_get_update bytes_eqb bytes_eqb_eq) by assumption.
      rewrite Hget, Hlast. reflexivity.
    + intros Hin. apply Hnd. rewrite Hd. apply Hsub, Hin.
  - intros Hin. apply Hndel, Htomb, Hiter, Hin.
Qed.
End SnapshotFacts.

(** The scenarios S1, S2 and S3: an empty database; a table with two values
    and a tombstone; the same with a log file that writes gamma and deletes
    beta. *)
Example scenario_empty_database :
  (d <- sample.DB_init sample.dir_s1 ;;
   Ok (db.entries d, db.meta_entries d, db.deleted_entries d,
       log_reader.log_number (db.manifest d)))
  = Ok ([], [], [], -1).
Proof. vm_compute. reflexivity. Qed.

Example scenario_single_table :
  (d <- sample.DB_init sample.dir_s2 ;;
   Ok (db.entries d, db.deleted_entries d))
  = Ok ([(sample.ascii_bytes "beta", sample.ascii_bytes "2")],
        [(sample.ascii_bytes "alpha", [])]).
Proof. vm_compute. reflexivity. Qed.

Example scenario_log_overlay :
  (d <- sample.DB_init sample.dir_s3 ;;
   Ok (db.entries d, db.deleted_entries d))
  = Ok ([(sample.ascii_bytes "gamma", sample.ascii_bytes "3")],
        [(sample.ascii_bytes "alpha", []);
         (sample.ascii_bytes "beta", sample.ascii_bytes "2")]).
Proof. vm_compute. reflexivity. Qed.

Lemma snapshot_partition_witness :
  exists d : db.DB,
    sample.DB_init sample.dir_s3 = Ok d
    /\ disjoint_keys (db.entries d) (db.deleted_entries d)
    /\ disjoint_keys (db.meta_entries d) (db.entries d)
    /\ disjoint_keys (db.meta_entries d) (db.deleted_entries d).
Proof.
  let r := eval vm_compute in (sample.DB_init sample.dir_s3) in
  match r with
  | Ok ?d => exists d
  end.
  split; [vm_compute; reflexivity|].
  apply (snapshot_partition crc32c.crc crc32c.crc_update sample.no_snappy
           (fun s => s) (fun s => s) sample.dir_s3).
  vm_compute. reflexivity.
Defined.

Lemma log_overlay_precedence_witness :
  exists d : db.DB,
    sample.DB_init sample.dir_s3 = Ok d
    /\ exists file records ops,
        db.files sample.dir_s3
          (db.get_log_file (log_reader.log_number (db.manifest d)))
        = Some file
        /\ log_reader.get_log_records crc32c.crc crc32c.crc_update file
           = Ok records
        /\ log_ops records = Ok ops
        /\ forall k v,
            last_put k ops = Some v ->
            ~ In (Delete k) ops ->
            ~ In k (dict_keys (db.deleted_entries d)) ->
            dict_get bytes_eqb (db.entries d) k = Some v.
Proof.
  let r := eval vm_compute in (sample.DB_init sample.dir_s3) in
  match r with
  | Ok ?d => exists d
  end.
  split; [vm_compute; reflexivity|].
  apply (log_overlay_precedence crc32c.crc crc32c.crc_update sample.no_snappy
           (fun s => s) (fun s => s) sample.dir_s3).
  - intros s k H. exact H.
  - vm_compute. reflexivity.
  - vm_compute. discriminate.
Defined.

(** C3 (counterexample).  The table file holds a value and a tombstone for
    alpha, and the log file writes alpha: the key is in a live table file
    and in the log file, the last value written for it in the log file is
    [9], and [entries] has no value for it. *)
Lemma log_value_purged :
  table_reader.Table_init crc32c.crc crc32c.crc_update sample.no_snappy
    sample.table_s2
  = Ok (table_reader.mkTable
          [(sample.ascii_bytes "alpha", sample.ascii_bytes "1");
           (sample.ascii_bytes "beta", sample.ascii_bytes "2")]
          []
          [(sample.ascii_bytes "alpha", [])])
  /\ log_reader.get_log_entries crc32c.crc crc32c.crc_update sample.log_alpha
     = Ok ([(sample.ascii_bytes "alpha", sample.ascii_bytes "9")], [])
  /\ (d <- sample.DB_init sample.dir_alpha ;;
      Ok (db.entries d, db.deleted_entries d))
     = Ok ([(sample.ascii_bytes "beta", sample.ascii_bytes "2")],
           [(sample.ascii_bytes "alpha", [])])
  /\ (d <- sample.DB_init sample.dir_alpha ;;
      Ok (dict_get bytes_eqb (db.entries d) (sample.ascii_bytes "alpha")))
     = Ok None.
Proof. repeat split; vm_compute; reflexivity. Qed.

(** C2 (code bug).  The log file deletes ghost, which is not in [entries],
    empty, whose value in [entries] is the empty byte string, and beta,
    whose value is [2].  Only beta is moved to [deleted_entries]: ghost is
    not recorded there, and empty leaves [entries] without being recorded
    either. *)
Theorem log_tombstones_not_recorded :
  table_reader.Table_init crc32c.crc crc32c.crc_update sample.no_snappy
    sample.table_empty
  = Ok (table_reader.mkTable
          [(sample.ascii_bytes "beta", sample.ascii_bytes "2");
           (sample.ascii_bytes "empty", [])]
          [] [])
  /\ log_reader.get_log_entries crc32c.crc crc32c.crc_update
       sample.log_tombstones
     = Ok ([], [sample.ascii_bytes "ghost"; sample.ascii_bytes "empty";
                sample.ascii_bytes "beta"])
  /\ (d <- sample.DB_init sample.dir_tombstones ;;
      Ok (db.entries d, db.deleted_entries d))
     = Ok ([], [(sample.ascii_bytes "beta", sample.ascii_bytes "2")]).
Proof. repeat split; vm_compute; reflexivity. Qed.

(** ** The fuel of the loops is enough

    The loops that are not structural take a bound on the number of their
    turns.  At the bound they are started with, they never stop for lack
    of fuel: every turn reads at least one byte. *)

Lemma fueled_Ok {A : Type} (a : A) : fueled (Ok a).
Proof. discriminate. Qed.

Lemma fueled_bind {A B : Type} (m : result A) (k : A -> result B) :
  fueled m -> (forall a, m = Ok a -> fueled (k a)) -> fueled (bind m k).
Proof.
  intros Hm Hk. destruct m as [a|e]; cbn [bind]; [apply Hk; reflexivity|].
  intros E. apply Hm. injection E as ->. reflexivity.
Qed.

Lemma fueled_assert (c : bool) (msg : string) : fueled (assert c msg).
Proof. destruct c; discriminate. Qed.

Lemma fueled_index {A : Type} (l : list A) (i : Z) : fueled (index l i).
Proof.
  unfold index. destruct (_ <? 0); [discriminate|].
  destruct (drop _ l); discriminate.
Qed.

Lemma fueled_stream_read (s : stream) (n : Z) : fueled (stream_read s n).
Proof.
  unfold stream_read. destruct (n >? ssize_max); [discriminate|].
  destruct (n <? 0); discriminate.
Qed.

Lemma fueled_read_safe (s : stream) (n : Z) : fueled (util.read_safe s n).
Proof.
  unfold util.read_safe. apply fueled_bind; [apply fueled_stream_read|].
  intros [ret s'] _. apply fueled_bind; [apply fueled_assert|].
  intros _ _. apply fueled_Ok.
Qed.

Lemma fueled_read_varint (s : stream) (max_bytes : Z) :
  fueled (util.read_varint s max_bytes).
Proof.
  unfold util.read_varint. generalize 0 at 1. generalize 0.
  induction s as [|b s IH]; intros r i; cbn [util.read_varint_loop].
  - destruct (i <? max_bytes); discriminate.
  - destruct (i <? max_bytes); [|discriminate].
    destruct (Z.land (byte_val b) 128 =? 0); [discriminate | apply IH].
Qed.

Lemma fueled_bytes_of_ints (l : list Z) : fueled (bytes_of_ints l).
Proof.
  induction l as [|z l IH]; cbn [bytes_of_ints]; [discriminate|].
  destruct (byte_of_Z z); [|discriminate].
  apply fueled_bind; [assumption|]. intros bs _. discriminate.
Qed.

Lemma read_safe_length (s : stream) (n : Z) (b : bytes) (s' : stream) :
  util.read_safe s n = Ok (b, s') ->
  length s = (length b + length s')%nat /\ len b = n.
Proof.
  intros H. apply read_safe_Ok in H. destruct H as [-> Hn].
  rewrite length_app. auto.
Qed.

Lemma stream_read_length (s : stream) (n : Z) (b : bytes) (s' : stream) :
  stream_read s n = Ok (b, s') -> (length s' <= length s)%nat.
Proof.
  unfold stream_read. destruct (n >? ssize_max); [discriminate|].
  destruct (n <? 0); intros H; inv_Ok H.
  - simpl. lia.
  - pose proof (len_drop n s) as Hd. unfold len in Hd. lia.
Qed.

Lemma read_varint_loop_length (max_bytes : Z) (s : stream) :
  forall (i r v : Z) (s' : stream),
    util.read_varint_loop max_bytes s i r = Ok (v, s') ->
    (length s' <= length s)%nat
    /\ (i < max_bytes -> (length s' < length s)%nat).
Proof.
  induction s as [|b s IH]; intros i r v s' H; cbn [util.read_varint_loop] in H.
  - destruct (i <? max_bytes) eqn:E; [discriminate|]. inv_Ok H.
    apply Z.ltb_ge in E. split; [lia|]. lia.
  - destruct (i <? max_bytes) eqn:E.
    + destruct (Z.land (byte_val b) 128 =? 0).
      * inv_Ok H. simpl. split; lia.
      * apply IH in H. destruct H as [H _]. simpl. split; lia.
    + inv_Ok H. apply Z.ltb_ge in E. split; [lia|]. lia.
Qed.

Lemma read_varint32_length (s : stream) (v : Z) (s' : stream) :
  util.read_varint32 s = Ok (v, s') -> (length s' < length s)%nat.
Proof.
  intros H. apply read_varint_loop_length in H. apply H. lia.
Qed.

Lemma read_varint64_length (s : stream) (v : Z) (s' : stream) :
  util.read_varint64 s = Ok (v, s') -> (length s' < length s)%nat.
Proof.
  intros H. apply read_varint_loop_length in H. apply H. lia.
Qed.

Lemma read_safe_1_length (s : stream) (b : bytes) (s' : stream) :
  util.read_safe s 1 = Ok (b, s') -> length s = S (length s').
Proof.
  intros H. apply read_safe_length in H. destruct H as [H1 H2].
  unfold len in H2. lia.
Qed.

(** Steps of a proof that a sequence of reads does not run out of fuel:
    [fuel_read] goes under a read and records how much shorter the stream
    has become. *)
Ltac fuel_read :=
  apply fueled_bind;
  [ first [ apply fueled_read_safe | apply fueled_read_varint
          | apply fueled_index | apply fueled_assert
          | apply fueled_stream_read | apply fueled_bytes_of_ints ]
  | let a := fresh "a" in
    let H := fresh "R" in
    intros a H;
    try (lazymatch type of a with
         | (_ * _)%type => destruct a
         end);
    first [ pose proof (read_safe_1_length _ _ _ H)
          | pose proof (proj1 (read_safe_length _ _ _ _ H))
          | pose proof (read_varint32_length _ _ _ H)
          | pose proof (read_varint64_length _ _ _ H)
          | pose proof (stream_read_length _ _ _ _ H)
          | idtac ];
    cbv beta iota ].

Lemma record_entries_loop_fueled (fuel : nat) :
  forall (s : stream) (e : dict bytes bytes) (d : pyset bytes),
    (length s < fuel)%nat ->
    fueled (log_reader.record_entries_loop fuel s e d).
Proof.
  induction fuel as [|fuel IH]; intros s e d Hf; [lia|].
  cbn [log_reader.record_entries_loop].
  destruct (util.bytes_left s =? 0); [apply fueled_Ok|].
  fuel_read. fuel_read.
  destruct (_ =? log_reader.kTypeValue).
  - do 4 fuel_read. apply IH. lia.
  - destruct (_ =? log_reader.kTypeDeletion); [|discriminate].
    do 2 fuel_read. apply IH. lia.
Qed.

(** [get_record_entries] never stops for lack of fuel. *)
Lemma get_record_entries_fueled (record : bytes) :
  fueled (log_reader.get_record_entries record).
Proof.
  unfold log_reader.get_record_entries. do 2 fuel_read.
  apply fueled_bind; [apply record_entries_loop_fueled; lia|].
  intros [e d] _. fuel_read. apply fueled_Ok.
Qed.

Lemma fueled_foldM {A S : Type} (f : S -> A -> result S) (l : list A) :
  (forall s a, fueled (f s a)) -> forall s, fueled (foldM f l s).
Proof.
  intros Hf. induction l as [|a l IH]; intros s; cbn [foldM].
  - apply fueled_Ok.
  - apply fueled_bind; [apply Hf|]. intros s' _. apply IH.
Qed.

Lemma get_internal_key_data_length (s : stream) (k : bytes) (s' : stream) :
  log_reader.get_internal_key_data s = Ok (k, s') ->
  (length s' < length s)%nat.
Proof.
  unfold log_reader.get_internal_key_data. intros H.
  inv_bind H as [n s1]. inv_bind H as [b s2]. inv_Ok H.
  apply read_varint32_length in Ha. apply read_safe_length in Ha0. lia.
Qed.

Lemma fueled_get_internal_key_data (s : stream) :
  fueled (log_reader.get_internal_key_data s).
Proof.
  unfold log_reader.get_internal_key_data. do 2 fuel_read. apply fueled_Ok.
Qed.

Ltac fuel_key :=
  apply fueled_bind;
  [ apply fueled_get_internal_key_data
  | let a := fresh "a" in
    let H := fresh "R" in
    intros a H; destruct a;
    pose proof (get_internal_key_data_length _ _ _ H); cbv beta iota ].

Lemma manifest_fields_loop_fueled (fuel : nat) :
  forall (s : stream) (m : log_reader.Manifest),
    (length s < fuel)%nat ->
    fueled (log_reader.manifest_fields_loop fuel s m).
Proof.
  induction fuel as [|fuel IH]; intros s m Hf; [lia|].
  cbn [log_reader.manifest_fields_loop].
  destruct (util.bytes_left s =? 0); [apply fueled_Ok|].
  fuel_read. fuel_read.
  repeat match goal with
         | |- fueled (if ?c then _ else _) => destruct c
         end;
    try discriminate;
    repeat first [fuel_read | fuel_key]; apply IH; lia.
Qed.

Lemma block_entries_loop_fueled (fuel : nat) :
  forall (is_meta : bool) (data : bytes) (restart_offset : Z) (s : stream)
         (prev_key : option bytes) (self : table_reader.Block),
    (length s < fuel)%nat ->
    fueled (table_reader.block_entries_loop fuel is_meta data restart_offset
              s prev_key self).
Proof.
  induction fuel as [|fuel IH]; intros is_meta data ro s prev self Hf; [lia|].
  cbn [table_reader.block_entries_loop].
  destruct (_ <? ro); [|apply fueled_Ok].
  do 3 fuel_read.
  apply fueled_bind.
  { destruct (_ >? 0); [destruct prev|]; discriminate. }
  intros shared_key_data _. do 3 fuel_read.
  apply fueled_bind.
  { destruct is_meta; [discriminate|].
    destruct (_ =? table_reader.kTypeValue); [discriminate|].
    destruct (_ =? table_reader.kTypeDeletion); discriminate. }
  intros self' _. apply IH. lia.
Qed.

Section FuelOfReaders.
Variable crc : bytes -> Z.
Variable crc_update : Z -> bytes -> Z.
Variable snappy_uncompress : bytes -> result bytes.
Hypothesis fueled_snappy : forall b, fueled (snappy_uncompress b).

Lemma fueled_get_record (s : stream) :
  fueled (log_reader.get_record crc crc_update s).
Proof.
  unfold log_reader.get_record. do 7 fuel_read. apply fueled_Ok.
Qed.

Lemma fueled_BlockHandle_init (s : stream) :
  fueled (table_reader.BlockHandle_init s).
Proof.
  unfold table_reader.BlockHandle_init. do 2 fuel_read. apply fueled_Ok.
Qed.

Lemma fueled_Block_read (handle : table_reader.BlockHandle) (file : bytes) :
  fueled (table_reader.Block_read crc crc_update handle file).
Proof.
  unfold table_reader.Block_read. apply fueled_bind.
  { unfold table_reader.file_seek.
    destruct (_ >? ssize_max); [discriminate|].
    destruct (_ <? 0); discriminate. }
  intros s _. do 4 fuel_read. apply fueled_Ok.
Qed.

Lemma fueled_Block_init (handle : table_reader.BlockHandle) (file : bytes)
    (is_meta : bool) :
  fueled (table_reader.Block_init crc crc_update snappy_uncompress handle
            file is_meta).
Proof.
  unfold table_reader.Block_init.
  apply fueled_bind; [apply fueled_Block_read|]. intros [data block_type] _.
  apply fueled_bind.
  { destruct (_ =? table_reader.kNoCompression); [discriminate|].
    destruct (_ =? table_reader.kSnappyCompression);
      [apply fueled_snappy | discriminate]. }
  intros data' _. fuel_read.
  apply block_entries_loop_fueled. lia.
Qed.

(** [Table.__init__] never stops for lack of fuel. *)
Lemma fueled_Table_init (file : bytes) :
  fueled (table_reader.Table_init crc crc_update snappy_uncompress file).
Proof.
  unfold table_reader.Table_init.
  apply fueled_bind.
  { unfold table_reader.file_seek_end. destruct (_ <? 8); discriminate. }
  intros s _. do 2 fuel_read.
  apply fueled_bind.
  { unfold table_reader.file_seek_end. destruct (_ <? 40 + 8); discriminate. }
  intros s' _. fuel_read.
  apply fueled_bind; [apply fueled_BlockHandle_init|]. intros [h1 r1] _.
  apply fueled_bind; [apply fueled_BlockHandle_init|]. intros [h2 r2] _.
  apply fueled_bind; [apply fueled_Block_init|]. intros index_block _.
  apply fueled_bind; [apply fueled_Block_init|]. intros meta_block _.
  apply fueled_bind; [|intros data_blocks _; apply fueled_Ok].
  apply fueled_foldM. intros bs kv.
  apply fueled_bind; [apply fueled_BlockHandle_init|]. intros [h r] _.
  apply fueled_bind; [apply fueled_Block_init|]. intros blk _.
  apply fueled_Ok.
Qed.
End FuelOfReaders.

Lemma get_next_block_Some (log block log' : stream) :
  log_reader.get_next_block log = Some (block, log') ->
  (1 <= length block)%nat
  /\ length log = (length block + length log')%nat.
Proof.
  unfold log_reader.get_next_block. intros H.
  pose proof (take_drop (1024 * 32) log) as E.
  destruct (take (1024 * 32) log) as [|x l] eqn:T; [discriminate|].
  injection H as <- <-. split; [simpl; lia|].
  rewrite <- E at 1. rewrite length_app. reflexivity.
Qed.

Section FuelOfRecords.
Variable crc : bytes -> Z.
Variable crc_update : Z -> bytes -> Z.

Lemma get_record_length (s : stream) (data : bytes) (ty : Z) (s' : stream) :
  log_reader.get_record crc crc_update s = Ok (data, ty, s') ->
  (length s' + 7 <= length s)%nat.
Proof.
  unfold log_reader.get_record. intros H.
  inv_bind H as [b4 s1]. inv_bind H as [b2 s2]. inv_bind H as [b1 s3].
  inv_bind H as t. inv_bind H as [d s4]. inv_bind H as tb. inv_bind H as u.
  inv_Ok H.
  apply read_safe_length in Ha, Ha0, Ha1, Ha3.
  unfold len in *. lia.
Qed.

Lemma fragments_loop_fueled (fuel : nat) :
  forall (log block : stream) (full : bytes),
    (length log + length block < fuel)%nat ->
    fueled (log_reader.fragments_loop crc crc_update fuel log block full).
Proof.
  induction fuel as [|fuel IH]; intros log block full Hf; [lia|].
  cbn [log_reader.fragments_loop].
  destruct (negb (log_reader.records_left_in_block block)).
  - destruct (log_reader.get_next_block log) as [[block1 log1]|] eqn:N;
      [|discriminate].
    apply get_next_block_Some in N. destruct N as [N1 N2]. cbn [bind].
    apply fueled_bind; [apply fueled_get_record|].
    intros [[record ty] block2] R. apply get_record_length in R.
    destruct (ty =? log_reader.RECORD_TYPE_MIDDLE); [apply IH; lia|].
    destruct (ty =? log_reader.RECORD_TYPE_LAST); discriminate.
  - cbn [bind].
    apply fueled_bind; [apply fueled_get_record|].
    intros [[record ty] block2] R. apply get_record_length in R.
    destruct (ty =? log_reader.RECORD_TYPE_MIDDLE); [apply IH; lia|].
    destruct (ty =? log_reader.RECORD_TYPE_LAST); discriminate.
Qed.

Lemma fragments_loop_length (fuel : nat) :
  forall (log block : stream) (full full' : bytes) (log' block' : stream),
    log_reader.fragments_loop crc crc_update fuel log block full
    = Ok (full', log', block') ->
    (3 * length log' + length block' + 7
     <= 3 * length log + length block)%nat.
Proof.
  induction fuel as [|fuel IH]; intros log block full full' log' block' H;
    cbn [log_reader.fragments_loop] in H; [discriminate|].
  destruct (negb (log_reader.records_left_in_block block)).
  - destruct (log_reader.get_next_block log) as [[block1 log1]|] eqn:N;
      [|discriminate].
    apply get_next_block_Some in N. destruct N as [N1 N2]. cbn [bind] in H.
    inv_bind H as [[record ty] block2]. apply get_record_length in Ha.
    destruct (ty =? log_reader.RECORD_TYPE_MIDDLE).
    + apply IH in H. lia.
    + destruct (ty =? log_reader.RECORD_TYPE_LAST); [|discriminate].
      inv_Ok H. lia.
  - cbn [bind] in H.
    inv_bind H as [[record ty] block2]. apply get_record_length in Ha.
    destruct (ty =? log_reader.RECORD_TYPE_MIDDLE).
    + apply IH in H. lia.
    + destruct (ty =? log_reader.RECORD_TYPE_LAST); [|discriminate].
      inv_Ok H. lia.
Qed.

Lemma blocks_loop_fueled (fuel : nat) :
  (forall (log : stream) (records : list bytes),
      (3 * length log + 1 <= fuel)%nat ->
      fueled (log_reader.blocks_loop crc crc_update fuel log records))
  /\ (forall (log block : stream) (records : list bytes),
      (3 * length log + length block + 2 <= fuel)%nat ->
      fueled (log_reader.block_records_loop crc crc_update fuel log block
                records)).
Proof.
  induction fuel as [|fuel [IH1 IH2]]; [split; intros; lia|].
  split.
  - intros log records Hf. cbn [log_reader.blocks_loop].
    destruct (log_reader.get_next_block log) as [[block log']|] eqn:N;
      [|apply fueled_Ok].
    apply get_next_block_Some in N. destruct N as [N1 N2].
    apply IH2. lia.
  - intros log block records Hf. cbn [log_reader.block_records_loop].
    destruct (log_reader.records_left_in_block block); [|apply IH1; lia].
    apply fueled_bind; [apply fueled_get_record|].
    intros [[full ty] block1] R. apply get_record_length in R.
    cbv beta iota.
    destruct (negb (ty =? log_reader.RECORD_TYPE_FULL)).
    + apply fueled_bind.
      * apply fueled_bind; [apply fueled_assert|]. intros _ _.
        apply fragments_loop_fueled. lia.
      * intros [[full' log'] block'] F. cbv beta iota.
        apply bind_Ok in F. destruct F as (u & _ & F).
        apply fragments_loop_length in F. apply IH2. lia.
    + cbn [bind]. apply IH2. lia.
Qed.

(** [get_log_records] never stops for lack of fuel. *)
Lemma fueled_get_log_records (file : bytes) :
  fueled (log_reader.get_log_records crc crc_update file).
Proof.
  unfold log_reader.get_log_records. apply blocks_loop_fueled. lia.
Qed.

(** [get_log_entries] never stops for lack of fuel. *)
Lemma fueled_get_log_entries (file : bytes) :
  fueled (log_reader.get_log_entries crc crc_update file).
Proof.
  unfold log_reader.get_log_entries.
  apply fueled_bind; [apply fueled_get_log_records|]. intros records _.
  unfold log_reader.log_entries_loop. apply fueled_foldM.
  intros [e d] record.
  apply fueled_bind; [apply get_record_entries_fueled|].
  intros [re rd] _. apply fueled_Ok.
Qed.

(** [Manifest.__init__] never stops for lack of fuel. *)
Lemma fueled_Manifest_init (file : bytes) :
  fueled (log_reader.Manifest_init crc crc_update file).
Proof.
  unfold log_reader.Manifest_init.
  apply fueled_bind; [apply fueled_get_log_records|]. intros records _.
  apply fueled_bind; [|intros m _; apply fueled_Ok].
  apply fueled_foldM. intros m record.
  apply manifest_fields_loop_fueled. lia.
Qed.
End FuelOfRecords.

Section FuelOfSnapshot.
Variable crc : bytes -> Z.
Variable crc_update : Z -> bytes -> Z.
Variable snappy_uncompress : bytes -> result bytes.
Variable iter_files : pyset Z -> list Z.
Variable iter_keys : pyset bytes -> list bytes.
Hypothesis fueled_snappy : forall b, fueled (snappy_uncompress b).

Lemma fueled_open_rb (dir : db.directory) (name : string) :
  fueled (db.open_rb dir name).
Proof. unfold db.open_rb. destruct (db.files dir name); discriminate. Qed.

Lemma fueled_get_manifest (dir : db.directory) :
  fueled (db.get_manifest crc crc_update dir).
Proof.
  unfold db.get_manifest. destruct (db.current dir); [|discriminate].
  do 4 fuel_read.
  apply fueled_bind; [apply fueled_open_rb|]. intros file _.
  apply fueled_Manifest_init.
Qed.

(** The construction of a snapshot never stops for lack of fuel, provided
    the Snappy codec does not. *)
Lemma fueled_DB_init (dir : db.directory) :
  fueled (db.DB_init crc crc_update snappy_uncompress iter_files iter_keys
            dir).
Proof.
  unfold db.DB_init.
  apply fueled_bind; [apply fueled_get_manifest|]. intros m _.
  apply fueled_bind.
  { apply fueled_foldM. intros [[e me] de] f_number.
    apply fueled_bind; [apply fueled_open_rb|]. intros file _.
    apply fueled_bind; [apply fueled_Table_init, fueled_snappy|].
    intros table _. apply fueled_Ok. }
  intros [[e me] de] _.
  apply fueled_bind.
  { destruct (_ =? -1); [apply fueled_Ok|].
    apply fueled_bind; [apply fueled_open_rb|]. intros file _.
    apply fueled_bind; [apply fueled_get_log_entries|].
    intros [live tombs] _. apply fueled_Ok. }
  intros [e1 ks] _.
  destruct (db.move_deleted ks (db.purge_deleted e1 de) de).
  apply fueled_Ok.
Qed.
End FuelOfSnapshot.

Lemma fueled_utf16_units (big_endian : bool) :
  forall b : bytes, fueled (indexeddb.utf16_units big_endian b).
Proof.
  fix IH 1. intros [|x [|y b]]; cbn [indexeddb.utf16_units];
    try discriminate.
  apply fueled_bind; [apply IH|]. intros us _. discriminate.
Qed.

Lemma fueled_utf16_code_points :
  forall units : list Z, fueled (indexeddb.utf16_code_points units).
Proof.
  fix IH 1. intros [|u rest]; cbn [indexeddb.utf16_code_points];
    [discriminate|].
  destruct ((0xD800 <=? u) && (u <=? 0xDBFF)).
  - destruct rest as [|u' rest']; [discriminate|].
    destruct ((0xDC00 <=? u') && (u' <=? 0xDFFF)); [|discriminate].
    apply fueled_bind; [apply IH|]. intros cps _. discriminate.
  - destruct ((0xDC00 <=? u) && (u <=? 0xDFFF)); [discriminate|].
    apply fueled_bind; [apply IH|]. intros cps _. discriminate.
Qed.

Lemma fueled_decode_utf16 (b : bytes) :
  fueled (indexeddb.decode_utf16be b) /\ fueled (indexeddb.decode_utf16le b).
Proof.
  unfold indexeddb.decode_utf16be, indexeddb.decode_utf16le.
  split; (apply fueled_bind; [apply fueled_utf16_units|]);
    intros units _; apply fueled_utf16_code_points.
Qed.

(** Destruct the condition of the conditional that a hypothesis, or the
    goal, starts with. *)
Ltac case_if_in H :=
  match type of H with
  | (if ?c then _ else _) = _ => destruct c
  end.

Ltac case_if :=
  match goal with
  | |- fueled (if ?c then _ else _) => destruct c
  end.

Lemma parse_key_length (fuel : nat) :
  (forall (s : stream) (k : indexeddb.key) (s' : stream),
      indexeddb.parse_key fuel s = Ok (k, s') ->
      (length s' < length s)%nat)
  /\ (forall (n : Z) (s : stream) (acc ks : list indexeddb.key)
        (s' : stream),
      indexeddb.parse_key_array fuel n s acc = Ok (ks, s') ->
      (length s' <= length s)%nat).
Proof.
  induction fuel as [|fuel [IH1 IH2]]; [split; intros; discriminate|].
  split.
  - intros s k s' H. cbn [indexeddb.parse_key] in H.
    inv_bind H as [b s1]. apply read_safe_1_length in Ha.
    inv_bind H as t.
    case_if_in H; [discriminate|].
    case_if_in H.
    { inv_bind H as [buf s2]. inv_Ok H. apply read_safe_length in Ha1. lia. }
    case_if_in H; [discriminate|].
    case_if_in H.
    { inv_bind H as [n s2]. inv_bind H as [str s3]. inv_bind H as ret.
      inv_Ok H. apply read_varint64_length in Ha1.
      apply read_safe_length in Ha2. lia. }
    case_if_in H.
    { inv_bind H as [n s2]. inv_bind H as [ret s3]. inv_Ok H.
      apply read_varint64_length in Ha1. apply read_safe_length in Ha2.
      lia. }
    case_if_in H; [|discriminate].
    inv_bind H as [n s2]. inv_bind H as [ret s3]. inv_Ok H.
    apply read_varint64_length in Ha1. apply IH2 in Ha2. lia.
  - intros n s acc ks s' H. cbn [indexeddb.parse_key_array] in H.
    case_if_in H; [inv_Ok H; lia|].
    inv_bind H as [k s1]. apply IH1 in Ha. apply IH2 in H. lia.
Qed.

Lemma parse_key_fueled (fuel : nat) :
  (forall s : stream,
      (2 * length s + 1 <= fuel)%nat -> fueled (indexeddb.parse_key fuel s))
  /\ (forall (n : Z) (s : stream) (acc : list indexeddb.key),
      (2 * length s + 2 <= fuel)%nat ->
      fueled (indexeddb.parse_key_array fuel n s acc)).
Proof.
  induction fuel as [|fuel [IH1 IH2]]; [split; intros; lia|].
  split.
  - intros s Hf. cbn [indexeddb.parse_key]. do 2 fuel_read.
    case_if; [discriminate|].
    case_if; [fuel_read; apply fueled_Ok|].
    case_if; [discriminate|].
    case_if.
    { do 2 fuel_read.
      apply fueled_bind; [apply fueled_decode_utf16|].
      intros ret _. apply fueled_Ok. }
    case_if; [do 2 fuel_read; apply fueled_Ok|].
    case_if; [|discriminate].
    fuel_read.
    apply fueled_bind; [apply IH2; lia|]. intros [ret s3] _.
    apply fueled_Ok.
  - intros n s acc Hf. cbn [indexeddb.parse_key_array].
    case_if; [apply fueled_Ok|].
    apply fueled_bind; [apply IH1; lia|]. intros [k s1] R.
    apply (proj1 (parse_key_length fuel)) in R. apply IH2. lia.
Qed.

(** [IDBKey.__init__] never stops for lack of fuel. *)
Lemma fueled_IDBKey_init (ldb_key : bytes) :
  fueled (indexeddb.IDBKey_init ldb_key).
Proof.
  unfold indexeddb.IDBKey_init.
  apply fueled_bind.
  { unfold indexeddb.IDBKey_read_ids. do 5 fuel_read. apply fueled_Ok. }
  intros [[[a b] c] s] _.
  apply fueled_bind; [apply parse_key_fueled; lia|]. intros [k s'] _.
  fuel_read. apply fueled_Ok.
Qed.

Lemma read_sint32_length (s : stream) (v : Z) (s' : stream) :
  util.read_sint32 s = Ok (v, s') -> (length s' < length s)%nat.
Proof.
  unfold util.read_sint32. intros H. inv_bind H as [n s1]. inv_Ok H.
  apply read_varint32_length in Ha. exact Ha.
Qed.

Lemma fueled_read_sint32 (s : stream) : fueled (util.read_sint32 s).
Proof. unfold util.read_sint32. fuel_read. apply fueled_Ok. Qed.

Lemma fueled_setitem (obj : list (indexeddb.value * indexeddb.value))
    (k v : indexeddb.value) :
  fueled (indexeddb.setitem obj k v).
Proof. destruct k; discriminate. Qed.

(** Every call of the V8 decoder and every turn of its loops takes at least
    one byte, except the loop over the elements of a dense array when no
    element is left. *)
Lemma v8_length (fuel : nat) :
  (forall (s : stream) (v : indexeddb.value) (s' : stream),
      indexeddb.v8_deserizlize_fuel fuel s = Ok (v, s') ->
      (length s' < length s)%nat)
  /\ (forall (s : stream) obj (v : indexeddb.value) (s' : stream),
      indexeddb.object_loop fuel s obj = Ok (v, s') ->
      (length s' < length s)%nat)
  /\ (forall (s : stream) arr n (v : indexeddb.value) (s' : stream),
      indexeddb.sparse_loop fuel s arr n = Ok (v, s') ->
      (length s' < length s)%nat)
  /\ (forall (s : stream) n arr arr' (s' : stream),
      indexeddb.dense_elements fuel s n arr = Ok (arr', s') ->
      (length s' <= length s)%nat)
  /\ (forall (s : stream) arr c n (v : indexeddb.value) (s' : stream),
      indexeddb.dense_properties fuel s arr c n = Ok (v, s') ->
      (length s' < length s)%nat).
Proof.
  induction fuel as [|fuel (IHV & IHO & IHS & IHE & IHP)];
    [repeat split; intros; discriminate|].
  split; [|split; [|split; [|split]]].
  - intros s v s' H. cbn [indexeddb.v8_deserizlize_fuel] in H.
    inv_bind H as [tag s1]. apply read_safe_1_length in Ha.
    case_if_in H; [apply IHV in H; lia|].
    case_if_in H; [apply IHO in H; lia|].
    case_if_in H.
    { inv_bind H as [c s2]. inv_Ok H. apply read_varint64_length in Ha0.
      lia. }
    case_if_in H.
    { inv_bind H as [n s2]. inv_bind H as [str s3]. inv_Ok H.
      apply read_varint32_length in Ha0. apply read_safe_length in Ha1.
      lia. }
    case_if_in H.
    { inv_bind H as [n s2]. inv_bind H as [str s3]. inv_bind H as str'.
      inv_Ok H. apply read_varint64_length in Ha0.
      apply read_safe_length in Ha1. lia. }
    case_if_in H.
    { inv_bind H as [n s2]. inv_Ok H. apply read_sint32_length in Ha0. lia. }
    case_if_in H.
    { inv_bind H as [buf s2]. inv_Ok H. apply read_safe_length in Ha0. lia. }
    case_if_in H.
    { inv_bind H as [n s2]. apply read_varint32_length in Ha0.
      apply IHS in H. lia. }
    case_if_in H.
    { inv_bind H as [n s2]. apply read_varint32_length in Ha0.
      inv_bind H as [arr s3]. apply IHE in Ha1. apply IHP in H. lia. }
    case_if_in H; [inv_Ok H; lia|].
    case_if_in H; [inv_Ok H; lia|].
    case_if_in H; [inv_Ok H; lia|discriminate].
  - intros s obj v s' H. cbn [indexeddb.object_loop] in H.
    inv_bind H as [k s1]. apply IHV in Ha.
    destruct k;
      try (inv_bind H as [val s2]; apply IHV in Ha0;
           inv_bind H as obj'; apply IHO in H; lia).
    inv_bind H as u. inv_Ok H. exact Ha.
  - intros s arr n v s' H. cbn [indexeddb.sparse_loop] in H.
    inv_bind H as [k s1]. apply IHV in Ha.
    destruct k;
      try (inv_bind H as [val s2]; apply IHV in Ha0; apply IHS in H; lia).
    inv_bind H as u. inv_bind H as [n2 s2]. inv_bind H as u2. inv_Ok H.
    apply read_varint32_length in Ha1. lia.
  - intros s n arr arr' s' H. cbn [indexeddb.dense_elements] in H.
    case_if_in H; [inv_Ok H; lia|].
    inv_bind H as [val s1]. apply IHV in Ha. apply IHE in H. lia.
  - intros s arr c n v s' H. cbn [indexeddb.dense_properties] in H.
    inv_bind H as [k s1]. apply IHV in Ha.
    destruct k;
      try (inv_bind H as [val s2]; apply IHV in Ha0; apply IHP in H; lia).
    inv_bind H as u. inv_bind H as [n2 s2]. inv_bind H as u2. inv_Ok H.
    apply read_varint32_length in Ha1. lia.
Qed.

Lemma v8_fueled (fuel : nat) :
  (forall s : stream,
      (2 * length s + 1 <= fuel)%nat ->
      fueled (indexeddb.v8_deserizlize_fuel fuel s))
  /\ (forall (s : stream) obj,
      (2 * length s + 2 <= fuel)%nat ->
      fueled (indexeddb.object_loop fuel s obj))
  /\ (forall (s : stream) arr n,
      (2 * length s + 2 <= fuel)%nat ->
      fueled (indexeddb.sparse_loop fuel s arr n))
  /\ (forall (s : stream) n arr,
      (2 * length s + 2 <= fuel)%nat ->
      fueled (indexeddb.dense_elements fuel s n arr))
  /\ (forall (s : stream) arr c n,
      (2 * length s + 2 <= fuel)%nat ->
      fueled (indexeddb.dense_properties fuel s arr c n)).
Proof.
  induction fuel as [|fuel (IHV & IHO & IHS & IHE & IHP)];
    [repeat split; intros; lia|].
  destruct (v8_length fuel) as (LV & LO & LS & LE & LP).
  split; [|split; [|split; [|split]]].
  - intros s Hf. cbn [indexeddb.v8_deserizlize_fuel]. fuel_read.
    case_if; [apply IHV; lia|].
    case_if; [apply IHO; lia|].
    case_if; [fuel_read; apply fueled_Ok|].
    case_if; [do 2 fuel_read; apply fueled_Ok|].
    case_if.
    { do 2 fuel_read.
      apply fueled_bind; [apply fueled_decode_utf16|].
      intros str' _. apply fueled_Ok. }
    case_if.
    { apply fueled_bind; [apply fueled_read_sint32|].
      intros [n s2] _. apply fueled_Ok. }
    case_if; [fuel_read; apply fueled_Ok|].
    case_if; [fuel_read; apply IHS; lia|].
    case_if.
    { fuel_read. apply fueled_bind; [apply IHE; lia|].
      intros [arr s3] R1. apply LE in R1. apply IHP. lia. }
    case_if; [apply fueled_Ok|].
    case_if; [apply fueled_Ok|].
    case_if; [apply fueled_Ok|discriminate].
  - intros s obj Hf. cbn [indexeddb.object_loop].
    apply fueled_bind; [apply IHV; lia|]. intros [k s1] R. apply LV in R.
    destruct k;
      try (apply fueled_bind; [apply IHV; lia|]; intros [val s2] R2;
           apply LV in R2;
           apply fueled_bind; [apply fueled_setitem|]; intros obj' _;
           apply IHO; lia).
    fuel_read. apply fueled_Ok.
  - intros s arr n Hf. cbn [indexeddb.sparse_loop].
    apply fueled_bind; [apply IHV; lia|]. intros [k s1] R. apply LV in R.
    destruct k;
      try (apply fueled_bind; [apply IHV; lia|]; intros [val s2] R2;
           apply LV in R2; apply IHS; lia).
    do 3 fuel_read. apply fueled_Ok.
  - intros s n arr Hf. cbn [indexeddb.dense_elements].
    case_if; [apply fueled_Ok|].
    apply fueled_bind; [apply IHV; lia|]. intros [val s1] R. apply LV in R.
    apply IHE. lia.
  - intros s arr c n Hf. cbn [indexeddb.dense_properties].
    apply fueled_bind; [apply IHV; lia|]. intros [k s1] R. apply LV in R.
    destruct k;
      try (apply fueled_bind; [apply IHV; lia|]; intros [val s2] R2;
           apply LV in R2; apply IHP; lia).
    do 3 fuel_read. apply fueled_Ok.
Qed.

(** [v8_deserizlize] and [IDBValue.__init__] never stop for lack of
    fuel. *)
Lemma fueled_v8_deserizlize (s : stream) :
  fueled (indexeddb.v8_deserizlize s).
Proof. unfold indexeddb.v8_deserizlize. apply v8_fueled. lia. Qed.

Lemma fueled_IDBValue_init (value_ : bytes) :
  fueled (indexeddb.IDBValue_init value_).
Proof.
  unfold indexeddb.IDBValue_init. do 5 fuel_read.
  case_if; [apply fueled_Ok|].
  do 3 fuel_read.
  apply fueled_bind; [apply fueled_v8_deserizlize|]. intros [v s'] _.
  fuel_read. apply fueled_Ok.
Qed.

(** * Further properties *)

(** ** More on slices and reads *)

Lemma take_app_le {A : Type} (l1 l2 : list A) (n : Z) :
  len l1 <= n -> take n (l1 ++ l2) = l1 ++ take (n - len l1) l2.
Proof.
  revert n. induction l1 as [|x l1 IH]; intros n Hn.
  - change (len (@nil A)) with 0. rewrite Z.sub_0_r. reflexivity.
  - rewrite len_cons in *. pose proof (len_nonneg l1). cbn [app take].
    destruct (n <=? 0) eqn:E; [apply Z.leb_le in E; lia|].
    rewrite IH by lia.
    replace (n - (1 + len l1)) with (n - 1 - len l1) by lia. reflexivity.
Qed.

Lemma drop_app_le {A : Type} (l1 l2 : list A) (n : Z) :
  len l1 <= n -> drop n (l1 ++ l2) = drop (n - len l1) l2.
Proof.
  revert n. induction l1 as [|x l1 IH]; intros n Hn.
  - change (len (@nil A)) with 0. rewrite Z.sub_0_r. reflexivity.
  - rewrite len_cons in *. pose proof (len_nonneg l1). cbn [app drop].
    destruct (n <=? 0) eqn:E; [apply Z.leb_le in E; lia|].
    rewrite IH by lia.
    replace (n - (1 + len l1)) with (n - 1 - len l1) by lia. reflexivity.
Qed.

Lemma take_all {A : Type} (l : list A) (n : Z) : len l <= n -> take n l = l.
Proof.
  intros H. rewrite <- (app_nil_r l) at 1. rewrite take_app_le by exact H.
  apply app_nil_r.
Qed.

Lemma drop_all {A : Type} (l : list A) (n : Z) : len l <= n -> drop n l = [].
Proof.
  intros H. rewrite <- (app_nil_r l) at 1. rewrite drop_app_le by exact H.
  reflexivity.
Qed.

Lemma read_safe_all (s : stream) :
  len s <= ssize_max -> util.read_safe s (len s) = Ok (s, []).
Proof.
  intros H. rewrite <- (app_nil_r s) at 1. apply read_safe_app, H.
Qed.

Lemma len_slice_to_neg {A : Type} (l : list A) (n : Z) :
  0 < n -> len (slice_to l (- n)) = Z.max 0 (len l - n).
Proof.
  intros Hn. unfold slice_to, slice_index. pose proof (len_nonneg l).
  replace (- n <? 0) with true by (symmetry; apply Z.ltb_lt; lia).
  rewrite len_take. lia.
Qed.

Lemma index_last {A : Type} (l : list A) (x : A) :
  index l (-1) = Ok x <-> exists body, l = body ++ [x].
Proof.
  unfold index. change (-1 <? 0) with true. cbv iota.
  pose proof (len_nonneg l) as Hl. split.
  - intros H. destruct (-1 + len l <? 0) eqn:E; [discriminate|].
    apply Z.ltb_ge in E.
    pose proof (take_drop (-1 + len l) l) as TD.
    pose proof (len_drop (-1 + len l) l) as LD.
    destruct (drop (-1 + len l) l) as [|y [|z r]] eqn:D; [discriminate| |].
    + inv_Ok H. exists (take (-1 + len l) l). symmetry. exact TD.
    + rewrite !len_cons in LD. pose proof (len_nonneg r). lia.
  - intros (body & ->). rewrite len_app. change (len [x]) with 1.
    pose proof (len_nonneg body).
    destruct (-1 + (len body + 1) <? 0) eqn:E; [apply Z.ltb_lt in E; lia|].
    replace (-1 + (len body + 1)) with (len body) by lia.
    rewrite drop_app_len. reflexivity.
Qed.

Lemma read_safe_cons (b : byte) (s : bytes) :
  util.read_safe (b :: s) 1 = Ok ([b], s).
Proof.
  change (b :: s) with ([b] ++ s). change 1 with (len [b]).
  apply read_safe_app. vm_compute. discriminate.
Qed.

(** ** util: what the readers of integers return *)

Lemma groups7_bound (l : bytes) : 0 <= groups7 l < 2 ^ (7 * len l).
Proof.
  induction l as [|b l IH].
  - change (len (@nil byte)) with 0. simpl. lia.
  - rewrite len_cons. cbn [groups7]. pose proof (len_nonneg l).
    assert (0 <= Z.land (byte_val b) 127 < 128).
    { change 127 with (Z.ones 7). rewrite Z.land_ones by lia.
      apply Z.mod_pos_bound. lia. }
    replace (7 * (1 + len l)) with (7 + 7 * len l) by lia.
    rewrite Z.pow_add_r by lia. change (2 ^ 7) with 128. lia.
Qed.

Lemma varint_start (g : Z) : 0 + 2 ^ (7 * 0) * g = g.
Proof. change (2 ^ (7 * 0)) with 1. lia. Qed.

(** X1.  A varint that [read_varint] returns is the value of the 7-bit
    groups of the bytes it has taken from the front of the stream: at most
    [max_bytes] of them, at least one when [max_bytes] is positive, and the
    value is below [2 ^ (7 * n)] for [n] bytes taken.  The rest of the
    stream is untouched. *)
Theorem read_varint_consumes (s : stream) (max_bytes v : Z) (s' : stream) :
  util.read_varint s max_bytes = Ok (v, s') ->
  exists pre : bytes,
    s = pre ++ s'
    /\ len pre <= Z.max 0 max_bytes
    /\ (0 < max_bytes -> 1 <= len pre)
    /\ v = groups7 pre
    /\ 0 <= v < 2 ^ (7 * len pre).
Proof.
  intros H. unfold util.read_varint in H.
  destruct (read_varint_shapes s max_bytes)
    as [(pre & t & rest & -> & Hpre & Ht & Hl)
       |[(pre & rest & -> & Hpre & Hl)|(Hall & Hl)]].
  - rewrite read_varint_loop_terminated, varint_start in H by (auto; lia).
    injection H as <- <-. exists (pre ++ [t]).
    rewrite <- app_assoc. split; [reflexivity|].
    pose proof (groups7_bound (pre ++ [t])) as G.
    rewrite len_app in *. change (len [t]) with 1 in *.
    pose proof (len_nonneg pre).
    split; [lia|]. split; [lia|]. split; [reflexivity | exact G].
  - rewrite read_varint_loop_exhausted, varint_start in H by (auto; lia).
    injection H as <- <-. exists pre. split; [reflexivity|].
    split; [lia|]. split; [lia|].
    split; [reflexivity | apply groups7_bound].
  - rewrite read_varint_loop_eof in H by (auto; lia). discriminate.
Qed.

Lemma read_varint_consumes_witness :
  exists pre : bytes,
    hex [0xAC; 0x02; 0xFF] = pre ++ hex [0xFF]
    /\ len pre <= Z.max 0 5
    /\ (0 < 5 -> 1 <= len pre)
    /\ 300 = groups7 pre
    /\ 0 <= 300 < 2 ^ (7 * len pre).
Proof.
  apply (read_varint_consumes (hex [0xAC; 0x02; 0xFF]) 5 300 (hex [0xFF])).
  reflexivity.
Defined.

Lemma low_byte_bits (b : byte) :
  byte_val b < 128 ->
  Z.land (byte_val b) 128 = 0
  /\ Z.land (byte_val b) 127 = byte_val b
  /\ Z.lor (byte_val b) 128 = byte_val b + 128.
Proof.
  destruct b; vm_compute; intros H; try discriminate H;
    repeat split; reflexivity.
Qed.

Lemma high_byte_bits (b : byte) :
  128 <= byte_val b ->
  Z.land (byte_val b) 128 <> 0
  /\ Z.land (byte_val b) 127 = byte_val b - 128.
Proof.
  destruct b; vm_compute; intros H; try (exfalso; apply H; reflexivity);
    split; try reflexivity; discriminate.
Qed.

Lemma varint_aux_shape (fuel : nat) :
  forall k v : Z,
    1 <= k <= Z.of_nat fuel -> 0 <= v < 2 ^ (7 * k) ->
    exists (pre : bytes) (t : byte),
      sample.varint_aux fuel v = pre ++ [t]
      /\ Forall continues pre /\ ~ continues t
      /\ len pre < k /\ groups7 (pre ++ [t]) = v.
Proof.
  induction fuel as [|fuel IH]; intros k v Hk Hv; [lia|].
  cbn [sample.varint_aux].
  destruct (v <? 128) eqn:E.
  - apply Z.ltb_lt in E. exists [], (B v).
    assert (Hb : byte_val (B v) = v) by (apply byte_val_B; lia).
    destruct (low_byte_bits (B v)) as (L1 & L2 & _); [lia|].
    split; [reflexivity|]. split; [constructor|].
    split; [unfold continues; rewrite L1; intros C; apply C; reflexivity|].
    split; [change (len (@nil byte)) with 0; lia|].
    cbn [app groups7]. rewrite L2, Hb. lia.
  - apply Z.ltb_ge in E.
    assert (Hm : 0 <= v mod 128 < 128) by (apply Z.mod_pos_bound; lia).
    assert (Hlow : Z.land v 127 = v mod 128).
    { change 127 with (Z.ones 7). rewrite Z.land_ones by lia. reflexivity. }
    assert (Hx : Z.lor (Z.land v 127) 128 = v mod 128 + 128).
    { rewrite Hlow.
      destruct (low_byte_bits (B (v mod 128))) as (_ & _ & L3);
        rewrite byte_val_B in * by lia; [lia | exact L3]. }
    rewrite Hx.
    assert (Hb : byte_val (B (v mod 128 + 128)) = v mod 128 + 128)
      by (apply byte_val_B; lia).
    destruct (high_byte_bits (B (v mod 128 + 128))) as (G1 & G2); [lia|].
    assert (Hk2 : 2 <= k).
    { destruct (Z_lt_le_dec k 2) as [C|C]; [|exact C].
      replace k with 1 in Hv by lia. change (2 ^ (7 * 1)) with 128 in Hv. lia. }
    destruct (IH (k - 1) (Z.shiftr v 7)) as (pre & t & Ee & Hpre & Ht & Hl & Hg).
    { lia. }
    { rewrite Z.shiftr_div_pow2 by lia. change (2 ^ 7) with 128.
      split; [apply Z.div_pos; lia|].
      apply Z.div_lt_upper_bound; [lia|].
      replace (7 * k) with (7 + 7 * (k - 1)) in Hv by lia.
      rewrite Z.pow_add_r in Hv by lia. change (2 ^ 7) with 128 in Hv. lia. }
    exists (B (v mod 128 + 128) :: pre), t.
    split; [rewrite Ee; reflexivity|].
    split; [constructor; [exact G1 | exact Hpre]|].
    split; [exact Ht|].
    split; [rewrite len_cons; lia|].
    cbn [app groups7]. rewrite Hg, G2, Hb.
    rewrite Z.shiftr_div_pow2 by lia. change (2 ^ 7) with 128.
    pose proof (Z.div_mod v 128 ltac:(lia)). lia.
Qed.

Lemma read_varint_varint (v max_bytes : Z) (rest : stream) :
  1 <= max_bytes <= 10 -> 0 <= v < 2 ^ (7 * max_bytes) ->
  util.read_varint (sample.varint v ++ rest) max_bytes = Ok (v, rest).
Proof.
  intros Hm Hv. unfold sample.varint.
  destruct (varint_aux_shape 10 max_bytes v) as (pre & t & E & Hpre & Ht & Hl & Hg);
    [simpl; lia | exact Hv |].
  rewrite E, <- app_assoc. cbn [app]. unfold util.read_varint.
  rewrite read_varint_loop_terminated, varint_start by (auto; lia).
  rewrite Hg. reflexivity.
Qed.

(** X2.  [read_varint] reads back a number written in base 128, least
    significant group first with the top bit set on every byte but the
    last, whenever the number is below [2 ^ (7 * max_bytes)]: it returns
    the number and leaves what follows the encoding. *)
Theorem read_varint_roundtrip (v max_bytes : Z) (rest : stream) :
  1 <= max_bytes <= 10 -> 0 <= v < 2 ^ (7 * max_bytes) ->
  util.read_varint (sample.varint v ++ rest) max_bytes = Ok (v, rest)
  /\ 1 <= len (sample.varint v) <= max_bytes.
Proof.
  intros Hm Hv. split; [apply read_varint_varint; assumption|].
  unfold sample.varint.
  destruct (varint_aux_shape 10 max_bytes v) as (pre & t & E & Hpre & Ht & Hl & Hg);
    [simpl; lia | exact Hv |].
  rewrite E, len_app. change (len [t]) with 1. pose proof (len_nonneg pre). lia.
Qed.

Lemma read_varint_roundtrip_witness :
  util.read_varint (sample.varint 300 ++ hex [0xFF]) 5 = Ok (300, hex [0xFF])
  /\ 1 <= len (sample.varint 300) <= 5.
Proof.
  apply (read_varint_roundtrip 300 5 (hex [0xFF])); [lia|].
  split; [lia | reflexivity].
Defined.

Lemma zigzag32_value (v : Z) :
  - 2 ^ 31 <= v < 2 ^ 31 ->
  zigzag32 v = if v <? 0 then - 2 * v - 1 else 2 * v.
Proof.
  intros Hv. unfold zigzag32.
  rewrite Z.shiftl_mul_pow2, Z.shiftr_div_pow2 by lia.
  change (2 ^ 1) with 2. change (2 ^ 31) with 2147483648 in *.
  destruct (v <? 0) eqn:E.
  - apply Z.ltb_lt in E.
    replace (v / 2147483648) with (-1) by (Z.div_mod_to_equations; lia).
    rewrite Z.lxor_m1_r. unfold Z.lnot. lia.
  - apply Z.ltb_ge in E.
    replace (v / 2147483648) with 0 by (Z.div_mod_to_equations; lia).
    rewrite Z.lxor_0_r. lia.
Qed.

Lemma unzigzag_zigzag32 (v : Z) :
  - 2 ^ 31 <= v < 2 ^ 31 ->
  Z.lxor (Z.shiftr (Z.land (zigzag32 v) 4294967295) 1)
         (- (Z.land (zigzag32 v) 1)) = v.
Proof.
  intros Hv. rewrite (zigzag32_value v Hv).
  set (n := if v <? 0 then - 2 * v - 1 else 2 * v).
  replace (Z.land n 4294967295) with (n mod 2 ^ 32)
    by (symmetry; apply (Z.land_ones n 32); lia).
  replace (Z.land n 1) with (n mod 2)
    by (symmetry; apply (Z.land_ones n 1); lia).
  rewrite Z.shiftr_div_pow2 by lia. subst n.
  change (2 ^ 1) with 2. change (2 ^ 32) with 4294967296.
  change (2 ^ 31) with 2147483648 in Hv.
  destruct (v <? 0) eqn:E.
  - apply Z.ltb_lt in E.
    replace ((- 2 * v - 1) mod 4294967296 / 2) with (- v - 1)
      by (Z.div_mod_to_equations; lia).
    replace ((- 2 * v - 1) mod 2) with 1 by (Z.div_mod_to_equations; lia).
    rewrite Z.lxor_m1_r. unfold Z.lnot. lia.
  - apply Z.ltb_ge in E.
    replace ((2 * v) mod 4294967296 / 2) with v
      by (Z.div_mod_to_equations; lia).
    replace ((2 * v) mod 2) with 0 by (Z.div_mod_to_equations; lia).
    change (- 0) with 0. apply Z.lxor_0_r.
Qed.

(** X3.  [read_sint32] undoes the zigzag encoding: for every signed
    32-bit [v], reading the varint of [(v << 1) ^ (v >> 31)] gives [v]. *)
Theorem read_sint32_roundtrip (v : Z) (rest : stream) :
  - 2 ^ 31 <= v < 2 ^ 31 ->
  util.read_sint32 (sample.varint (zigzag32 v) ++ rest) = Ok (v, rest).
Proof.
  intros Hv. unfold util.read_sint32, util.read_varint32.
  rewrite read_varint_varint.
  - cbn [bind]. rewrite unzigzag_zigzag32 by exact Hv. reflexivity.
  - lia.
  - rewrite (zigzag32_value v Hv).
    change (2 ^ 31) with 2147483648 in Hv.
    change (2 ^ (7 * 5)) with 34359738368.
    destruct (v <? 0) eqn:E; [apply Z.ltb_lt in E | apply Z.ltb_ge in E]; lia.
Qed.

Lemma read_sint32_roundtrip_witness :
  util.read_sint32 (sample.varint (zigzag32 (-3)) ++ hex [0xFF])
  = Ok (-3, hex [0xFF]).
Proof.
  apply (read_sint32_roundtrip (-3) (hex [0xFF])).
  split; [vm_compute; discriminate | reflexivity].
Defined.

Lemma land_low_shiftl (a b n : Z) :
  0 <= n -> 0 <= a < 2 ^ n -> Z.land a (Z.shiftl b n) = 0.
Proof.
  intros Hn Ha. apply Z.bits_inj'. intros i Hi.
  rewrite Z.land_spec, Z.bits_0.
  destruct (Z_lt_le_dec i n) as [L|L].
  - rewrite (Z.shiftl_spec_low b n i L). apply andb_false_r.
  - replace a with (a mod 2 ^ n) by (apply Z.mod_small; exact Ha).
    rewrite Z.mod_pow2_bits_high by lia. reflexivity.
Qed.

Lemma lor_low_shiftl (a b n : Z) :
  0 <= n -> 0 <= a < 2 ^ n -> Z.lor a (Z.shiftl b n) = a + Z.shiftl b n.
Proof.
  intros Hn Ha. pose proof (land_low_shiftl a b n Hn Ha) as H.
  rewrite <- (Z.lxor_lor _ _ H). symmetry. apply Z.add_nocarry_lxor, H.
Qed.

(** A rotation of a 32-bit value to the right by [k] bits, the way the
    sources write it: the two shifted halves put together and cut to 32
    bits. *)
Lemma rotate_right_value (x k : Z) :
  0 < k < 32 -> 0 <= x < 2 ^ 32 ->
  Z.land (Z.lor (Z.shiftr x k) (Z.shiftl x (32 - k))) (2 ^ 32 - 1)
  = x / 2 ^ k + (x mod 2 ^ k) * 2 ^ (32 - k).
Proof.
  intros Hk Hx.
  assert (P : 2 ^ 32 = 2 ^ k * 2 ^ (32 - k))
    by (rewrite <- Z.pow_add_r by lia; f_equal; lia).
  assert (Pk : 0 < 2 ^ k) by (apply Z.pow_pos_nonneg; lia).
  assert (Pk' : 0 < 2 ^ (32 - k)) by (apply Z.pow_pos_nonneg; lia).
  pose proof (Z.div_mod x (2 ^ k) ltac:(lia)) as D.
  pose proof (Z.mod_pos_bound x (2 ^ k) Pk) as M.
  assert (Hhi : 0 <= x / 2 ^ k < 2 ^ (32 - k)).
  { split; [apply Z.div_pos; lia|]. apply Z.div_lt_upper_bound; lia. }
  change (2 ^ 32 - 1) with (Z.ones 32).
  rewrite Z.land_lor_distr_l, !Z.land_ones by lia.
  rewrite Z.shiftr_div_pow2, Z.shiftl_mul_pow2 by lia.
  rewrite (Z.mod_small (x / 2 ^ k)) by nia.
  assert (E : (x * 2 ^ (32 - k)) mod 2 ^ 32 = (x mod 2 ^ k) * 2 ^ (32 - k)).
  { rewrite D at 1. rewrite Z.mul_add_distr_r.
    replace (2 ^ k * (x / 2 ^ k) * 2 ^ (32 - k))
      with ((x / 2 ^ k) * 2 ^ 32) by (rewrite P; ring).
    rewrite Z.add_comm, Z.mod_add by lia.
    apply Z.mod_small. nia. }
  rewrite E, <- (Z.shiftl_mul_pow2 (x mod 2 ^ k)) by lia.
  apply lor_low_shiftl; lia.
Qed.

Lemma mask_value (c : Z) :
  0 <= c < 2 ^ 32 ->
  sample.mask c
  = (c / 2 ^ 15 + (c mod 2 ^ 15) * 2 ^ 17 + 2726488792) mod 2 ^ 32.
Proof.
  intros Hc. unfold sample.mask.
  change 0xFFFFFFFF with (2 ^ 32 - 1) at 1.
  change 17 with (32 - 15) at 1.
  rewrite rotate_right_value by lia.
  change 0xFFFFFFFF with (Z.ones 32). rewrite Z.land_ones by lia. reflexivity.
Qed.

Lemma unmask_value (m : Z) :
  util.unmask_leveldb_crc32c m
  = ((m - 2726488792) mod 2 ^ 32) / 2 ^ 17
    + (((m - 2726488792) mod 2 ^ 32) mod 2 ^ 17) * 2 ^ 15.
Proof.
  unfold util.unmask_leveldb_crc32c.
  assert (E : Z.land (m - 2726488792 + (2 ^ 32 - 1) + 1) (2 ^ 32 - 1)
              = (m - 2726488792) mod 2 ^ 32).
  { change (2 ^ 32 - 1) with (Z.ones 32) at 2. rewrite Z.land_ones by lia.
    replace (m - 2726488792 + (2 ^ 32 - 1) + 1)
      with (m - 2726488792 + 1 * 2 ^ 32) by lia.
    apply Z.mod_add. lia. }
  rewrite E. change 15 with (32 - 17) at 1.
  apply rotate_right_value; [lia|]. apply Z.mod_pos_bound. lia.
Qed.

(** X4.  On 32-bit values [unmask_leveldb_crc32c] is the inverse, on both
    sides, of the masking that LevelDB applies to a stored CRC (a rotation
    to the right by 15 bits followed by the addition of [0xA282EAD8]), and
    its result is a 32-bit value. *)
Theorem unmask_leveldb_crc32c_inverts (c : Z) :
  0 <= c < 2 ^ 32 ->
  util.unmask_leveldb_crc32c (sample.mask c) = c
  /\ sample.mask (util.unmask_leveldb_crc32c c) = c
  /\ 0 <= util.unmask_leveldb_crc32c c < 2 ^ 32.
Proof.
  intros Hc.
  assert (R : 0 <= util.unmask_leveldb_crc32c c < 2 ^ 32).
  { rewrite unmask_value.
    change (2 ^ 32) with 4294967296 in *. change (2 ^ 17) with 131072.
    change (2 ^ 15) with 32768.
    Z.div_mod_to_equations. lia. }
  split; [|split; [|exact R]].
  - rewrite unmask_value, (mask_value c Hc).
    change (2 ^ 32) with 4294967296 in *. change (2 ^ 17) with 131072.
    change (2 ^ 15) with 32768.
    Z.div_mod_to_equations. lia.
  - rewrite (mask_value _ R), unmask_value.
    change (2 ^ 32) with 4294967296 in *. change (2 ^ 17) with 131072.
    change (2 ^ 15) with 32768.
    Z.div_mod_to_equations. lia.
Qed.

Lemma unmask_leveldb_crc32c_inverts_witness :
  util.unmask_leveldb_crc32c (sample.mask 0xE3069283) = 0xE3069283
  /\ sample.mask (util.unmask_leveldb_crc32c 0xE3069283) = 0xE3069283
  /\ 0 <= util.unmask_leveldb_crc32c 0xE3069283 < 2 ^ 32.
Proof.
  apply (unmask_leveldb_crc32c_inverts 0xE3069283).
  split; [vm_compute; discriminate | reflexivity].
Defined.

(** X5.  [read_safe] returns exactly [n] bytes or fails: with [n] between
    0 and the number of bytes left it returns the first [n] bytes and
    leaves the others; the size -1, for which [read] returns all that is
    left, and an [n] beyond the end fail the assertion; an [n] beyond the
    size the interpreter accepts raises [OverflowError].  Sizes below -1,
    which a file object refuses, are left out. *)
Theorem read_safe_exact (s : stream) (n : Z) :
  (0 <= n <= len s -> n <= ssize_max ->
   util.read_safe s n = Ok (take n s, drop n s) /\ len (take n s) = n)
  /\ (n = -1 \/ len s < n <= ssize_max ->
      util.read_safe s n = Raise (AssertionError "Unexpected EOF"))
  /\ (ssize_max < n -> util.read_safe s n = Raise OverflowError)
  /\ (forall (b : bytes) (s' : stream),
         util.read_safe s n = Ok (b, s') -> s = b ++ s' /\ len b = n).
Proof.
  unfold util.read_safe, stream_read. pose proof (len_nonneg s) as Hs.
  split; [|split; [|split]].
  - intros Hn Hmax.
    destruct (n >? ssize_max) eqn:E1; [apply Z.gtb_lt in E1; ssize|].
    destruct (n <? 0) eqn:E2; [apply Z.ltb_lt in E2; lia|].
    cbn [bind]. assert (L : len (take n s) = n) by (rewrite len_take; lia).
    rewrite L, Z.eqb_refl. split; reflexivity.
  - intros Hn.
    destruct (n >? ssize_max) eqn:E1; [apply Z.gtb_lt in E1; ssize|].
    destruct (n <? 0) eqn:E2; cbn [bind].
    + apply Z.ltb_lt in E2.
      destruct (len s =? n) eqn:E3; [apply Z.eqb_eq in E3; lia|]. reflexivity.
    + apply Z.ltb_ge in E2.
      destruct (len (take n s) =? n) eqn:E3; [|reflexivity].
      apply Z.eqb_eq in E3. rewrite len_take in E3. lia.
  - intros Hn.
    destruct (n >? ssize_max) eqn:E1; [reflexivity|].
    rewrite Z.gtb_ltb in E1. apply Z.ltb_ge in E1. lia.
  - intros b s'. apply read_safe_Ok.
Qed.

Lemma read_safe_exact_witness :
  (util.read_safe (hex [1; 2; 3]) 2 = Ok (take 2 (hex [1; 2; 3]), drop 2 (hex [1; 2; 3]))
   /\ len (take 2 (hex [1; 2; 3])) = 2)
  /\ util.read_safe (hex [1; 2; 3]) (-1)
     = Raise (AssertionError "Unexpected EOF")
  /\ util.read_safe (hex [1; 2; 3]) 4
     = Raise (AssertionError "Unexpected EOF")
  /\ util.read_safe (hex [1; 2; 3]) (2 ^ 63) = Raise OverflowError.
Proof.
  destruct (read_safe_exact (hex [1; 2; 3]) 2) as (H1 & _).
  destruct (read_safe_exact (hex [1; 2; 3]) (-1)) as (_ & H2 & _).
  destruct (read_safe_exact (hex [1; 2; 3]) 4) as (_ & H3 & _).
  destruct (read_safe_exact (hex [1; 2; 3]) (2 ^ 63)) as (_ & _ & H4 & _).
  split; [apply H1; vm_compute; [split; discriminate | discriminate]|].
  split; [apply H2; left; reflexivity|].
  split; [apply H3; right; vm_compute; split; [reflexivity | discriminate]|].
  apply H4. reflexivity.
Defined.

Ltac compact_minimal_case :=
  eexists; split; [reflexivity|];
  repeat eval_slice_to; repeat eval_len; cbn [from_bytes_le];
  rewrite ?byte_val_B by (apply Z.mod_pos_bound; lia);
  split; [Z.div_mod_to_equations; lia|];
  split; [lia|];
  first [left; reflexivity | right; vm_compute Z.pow; lia].

(** Below [2 ^ 56] the result has no zero byte at its end, unless it is the
    single byte of a number below 256. *)
Lemma int64_to_bytes_compact_trimmed (n : Z) :
  0 <= n < 2 ^ 56 ->
  exists b,
    util.int64_to_bytes_compact n = Ok b
    /\ from_bytes_le b = n
    /\ 1 <= len b <= 7
    /\ (len b = 1 \/ 256 ^ (len b - 1) <= n).
Proof.
  intros Hn.
  destruct (to_bytes_le_8 n ltac:(lia))
    as (d1 & d2 & d3 & d4 & d5 & d6 & d7
        & H1 & H2 & H3 & H4 & H5 & H6 & H7 & H8 & Hbuf).
  unfold util.int64_to_bytes_compact. rewrite Hbuf. cbn [bind].
  change (2 ^ 56) with 72057594037927936 in Hn.
  cbn [util.trailing_zero_loop bind index].
  cbn -[Z.modulo B byte_val Z.eqb slice_to].
  assert (C : n < 256 \/ 256 <= n < 65536 \/ 65536 <= n < 16777216
              \/ 16777216 <= n < 4294967296
              \/ 4294967296 <= n < 1099511627776
              \/ 1099511627776 <= n < 281474976710656
              \/ 281474976710656 <= n) by lia.
  byte_is_zero d7.
  destruct C as [C|[C|[C|[C|[C|[C|C]]]]]].
  - byte_is_zero d6. byte_is_zero d5. byte_is_zero d4. byte_is_zero d3.
    byte_is_zero d2. byte_is_zero d1.
    compact_minimal_case.
  - byte_is_zero d6. byte_is_zero d5. byte_is_zero d4. byte_is_zero d3.
    byte_is_zero d2. byte_is_not_zero d1.
    compact_minimal_case.
  - byte_is_zero d6. byte_is_zero d5. byte_is_zero d4. byte_is_zero d3.
    byte_is_not_zero d2.
    compact_minimal_case.
  - byte_is_zero d6. byte_is_zero d5. byte_is_zero d4. byte_is_not_zero d3.
    compact_minimal_case.
  - byte_is_zero d6. byte_is_zero d5. byte_is_not_zero d4.
    compact_minimal_case.
  - byte_is_zero d6. byte_is_not_zero d5.
    compact_minimal_case.
  - byte_is_not_zero d6.
    compact_minimal_case.
Qed.

(** X6.  Below [2 ^ 56], [int64_to_bytes_compact] gives the shortest
    little-endian byte string of the number that is not empty: it reads
    back as the number and no other such string is shorter.  A negative
    number and a number from [2 ^ 64] on raise [OverflowError]. *)
Theorem int64_to_bytes_compact_shortest (n : Z) :
  (0 <= n < 2 ^ 56 ->
   exists b,
     util.int64_to_bytes_compact n = Ok b
     /\ from_bytes_le b = n
     /\ 1 <= len b <= 7
     /\ forall b' : bytes,
          from_bytes_le b' = n -> 1 <= len b' -> len b <= len b')
  /\ (n < 0 \/ 2 ^ 64 <= n ->
      util.int64_to_bytes_compact n = Raise OverflowError).
Proof.
  split.
  - intros Hn.
    destruct (int64_to_bytes_compact_trimmed n Hn) as (b & E & V & L & M).
    exists b. repeat (split; [assumption|]).
    intros b' V' L'. destruct M as [M|M]; [lia|].
    pose proof (from_bytes_le_bound b') as Bd. rewrite V' in Bd.
    destruct (Z_le_gt_dec (len b) (len b')) as [G|G]; [exact G|].
    exfalso.
    assert (256 ^ len b' <= 256 ^ (len b - 1))
      by (apply Z.pow_le_mono_r; lia).
    lia.
  - intros Hn. unfold util.int64_to_bytes_compact, to_bytes_le.
    change (256 ^ Z.of_nat 8) with (2 ^ 64).
    destruct Hn as [Hn|Hn].
    + replace (n <? 0) with true by (symmetry; apply Z.ltb_lt; lia).
      reflexivity.
    + replace (2 ^ 64 <=? n) with true by (symmetry; apply Z.leb_le; lia).
      rewrite orb_true_r. reflexivity.
Qed.

Lemma int64_to_bytes_compact_shortest_witness :
  (exists b,
     util.int64_to_bytes_compact 70000 = Ok b
     /\ from_bytes_le b = 70000
     /\ 1 <= len b <= 7
     /\ forall b' : bytes,
          from_bytes_le b' = 70000 -> 1 <= len b' -> len b <= len b')
  /\ util.int64_to_bytes_compact (-1) = Raise OverflowError.
Proof.
  split.
  - apply (proj1 (int64_to_bytes_compact_shortest 70000)).
    split; [vm_compute; discriminate | reflexivity].
  - apply (proj2 (int64_to_bytes_compact_shortest (-1))).
    left. reflexivity.
Defined.

(** ** log_reader: records and fragments *)

(** X7.  A log file whose first physical record is neither FULL nor FIRST
    is refused with an assertion, whatever its checksum: a MIDDLE or LAST
    record out of place, and a record of type 0 as in a zero-filled file,
    are errors and are not skipped. *)
Theorem log_first_record_type (crc : bytes -> Z)
    (crc_update : Z -> bytes -> Z) (c4 l2 : bytes) (t : byte)
    (data rest : bytes) :
  len c4 = 4 -> len l2 = 2 -> from_bytes_le l2 = len data ->
  7 + len data <= 1024 * 32 ->
  byte_val t <> log_reader.RECORD_TYPE_FULL ->
  byte_val t <> log_reader.RECORD_TYPE_FIRST ->
  exists msg : string,
    log_reader.get_log_records crc crc_update
      (c4 ++ l2 ++ [t] ++ data ++ rest)
    = Raise (AssertionError msg).
Proof.
  intros H4 H2 Hlen Hfit Hfull Hfirst.
  set (hd := c4 ++ l2 ++ [t] ++ data).
  assert (Hhd : len hd = 7 + len data).
  { unfold hd. rewrite !len_app, H4, H2. change (len [t]) with 1. lia. }
  replace (c4 ++ l2 ++ [t] ++ data ++ rest) with (hd ++ rest)
    by (unfold hd; rewrite <- !app_assoc; reflexivity).
  pose proof (len_nonneg data) as Hd.
  unfold log_reader.get_log_records.
  assert (Hfuel : (2 <= 3 * length (hd ++ rest) + 1)%nat).
  { unfold len in Hhd. rewrite length_app. lia. }
  destruct (3 * length (hd ++ rest) + 1)%nat as [|[|fuel]]; try lia.
  cbn [log_reader.blocks_loop]. unfold log_reader.get_next_block.
  rewrite take_app_le by lia.
  assert (Hblock : hd ++ take (1024 * 32 - len hd) rest
                   = c4 ++ l2 ++ [t] ++ data
                     ++ take (1024 * 32 - len hd) rest).
  { unfold hd. rewrite <- !app_assoc. reflexivity. }
  destruct (hd ++ take (1024 * 32 - len hd) rest) as [|x block] eqn:Eb.
  { apply (f_equal len) in Eb. rewrite len_app in Eb.
    pose proof (len_nonneg (take (1024 * 32 - len hd) rest)).
    change (len (@nil byte)) with 0 in Eb. lia. }
  cbn [log_reader.block_records_loop].
  assert (Hleft : log_reader.records_left_in_block (x :: block) = true).
  { unfold log_reader.records_left_in_block, util.bytes_left.
    rewrite <- Eb, len_app.
    pose proof (len_nonneg (take (1024 * 32 - len hd) rest)).
    apply Z.gtb_lt. lia. }
  rewrite Hleft, Hblock, (get_record_checked crc crc_update) by assumption.
  destruct (util.unmask_leveldb_crc32c (from_bytes_le c4)
            =? crc_update (crc [t]) data).
  - cbn [bind].
    replace (byte_val t =? log_reader.RECORD_TYPE_FULL) with false
      by (symmetry; apply Z.eqb_neq; exact Hfull).
    replace (byte_val t =? log_reader.RECORD_TYPE_FIRST) with false
      by (symmetry; apply Z.eqb_neq; exact Hfirst).
    cbn [negb assert bind]. eexists. reflexivity.
  - cbn [bind]. eexists. reflexivity.
Qed.

Lemma log_first_record_type_witness :
  exists msg : string,
    log_reader.get_log_records crc32c.crc crc32c.crc_update
      (hex [0; 0; 0; 0] ++ hex [0; 0] ++ [B 0] ++ [] ++ hex [0; 0; 0])
    = Raise (AssertionError msg).
Proof.
  apply (log_first_record_type crc32c.crc crc32c.crc_update
           (hex [0; 0; 0; 0]) (hex [0; 0]) (B 0) [] (hex [0; 0; 0]));
    vm_compute; congruence.
Defined.

Section SetFacts.
Context {K : Type} (eqb : K -> K -> bool).
Hypothesis eqb_eq : forall a b : K, eqb a b = true <-> a = b.

Lemma set_add_NoDup (s : pyset K) (x : K) :
  NoDup s -> NoDup (set_add eqb s x).
Proof.
  intros H. unfold set_add. destruct (set_mem eqb s x) eqn:E; [exact H|].
  apply NoDup_app; [exact H | repeat constructor; intros [] |].
  intros y Hy [<-|[]].
  apply (set_mem_In eqb eqb_eq) in Hy. congruence.
Qed.

Lemma set_update_NoDup (t s : pyset K) :
  NoDup s -> NoDup (set_update eqb s t).
Proof.
  unfold set_update. revert s.
  induction t as [|x t IH]; intros s H; cbn [fold_left]; [exact H|].
  apply IH, set_add_NoDup, H.
Qed.

Lemma In_set_of_list (l : list K) (x : K) :
  In x (set_of_list eqb l) <-> In x l.
Proof.
  unfold set_of_list. rewrite (In_set_update eqb eqb_eq). simpl. tauto.
Qed.

Lemma In_set_difference (s t : pyset K) (x : K) :
  In x (set_difference eqb s t) <-> In x s /\ ~ In x t.
Proof.
  unfold set_difference. rewrite filter_In, negb_true_iff.
  split; intros [H1 H2]; (split; [exact H1|]).
  - intros Hin. apply (set_mem_In eqb eqb_eq) in Hin. congruence.
  - destruct (set_mem eqb t x) eqn:E; [|reflexivity].
    apply (set_mem_In eqb eqb_eq) in E. contradiction.
Qed.
End SetFacts.

(** X8.  The [existing_files] of a manifest are, without repetition, the
    numbers of the files that some record adds and no record deletes,
    wherever the deletion stands: a file added again after its deletion is
    not among them. *)
Theorem Manifest_existing_files (crc : bytes -> Z)
    (crc_update : Z -> bytes -> Z) (file : bytes) (m : log_reader.Manifest) :
  log_reader.Manifest_init crc crc_update file = Ok m ->
  NoDup (log_reader.existing_files m)
  /\ forall n : Z,
       In n (log_reader.existing_files m)
       <-> In n (map log_reader.nf_number (log_reader.new_files m))
           /\ ~ In n (map log_reader.df_number (log_reader.deleted_files m)).
Proof.
  unfold log_reader.Manifest_init. intros H.
  inv_bind H as records. inv_bind H as self. inv_Ok H.
  cbn [log_reader.existing_files log_reader.new_files
       log_reader.deleted_files].
  split.
  - unfold set_difference. apply NoDup_filter.
    apply (set_update_NoDup Z.eqb Z.eqb_eq). constructor.
  - intros n. rewrite (In_set_difference Z.eqb Z.eqb_eq).
    rewrite !(In_set_of_list Z.eqb Z.eqb_eq). reflexivity.
Qed.

(** ** Fuel does not matter

    [refines r r']: the result [r'], obtained with more fuel, is the result
    [r] unless [r] is the lack of fuel. *)

Lemma refines_refl {A : Type} (r : result A) : refines r r.
Proof. right. reflexivity. Qed.

Lemma refines_bind {A B : Type} (m m' : result A) (k k' : A -> result B) :
  refines m m' -> (forall a, refines (k a) (k' a)) ->
  refines (bind m k) (bind m' k').
Proof.
  intros [->|<-] Hk; [left; reflexivity|].
  destruct m as [a|e]; cbn [bind]; [apply Hk | apply refines_refl].
Qed.

Lemma refines_bind_same {A B : Type} (m : result A) (k k' : A -> result B) :
  (forall a, refines (k a) (k' a)) -> refines (bind m k) (bind m k').
Proof. apply refines_bind, refines_refl. Qed.

Lemma refines_fueled {A : Type} (r r' : result A) :
  refines r r' -> fueled r -> r = r'.
Proof. intros [->|H] F; [contradiction F; reflexivity | exact H]. Qed.

Section FuelOfRecordsMono.
Variable crc : bytes -> Z.
Variable crc_update : Z -> bytes -> Z.

Lemma fragments_loop_refines (fuel : nat) :
  forall (fuel' : nat) (log block : stream) (full : bytes),
    (fuel <= fuel')%nat ->
    refines (log_reader.fragments_loop crc crc_update fuel log block full)
            (log_reader.fragments_loop crc crc_update fuel' log block full).
Proof.
  induction fuel as [|fuel IH]; intros fuel' log block full Hf;
    [left; reflexivity|].
  destruct fuel' as [|fuel']; [lia|].
  cbn [log_reader.fragments_loop].
  apply refines_bind_same. intros [log1 block1].
  apply refines_bind_same. intros [[record ty] block2].
  destruct (ty =? log_reader.RECORD_TYPE_MIDDLE);
    [apply IH; lia | apply refines_refl].
Qed.

Lemma blocks_loop_refines (fuel : nat) :
  (forall (fuel' : nat) (log : stream) (records : list bytes),
      (fuel <= fuel')%nat ->
      refines (log_reader.blocks_loop crc crc_update fuel log records)
              (log_reader.blocks_loop crc crc_update fuel' log records))
  /\ (forall (fuel' : nat) (log block : stream) (records : list bytes),
      (fuel <= fuel')%nat ->
      refines
        (log_reader.block_records_loop crc crc_update fuel log block records)
        (log_reader.block_records_loop crc crc_update fuel' log block
           records)).
Proof.
  induction fuel as [|fuel [IH1 IH2]];
    [split; intros; left; reflexivity|].
  split.
  - intros fuel' log records Hf. destruct fuel' as [|fuel']; [lia|].
    cbn [log_reader.blocks_loop].
    destruct (log_reader.get_next_block log) as [[block log']|];
      [apply IH2; lia | apply refines_refl].
  - intros fuel' log block records Hf. destruct fuel' as [|fuel']; [lia|].
    cbn [log_reader.block_records_loop].
    destruct (log_reader.records_left_in_block block); [|apply IH1; lia].
    apply refines_bind_same. intros [[full ty] block1].
    apply refines_bind.
    + destruct (negb (ty =? log_reader.RECORD_TYPE_FULL));
        [|apply refines_refl].
      apply refines_bind_same. intros _. apply fragments_loop_refines. lia.
    + intros [[full' log'] block']. apply IH2. lia.
Qed.
End FuelOfRecordsMono.

Lemma len_fragment_bytes (f : fragment) :
  len (fragment_bytes f) = len (frag_crc f) + 3 + len (frag_data f).
Proof.
  unfold fragment_bytes, sample.le. rewrite !len_app.
  unfold len at 2. rewrite length_to_bytes_le_aux.
  change (len [frag_type f]) with 1. lia.
Qed.

Lemma get_next_block_nil : log_reader.get_next_block [] = None.
Proof. reflexivity. Qed.

Lemma get_next_block_layout (b : block_layout) (bs : list block_layout) :
  blocks_ok (b :: bs) ->
  log_reader.get_next_block (file_bytes (b :: bs))
  = Some (block_bytes b, file_bytes bs).
Proof.
  intros (Ht & Hb & Hbs). unfold file_bytes. cbn [map List.concat].
  fold (file_bytes bs). unfold log_reader.get_next_block.
  assert (E : take (1024 * 32) (block_bytes b ++ file_bytes bs)
              = block_bytes b
              /\ drop (1024 * 32) (block_bytes b ++ file_bytes bs)
                 = file_bytes bs).
  { destruct bs as [|b' bs].
    - change (file_bytes []) with (@nil byte). rewrite app_nil_r.
      split; [apply take_all | apply drop_all]; lia.
    - rewrite <- Hb. split; [apply take_app_len | apply drop_app_len]. }
  destruct E as [-> ->].
  destruct (block_bytes b) as [|x l] eqn:Eb; [|reflexivity].
  change (len (@nil byte)) with 0 in Hb. destruct bs; lia.
Qed.

Section LogLayout.
Variable crc : bytes -> Z.
Variable crc_update : Z -> bytes -> Z.

Local Abbreviation FR := (fragments_run crc crc_update).
Local Abbreviation BL := (blocks_run crc crc_update).
Local Abbreviation BRL := (block_records_run crc crc_update).
Local Abbreviation run_layout := (run_layout crc crc_update).

Lemma get_record_fragment (f : fragment) (rest : bytes) :
  fragment_ok crc crc_update f ->
  log_reader.get_record crc crc_update (fragment_bytes f ++ rest)
  = Ok (frag_data f, byte_val (frag_type f), rest).
Proof.
  intros (H4 & Hd & Hc). unfold fragment_bytes. rewrite <- !app_assoc.
  pose proof (len_nonneg (frag_data f)).
  rewrite (get_record_checked crc crc_update).
  - rewrite Hc, Z.eqb_refl. reflexivity.
  - exact H4.
  - unfold sample.le, len. rewrite length_to_bytes_le_aux. reflexivity.
  - apply from_to_bytes_le. change (256 ^ Z.of_nat 2) with 65536. lia.
Qed.

Lemma FR_any (fuel : nat) (log block : stream) (full : bytes) :
  (length log + length block + 1 <= fuel)%nat ->
  log_reader.fragments_loop crc crc_update fuel log block full
  = FR log block full.
Proof.
  intros Hf. symmetry. apply refines_fueled.
  - apply fragments_loop_refines, Hf.
  - apply fragments_loop_fueled. lia.
Qed.

Lemma BL_any (fuel : nat) (log : stream) (records : list bytes) :
  (3 * length log + 1 <= fuel)%nat ->
  log_reader.blocks_loop crc crc_update fuel log records = BL log records.
Proof.
  intros Hf. symmetry. apply refines_fueled.
  - apply blocks_loop_refines, Hf.
  - apply blocks_loop_fueled. lia.
Qed.

Lemma BRL_any (fuel : nat) (log block : stream) (records : list bytes) :
  (3 * length log + length block + 2 <= fuel)%nat ->
  log_reader.block_records_loop crc crc_update fuel log block records
  = BRL log block records.
Proof.
  intros Hf. symmetry. apply refines_fueled.
  - apply blocks_loop_refines, Hf.
  - apply blocks_loop_fueled. lia.
Qed.

Lemma BL_end (records : list bytes) : BL [] records = Ok records.
Proof. reflexivity. Qed.

Lemma BL_next (log block log' : stream) (records : list bytes) :
  log_reader.get_next_block log = Some (block, log') ->
  BL log records = BRL log' block records.
Proof.
  intros N. unfold blocks_run.
  replace (3 * length log + 1)%nat with (S (3 * length log)) by lia.
  cbn [log_reader.blocks_loop]. rewrite N.
  apply get_next_block_Some in N. apply BRL_any. lia.
Qed.

Lemma BRL_done (log block : stream) (records : list bytes) :
  log_reader.records_left_in_block block = false ->
  BRL log block records = BL log records.
Proof.
  intros L. unfold block_records_run.
  replace (3 * length log + length block + 2)%nat
    with (S (3 * length log + length block + 1)) by lia.
  cbn [log_reader.block_records_loop]. rewrite L. apply BL_any. lia.
Qed.

Lemma BRL_full (log block block1 : stream) (data : bytes) (ty : Z)
    (records : list bytes) :
  log_reader.records_left_in_block block = true ->
  log_reader.get_record crc crc_update block = Ok (data, ty, block1) ->
  ty = log_reader.RECORD_TYPE_FULL ->
  BRL log block records = BRL log block1 (records ++ [data]).
Proof.
  intros L R ->. unfold block_records_run at 1.
  replace (3 * length log + length block + 2)%nat
    with (S (3 * length log + length block + 1)) by lia.
  cbn [log_reader.block_records_loop]. rewrite L, R. cbn [bind].
  rewrite Z.eqb_refl. cbn [negb bind].
  apply get_record_length in R. apply BRL_any. lia.
Qed.

Lemma BRL_first (log block block1 : stream) (data : bytes) (ty : Z)
    (records : list bytes) :
  log_reader.records_left_in_block block = true ->
  log_reader.get_record crc crc_update block = Ok (data, ty, block1) ->
  ty = log_reader.RECORD_TYPE_FIRST ->
  BRL log block records
  = bind (FR log block1 data)
         (fun r => let '(full, log', block') := r in
                   BRL log' block' (records ++ [full])).
Proof.
  intros L R ->. unfold block_records_run at 1.
  replace (3 * length log + length block + 2)%nat
    with (S (3 * length log + length block + 1)) by lia.
  cbn [log_reader.block_records_loop]. rewrite L, R. cbn [bind].
  change (log_reader.RECORD_TYPE_FIRST =? log_reader.RECORD_TYPE_FULL)
    with false.
  rewrite Z.eqb_refl. cbn [negb assert bind].
  pose proof (get_record_length _ _ _ _ _ _ R) as Rl.
  rewrite FR_any by lia.
  destruct (FR log block1 data) as [[[full log'] block']|e] eqn:F;
    [|reflexivity].
  cbn [bind]. unfold fragments_run in F. apply fragments_loop_length in F.
  apply BRL_any. lia.
Qed.

(** One turn of the loop that collects fragments, on the block that the
    record is read from: the current one, or the next one when the current
    one has no record left. *)
Lemma FR_step (log block log1 block1 block2 : stream) (full data : bytes)
    (ty : Z) :
  (if log_reader.records_left_in_block block
   then (log1, block1) = (log, block)
   else log_reader.get_next_block log = Some (block1, log1)) ->
  log_reader.get_record crc crc_update block1 = Ok (data, ty, block2) ->
  FR log block full
  = if ty =? log_reader.RECORD_TYPE_MIDDLE
    then FR log1 block2 (full ++ data)
    else if ty =? log_reader.RECORD_TYPE_LAST
         then Ok (full ++ data, log1, block2)
         else Raise (AssertionError "unknown record type").
Proof.
  intros Hb R. unfold fragments_run at 1.
  replace (length log + length block + 1)%nat
    with (S (length log + length block)) by lia.
  cbn [log_reader.fragments_loop].
  pose proof (get_record_length _ _ _ _ _ _ R) as Rl.
  destruct (log_reader.records_left_in_block block); cbn [negb].
  - injection Hb as -> ->. cbn [bind]. rewrite R. cbn [bind].
    destruct (ty =? log_reader.RECORD_TYPE_MIDDLE); [|reflexivity].
    apply FR_any. lia.
  - rewrite Hb. cbn [bind]. rewrite R. cbn [bind].
    apply get_next_block_Some in Hb.
    destruct (ty =? log_reader.RECORD_TYPE_MIDDLE); [|reflexivity].
    apply FR_any. lia.
Qed.

Lemma FR_no_block (block : stream) (full : bytes) :
  log_reader.records_left_in_block block = false ->
  FR [] block full = Raise (AssertionError "expecting another block").
Proof.
  intros L. unfold fragments_run.
  replace (length (@nil byte) + length block + 1)%nat
    with (S (length block)) by (simpl; lia).
  cbn [log_reader.fragments_loop]. rewrite L. reflexivity.
Qed.

Lemma records_left_fragment (f : fragment) (rest : bytes) :
  fragment_ok crc crc_update f ->
  log_reader.records_left_in_block (fragment_bytes f ++ rest) = true.
Proof.
  intros (H4 & _). unfold log_reader.records_left_in_block, util.bytes_left.
  rewrite len_app, len_fragment_bytes, H4.
  pose proof (len_nonneg (frag_data f)). pose proof (len_nonneg rest).
  apply Z.gtb_lt. lia.
Qed.

Lemma records_left_trailer (t : bytes) :
  len t <= 6 -> log_reader.records_left_in_block t = false.
Proof.
  intros H. unfold log_reader.records_left_in_block, util.bytes_left.
  rewrite Z.gtb_ltb. apply Z.ltb_ge. exact H.
Qed.

Lemma run_layout_fragment (f : fragment) (frs : list fragment) (t : bytes)
    (bs : list block_layout) (pending : option bytes) (acc : list bytes)
    (records : list bytes) :
  fragment_ok crc crc_update f ->
  (forall pending' acc' records',
      assemble (frs ++ List.concat (map fragments bs)) pending'
      = Some records' ->
      run_layout frs t bs pending' acc' = Ok (acc' ++ records')) ->
  assemble ((f :: frs) ++ List.concat (map fragments bs)) pending
  = Some records ->
  run_layout (f :: frs) t bs pending acc = Ok (acc ++ records).
Proof.
  intros Hf IH Ha. cbn [app assemble] in Ha.
  unfold run_layout, fragments_bytes. cbn [map List.concat].
  fold (fragments_bytes frs). rewrite <- app_assoc.
  pose proof (get_record_fragment f (fragments_bytes frs ++ t) Hf) as R.
  pose proof (records_left_fragment f (fragments_bytes frs ++ t) Hf) as L.
  destruct pending as [full|].
  - rewrite (FR_step _ _ (file_bytes bs) (fragment_bytes f ++ fragments_bytes frs ++ t)
               _ full _ _ ltac:(rewrite L; reflexivity) R).
    destruct (byte_val (frag_type f) =? log_reader.RECORD_TYPE_MIDDLE).
    + apply (IH (Some (full ++ frag_data f)) acc records Ha).
    + destruct (byte_val (frag_type f) =? log_reader.RECORD_TYPE_LAST);
        [|discriminate].
      destruct (assemble _ None) as [records'|] eqn:Ha'; [|discriminate].
      inv_Ok Ha. cbn [bind].
      pose proof (IH None (acc ++ [full ++ frag_data f]) records' Ha') as G.
      unfold run_layout in G.
      etransitivity; [exact G|]. rewrite <- app_assoc. reflexivity.
  - destruct (byte_val (frag_type f) =? log_reader.RECORD_TYPE_FULL) eqn:E1.
    + apply Z.eqb_eq in E1.
      destruct (assemble _ None) as [records'|] eqn:Ha'; [|discriminate].
      inv_Ok Ha. rewrite (BRL_full _ _ _ _ _ _ L R E1).
      pose proof (IH None (acc ++ [frag_data f]) records' Ha') as G.
      unfold run_layout in G.
      etransitivity; [exact G|]. rewrite <- app_assoc. reflexivity.
    + destruct (byte_val (frag_type f) =? log_reader.RECORD_TYPE_FIRST)
        eqn:E2; [|discriminate].
      apply Z.eqb_eq in E2. rewrite (BRL_first _ _ _ _ _ _ L R E2).
      apply (IH (Some (frag_data f)) acc records Ha).
Qed.

Lemma run_layout_spec (bs : list block_layout) :
  blocks_ok bs ->
  Forall (fragment_ok crc crc_update) (List.concat (map fragments bs)) ->
  forall (frs : list fragment) (t : bytes),
    Forall (fragment_ok crc crc_update) frs -> len t <= 6 ->
    forall (pending : option bytes) (acc records : list bytes),
      assemble (frs ++ List.concat (map fragments bs)) pending
      = Some records ->
      run_layout frs t bs pending acc = Ok (acc ++ records).
Proof.
  induction bs as [|b bs IHbs]; intros Hbs Hok frs t Hfrs Ht.
  - induction frs as [|f frs IH]; intros pending acc records Ha.
    + cbn [app map List.concat assemble] in Ha.
      destruct pending; [discriminate|]. inv_Ok Ha.
      unfold run_layout, fragments_bytes. cbn [map List.concat app].
      rewrite (BRL_done _ _ _ (records_left_trailer t Ht)).
      rewrite app_nil_r. apply BL_end.
    + inversion Hfrs as [|? ? Hf Hfrs']; subst.
      apply run_layout_fragment; [exact Hf | exact (IH Hfrs') | exact Ha].
  - cbn [map List.concat] in Hok. apply Forall_app in Hok.
    destruct Hok as [Hokb Hok].
    pose proof Hbs as (Htb & Hlb & Hbs').
    pose proof (get_next_block_layout b bs Hbs) as N.
    induction frs as [|f frs IH]; intros pending acc records Ha.
    + cbn [app map List.concat] in Ha.
      unfold run_layout, fragments_bytes at 1 2. cbn [map List.concat app].
      pose proof (records_left_trailer t Ht) as L.
      destruct pending as [full|].
      * destruct (fragments b) as [|f frs] eqn:Eb.
        { exfalso. destruct bs as [|b' bs].
          - cbn [map List.concat app] in Ha. discriminate.
          - unfold block_bytes, fragments_bytes in Hlb. rewrite Eb in Hlb.
            cbn [map List.concat app] in Hlb. lia. }
        inversion Hokb as [|? ? Hf Hokb']; subst.
        assert (Eblock : block_bytes b
                         = fragment_bytes f
                           ++ fragments_bytes frs ++ trailer b).
        { unfold block_bytes, fragments_bytes. rewrite Eb.
          cbn [map List.concat]. rewrite <- app_assoc. reflexivity. }
        pose proof (get_record_fragment f (fragments_bytes frs ++ trailer b)
                      Hf) as R.
        rewrite <- Eblock in R.
        rewrite (FR_step _ _ (file_bytes bs) (block_bytes b) _ full _ _
                   ltac:(rewrite L; exact N) R).
        cbn [app assemble] in Ha.
        destruct (byte_val (frag_type f) =? log_reader.RECORD_TYPE_MIDDLE).
        -- apply (IHbs Hbs' Hok frs (trailer b) Hokb' Htb
                    (Some (full ++ frag_data f)) acc records Ha).
        -- destruct (byte_val (frag_type f) =? log_reader.RECORD_TYPE_LAST);
             [|discriminate].
           destruct (assemble _ None) as [records'|] eqn:Ha';
             [|discriminate].
           inv_Ok Ha. cbn [bind].
           pose proof (IHbs Hbs' Hok frs (trailer b) Hokb' Htb None
                         (acc ++ [full ++ frag_data f]) records' Ha') as G.
           unfold run_layout in G.
      etransitivity; [exact G|]. rewrite <- app_assoc. reflexivity.
      * rewrite (BRL_done _ _ _ L), (BL_next _ _ _ _ N).
        apply (IHbs Hbs' Hok (fragments b) (trailer b) Hokb Htb None acc
                 records Ha).
    + inversion Hfrs as [|? ? Hf Hfrs']; subst.
      apply run_layout_fragment; [exact Hf | exact (IH Hfrs') | exact Ha].
Qed.

End LogLayout.

(** X9.  [get_log_records] on a file laid out as the log format has it:
    blocks of 32 KiB, the last one possibly shorter, each a run of physical
    records followed by at most six bytes, every record with the checksum
    that [crc] and [crc_update] give it.  When the physical records are
    FULL records and runs of a FIRST record, MIDDLE records and a LAST
    record, the result
    is the list of the payloads, the fragments of a run joined, also
    across blocks. *)
Theorem get_log_records_layout (crc : bytes -> Z)
    (crc_update : Z -> bytes -> Z) (bs : list block_layout)
    (records : list bytes) :
  blocks_ok bs ->
  Forall (fragment_ok crc crc_update) (List.concat (map fragments bs)) ->
  assemble (List.concat (map fragments bs)) None = Some records ->
  log_reader.get_log_records crc crc_update (file_bytes bs) = Ok records.
Proof.
  intros Hbs Hok Ha. unfold log_reader.get_log_records.
  change (log_reader.blocks_loop crc crc_update
            (3 * length (file_bytes bs) + 1) (file_bytes bs) [])
    with (blocks_run crc crc_update (file_bytes bs) []).
  destruct bs as [|b bs].
  - cbn in Ha. inv_Ok Ha. reflexivity.
  - rewrite (BL_next _ _ _ _ _ _ (get_next_block_layout b bs Hbs)).
    cbn [map List.concat] in Hok. apply Forall_app in Hok.
    destruct Hok as [Hokb Hok]. destruct Hbs as (Htb & Hlb & Hbs').
    apply (run_layout_spec crc crc_update bs Hbs' Hok (fragments b)
             (trailer b) Hokb Htb None [] records Ha).
Qed.

Lemma Manifest_existing_files_witness :
  exists m : log_reader.Manifest,
    log_reader.Manifest_init crc32c.crc crc32c.crc_update
      examples.manifest_readded = Ok m
    /\ log_reader.existing_files m = [7]
    /\ map log_reader.nf_number (log_reader.new_files m) = [6; 7; 6]
    /\ NoDup (log_reader.existing_files m)
    /\ forall n : Z,
         In n (log_reader.existing_files m)
         <-> In n (map log_reader.nf_number (log_reader.new_files m))
             /\ ~ In n (map log_reader.df_number
                          (log_reader.deleted_files m)).
Proof.
  let r := eval vm_compute in
      (log_reader.Manifest_init crc32c.crc crc32c.crc_update
         examples.manifest_readded) in
  match r with
  | Ok ?m => exists m
  end.
  split; [vm_compute; reflexivity|].
  split; [reflexivity|]. split; [reflexivity|].
  apply (Manifest_existing_files crc32c.crc crc32c.crc_update
           examples.manifest_readded).
  vm_compute. reflexivity.
Defined.

Lemma get_log_records_layout_witness :
  log_reader.get_log_records crc32c.crc crc32c.crc_update
    (file_bytes [examples.block_fragmented])
  = Ok [sample.ascii_bytes "abcde"; sample.ascii_bytes "xyz"].
Proof.
  apply (get_log_records_layout crc32c.crc crc32c.crc_update
           [examples.block_fragmented]).
  - vm_compute. repeat split; discriminate.
  - repeat constructor; vm_compute; congruence.
  - vm_compute. reflexivity.
Defined.

(** ** log_reader: a write batch read from its layout *)

Lemma record_entries_loop_layout :
  forall (ops : list batch_op) (fuel : nat) (entries : dict bytes bytes)
         (deleted_keys : pyset bytes),
    (length ops < fuel)%nat ->
    Forall batch_op_fits ops ->
    log_reader.record_entries_loop fuel
      (List.concat (map batch_op_bytes ops)) entries deleted_keys
    = Ok (fold_left batch_apply ops (entries, deleted_keys)).
Proof.
  induction ops as [|op ops IH]; intros fuel entries deleted_keys Hf Hfit;
    (destruct fuel as [|fuel]; [cbn [length] in Hf; lia|]);
    cbn [log_reader.record_entries_loop]; [reflexivity|].
  cbn [map List.concat fold_left].
  inversion Hfit as [|? ? Hop Hfit']; subst.
  assert (Hnext : (length ops < fuel)%nat) by (cbn [length] in Hf; lia).
  unfold util.bytes_left, util.read_varint32.
  destruct op as [key value|key]; cbn [batch_op_fits] in Hop;
    cbn [batch_op_bytes app]; rewrite len_cons;
    match goal with
    | |- context [1 + len ?l =? 0] =>
        pose proof (len_nonneg l);
        replace (1 + len l =? 0) with false
          by (symmetry; apply Z.eqb_neq; lia)
    end;
    rewrite read_safe_cons; cbn [bind]; rewrite index_single; cbn [bind];
    pose proof (len_nonneg key).
  - change (byte_val (B log_reader.kTypeValue) =? log_reader.kTypeValue)
      with true. cbv iota.
    destruct Hop as [Hk Hv]. pose proof (len_nonneg value).
    rewrite <- !app_assoc.
    rewrite read_varint_varint by first [lia | split; [lia | exact Hk]].
    cbn [bind].
    rewrite read_safe_app by (change (2 ^ 35) with 34359738368 in Hk; ssize).
    cbn [bind].
    rewrite read_varint_varint by first [lia | split; [lia | exact Hv]].
    cbn [bind].
    rewrite read_safe_app by (change (2 ^ 35) with 34359738368 in Hv; ssize).
    cbn [bind]. apply IH; assumption.
  - change (byte_val (B log_reader.kTypeDeletion) =? log_reader.kTypeValue)
      with false.
    change (byte_val (B log_reader.kTypeDeletion)
            =? log_reader.kTypeDeletion) with true. cbv iota.
    rewrite <- !app_assoc.
    rewrite read_varint_varint by first [lia | split; [lia | exact Hop]].
    cbn [bind].
    rewrite read_safe_app
      by (change (2 ^ 35) with 34359738368 in Hop; ssize).
    cbn [bind]. apply IH; assumption.
Qed.

Lemma len_batch_ops_bytes (ops : list batch_op) :
  len ops <= len (List.concat (map batch_op_bytes ops)).
Proof.
  induction ops as [|op ops IH]; [vm_compute; discriminate|].
  cbn [map List.concat]. rewrite len_app, len_cons.
  assert (1 <= len (batch_op_bytes op)).
  { destruct op; cbn [batch_op_bytes app]; rewrite len_cons;
      match goal with |- 1 <= 1 + len ?l => pose proof (len_nonneg l) end;
      lia. }
  lia.
Qed.

(** The head of a batch: the sequence number and the count. *)
Lemma get_record_entries_head (sequence count rest : bytes) :
  len sequence = 8 -> len count = 4 ->
  log_reader.get_record_entries (sequence ++ count ++ rest)
  = ('(entries, deleted_keys) <-
       log_reader.record_entries_loop (S (length rest)) rest [] [] ;;
     _ <- assert (len entries + len deleted_keys =? from_bytes_le count)
            "incorrect record entry count" ;;
     Ok (entries, deleted_keys)).
Proof.
  intros H8 H4. unfold log_reader.get_record_entries.
  rewrite <- H8 at 1. rewrite read_safe_app by (rewrite H8; ssize).
  cbn [bind]. rewrite <- H4 at 1.
  rewrite read_safe_app by (rewrite H4; ssize). reflexivity.
Qed.

Lemma record_entries_loop_batch (ops : list batch_op) :
  Forall batch_op_fits ops ->
  log_reader.record_entries_loop
    (S (length (List.concat (map batch_op_bytes ops))))
    (List.concat (map batch_op_bytes ops)) [] []
  = Ok (batch_result ops).
Proof.
  intros Hfit. apply record_entries_loop_layout; [|exact Hfit].
  pose proof (len_batch_ops_bytes ops) as L. unfold len in L. lia.
Qed.

(** X10.  [__get_record_entries] on a record laid out as a write batch:
    eight bytes of sequence number, four bytes of count, then the
    operations, each a type byte, the key with its length and, for a value,
    the value with its length.  The result is the dictionary of the values
    written and the set of the keys deleted, operation after operation, a
    later value replacing an earlier one; the sequence number is not used.
    The count is compared with the number of distinct keys written plus
    the number of distinct keys deleted, and the record is refused when
    they differ. *)
Theorem get_record_entries_layout (sequence count : bytes)
    (ops : list batch_op) :
  len sequence = 8 -> len count = 4 -> Forall batch_op_fits ops ->
  log_reader.get_record_entries
    (sequence ++ count ++ List.concat (map batch_op_bytes ops))
  = if len (fst (batch_result ops)) + len (snd (batch_result ops))
       =? from_bytes_le count
    then Ok (batch_result ops)
    else Raise (AssertionError "incorrect record entry count").
Proof.
  intros H8 H4 Hfit.
  rewrite get_record_entries_head by assumption.
  rewrite record_entries_loop_batch by exact Hfit.
  cbn [bind].
  destruct (batch_result ops) as [entries deleted_keys].
  cbn [fst snd].
  destruct (len entries + len deleted_keys =? from_bytes_le count);
    reflexivity.
Qed.

Lemma get_record_entries_layout_witness :
  log_reader.get_record_entries
    (sample.le 9 8 ++ sample.le 3 4
     ++ List.concat
          (map batch_op_bytes
             [OpPut (sample.ascii_bytes "a") (sample.ascii_bytes "1");
              OpDelete (sample.ascii_bytes "b");
              OpPut (sample.ascii_bytes "a") (sample.ascii_bytes "2")]))
  = Raise (AssertionError "incorrect record entry count")
  /\ log_reader.get_record_entries
       (sample.le 9 8 ++ sample.le 2 4
        ++ List.concat
             (map batch_op_bytes
                [OpPut (sample.ascii_bytes "a") (sample.ascii_bytes "1");
                 OpDelete (sample.ascii_bytes "b");
                 OpPut (sample.ascii_bytes "a") (sample.ascii_bytes "2")]))
     = Ok ([(sample.ascii_bytes "a", sample.ascii_bytes "2")],
           [sample.ascii_bytes "b"]).
Proof.
  split.
  - apply (get_record_entries_layout (sample.le 9 8) (sample.le 3 4)
             [OpPut (sample.ascii_bytes "a") (sample.ascii_bytes "1");
              OpDelete (sample.ascii_bytes "b");
              OpPut (sample.ascii_bytes "a") (sample.ascii_bytes "2")]);
      [reflexivity | reflexivity |].
    repeat (apply Forall_cons; [vm_compute; repeat split; congruence|]).
    apply Forall_nil.
  - apply (get_record_entries_layout (sample.le 9 8) (sample.le 2 4)
             [OpPut (sample.ascii_bytes "a") (sample.ascii_bytes "1");
              OpDelete (sample.ascii_bytes "b");
              OpPut (sample.ascii_bytes "a") (sample.ascii_bytes "2")]);
      [reflexivity | reflexivity |].
    repeat (apply Forall_cons; [vm_compute; repeat split; congruence|]).
    apply Forall_nil.
Defined.

(** ** log_reader: the operations of a log file, replayed *)

Section DictReplay.
Context {K V : Type} (eqb : K -> K -> bool).
Hypothesis eqb_eq : forall a b : K, eqb a b = true <-> a = b.

Lemma dict_set_set (d : dict K V) (k : K) (v v' : V) :
  dict_set eqb (dict_set eqb d k v') k v = dict_set eqb d k v.
Proof.
  induction d as [|[k0 v0] d IH]; cbn [dict_set].
  - rewrite (eqb_refl eqb eqb_eq). reflexivity.
  - destruct (eqb k k0) eqn:E; cbn [dict_set]; rewrite E;
      [reflexivity | rewrite IH; reflexivity].
Qed.

Lemma dict_set_comm (d : dict K V) (a k : K) (x v : V) :
  a <> k -> In k (dict_keys d) ->
  dict_set eqb (dict_set eqb d a x) k v
  = dict_set eqb (dict_set eqb d k v) a x.
Proof.
  intros Hak. induction d as [|[k0 v0] d IH]; intros Hin; [destruct Hin|].
  cbn [dict_set].
  destruct (eqb a k0) eqn:Ea; destruct (eqb k k0) eqn:Ek;
    cbn [dict_set]; rewrite ?Ea, ?Ek; try reflexivity.
  - apply eqb_eq in Ea, Ek. congruence.
  - rewrite IH; [reflexivity|].
    destruct Hin as [Hin|Hin]; [|exact Hin].
    cbn [fst] in Hin. subst k0.
    rewrite (eqb_refl eqb eqb_eq) in Ek. discriminate.
Qed.

Lemma dict_update_set_present (o e : dict K V) (k : K) (v : V) :
  In k (dict_keys e) -> ~ In k (dict_keys o) ->
  dict_set eqb (dict_update eqb e o) k v
  = dict_update eqb (dict_set eqb e k v) o.
Proof.
  unfold dict_update. revert e.
  induction o as [|[a x] o IH]; intros e He Ho; [reflexivity|].
  cbn [fold_left fst snd]. cbn [dict_keys map fst] in Ho.
  rewrite IH.
  - rewrite dict_set_comm; [reflexivity | | exact He].
    intros ->. apply Ho. left. reflexivity.
  - apply (dict_keys_set eqb eqb_eq). right. exact He.
  - intros H. apply Ho. right. exact H.
Qed.

Lemma dict_update_set (o d : dict K V) (k : K) (v : V) :
  NoDup (dict_keys o) ->
  dict_update eqb d (dict_set eqb o k v)
  = dict_set eqb (dict_update eqb d o) k v.
Proof.
  revert d. induction o as [|[k0 v0] o IH]; intros d Ho; [reflexivity|].
  cbn [dict_keys map fst] in Ho. inversion Ho as [|? ? Hn Ho']; subst.
  cbn [dict_set]. destruct (eqb k k0) eqn:E.
  - apply eqb_eq in E. subst k0.
    unfold dict_update at 1 2. cbn [fold_left fst snd].
    fold (dict_update eqb (dict_set eqb d k v) o).
    fold (dict_update eqb (dict_set eqb d k v0) o).
    rewrite dict_update_set_present; [| |exact Hn].
    + rewrite dict_set_set. reflexivity.
    + apply (dict_keys_set eqb eqb_eq). left. reflexivity.
  - unfold dict_update at 1 2. cbn [fold_left fst snd].
    fold (dict_update eqb (dict_set eqb d k0 v0) (dict_set eqb o k v)).
    fold (dict_update eqb (dict_set eqb d k0 v0) o).
    apply IH, Ho'.
Qed.

Lemma set_update_add (t s : pyset K) (x : K) :
  set_update eqb s (set_add eqb t x)
  = set_add eqb (set_update eqb s t) x.
Proof.
  unfold set_add at 1. destruct (set_mem eqb t x) eqn:E.
  - unfold set_add.
    replace (set_mem eqb (set_update eqb s t) x) with true; [reflexivity|].
    symmetry. apply (set_mem_In eqb eqb_eq).
    apply (In_set_update eqb eqb_eq). right.
    apply (set_mem_In eqb eqb_eq). exact E.
  - unfold set_update. rewrite fold_left_app. reflexivity.
Qed.

End DictReplay.

Lemma batch_result_snoc (ops : list batch_op) (op : batch_op) :
  batch_result (ops ++ [op]) = batch_apply (batch_result ops) op.
Proof. unfold batch_result. rewrite fold_left_app. reflexivity. Qed.

Lemma batch_result_NoDup (ops : list batch_op) :
  NoDup (dict_keys (fst (batch_result ops))).
Proof.
  induction ops as [|op ops IH] using rev_ind; [constructor|].
  rewrite batch_result_snoc. destruct op as [k v|k]; cbn [batch_apply fst].
  - apply (dict_set_NoDup bytes_eqb bytes_eqb_eq), IH.
  - exact IH.
Qed.

(** The operations of a batch applied to a dictionary and a set give what
    [update] makes of them and of the result of the batch. *)
Lemma batch_apply_update (ops : list batch_op) (d : dict bytes bytes)
    (s : pyset bytes) :
  fold_left batch_apply ops (d, s)
  = (dict_update bytes_eqb d (fst (batch_result ops)),
     set_update bytes_eqb s (snd (batch_result ops))).
Proof.
  induction ops as [|op ops IH] using rev_ind; [reflexivity|].
  rewrite fold_left_app, IH, batch_result_snoc. cbn [fold_left].
  destruct op as [k v|k]; cbn [batch_apply fst snd].
  - rewrite (dict_update_set bytes_eqb bytes_eqb_eq)
      by apply batch_result_NoDup.
    reflexivity.
  - rewrite (set_update_add bytes_eqb bytes_eqb_eq). reflexivity.
Qed.

Lemma log_entries_loop_batches :
  forall (bs : list batch) (entries : dict bytes bytes)
         (deleted_keys : pyset bytes),
    Forall batch_fits bs ->
    log_reader.log_entries_loop (map batch_bytes bs) entries deleted_keys
    = if forallb batch_count_ok bs
      then Ok (fold_left batch_apply (List.concat (map b_ops bs))
                 (entries, deleted_keys))
      else Raise (AssertionError "incorrect record entry count").
Proof.
  unfold log_reader.log_entries_loop.
  induction bs as [|b bs IH]; intros entries deleted_keys Hfit;
    [reflexivity|].
  inversion Hfit as [|? ? (H8 & H4 & Hops) Hfit']; subst.
  cbn [map foldM forallb List.concat]. unfold batch_bytes at 1.
  rewrite get_record_entries_head by assumption.
  rewrite record_entries_loop_batch by exact Hops.
  rewrite fold_left_app, batch_apply_update.
  unfold batch_count_ok.
  destruct (batch_result (b_ops b)) as [record_entries record_deleted].
  cbn [bind fst snd].
  destruct (len record_entries + len record_deleted
            =? from_bytes_le (b_count b)); [|reflexivity].
  cbn [assert bind andb]. apply IH, Hfit'.
Qed.

(** X11.  [get_log_entries] replays the operations of a log file.  When
    the records of the file are write batches, the dictionary and the set
    of deleted keys that it returns are those that the operations of all
    the batches give, applied one after the other in the order of the
    file: a value written later replaces the earlier one at the place of
    the key, a key deleted stays in the set when it is written again.  The
    file is refused when the count of some batch is not the number of
    distinct keys that the batch writes plus the number of distinct keys
    that it deletes. *)
Theorem get_log_entries_replay (crc : bytes -> Z)
    (crc_update : Z -> bytes -> Z) (file : bytes) (bs : list batch) :
  log_reader.get_log_records crc crc_update file
  = Ok (map batch_bytes bs) ->
  Forall batch_fits bs ->
  log_reader.get_log_entries crc crc_update file
  = if forallb batch_count_ok bs
    then Ok (batch_result (List.concat (map b_ops bs)))
    else Raise (AssertionError "incorrect record entry count").
Proof.
  intros Hrec Hfit. unfold log_reader.get_log_entries.
  rewrite Hrec. cbn [bind].
  apply log_entries_loop_batches, Hfit.
Qed.

Lemma get_log_entries_replay_witness :
  log_reader.get_log_entries crc32c.crc crc32c.crc_update batch_examples.log
  = Ok ([(sample.ascii_bytes "a", sample.ascii_bytes "3");
         (sample.ascii_bytes "b", sample.ascii_bytes "4")],
        [sample.ascii_bytes "b"]).
Proof.
  apply (get_log_entries_replay crc32c.crc crc32c.crc_update
           batch_examples.log [batch_examples.first; batch_examples.second]).
  - vm_compute. reflexivity.
  - repeat (apply Forall_cons;
            [split; [reflexivity|]; split; [reflexivity|];
             repeat (apply Forall_cons;
                     [vm_compute; repeat split; congruence|]);
             apply Forall_nil|]).
    apply Forall_nil.
Defined.

(** ** table_reader: footer and keys *)

Section TableFooter.
Variable crc : bytes -> Z.
Variable crc_update : Z -> bytes -> Z.
Variable snappy_uncompress : bytes -> result bytes.

(** X12.  [Table.__init__] needs a footer: a file of less than 8 bytes
    raises [OSError] on the seek, a file whose last eight bytes are not the
    magic number fails the assertion, and a file with the magic number but
    less than 48 bytes raises [OSError] on the second seek. *)
Theorem Table_init_footer (file : bytes) :
  (len file < 8 ->
   table_reader.Table_init crc crc_update snappy_uncompress file
   = Raise OSError)
  /\ (8 <= len file ->
      from_bytes_le (drop (len file - 8) file) <> table_reader.MAGIC ->
      table_reader.Table_init crc crc_update snappy_uncompress file
      = Raise (AssertionError "Not a valid table file"))
  /\ (8 <= len file < 48 ->
      from_bytes_le (drop (len file - 8) file) = table_reader.MAGIC ->
      table_reader.Table_init crc crc_update snappy_uncompress file
      = Raise OSError)
  /\ (forall t : table_reader.Table,
        table_reader.Table_init crc crc_update snappy_uncompress file = Ok t ->
        48 <= len file
        /\ from_bytes_le (drop (len file - 8) file) = table_reader.MAGIC).
Proof.
  assert (Hread : 8 <= len file ->
            util.read_safe (drop (len file - 8) file) 8
            = Ok (drop (len file - 8) file, [])).
  { intros H8.
    assert (L : len (drop (len file - 8) file) = 8)
      by (rewrite len_drop; lia).
    rewrite <- L at 2. apply read_safe_all. rewrite L. ssize. }
  unfold table_reader.Table_init, table_reader.file_seek_end.
  split; [|split; [|split]].
  - intros H. replace (len file <? 8) with true
      by (symmetry; apply Z.ltb_lt; exact H).
    reflexivity.
  - intros H8 Hm. replace (len file <? 8) with false
      by (symmetry; apply Z.ltb_ge; exact H8).
    cbn [bind]. rewrite (Hread H8). cbn [bind].
    replace (from_bytes_le (drop (len file - 8) file) =? table_reader.MAGIC)
      with false by (symmetry; apply Z.eqb_neq; exact Hm).
    reflexivity.
  - intros H8 Hm. replace (len file <? 8) with false
      by (symmetry; apply Z.ltb_ge; lia).
    cbn [bind]. rewrite (Hread (proj1 H8)). cbn [bind].
    rewrite Hm, Z.eqb_refl. cbn [assert bind].
    replace (len file <? 40 + 8) with true
      by (symmetry; apply Z.ltb_lt; lia).
    reflexivity.
  - intros t H.
    destruct (len file <? 8) eqn:E8; [discriminate|].
    apply Z.ltb_ge in E8. cbn [bind] in H. rewrite (Hread E8) in H.
    cbn [bind] in H.
    destruct (from_bytes_le (drop (len file - 8) file) =? table_reader.MAGIC)
      eqn:Em; [|discriminate].
    apply Z.eqb_eq in Em. cbn [assert bind] in H.
    destruct (len file <? 40 + 8) eqn:E48; [discriminate|].
    apply Z.ltb_ge in E48. split; [lia | exact Em].
Qed.
End TableFooter.

Lemma Table_init_footer_witness :
  table_reader.Table_init crc32c.crc crc32c.crc_update sample.no_snappy
    (hex [1; 2; 3]) = Raise OSError
  /\ table_reader.Table_init crc32c.crc crc32c.crc_update sample.no_snappy
       (hex [0; 0; 0; 0; 0; 0; 0; 0; 0])
     = Raise (AssertionError "Not a valid table file")
  /\ table_reader.Table_init crc32c.crc crc32c.crc_update sample.no_snappy
       (sample.le table_reader.MAGIC 8) = Raise OSError
  /\ (48 <= len sample.table_s2
      /\ from_bytes_le (drop (len sample.table_s2 - 8) sample.table_s2)
         = table_reader.MAGIC).
Proof.
  split; [|split; [|split]].
  - apply (proj1 (Table_init_footer crc32c.crc crc32c.crc_update
                    sample.no_snappy (hex [1; 2; 3]))).
    reflexivity.
  - apply (proj1 (proj2 (Table_init_footer crc32c.crc crc32c.crc_update
                           sample.no_snappy
                           (hex [0; 0; 0; 0; 0; 0; 0; 0; 0])))).
    + vm_compute. discriminate.
    + vm_compute. discriminate.
  - apply (proj1 (proj2 (proj2
             (Table_init_footer crc32c.crc crc32c.crc_update
                sample.no_snappy (sample.le table_reader.MAGIC 8))))).
    + vm_compute. split; [discriminate | reflexivity].
    + vm_compute. reflexivity.
  - let r := eval vm_compute in
        (table_reader.Table_init crc32c.crc crc32c.crc_update
           sample.no_snappy sample.table_s2) in
    match r with
    | Ok ?t =>
        apply (proj2 (proj2 (proj2
                 (Table_init_footer crc32c.crc crc32c.crc_update
                    sample.no_snappy sample.table_s2))) t)
    end.
    vm_compute. reflexivity.
Defined.

Lemma block_entries_loop_keys (fuel : nat) :
  forall (is_meta : bool) (data : bytes) (restart_offset : Z) (s : stream)
         (prev_key : option bytes) (self b : table_reader.Block),
    table_reader.block_entries_loop fuel is_meta data restart_offset s
      prev_key self = Ok b ->
    block_keys_nonempty self -> block_keys_nonempty b.
Proof.
  induction fuel as [|fuel IH]; intros is_meta data ro s prev self b H Hself;
    cbn [table_reader.block_entries_loop] in H; [discriminate|].
  destruct (len data - len s <? ro); [|inv_Ok H; exact Hself].
  inv_bind H as [shared s1]. inv_bind H as [non_shared s2].
  inv_bind H as [val_len s3]. inv_bind H as shared_key_data.
  inv_bind H as [delta s4]. inv_bind H as [val s5]. inv_bind H as u.
  inv_bind H as self'. apply IH in H; [exact H|].
  apply assert_Ok, Z.gtb_lt in Ha5.
  assert (Hk : 1 <= len (slice_to (shared_key_data ++ delta) (-8)))
    by (rewrite (len_slice_to_neg _ 8) by lia; lia).
  assert (Hset : forall d k,
            (forall k', In k' (dict_keys d) -> 1 <= len k') ->
            In k (dict_keys
                    (dict_set bytes_eqb d
                       (slice_to (shared_key_data ++ delta) (-8)) val)) ->
            1 <= len k).
  { intros d k Hd Hin. apply (dict_keys_set bytes_eqb bytes_eqb_eq) in Hin.
    destruct Hin as [->|Hin]; [exact Hk | apply Hd, Hin]. }
  clear H.
  destruct is_meta.
  - inv_Ok Ha6. intros k. cbn [table_reader.block_entries
      table_reader.block_meta_entries table_reader.block_deleted_entries].
    intros [Hin|[Hin|Hin]]; [apply Hself; auto| |apply Hself; auto].
    revert Hin. apply Hset. intros k' Hk'. apply Hself. auto.
  - destruct (Z.land _ 255 =? table_reader.kTypeValue) in Ha6.
    + inv_Ok Ha6. intros k. cbn [table_reader.block_entries
        table_reader.block_meta_entries table_reader.block_deleted_entries].
      intros [Hin|[Hin|Hin]]; [|apply Hself; auto|apply Hself; auto].
      revert Hin. apply Hset. intros k' Hk'. apply Hself. auto.
    + destruct (Z.land _ 255 =? table_reader.kTypeDeletion) in Ha6;
        [|discriminate].
      inv_Ok Ha6. intros k. cbn [table_reader.block_entries
        table_reader.block_meta_entries table_reader.block_deleted_entries].
      intros [Hin|[Hin|Hin]]; [apply Hself; auto|apply Hself; auto|].
      revert Hin. apply Hset. intros k' Hk'. apply Hself. auto.
Qed.

Section TableKeys.
Variable crc : bytes -> Z.
Variable crc_update : Z -> bytes -> Z.
Variable snappy_uncompress : bytes -> result bytes.

Lemma Block_init_keys (handle : table_reader.BlockHandle) (file : bytes)
    (is_meta : bool) (b : table_reader.Block) :
  table_reader.Block_init crc crc_update snappy_uncompress handle file
    is_meta = Ok b ->
  block_keys_nonempty b.
Proof.
  unfold table_reader.Block_init. intros H.
  inv_bind H as [data block_type]. inv_bind H as data'.
  inv_bind H as u. apply block_entries_loop_keys in H; [exact H|].
  intros k [[]|[[]|[]]].
Qed.

(** X13.  No key of the [entries] or of the [deleted_entries] of a table
    is empty: an entry whose internal key has no byte before its last
    eight is refused ('key too short'). *)
Theorem Table_keys_nonempty (file : bytes) (t : table_reader.Table) :
  table_reader.Table_init crc crc_update snappy_uncompress file = Ok t ->
  forall k : bytes,
    In k (dict_keys (table_reader.entries t))
    \/ In k (dict_keys (table_reader.deleted_entries t)) ->
    1 <= len k.
Proof.
  unfold table_reader.Table_init. intros H.
  inv_bind H as s1. inv_bind H as [b8 s2]. inv_bind H as u.
  inv_bind H as s3. inv_bind H as [footer s4].
  inv_bind H as [metaindex_handle footer1].
  inv_bind H as [index_handle footer2].
  inv_bind H as index_block. inv_bind H as meta_block.
  inv_bind H as data_blocks. inv_Ok H.
  assert (HF : Forall block_keys_nonempty data_blocks).
  { revert Ha8. apply foldM_invariant; [|constructor].
    intros bs kv bs' Hbs Hstep.
    inv_bind Hstep as [h rest]. inv_bind Hstep as blk. inv_Ok Hstep.
    apply Forall_app. split; [assumption|].
    constructor; [|constructor].
    eapply Block_init_keys. eassumption. }
  clear Ha8.
  assert (G : forall init,
             (forall k,
                 In k (dict_keys (table_reader.entries init))
                 \/ In k (dict_keys (table_reader.deleted_entries init)) ->
                 1 <= len k) ->
             forall k,
               In k (dict_keys (table_reader.entries
                 (fold_left
                    (fun self db =>
                       table_reader.mkTable
                         (dict_update bytes_eqb (table_reader.entries self)
                            (table_reader.block_entries db))
                         (dict_update bytes_eqb
                            (table_reader.meta_entries self)
                            (table_reader.block_meta_entries db))
                         (dict_update bytes_eqb
                            (table_reader.deleted_entries self)
                            (table_reader.block_deleted_entries db)))
                    data_blocks init)))
               \/ In k (dict_keys (table_reader.deleted_entries
                 (fold_left
                    (fun self db =>
                       table_reader.mkTable
                         (dict_update bytes_eqb (table_reader.entries self)
                            (table_reader.block_entries db))
                         (dict_update bytes_eqb
                            (table_reader.meta_entries self)
                            (table_reader.block_meta_entries db))
                         (dict_update bytes_eqb
                            (table_reader.deleted_entries self)
                            (table_reader.block_deleted_entries db)))
                    data_blocks init))) ->
               1 <= len k).
  { induction HF as [|blk blks Hblk HF IH]; intros init Hinit;
      cbn [fold_left]; [exact Hinit|].
    apply IH. cbn [table_reader.entries table_reader.deleted_entries].
    intros k [Hin|Hin];
      apply (dict_keys_update bytes_eqb bytes_eqb_eq) in Hin;
      destruct Hin as [Hin|Hin]; auto; apply Hblk; auto. }
  apply G. intros k [[]|[]].
Qed.
End TableKeys.

Lemma Table_keys_nonempty_witness :
  table_reader.Table_init crc32c.crc crc32c.crc_update sample.no_snappy
    sample.table_s2
  = Ok (table_reader.mkTable
          [(sample.ascii_bytes "alpha", sample.ascii_bytes "1");
           (sample.ascii_bytes "beta", sample.ascii_bytes "2")]
          []
          [(sample.ascii_bytes "alpha", [])])
  /\ forall k : bytes,
       In k [sample.ascii_bytes "alpha"; sample.ascii_bytes "beta"]
       \/ In k [sample.ascii_bytes "alpha"] ->
       1 <= len k.
Proof.
  split; [vm_compute; reflexivity|].
  apply (Table_keys_nonempty crc32c.crc crc32c.crc_update sample.no_snappy
           sample.table_s2
           (table_reader.mkTable
              [(sample.ascii_bytes "alpha", sample.ascii_bytes "1");
               (sample.ascii_bytes "beta", sample.ascii_bytes "2")]
              []
              [(sample.ascii_bytes "alpha", [])])).
  vm_compute. reflexivity.
Defined.

(** ** table_reader: a block read from its layout *)

Lemma stream_read_app (b s : bytes) :
  len b <= ssize_max -> stream_read (b ++ s) (len b) = Ok (b, s).
Proof.
  intros Hmax. unfold stream_read. pose proof (len_nonneg b).
  destruct (len b >? ssize_max) eqn:E1; [apply Z.gtb_lt in E1; lia|].
  destruct (len b <? 0) eqn:E2; [apply Z.ltb_lt in E2; lia|].
  rewrite take_app_len, drop_app_len. reflexivity.
Qed.

Lemma len_varint_pos (v : Z) : 1 <= len (sample.varint v).
Proof.
  unfold sample.varint.
  change (sample.varint_aux 10 v)
    with (if v <? 128 then [B v]
          else B (Z.lor (Z.land v 127) 128)
               :: sample.varint_aux 9 (Z.shiftr v 7)).
  destruct (v <? 128); [vm_compute; discriminate|].
  rewrite len_cons.
  pose proof (len_nonneg (sample.varint_aux 9 (Z.shiftr v 7))). lia.
Qed.

Lemma len_block_entry_bytes (e : block_entry) :
  3 <= len (block_entry_bytes e).
Proof.
  unfold block_entry_bytes. rewrite !len_app.
  pose proof (len_varint_pos (be_shared e)).
  pose proof (len_varint_pos (len (be_delta e))).
  pose proof (len_varint_pos (len (be_value e))).
  pose proof (len_nonneg (be_delta e)). pose proof (len_nonneg (be_value e)).
  lia.
Qed.

Lemma len_block_entries_bytes (es : list block_entry) :
  3 * len es <= len (List.concat (map block_entry_bytes es)).
Proof.
  induction es as [|e es IH]; [vm_compute; discriminate|].
  cbn [map List.concat]. rewrite len_app, len_cons.
  pose proof (len_block_entry_bytes e). lia.
Qed.

Lemma block_entries_loop_layout (is_meta : bool) (data tail : bytes) :
  forall (es : list block_entry) (fuel : nat) (prev : bytes)
         (prev_key : option bytes) (self : table_reader.Block),
    (length es < fuel)%nat ->
    prev_key = Some prev
    \/ (prev_key = None /\ prev = [] /\ first_not_shared es) ->
    Forall entry_fits es ->
    Forall (internal_key_ok is_meta) (block_keys prev es) ->
    table_reader.block_entries_loop fuel is_meta data (len data - len tail)
      (List.concat (map block_entry_bytes es) ++ tail) prev_key self
    = Ok (fold_left (block_put is_meta) (block_keys prev es) self).
Proof.
  induction es as [|e es IH]; intros fuel prev prev_key self Hf Hp Hfit Hk;
    (destruct fuel as [|fuel]; [cbn [length] in Hf; lia|]);
    cbn [table_reader.block_entries_loop].
  - cbn [map List.concat app block_keys fold_left].
    replace (len data - len tail <? len data - len tail) with false
      by (symmetry; apply Z.ltb_ge; lia).
    reflexivity.
  - cbn [map List.concat block_keys fold_left].
    inversion Hfit as [|? ? (Hs & Hd & Hv) Hfit']; subst.
    cbn [block_keys] in Hk.
    inversion Hk as [|? ? (Hlen & Hty) Hk']; subst. cbn [fst] in Hlen, Hty.
    pose proof (len_block_entry_bytes e) as He.
    pose proof (len_nonneg (List.concat (map block_entry_bytes es))).
    replace (len data
             - len ((block_entry_bytes e
                     ++ List.concat (map block_entry_bytes es)) ++ tail)
             <? len data - len tail) with true
      by (symmetry; apply Z.ltb_lt; rewrite !len_app; lia).
    unfold block_entry_bytes at 1. rewrite <- !app_assoc.
    unfold util.read_varint32.
    pose proof (len_nonneg (be_delta e)). pose proof (len_nonneg (be_value e)).
    rewrite read_varint_varint by first [lia | exact Hs].
    cbn [bind].
    rewrite read_varint_varint by first [lia | split; [lia | exact Hd]].
    cbn [bind].
    rewrite read_varint_varint by first [lia | split; [lia | exact Hv]].
    cbn [bind].
    set (key := (if be_shared e >? 0 then slice_to prev (be_shared e)
                 else []) ++ be_delta e) in *.
    assert (Hshared :
              (if be_shared e >? 0 then
                 match prev_key with
                 | Some prev_key => Ok (slice_to prev_key (be_shared e))
                 | None => Raise TypeError
                 end
               else Ok [])
              = Ok (if be_shared e >? 0 then slice_to prev (be_shared e)
                    else [])).
    { destruct Hp as [->|(-> & -> & Hfirst)];
        [destruct (_ >? 0); reflexivity|].
      cbn [first_not_shared] in Hfirst. rewrite Hfirst. reflexivity. }
    rewrite Hshared. cbn [bind].
    rewrite stream_read_app
      by (change (2 ^ 35) with 34359738368 in Hd; ssize).
    cbn [bind].
    rewrite stream_read_app
      by (change (2 ^ 35) with 34359738368 in Hv; ssize).
    cbn [bind]. fold key.
    replace (len key >? 8) with true
      by (symmetry; rewrite Z.gtb_ltb; apply Z.ltb_lt; exact Hlen).
    cbn [assert bind].
    assert (Hput :
              (if is_meta then
                 Ok (table_reader.mkBlock (table_reader.block_entries self)
                       (dict_set bytes_eqb
                          (table_reader.block_meta_entries self)
                          (slice_to key (-8)) (be_value e))
                       (table_reader.block_deleted_entries self))
               else if Z.land (from_bytes_le (slice_from key (-8))) 255
                       =? table_reader.kTypeValue then
                 Ok (table_reader.mkBlock
                       (dict_set bytes_eqb (table_reader.block_entries self)
                          (slice_to key (-8)) (be_value e))
                       (table_reader.block_meta_entries self)
                       (table_reader.block_deleted_entries self))
               else if Z.land (from_bytes_le (slice_from key (-8))) 255
                       =? table_reader.kTypeDeletion then
                 Ok (table_reader.mkBlock (table_reader.block_entries self)
                       (table_reader.block_meta_entries self)
                       (dict_set bytes_eqb
                          (table_reader.block_deleted_entries self)
                          (slice_to key (-8)) (be_value e)))
               else Raise (AssertionError "unknown block entry type"))
              = Ok (block_put is_meta self (key, be_value e))).
    { unfold block_put. cbn [fst snd]. destruct is_meta; [reflexivity|].
      fold (entry_type key).
      destruct (entry_type key =? table_reader.kTypeValue) eqn:E1;
        [reflexivity|].
      destruct (Hty eq_refl) as [Hty'|Hty'].
      - rewrite Hty' in E1. discriminate E1.
      - rewrite Hty'. reflexivity. }
    rewrite Hput. cbn [bind].
    apply IH; [cbn [length] in Hf; lia | left; reflexivity
              | exact Hfit' | exact Hk'].
Qed.

Lemma slice_from_tail {A : Type} (l1 l2 : list A) :
  0 < len l2 -> slice_from (l1 ++ l2) (- len l2) = l2.
Proof.
  intros H. unfold slice_from, slice_index. pose proof (len_nonneg l1).
  replace (- len l2 <? 0) with true by (symmetry; apply Z.ltb_lt; lia).
  rewrite len_app, Z.max_r by lia.
  replace (- len l2 + (len l1 + len l2)) with (len l1) by lia.
  apply drop_app_len.
Qed.

Section BlockLayout.
Variable crc : bytes -> Z.
Variable crc_update : Z -> bytes -> Z.
Variable snappy_uncompress : bytes -> result bytes.

(** X14.  [Block.__init__] on a block laid out as the table format has
    it.  The handle names the stored bytes, which the type byte and the
    masked checksum of both follow; the payload is the stored bytes, or
    what Snappy makes of them when the type is 1; it is a run of entries,
    each with three lengths, the part of its key that it does not share
    with the key before it and its value, then the restart points and
    their number.  The block then holds, entry after entry, the value of
    each entry under its user key: the first bytes of the key before it,
    as many as it shares, then its own, less the last eight; in [entries]
    when the type in those eight bytes is 1, in [deleted_entries] when it
    is 0, in [meta_entries] in the meta-index block. *)
Theorem Block_init_layout (handle : table_reader.BlockHandle)
    (pre stored : bytes) (t : byte) (c4 post payload : bytes)
    (es : list block_entry) (restart_points : bytes) (restarts : Z)
    (is_meta : bool) :
  len pre = table_reader.offset handle ->
  len stored = table_reader.size handle ->
  len c4 = 4 ->
  len (pre ++ stored ++ [t] ++ c4 ++ post) <= ssize_max ->
  util.unmask_leveldb_crc32c (from_bytes_le c4)
  = crc_update (crc stored) [t] ->
  (t = B 0 /\ payload = stored)
  \/ (t = B 1 /\ snappy_uncompress stored = Ok payload) ->
  payload
  = List.concat (map block_entry_bytes es)
    ++ restart_points ++ sample.le restarts 4 ->
  len restart_points = 4 * restarts -> restarts < 2 ^ 32 ->
  first_not_shared es ->
  Forall entry_fits es ->
  Forall (internal_key_ok is_meta) (block_keys [] es) ->
  table_reader.Block_init crc crc_update snappy_uncompress handle
    (pre ++ stored ++ [t] ++ c4 ++ post) is_meta
  = Ok (fold_left (block_put is_meta) (block_keys [] es)
          (table_reader.mkBlock [] [] [])).
Proof.
  intros Hoff Hsize H4 Hmax Hcrc Hz Hpay Hrp Hr H0 Hfit Hk.
  unfold table_reader.Block_init.
  rewrite Block_read_checked by assumption.
  rewrite Hcrc, Z.eqb_refl. cbn [bind].
  assert (Hdata :
            (if byte_val t =? table_reader.kNoCompression then Ok stored
             else if byte_val t =? table_reader.kSnappyCompression then
               snappy_uncompress stored
             else Raise (AssertionError "invalid block type"))
            = Ok payload).
  { destruct Hz as [(-> & ->)|(-> & Hz)]; [reflexivity | exact Hz]. }
  rewrite Hdata. cbn [bind].
  pose proof (len_nonneg restart_points) as Hrp0.
  assert (Hle : len (sample.le restarts 4) = 4)
    by (unfold len, sample.le; rewrite length_to_bytes_le_aux; reflexivity).
  assert (Hlast : from_bytes_le (slice_from payload (-4)) = restarts).
  { rewrite Hpay, !app_assoc.
    replace (-4) with (- len (sample.le restarts 4))
      by (rewrite Hle; reflexivity).
    rewrite slice_from_tail by lia.
    apply from_to_bytes_le. change (256 ^ Z.of_nat 4) with (2 ^ 32). lia. }
  rewrite Hlast.
  pose proof (len_block_entries_bytes es) as Hes.
  pose proof (len_nonneg es) as Hes0.
  assert (Hlen : len payload
                 = len (List.concat (map block_entry_bytes es))
                   + (1 + restarts) * 4)
    by (rewrite Hpay, !len_app, Hle, Hrp; lia).
  replace (restarts <=? (len payload - 4) / 4) with true
    by (symmetry; apply Z.leb_le; apply Z.div_le_lower_bound; lia).
  cbn [assert bind].
  replace ((1 + restarts) * 4)
    with (len (restart_points ++ sample.le restarts 4))
    by (rewrite len_app, Hle, Hrp; lia).
  transitivity
    (table_reader.block_entries_loop (S (length payload)) is_meta payload
       (len payload - len (restart_points ++ sample.le restarts 4))
       (List.concat (map block_entry_bytes es)
        ++ restart_points ++ sample.le restarts 4)
       None (table_reader.mkBlock [] [] []));
    [rewrite <- Hpay; reflexivity|].
  apply block_entries_loop_layout;
    [| right; repeat split; assumption | assumption | assumption].
  unfold len in Hlen, Hes. lia.
Qed.

End BlockLayout.

Lemma Block_init_layout_witness :
  table_reader.Block_init crc32c.crc crc32c.crc_update sample.no_snappy
    (table_reader.mkBlockHandle 1 (len block_examples.payload))
    block_examples.file false
  = Ok (table_reader.mkBlock
          [(sample.ascii_bytes "apple", sample.ascii_bytes "red")]
          []
          [(sample.ascii_bytes "apply", [])]).
Proof.
  apply (Block_init_layout crc32c.crc crc32c.crc_update sample.no_snappy
           (table_reader.mkBlockHandle 1 (len block_examples.payload))
           (hex [0xEE]) block_examples.payload (B 0)
           (sample.le
              (sample.mask
                 (crc32c.crc_update (crc32c.crc block_examples.payload)
                    [B 0])) 4)
           (hex [0xEE; 0xEE]) block_examples.payload
           block_examples.entries (sample.le 0 4 ++ sample.le 0 4) 2 false).
  - reflexivity.
  - reflexivity.
  - reflexivity.
  - vm_compute. discriminate.
  - vm_compute. reflexivity.
  - left. split; reflexivity.
  - reflexivity.
  - reflexivity.
  - reflexivity.
  - reflexivity.
  - repeat (apply Forall_cons; [vm_compute; repeat split; congruence|]).
    apply Forall_nil.
  - repeat (apply Forall_cons;
            [vm_compute; split; [reflexivity | intros _; auto]|]).
    apply Forall_nil.
Defined.

(** ** db: the CURRENT file *)

Section ManifestName.
Variable crc : bytes -> Z.
Variable crc_update : Z -> bytes -> Z.

(** X15.  [get_manifest] reads the manifest that [CURRENT] names exactly
    when the text of [CURRENT] has at most 20 characters, ends with a
    newline and starts with [MANIFEST-]; the manifest is then the file
    named by the text without the white space around it.  A longer text
    fails the assertion. *)
Theorem get_manifest_current (dir : db.directory) :
  (forall m : log_reader.Manifest,
      db.get_manifest crc crc_update dir = Ok m ->
      exists (text : string) (body : list ascii) (file : bytes),
        db.current dir = Some text
        /\ len (list_ascii_of_string text) <= 20
        /\ list_ascii_of_string text = body ++ ["010"%char]
        /\ String.prefix "MANIFEST-" text = true
        /\ db.files dir (db.strip text) = Some file
        /\ log_reader.Manifest_init crc crc_update file = Ok m)
  /\ (forall (text : string) (body : list ascii),
        db.current dir = Some text ->
        len (list_ascii_of_string text) <= 20 ->
        list_ascii_of_string text = body ++ ["010"%char] ->
        String.prefix "MANIFEST-" text = true ->
        db.get_manifest crc crc_update dir
        = bind (db.open_rb dir (db.strip text))
               (log_reader.Manifest_init crc crc_update))
  /\ (forall text : string,
        db.current dir = Some text ->
        20 < len (list_ascii_of_string text) ->
        db.get_manifest crc crc_update dir
        = Raise (AssertionError "invalid manifest")).
Proof.
  unfold db.get_manifest. split; [|split].
  - intros m H. destruct (db.current dir) as [text|]; [|discriminate].
    inv_bind H as u1. inv_bind H as last. inv_bind H as u2.
    inv_bind H as u3. inv_bind H as file.
    apply assert_Ok in Ha, Ha1, Ha2.
    pose proof (take_drop 20 (list_ascii_of_string text)) as TD.
    destruct (drop 20 (list_ascii_of_string text)); [|discriminate].
    rewrite app_nil_r in TD. rewrite TD in *.
    rewrite string_of_list_ascii_of_string in *.
    apply index_last in Ha0. destruct Ha0 as (body & Hbody).
    apply Ascii.eqb_eq in Ha1. subst last.
    unfold db.open_rb in Ha3.
    destruct (db.files dir (db.strip text)) as [content|] eqn:F;
      [|discriminate].
    inv_Ok Ha3. exists text, body, file.
    split; [reflexivity|].
    split; [rewrite <- TD, len_take; lia|].
    repeat (split; [assumption|]). exact H.
  - intros text body Hc Hl Hb Hp. rewrite Hc.
    rewrite (take_all _ 20 Hl), (drop_all _ 20 Hl).
    rewrite string_of_list_ascii_of_string. cbn [assert bind].
    rewrite (proj2 (index_last _ _) (ex_intro _ body Hb)). cbn [bind].
    rewrite Ascii.eqb_refl, Hp. reflexivity.
  - intros text Hc Hl. rewrite Hc.
    pose proof (len_drop 20 (list_ascii_of_string text)) as LD.
    destruct (drop 20 (list_ascii_of_string text)); [|reflexivity].
    change (len (@nil ascii)) with 0 in LD. lia.
Qed.
End ManifestName.

Lemma get_manifest_current_witness :
  exists (m : log_reader.Manifest) (text : string) (body : list ascii)
         (file : bytes),
    db.get_manifest crc32c.crc crc32c.crc_update sample.dir_s1 = Ok m
    /\ db.current sample.dir_s1 = Some text
    /\ len (list_ascii_of_string text) <= 20
    /\ list_ascii_of_string text = body ++ ["010"%char]
    /\ String.prefix "MANIFEST-" text = true
    /\ db.files sample.dir_s1 (db.strip text) = Some file
    /\ log_reader.Manifest_init crc32c.crc crc32c.crc_update file = Ok m.
Proof.
  let r := eval vm_compute in
      (db.get_manifest crc32c.crc crc32c.crc_update sample.dir_s1) in
  match r with
  | Ok ?m => exists m
  end.
  assert (E : db.get_manifest crc32c.crc crc32c.crc_update sample.dir_s1
              = Ok (log_reader.mkManifest
                      (Some (sample.ascii_bytes "leveldb.BytewiseComparator"))
                      (-1) (-1) (-1) [] [] [] (-1) []))
    by (vm_compute; reflexivity).
  destruct (proj1 (get_manifest_current crc32c.crc crc32c.crc_update
                     sample.dir_s1) _ E)
    as (text & body & file & H).
  exists text, body, file. split; [vm_compute; reflexivity | exact H].
Defined.

(** ** db: where the entries of a snapshot come from *)

Lemma foldM_Ok_each {A S : Type} (f : S -> A -> result S) (l : list A) :
  forall s s', foldM f l s = Ok s' ->
               forall a, In a l -> exists s1 s2, f s1 a = Ok s2.
Proof.
  induction l as [|a0 l IH]; intros s s' H a Hin; [destruct Hin|].
  cbn [foldM] in H. inv_bind H as s1. destruct Hin as [<-|Hin].
  - exists s, s1. exact Ha.
  - exact (IH _ _ H a Hin).
Qed.

Lemma foldM_invariant_In {A S : Type} (P : S -> Prop)
    (f : S -> A -> result S) (l : list A) :
  (forall s a s', In a l -> P s -> f s a = Ok s' -> P s') ->
  forall s s', P s -> foldM f l s = Ok s' -> P s'.
Proof.
  induction l as [|a l IH]; intros Hstep s s' Hs H; cbn [foldM] in H.
  - inv_Ok H. assumption.
  - inv_bind H as s1. apply (IH (fun s a s' Hin => Hstep s a s' (or_intror Hin)) s1 s');
      [|assumption].
    apply (Hstep s a s1); [left; reflexivity | assumption | assumption].
Qed.

Lemma move_deleted_removed (ks : list bytes) :
  forall (entries deleted : dict bytes bytes) (k : bytes),
    NoDup (dict_keys entries) ->
    In k ks \/ dict_get bytes_eqb entries k = None ->
    dict_get bytes_eqb (fst (db.move_deleted ks entries deleted)) k = None.
Proof.
  unfold db.move_deleted.
  induction ks as [|k0 ks IH]; intros entries deleted k Hnd Hk;
    cbn [fold_left].
  - destruct Hk as [[]|Hk]. exact Hk.
  - cbn [dict_pop].
    assert (Hnd1 : NoDup (dict_keys (dict_remove bytes_eqb entries k0)))
      by (apply (dict_remove_NoDup bytes_eqb bytes_eqb_eq), Hnd).
    assert (Hk1 : In k ks
                  \/ dict_get bytes_eqb (dict_remove bytes_eqb entries k0) k
                     = None).
    { rewrite (dict_get_remove bytes_eqb bytes_eqb_eq) by assumption.
      destruct (bytes_eqb k k0) eqn:E; [right; reflexivity|].
      destruct Hk as [[->|Hk]|Hk]; auto.
      rewrite bytes_eqb_refl in E. discriminate. }
    destruct (dict_get bytes_eqb entries k0) as [v|];
      [destruct (db.truthy v)|]; apply IH; assumption.
Qed.

Lemma move_deleted_kept (ks : list bytes) (entries deleted : dict bytes bytes)
    (k v : bytes) :
  NoDup (dict_keys entries) ->
  dict_get bytes_eqb (fst (db.move_deleted ks entries deleted)) k = Some v ->
  dict_get bytes_eqb entries k = Some v /\ ~ In k ks.
Proof.
  intros Hnd H.
  destruct (in_dec (list_eq_dec Byte.byte_eq_dec) k ks) as [Hin|Hout].
  - rewrite move_deleted_removed in H by auto. discriminate.
  - split; [|exact Hout].
    assert (G : forall e d : dict bytes bytes,
               NoDup (dict_keys e) ->
               dict_get bytes_eqb (fst (db.move_deleted ks e d)) k
               = dict_get bytes_eqb e k).
    { clear H Hnd entries deleted. unfold db.move_deleted.
      induction ks as [|k0 ks IH]; intros e d Hnd; cbn [fold_left];
        [reflexivity|].
      cbn [dict_pop].
      assert (Hnd1 : NoDup (dict_keys (dict_remove bytes_eqb e k0)))
        by (apply (dict_remove_NoDup bytes_eqb bytes_eqb_eq), Hnd).
      assert (E : dict_get bytes_eqb (dict_remove bytes_eqb e k0) k
                  = dict_get bytes_eqb e k).
      { rewrite (dict_get_remove bytes_eqb bytes_eqb_eq) by assumption.
        rewrite (proj2 (bytes_eqb_neq k k0)); [reflexivity|].
        intros ->. apply Hout. left. reflexivity. }
      rewrite <- E.
      destruct (dict_get bytes_eqb e k0) as [v0|];
        [destruct (db.truthy v0)|];
        apply IH; auto; intros Hin; apply Hout; right; exact Hin. }
    rewrite <- G with (d := deleted); assumption.
Qed.

Lemma purge_deleted_kept (entries deleted : dict bytes bytes) (k v : bytes) :
  NoDup (dict_keys entries) ->
  dict_get bytes_eqb (db.purge_deleted entries deleted) k = Some v ->
  dict_get bytes_eqb entries k = Some v /\ ~ In k (dict_keys deleted).
Proof.
  intros Hnd H. destruct (purge_deleted_spec entries deleted Hnd) as [_ Hget].
  destruct (Hget k) as [Hin Hout].
  destruct (in_dec (list_eq_dec Byte.byte_eq_dec) k (dict_keys deleted))
    as [Hk|Hk].
  - rewrite (Hin Hk) in H. discriminate.
  - rewrite (Hout Hk) in H. auto.
Qed.

Lemma move_deleted_recorded (ks : list bytes) :
  forall (entries deleted : dict bytes bytes) (k v : bytes),
    NoDup (dict_keys entries) ->
    dict_get bytes_eqb (snd (db.move_deleted ks entries deleted)) k = Some v ->
    dict_get bytes_eqb deleted k = Some v
    \/ (In k ks /\ v <> [] /\ dict_get bytes_eqb entries k = Some v).
Proof.
  unfold db.move_deleted.
  induction ks as [|k0 ks IH]; intros entries deleted k v Hnd H;
    cbn [fold_left] in H; [left; exact H|].
  cbn [dict_pop] in H.
  assert (Hnd1 : NoDup (dict_keys (dict_remove bytes_eqb entries k0)))
    by (apply (dict_remove_NoDup bytes_eqb bytes_eqb_eq), Hnd).
  assert (Hrem : dict_get bytes_eqb (dict_remove bytes_eqb entries k0) k
                 = Some v ->
                 dict_get bytes_eqb entries k = Some v).
  { rewrite (dict_get_remove bytes_eqb bytes_eqb_eq) by assumption.
    destruct (bytes_eqb k k0); [discriminate | auto]. }
  destruct (dict_get bytes_eqb entries k0) as [v0|] eqn:G;
    [destruct (db.truthy v0) eqn:T|];
    apply IH in H; try assumption.
  - destruct H as [H|(Hin & Hv & H)].
    + rewrite (dict_get_set bytes_eqb bytes_eqb_eq) in H.
      destruct (bytes_eqb k k0) eqn:E; [|left; exact H].
      apply bytes_eqb_eq in E. subst k0. inv_Ok H. right.
      split; [left; reflexivity|]. split; [|exact G].
      intros ->. discriminate T.
    + right. split; [right; exact Hin|]. split; [exact Hv | auto].
  - destruct H as [H|(Hin & Hv & H)]; [left; exact H|].
    right. split; [right; exact Hin|]. split; [exact Hv | auto].
  - destruct H as [H|(Hin & Hv & H)]; [left; exact H|].
    right. split; [right; exact Hin|]. split; [exact Hv | auto].
Qed.

Lemma merge_blocks_NoDup (blocks : list table_reader.Block) :
  forall init : table_reader.Table,
    NoDup (dict_keys (table_reader.entries init))
    /\ NoDup (dict_keys (table_reader.deleted_entries init)) ->
    NoDup (dict_keys (table_reader.entries
      (fold_left
         (fun self db =>
            table_reader.mkTable
              (dict_update bytes_eqb (table_reader.entries self)
                 (table_reader.block_entries db))
              (dict_update bytes_eqb (table_reader.meta_entries self)
                 (table_reader.block_meta_entries db))
              (dict_update bytes_eqb (table_reader.deleted_entries self)
                 (table_reader.block_deleted_entries db)))
         blocks init)))
    /\ NoDup (dict_keys (table_reader.deleted_entries
      (fold_left
         (fun self db =>
            table_reader.mkTable
              (dict_update bytes_eqb (table_reader.entries self)
                 (table_reader.block_entries db))
              (dict_update bytes_eqb (table_reader.meta_entries self)
                 (table_reader.block_meta_entries db))
              (dict_update bytes_eqb (table_reader.deleted_entries self)
                 (table_reader.block_deleted_entries db)))
         blocks init))).
Proof.
  induction blocks as [|blk blks IH]; intros init Hinit;
    cbn [fold_left]; [exact Hinit|].
  apply IH. cbn [table_reader.entries table_reader.deleted_entries].
  destruct Hinit as [H1 H2].
  split; apply (dict_update_NoDup bytes_eqb bytes_eqb_eq); assumption.
Qed.

Section SnapshotSources.
Variable crc : bytes -> Z.
Variable crc_update : Z -> bytes -> Z.
Variable snappy_uncompress : bytes -> result bytes.
Variable iter_files : pyset Z -> list Z.
Variable iter_keys : pyset bytes -> list bytes.

Local Abbreviation Table_init :=
  (table_reader.Table_init crc crc_update snappy_uncompress).
Local Abbreviation tables_read :=
  (read_tables crc crc_update snappy_uncompress).
Local Abbreviation in_table :=
  (from_table crc crc_update snappy_uncompress).
Local Abbreviation in_log := (from_log crc crc_update).

Lemma Table_init_NoDup (file : bytes) (t : table_reader.Table) :
  Table_init file = Ok t ->
  NoDup (dict_keys (table_reader.entries t))
  /\ NoDup (dict_keys (table_reader.deleted_entries t)).
Proof.
  unfold table_reader.Table_init. intros H.
  inv_bind H as s1. inv_bind H as [b8 s2]. inv_bind H as u.
  inv_bind H as s3. inv_bind H as [footer s4].
  inv_bind H as [metaindex_handle footer1].
  inv_bind H as [index_handle footer2].
  inv_bind H as index_block. inv_bind H as meta_block.
  inv_bind H as data_blocks. inv_Ok H.
  apply merge_blocks_NoDup. split; constructor.
Qed.

Lemma read_tables_sources (dir : db.directory) (numbers : list Z)
    (e m dl : dict bytes bytes) :
  tables_read dir numbers ([], [], []) = Ok (e, m, dl) ->
  NoDup (dict_keys e)
  /\ (forall k v, dict_get bytes_eqb e k = Some v ->
                  in_table dir numbers table_reader.entries k v)
  /\ (forall k v, dict_get bytes_eqb dl k = Some v ->
                  in_table dir numbers table_reader.deleted_entries k v).
Proof.
  unfold read_tables.
  apply (foldM_invariant_In
           (fun s : dict bytes bytes * dict bytes bytes * dict bytes bytes =>
              NoDup (dict_keys (fst (fst s)))
              /\ (forall k v,
                     dict_get bytes_eqb (fst (fst s)) k = Some v ->
                     in_table dir numbers table_reader.entries k v)
              /\ (forall k v,
                     dict_get bytes_eqb (snd s) k = Some v ->
                     in_table dir numbers table_reader.deleted_entries
                       k v))).
  - intros [[e1 m1] d1] n s' Hn (Hnd & He & Hd) Hstep.
    cbn [fst snd] in *.
    inv_bind Hstep as file. inv_bind Hstep as t. inv_Ok Hstep.
    cbn [fst snd]. unfold db.open_rb in Ha.
    destruct (db.files dir (db.get_table_file n)) as [content|] eqn:F;
      [|discriminate].
    inv_Ok Ha. destruct (Table_init_NoDup _ _ Ha0) as [Nt Ndt].
    split; [apply (dict_update_NoDup bytes_eqb bytes_eqb_eq), Hnd|].
    split; intros k v;
      rewrite (dict_get_update bytes_eqb bytes_eqb_eq) by assumption.
    + destruct (dict_get bytes_eqb (table_reader.entries t) k) as [v'|]
        eqn:G; [|apply He].
      intros E. inv_Ok E. exists n, file, t. auto.
    + destruct (dict_get bytes_eqb (table_reader.deleted_entries t) k)
        as [v'|] eqn:G; [|apply Hd].
      intros E. inv_Ok E. exists n, file, t. auto.
  - cbn [fst snd]. split; [constructor|].
    split; intros k v E; discriminate E.
Qed.

Lemma DB_init_steps (dir : db.directory) (d : db.DB) :
  db.DB_init crc crc_update snappy_uncompress iter_files iter_keys dir
  = Ok d ->
  exists (e0 m0 d0 e1 : dict bytes bytes) (deleted_keys : list bytes),
    tables_read dir
      (iter_files (log_reader.existing_files (db.manifest d))) ([], [], [])
    = Ok (e0, m0, d0)
    /\ ((log_reader.log_number (db.manifest d) = -1
         /\ e1 = e0 /\ deleted_keys = [])
        \/ (log_reader.log_number (db.manifest d) <> -1
            /\ exists file live tombstones,
                db.files dir
                  (db.get_log_file
                     (log_reader.log_number (db.manifest d)))
                = Some file
                /\ log_reader.get_log_entries crc crc_update file
                   = Ok (live, tombstones)
                /\ e1 = dict_update bytes_eqb e0 live
                /\ deleted_keys = iter_keys tombstones))
    /\ db.entries d
       = fst (db.move_deleted deleted_keys (db.purge_deleted e1 d0) d0)
    /\ db.deleted_entries d
       = snd (db.move_deleted deleted_keys (db.purge_deleted e1 d0) d0).
Proof.
  unfold db.DB_init. intros H.
  inv_bind H as m. inv_bind H as [[e0 m0] d0].
  inv_bind H as [e1 deleted_keys].
  destruct (db.move_deleted deleted_keys (db.purge_deleted e1 d0) d0)
    as [e2 d2] eqn:Hmove.
  inv_Ok H. cbn [db.manifest db.meta_entries db.entries db.deleted_entries].
  exists e0, m0, d0, e1, deleted_keys.
  split; [exact Ha0|].
  split; [|rewrite Hmove; split; reflexivity].
  destruct (log_reader.log_number m =? -1) eqn:E.
  - apply Z.eqb_eq in E. inv_Ok Ha1. left. auto.
  - apply Z.eqb_neq in E. right. split; [assumption|].
    inv_bind Ha1 as file. inv_bind Ha1 as [live tombstones]. inv_Ok Ha1.
    unfold db.open_rb in Ha2.
    destruct (db.files dir _) as [content|] eqn:F; [|discriminate].
    inv_Ok Ha2. exists file, live, tombstones. auto.
Qed.

(** X16.  Every value of [entries] is the last value that the log file
    writes for the key, or the value that one of the table files listed by
    the manifest holds for it. *)
Theorem snapshot_entries_provenance (dir : db.directory) (d : db.DB) :
  db.DB_init crc crc_update snappy_uncompress iter_files iter_keys dir
  = Ok d ->
  forall k v : bytes,
    dict_get bytes_eqb (db.entries d) k = Some v ->
    in_log dir (db.manifest d) k v
    \/ in_table dir
         (iter_files (log_reader.existing_files (db.manifest d)))
         table_reader.entries k v.
Proof.
  intros H k v Hget.
  destruct (DB_init_steps dir d H)
    as (e0 & m0 & d0 & e1 & ks & Htab & Hlog & He & Hd).
  destruct (read_tables_sources _ _ _ _ _ Htab) as (Hnd0 & Hsrc & _).
  assert (Hnd1 : NoDup (dict_keys e1)).
  { destruct Hlog as [(_ & -> & _)|(_ & file & live & tombs & _ & _ & -> & _)];
      [assumption|].
    apply (dict_update_NoDup bytes_eqb bytes_eqb_eq), Hnd0. }
  destruct (purge_deleted_spec e1 d0 Hnd1) as [Hnd2 _].
  rewrite He in Hget.
  apply move_deleted_kept in Hget; [|exact Hnd2]. destruct Hget as [Hget _].
  apply purge_deleted_kept in Hget; [|exact Hnd1]. destruct Hget as [Hget _].
  destruct Hlog as [(_ & -> & _)|(Hn & file & live & tombs & F & L & -> & _)].
  - right. apply Hsrc, Hget.
  - destruct (get_log_entries_Ok crc crc_update file live tombs L)
      as (records & ops & _ & _ & Hndl & _ & _).
    rewrite (dict_get_update bytes_eqb bytes_eqb_eq) in Hget by assumption.
    destruct (dict_get bytes_eqb live k) as [v'|] eqn:G.
    + inv_Ok Hget. left. split; [exact Hn|]. exists file, live, tombs. auto.
    + right. apply Hsrc, Hget.
Qed.

(** X17.  Every value of [deleted_entries] is the value of a tombstone of
    one of the table files, or a value that is not empty, that the log
    file or a table file holds for the key, and that went to
    [deleted_entries] because the log file deletes the key. *)
Theorem snapshot_deleted_provenance (dir : db.directory) (d : db.DB) :
  db.DB_init crc crc_update snappy_uncompress iter_files iter_keys dir
  = Ok d ->
  forall k v : bytes,
    dict_get bytes_eqb (db.deleted_entries d) k = Some v ->
    in_table dir
      (iter_files (log_reader.existing_files (db.manifest d)))
      table_reader.deleted_entries k v
    \/ (v <> []
        /\ (in_log dir (db.manifest d) k v
            \/ in_table dir
                 (iter_files (log_reader.existing_files (db.manifest d)))
                 table_reader.entries k v)
        /\ exists (file : bytes) (live : dict bytes bytes)
                  (tombstones : pyset bytes),
            db.files dir
              (db.get_log_file (log_reader.log_number (db.manifest d)))
            = Some file
            /\ log_reader.get_log_entries crc crc_update file
               = Ok (live, tombstones)
            /\ In k (iter_keys tombstones)).
Proof.
  intros H k v Hget.
  destruct (DB_init_steps dir d H)
    as (e0 & m0 & d0 & e1 & ks & Htab & Hlog & He & Hd).
  destruct (read_tables_sources _ _ _ _ _ Htab) as (Hnd0 & Hsrc & Hsrcd).
  assert (Hnd1 : NoDup (dict_keys e1)).
  { destruct Hlog as [(_ & -> & _)|(_ & file & live & tombs & _ & _ & -> & _)];
      [assumption|].
    apply (dict_update_NoDup bytes_eqb bytes_eqb_eq), Hnd0. }
  destruct (purge_deleted_spec e1 d0 Hnd1) as [Hnd2 _].
  rewrite Hd in Hget.
  apply move_deleted_recorded in Hget; [|exact Hnd2].
  destruct Hget as [Hget|(Hin & Hv & Hget)]; [left; apply Hsrcd, Hget|].
  right. split; [exact Hv|].
  apply purge_deleted_kept in Hget; [|exact Hnd1]. destruct Hget as [Hget _].
  destruct Hlog as [(_ & _ & ->)|(Hn & file & live & tombs & F & L & -> & ->)];
    [destruct Hin|].
  split; [|exists file, live, tombs; auto].
  destruct (get_log_entries_Ok crc crc_update file live tombs L)
    as (records & ops & _ & _ & Hndl & _ & _).
  rewrite (dict_get_update bytes_eqb bytes_eqb_eq) in Hget by assumption.
  destruct (dict_get bytes_eqb live k) as [v'|] eqn:G.
  - inv_Ok Hget. left. split; [exact Hn|]. exists file, live, tombs. auto.
  - right. apply Hsrc, Hget.
Qed.

(** X18.  A snapshot is built only when every table file that the
    manifest lists is in the directory and is read as a table. *)
Theorem DB_init_reads_every_table (dir : db.directory) (d : db.DB) :
  db.DB_init crc crc_update snappy_uncompress iter_files iter_keys dir
  = Ok d ->
  forall n : Z,
    In n (iter_files (log_reader.existing_files (db.manifest d))) ->
    exists (file : bytes) (t : table_reader.Table),
      db.files dir (db.get_table_file n) = Some file
      /\ Table_init file = Ok t.
Proof.
  intros H n Hn.
  destruct (DB_init_steps dir d H)
    as (e0 & m0 & d0 & e1 & ks & Htab & _).
  destruct (foldM_Ok_each _ _ _ _ Htab n Hn) as ([[e m] dl] & s2 & Hstep).
  inv_bind Hstep as file. inv_bind Hstep as t.
  unfold db.open_rb in Ha.
  destruct (db.files dir (db.get_table_file n)) as [content|] eqn:F;
    [|discriminate].
  inv_Ok Ha. exists file, t. auto.
Qed.

(** X19.  A key that the log file deletes is not in [entries], also when
    the log file writes it again after the deletion; the order of the
    operations on a key is not looked at.  The iteration over the set of
    deleted keys is assumed to visit every element of the set. *)
Theorem log_deleted_key_not_live (dir : db.directory) (d : db.DB) :
  (forall (s : pyset bytes) (k : bytes), In k s -> In k (iter_keys s)) ->
  db.DB_init crc crc_update snappy_uncompress iter_files iter_keys dir
  = Ok d ->
  log_reader.log_number (db.manifest d) <> -1 ->
  exists file records ops,
    db.files dir (db.get_log_file (log_reader.log_number (db.manifest d)))
    = Some file
    /\ log_reader.get_log_records crc crc_update file = Ok records
    /\ log_ops records = Ok ops
    /\ forall k : bytes,
         In (Delete k) ops ->
         dict_get bytes_eqb (db.entries d) k = None.
Proof.
  intros Hiter H Hlogn.
  destruct (DB_init_steps dir d H)
    as (e0 & m0 & d0 & e1 & ks & Htab & Hlog & He & Hd).
  destruct (read_tables_sources _ _ _ _ _ Htab) as (Hnd0 & _).
  destruct Hlog as [(E & _)|(_ & file & live & tombs & F & L & -> & ->)];
    [contradiction|].
  destruct (get_log_entries_Ok crc crc_update file live tombs L)
    as (records & ops & Hrec & Hops & Hndl & Hget & Htomb).
  exists file, records, ops. repeat (split; [assumption|]).
  intros k Hdel.
  assert (Hnd1 : NoDup (dict_keys (dict_update bytes_eqb e0 live)))
    by (apply (dict_update_NoDup bytes_eqb bytes_eqb_eq), Hnd0).
  destruct (purge_deleted_spec _ d0 Hnd1) as [Hnd2 _].
  rewrite He. apply move_deleted_removed; [exact Hnd2|].
  left. apply Hiter, Htomb, Hdel.
Qed.
End SnapshotSources.

Lemma snapshot_entries_provenance_witness :
  exists d : db.DB,
    sample.DB_init sample.dir_s3 = Ok d
    /\ forall k v : bytes,
         dict_get bytes_eqb (db.entries d) k = Some v ->
         from_log crc32c.crc crc32c.crc_update sample.dir_s3 (db.manifest d)
           k v
         \/ from_table crc32c.crc crc32c.crc_update sample.no_snappy
              sample.dir_s3 (log_reader.existing_files (db.manifest d))
              table_reader.entries k v.
Proof.
  let r := eval vm_compute in (sample.DB_init sample.dir_s3) in
  match r with
  | Ok ?d => exists d
  end.
  split; [vm_compute; reflexivity|].
  apply (snapshot_entries_provenance crc32c.crc crc32c.crc_update
           sample.no_snappy (fun s => s) (fun s => s) sample.dir_s3).
  vm_compute. reflexivity.
Defined.

Lemma snapshot_deleted_provenance_witness :
  exists d : db.DB,
    sample.DB_init sample.dir_s3 = Ok d
    /\ forall k v : bytes,
         dict_get bytes_eqb (db.deleted_entries d) k = Some v ->
         from_table crc32c.crc crc32c.crc_update sample.no_snappy
           sample.dir_s3 (log_reader.existing_files (db.manifest d))
           table_reader.deleted_entries k v
         \/ (v <> []
             /\ (from_log crc32c.crc crc32c.crc_update sample.dir_s3
                   (db.manifest d) k v
                 \/ from_table crc32c.crc crc32c.crc_update sample.no_snappy
                      sample.dir_s3
                      (log_reader.existing_files (db.manifest d))
                      table_reader.entries k v)
             /\ exists (file : bytes) (live : dict bytes bytes)
                       (tombstones : pyset bytes),
                 db.files sample.dir_s3
                   (db.get_log_file (log_reader.log_number (db.manifest d)))
                 = Some file
                 /\ log_reader.get_log_entries crc32c.crc crc32c.crc_update
                      file
                    = Ok (live, tombstones)
                 /\ In k tombstones).
Proof.
  let r := eval vm_compute in (sample.DB_init sample.dir_s3) in
  match r with
  | Ok ?d => exists d
  end.
  split; [vm_compute; reflexivity|].
  apply (snapshot_deleted_provenance crc32c.crc crc32c.crc_update
           sample.no_snappy (fun s => s) (fun s => s) sample.dir_s3).
  vm_compute. reflexivity.
Defined.

Lemma DB_init_reads_every_table_witness :
  exists d : db.DB,
    sample.DB_init sample.dir_s3 = Ok d
    /\ log_reader.existing_files (db.manifest d) = [6]
    /\ forall n : Z,
         In n (log_reader.existing_files (db.manifest d)) ->
         exists (file : bytes) (t : table_reader.Table),
           db.files sample.dir_s3 (db.get_table_file n) = Some file
           /\ table_reader.Table_init crc32c.crc crc32c.crc_update
                sample.no_snappy file = Ok t.
Proof.
  let r := eval vm_compute in (sample.DB_init sample.dir_s3) in
  match r with
  | Ok ?d => exists d
  end.
  split; [vm_compute; reflexivity|]. split; [reflexivity|].
  apply (DB_init_reads_every_table crc32c.crc crc32c.crc_update
           sample.no_snappy (fun s => s) (fun s => s) sample.dir_s3).
  vm_compute. reflexivity.
Defined.

Lemma log_deleted_key_not_live_witness :
  exists d : db.DB,
    sample.DB_init examples.dir_del_put = Ok d
    /\ db.entries d = []
    /\ db.deleted_entries d
       = [(sample.ascii_bytes "alpha", []);
          (sample.ascii_bytes "beta", sample.ascii_bytes "7")]
    /\ exists file records ops,
         db.files examples.dir_del_put
           (db.get_log_file (log_reader.log_number (db.manifest d)))
         = Some file
         /\ log_reader.get_log_records crc32c.crc crc32c.crc_update file
            = Ok records
         /\ log_ops records
            = Ok ops
         /\ forall k : bytes,
              In (Delete k) ops ->
              dict_get bytes_eqb (db.entries d) k = None.
Proof.
  let r := eval vm_compute in (sample.DB_init examples.dir_del_put) in
  match r with
  | Ok ?d => exists d
  end.
  split; [vm_compute; reflexivity|].
  split; [reflexivity|]. split; [reflexivity|].
  apply (log_deleted_key_not_live crc32c.crc crc32c.crc_update
           sample.no_snappy (fun s => s) (fun s => s) examples.dir_del_put).
  - intros s k H. exact H.
  - vm_compute. reflexivity.
  - vm_compute. discriminate.
Defined.

(** ** db: the names of the table and log files *)

Lemma string_app_length (a b : string) :
  String.length (a ++ b) = (String.length a + String.length b)%nat.
Proof. induction a as [|c a IH]; simpl; [reflexivity | rewrite IH; reflexivity]. Qed.

Lemma string_app_inv_tail (a b s : string) :
  (a ++ s)%string = (b ++ s)%string -> a = b.
Proof.
  revert b. induction a as [|c a IH]; intros [|c' b] H.
  - reflexivity.
  - apply (f_equal String.length) in H. simpl in H.
    rewrite string_app_length in H. lia.
  - apply (f_equal String.length) in H. simpl in H.
    rewrite string_app_length in H. lia.
  - simpl in H. injection H as -> H. f_equal. apply IH, H.
Qed.

Lemma zeros_length (k : nat) :
  String.length (string_of_list_ascii (repeat "0"%char k)) = k.
Proof. induction k as [|k IH]; simpl; [reflexivity | rewrite IH; reflexivity]. Qed.

Lemma parse_number_zeros (k : nat) (s : string) (d : Decimal.uint) :
  s <> EmptyString ->
  NilZero.uint_of_string s = Some d ->
  exists d',
    NilZero.uint_of_string (string_of_list_ascii (repeat "0"%char k) ++ s)
    = Some d'
    /\ N.of_uint d' = N.of_uint d.
Proof.
  intros Hs Hd. induction k as [|k (d' & E & V)]; [exists d; auto|].
  exists (Decimal.D0 d'). split; [|exact V].
  cbn [repeat string_of_list_ascii String.append].
  unfold NilZero.uint_of_string in *.
  destruct (string_of_list_ascii (repeat "0"%char k) ++ s)%string eqn:Es.
  - destruct k; simpl in Es; [contradiction | discriminate].
  - cbn [NilEmpty.uint_of_string] in *. rewrite E. reflexivity.
Qed.

Lemma format_06_number (n : Z) :
  0 <= n ->
  (6 <= String.length (db.format_06 n))%nat
  /\ parse_number (db.format_06 n) = Some n.
Proof.
  intros Hn. unfold db.format_06.
  replace (n <? 0) with false by (symmetry; apply Z.ltb_ge; exact Hn).
  rewrite Z.abs_eq by exact Hn.
  set (digits := NilZero.string_of_uint (N.to_uint (Z.to_N n))).
  cbn [String.length Nat.add String.append].
  split.
  - rewrite string_app_length, zeros_length. lia.
  - assert (Hnil : N.to_uint (Z.to_N n) <> Decimal.Nil).
    { destruct (Z.to_N n) as [|p]; [discriminate|].
      intros E. apply (f_equal N.of_uint) in E.
      rewrite DecimalN.Unsigned.of_to in E. discriminate. }
    assert (Hne : digits <> EmptyString).
    { unfold digits. intros E.
      pose proof (NilZero.usu _ Hnil) as U. rewrite E in U. discriminate. }
    destruct (parse_number_zeros (6 - String.length digits) digits
                (N.to_uint (Z.to_N n)) Hne (NilZero.usu _ Hnil))
      as (d' & E & V).
    unfold parse_number. rewrite E, V, DecimalN.Unsigned.of_to.
    rewrite Z2N.id by exact Hn. reflexivity.
Qed.

(** X20.  The name of a table or log file is the decimal number, with
    zeros in front up to six digits, followed by [.ldb] or [.log]; two
    file numbers that are not negative never give the same name. *)
Theorem file_names_of_numbers (n : Z) :
  0 <= n ->
  (exists digits : string,
      db.get_table_file n = (digits ++ ".ldb")%string
      /\ db.get_log_file n = (digits ++ ".log")%string
      /\ (6 <= String.length digits)%nat
      /\ parse_number digits = Some n)
  /\ (forall m : Z, 0 <= m ->
        db.get_table_file n = db.get_table_file m -> n = m)
  /\ (forall m : Z, 0 <= m ->
        db.get_log_file n = db.get_log_file m -> n = m).
Proof.
  intros Hn. destruct (format_06_number n Hn) as [L P].
  split; [|split].
  - exists (db.format_06 n). repeat split; assumption.
  - intros m Hm E. unfold db.get_table_file in E.
    apply string_app_inv_tail in E.
    destruct (format_06_number m Hm) as [_ P']. rewrite E in P. congruence.
  - intros m Hm E. unfold db.get_log_file in E.
    apply string_app_inv_tail in E.
    destruct (format_06_number m Hm) as [_ P']. rewrite E in P. congruence.
Qed.

Lemma file_names_of_numbers_witness :
  db.get_table_file 123 = "000123.ldb"%string
  /\ db.get_log_file 1234567 = "1234567.log"%string
  /\ (exists digits : string,
         db.get_table_file 123 = (digits ++ ".ldb")%string
         /\ db.get_log_file 123 = (digits ++ ".log")%string
         /\ (6 <= String.length digits)%nat
         /\ parse_number digits = Some 123)
  /\ (forall m : Z, 0 <= m ->
        db.get_table_file 123 = db.get_table_file m -> 123 = m)
  /\ (forall m : Z, 0 <= m ->
        db.get_log_file 123 = db.get_log_file m -> 123 = m).
Proof.
  split; [reflexivity|]. split; [reflexivity|].
  apply (file_names_of_numbers 123). discriminate.
Defined.

(** ** indexeddb: keys and values *)

Lemma IDBKey_read_ids_lengths (b : byte) (rest : bytes) :
  indexeddb.IDBKey_read_ids (b :: rest)
  = ('(x, s) <- util.read_safe rest (Z.land (byte_val b) 7 + 1) ;;
     '(y, s) <- util.read_safe s (Z.land (byte_val b) 7 + 1) ;;
     '(z, s) <- util.read_safe s (Z.land (byte_val b) 3 + 1) ;;
     Ok (from_bytes_le x, from_bytes_le y, from_bytes_le z, s)).
Proof.
  unfold indexeddb.IDBKey_read_ids. rewrite read_safe_cons. cbn [bind].
  rewrite index_single. cbn [bind]. reflexivity.
Qed.

(** X21.  [IDBKey] takes the three lengths of the ids from the three low
    bits of the first byte -- [(b & 7) + 1], [(b & 7) + 1] and
    [(b & 3) + 1] -- and never looks at its five high bits: two keys that
    differ only there are read alike. *)
Theorem IDBKey_first_byte_low_bits (b b' : byte) (rest : bytes) :
  Z.land (byte_val b) 7 = Z.land (byte_val b') 7 ->
  indexeddb.IDBKey_read_ids (b :: rest)
  = ('(x, s) <- util.read_safe rest (Z.land (byte_val b) 7 + 1) ;;
     '(y, s) <- util.read_safe s (Z.land (byte_val b) 7 + 1) ;;
     '(z, s) <- util.read_safe s (Z.land (byte_val b) 3 + 1) ;;
     Ok (from_bytes_le x, from_bytes_le y, from_bytes_le z, s))
  /\ indexeddb.IDBKey_init (b :: rest) = indexeddb.IDBKey_init (b' :: rest).
Proof.
  intros H. split; [apply IDBKey_read_ids_lengths|].
  unfold indexeddb.IDBKey_init. rewrite !IDBKey_read_ids_lengths.
  assert (H3 : Z.land (byte_val b) 3 = Z.land (byte_val b') 3).
  { change 3 with (Z.land 7 3). rewrite !Z.land_assoc, H. reflexivity. }
  rewrite H, H3. reflexivity.
Qed.

Lemma IDBKey_first_byte_low_bits_witness :
  indexeddb.IDBKey_read_ids (B 0x20 :: hex [0x00; 0x01; 0x00; 0x00])
  = ('(x, s) <- util.read_safe (hex [0x00; 0x01; 0x00; 0x00])
                  (Z.land (byte_val (B 0x20)) 7 + 1) ;;
     '(y, s) <- util.read_safe s (Z.land (byte_val (B 0x20)) 7 + 1) ;;
     '(z, s) <- util.read_safe s (Z.land (byte_val (B 0x20)) 3 + 1) ;;
     Ok (from_bytes_le x, from_bytes_le y, from_bytes_le z, s))
  /\ indexeddb.IDBKey_init (B 0x20 :: hex [0x00; 0x01; 0x00; 0x00])
     = indexeddb.IDBKey_init (B 0x00 :: hex [0x00; 0x01; 0x00; 0x00]).
Proof.
  apply (IDBKey_first_byte_low_bits (B 0x20) (B 0x00)
           (hex [0x00; 0x01; 0x00; 0x00])).
  reflexivity.
Defined.

Lemma int64_to_bytes_compact_byte (n : Z) :
  0 <= n < 256 -> util.int64_to_bytes_compact n = Ok [B n].
Proof.
  intros Hn.
  destruct (int64_to_bytes_compact_small n) as (b & E & L & V & L1 & _).
  { split; [lia|]. apply Z.lt_trans with 256; [lia | reflexivity]. }
  rewrite E. f_equal.
  destruct b as [|x [|y b]].
  - change (len (@nil byte)) with 0 in L. lia.
  - cbn [from_bytes_le] in V. rewrite <- V, Z.mul_0_r, Z.add_0_r.
    rewrite B_byte_val. reflexivity.
  - exfalso. assert (len (x :: y :: b) = 1) by (apply L1; lia).
    rewrite !len_cons in H. pose proof (len_nonneg b). lia.
Qed.

Lemma encode_key_prefix_short (db store idx : Z) :
  0 <= db < 256 -> 0 <= store < 256 -> 0 <= idx < 256 ->
  indexeddb.encode_key_prefix db store idx
  = Ok [B 0; B db; B store; B idx].
Proof.
  intros Hdb Hstore Hidx. unfold indexeddb.encode_key_prefix.
  replace ((db >=? 0) && (store >=? 0) && (idx >=? 0)) with true
    by (symmetry; rewrite !andb_true_iff, !Z.geb_le; lia).
  cbn [assert bind].
  rewrite !int64_to_bytes_compact_byte by assumption. reflexivity.
Qed.

Lemma IDBKey_read_ids_short (db store idx : Z) (rest : bytes) :
  0 <= db < 256 -> 0 <= store < 256 -> 0 <= idx < 256 ->
  indexeddb.IDBKey_read_ids ([B 0; B db; B store; B idx] ++ rest)
  = Ok (db, store, idx, rest).
Proof.
  intros Hdb Hstore Hidx. cbn [app]. rewrite IDBKey_read_ids_lengths.
  change (Z.land (byte_val (B 0)) 7 + 1) with 1.
  change (Z.land (byte_val (B 0)) 3 + 1) with 1.
  repeat (rewrite read_safe_cons; cbn [bind]). cbn [from_bytes_le].
  rewrite !byte_val_B by assumption.
  rewrite !Z.mul_0_r, !Z.add_0_r. reflexivity.
Qed.

(** X22.  For ids below 256 the prefix that [encode_key_prefix] builds is
    the byte [00] followed by the three ids, one byte each, and [IDBKey]
    reads the three ids back from a key that starts with it. *)
Theorem IDBKey_reads_short_prefix (db store idx : Z) (rest : bytes) :
  0 <= db < 256 -> 0 <= store < 256 -> 0 <= idx < 256 ->
  indexeddb.encode_key_prefix db store idx
  = Ok [B 0; B db; B store; B idx]
  /\ indexeddb.IDBKey_read_ids ([B 0; B db; B store; B idx] ++ rest)
     = Ok (db, store, idx, rest)
  /\ indexeddb.IDBKey_init ([B 0; B db; B store; B idx] ++ rest)
     = ('(k, s) <- indexeddb.parse_key (2 * length rest + 1) rest ;;
        _ <- assert (util.bytes_left s =? 0) "unexpected trailing data" ;;
        Ok (indexeddb.mkIDBKey db store idx k)).
Proof.
  intros Hdb Hstore Hidx.
  split; [apply encode_key_prefix_short; assumption|].
  split; [apply IDBKey_read_ids_short; assumption|].
  unfold indexeddb.IDBKey_init.
  rewrite IDBKey_read_ids_short by assumption. reflexivity.
Qed.

Lemma IDBKey_reads_short_prefix_witness :
  indexeddb.encode_key_prefix 1 2 1 = Ok [B 0; B 1; B 2; B 1]
  /\ indexeddb.IDBKey_read_ids ([B 0; B 1; B 2; B 1] ++ hex [0x06; 0x00])
     = Ok (1, 2, 1, hex [0x06; 0x00])
  /\ indexeddb.IDBKey_init ([B 0; B 1; B 2; B 1] ++ hex [0x06; 0x00])
     = ('(k, s) <- indexeddb.parse_key
                     (2 * length (hex [0x06; 0x00]) + 1) (hex [0x06; 0x00]) ;;
        _ <- assert (util.bytes_left s =? 0) "unexpected trailing data" ;;
        Ok (indexeddb.mkIDBKey 1 2 1 k)).
Proof.
  apply (IDBKey_reads_short_prefix 1 2 1 (hex [0x06; 0x00])); lia.
Defined.

(** X23.  A value whose tag, behind the database version and the two
    header bytes, is [01] is reported as the string [<blob>]; nothing that
    follows the tag is read. *)
Theorem IDBValue_blob (value_ : bytes) (version : Z) (h1 : byte)
    (rest : bytes) :
  util.read_varint64 value_ = Ok (version, B 0xFF :: h1 :: B 0x01 :: rest) ->
  0x11 <= byte_val h1 ->
  indexeddb.IDBValue_init value_
  = Ok (indexeddb.VStr (indexeddb.str_of_string "<blob>")).
Proof.
  intros Hv Hh. unfold indexeddb.IDBValue_init. rewrite Hv. cbn [bind].
  change (B 0xFF :: h1 :: B 0x01 :: rest)
    with ([B 0xFF; h1] ++ B 0x01 :: rest).
  assert (R : stream_read ([B 0xFF; h1] ++ B 0x01 :: rest) 2
              = Ok ([B 0xFF; h1], B 0x01 :: rest)).
  { unfold stream_read. change (2 >? ssize_max) with false.
    change (2 <? 0) with false. cbv iota.
    change 2 with (len [B 0xFF; h1]).
    rewrite take_app_len, drop_app_len. reflexivity. }
  rewrite R. cbn [bind].
  change (byte_val (B 0xFF) =? 0xFF) with true.
  replace (byte_val h1 <? 0x11) with false
    by (symmetry; apply Z.ltb_ge; exact Hh).
  cbn [negb orb assert bind]. rewrite read_safe_cons. cbn [bind].
  rewrite index_single. cbn [bind]. reflexivity.
Qed.

Lemma IDBValue_blob_witness :
  indexeddb.IDBValue_init (hex [0x05; 0xFF; 0x11; 0x01; 0xAA; 0xBB])
  = Ok (indexeddb.VStr (indexeddb.str_of_string "<blob>")).
Proof.
  apply (IDBValue_blob (hex [0x05; 0xFF; 0x11; 0x01; 0xAA; 0xBB]) 5
           (B 0x11) (hex [0xAA; 0xBB])).
  - reflexivity.
  - vm_compute. discriminate.
Defined.

(** ** indexeddb: a prefix that is not read back *)

Lemma first_byte_wide_db (l : Z) :
  2 <= l <= 7 ->
  0 <= prefix_first_byte l 1 1 < 256
  /\ Z.land (prefix_first_byte l 1 1) 7 = 0
  /\ Z.land (prefix_first_byte l 1 1) 3 = 0.
Proof.
  intros H.
  assert (C : l = 2 \/ l = 3 \/ l = 4 \/ l = 5 \/ l = 6 \/ l = 7) by lia.
  destruct C as [->|[->|[->|[->|[->| ->]]]]];
    vm_compute; repeat split; congruence.
Qed.

(** C6.  The prefix that [encode_key_prefix] builds is not read back by
    [IDBKey] when the database id takes two bytes or more.  The encoder
    writes the length of the id, less one, in the three high bits of the
    first byte; the decoder masks the first byte with [0b11100000 >> 5],
    which is 7, where masking with [0b11100000] and shifting by 5 is
    meant, and so finds its lengths in the low bits, which are zero here.
    For every database id from 256 on, with an object store and an index
    below 256, it reads one byte for each id: the database id it returns
    is the low byte of the id, not the id. *)
Theorem IDBKey_prefix_not_read_back (db store idx : Z) :
  256 <= db < 2 ^ 56 -> 0 <= store < 256 -> 0 <= idx < 256 ->
  exists prefix : bytes,
    indexeddb.encode_key_prefix db store idx = Ok prefix
    /\ forall tail : bytes,
         (exists (s i : Z) (rest : bytes),
             indexeddb.IDBKey_read_ids (prefix ++ tail)
             = Ok (db mod 256, s, i, rest))
         /\ indexeddb.IDBKey_read_ids (prefix ++ tail)
            <> Ok (db, store, idx, tail).
Proof.
  intros Hdb Hstore Hidx.
  destruct (int64_to_bytes_compact_small db) as (dbb & E & L & V & L1 & _);
    [lia|].
  assert (Hl : 2 <= len dbb <= 7).
  { destruct (Z.eq_dec (len dbb) 1) as [H1|H1]; [|lia].
    apply L1 in H1. lia. }
  destruct (first_byte_wide_db (len dbb) Hl) as (Hr & H7 & H3).
  exists (B (prefix_first_byte (len dbb) 1 1) :: dbb ++ [B store] ++ [B idx]).
  split.
  - apply (encode_key_prefix_Ok db store idx dbb [B store] [B idx]);
      try lia; try assumption;
      apply int64_to_bytes_compact_byte; assumption.
  - intros tail.
    destruct dbb as [|x [|y r]];
      [change (len (@nil byte)) with 0 in Hl; lia
      |change (len [x]) with 1 in Hl; lia|].
    assert (Hx : db mod 256 = byte_val x).
    { cbn [from_bytes_le] in V. pose proof (byte_val_range x).
      symmetry.
      apply (Z.mod_unique db 256
               (byte_val y + 256 * from_bytes_le r) (byte_val x)); lia. }
    assert (R : exists (i : Z) (rest : bytes),
               indexeddb.IDBKey_read_ids
                 ((B (prefix_first_byte (len (x :: y :: r)) 1 1)
                   :: (x :: y :: r) ++ [B store] ++ [B idx]) ++ tail)
               = Ok (byte_val x, byte_val y, i, rest)).
    { cbn [app]. rewrite IDBKey_read_ids_lengths, byte_val_B by exact Hr.
      rewrite H7, H3. change (0 + 1) with 1.
      destruct r as [|z r]; cbn [app];
        repeat (rewrite read_safe_cons; cbn [bind]);
        cbn [from_bytes_le]; rewrite !Z.mul_0_r, !Z.add_0_r;
        eexists; eexists; reflexivity. }
    destruct R as (i & rest & R). split.
    + exists (byte_val y), i, rest. rewrite Hx. exact R.
    + rewrite R. intros H. injection H as H _ _ _.
      pose proof (byte_val_range x). lia.
Qed.

Lemma IDBKey_prefix_not_read_back_witness :
  indexeddb.encode_key_prefix 256 0 0
  = Ok (hex [0x20; 0x00; 0x01; 0x00; 0x00])
  /\ indexeddb.IDBKey_read_ids (hex [0x20; 0x00; 0x01; 0x00; 0x00])
     = Ok (0, 1, 0, hex [0x00])
  /\ exists prefix : bytes,
       indexeddb.encode_key_prefix 256 0 0 = Ok prefix
       /\ forall tail : bytes,
            (exists (s i : Z) (rest : bytes),
                indexeddb.IDBKey_read_ids (prefix ++ tail)
                = Ok (256 mod 256, s, i, rest))
            /\ indexeddb.IDBKey_read_ids (prefix ++ tail)
               <> Ok (256, 0, 0, tail).
Proof.
  split; [reflexivity|]. split; [reflexivity|].
  apply (IDBKey_prefix_not_read_back 256 0 0);
    [split; [lia | reflexivity] | lia | lia].
Defined.

(** ** indexeddb: values written and read back *)

Ltac refines_if :=
  match goal with
  | |- refines (if ?c then _ else _) (if ?c then _ else _) => destruct c
  end.

Lemma v8_refines (fuel : nat) :
  forall fuel' : nat,
    (fuel <= fuel')%nat ->
    (forall s,
        refines (indexeddb.v8_deserizlize_fuel fuel s)
                (indexeddb.v8_deserizlize_fuel fuel' s))
    /\ (forall s obj,
        refines (indexeddb.object_loop fuel s obj)
                (indexeddb.object_loop fuel' s obj))
    /\ (forall s arr n,
        refines (indexeddb.sparse_loop fuel s arr n)
                (indexeddb.sparse_loop fuel' s arr n))
    /\ (forall s n arr,
        refines (indexeddb.dense_elements fuel s n arr)
                (indexeddb.dense_elements fuel' s n arr))
    /\ (forall s arr c n,
        refines (indexeddb.dense_properties fuel s arr c n)
                (indexeddb.dense_properties fuel' s arr c n)).
Proof.
  induction fuel as [|fuel IH]; intros fuel' Hf;
    [repeat split; intros; left; reflexivity|].
  destruct fuel' as [|fuel']; [lia|].
  destruct (IH fuel' ltac:(lia)) as (IHV & IHO & IHS & IHE & IHP).
  split; [|split; [|split; [|split]]].
  - intros s. cbn [indexeddb.v8_deserizlize_fuel].
    apply refines_bind_same. intros [tag s1].
    refines_if; [apply IHV|].
    refines_if; [apply IHO|].
    refines_if; [apply refines_refl|].
    refines_if; [apply refines_refl|].
    refines_if; [apply refines_refl|].
    refines_if; [apply refines_refl|].
    refines_if; [apply refines_refl|].
    refines_if; [apply refines_bind_same; intros [n s2]; apply IHS|].
    refines_if; [|apply refines_refl].
    apply refines_bind_same. intros [n s2].
    apply refines_bind; [apply IHE|]. intros [arr s3]. apply IHP.
  - intros s obj. cbn [indexeddb.object_loop].
    apply refines_bind; [apply IHV|]. intros [k s1].
    destruct k; try apply refines_refl;
      (apply refines_bind; [apply IHV|]; intros [val s2];
       apply refines_bind_same; intros obj'; apply IHO).
  - intros s arr n. cbn [indexeddb.sparse_loop].
    apply refines_bind; [apply IHV|]. intros [k s1].
    destruct k; try apply refines_refl;
      (apply refines_bind; [apply IHV|]; intros [val s2]; apply IHS).
  - intros s n arr. cbn [indexeddb.dense_elements].
    refines_if; [apply refines_refl|].
    apply refines_bind; [apply IHV|]. intros [val s1]. apply IHE.
  - intros s arr c n. cbn [indexeddb.dense_properties].
    apply refines_bind; [apply IHV|]. intros [k s1].
    destruct k; try apply refines_refl;
      (apply refines_bind; [apply IHV|]; intros [val s2]; apply IHP).
Qed.

Lemma v8_value_any (fuel : nat) (s : stream) :
  (2 * length s + 1 <= fuel)%nat ->
  indexeddb.v8_deserizlize_fuel fuel s = v8_value s.
Proof.
  intros Hf. symmetry. apply refines_fueled.
  - apply v8_refines, Hf.
  - apply v8_fueled. lia.
Qed.

Lemma v8_object_any (fuel : nat) (s : stream) obj :
  (2 * length s + 2 <= fuel)%nat ->
  indexeddb.object_loop fuel s obj = v8_object s obj.
Proof.
  intros Hf. symmetry. apply refines_fueled.
  - apply v8_refines, Hf.
  - apply v8_fueled. lia.
Qed.

Lemma v8_dense_elements_any (fuel : nat) (s : stream) n arr :
  (2 * length s + 2 <= fuel)%nat ->
  indexeddb.dense_elements fuel s n arr = v8_dense_elements s n arr.
Proof.
  intros Hf. symmetry. apply refines_fueled.
  - apply v8_refines, Hf.
  - apply v8_fueled. lia.
Qed.

Lemma v8_dense_properties_any (fuel : nat) (s : stream) arr c n :
  (2 * length s + 2 <= fuel)%nat ->
  indexeddb.dense_properties fuel s arr c n = v8_dense_properties s arr c n.
Proof.
  intros Hf. symmetry. apply refines_fueled.
  - apply v8_refines, Hf.
  - apply v8_fueled. lia.
Qed.

Lemma v8_deserizlize_value (s : stream) :
  indexeddb.v8_deserizlize s = v8_value s.
Proof. unfold indexeddb.v8_deserizlize. apply v8_value_any. lia. Qed.

Lemma v8_value_length (s : stream) (v : indexeddb.value) (s' : stream) :
  v8_value s = Ok (v, s') -> (length s' < length s)%nat.
Proof. apply v8_length. Qed.

Lemma v8_dense_elements_length (s : stream) n arr arr' (s' : stream) :
  v8_dense_elements s n arr = Ok (arr', s') -> (length s' <= length s)%nat.
Proof. apply v8_length. Qed.

(** Evaluate the tests on a tag that is known. *)
Ltac eval_tags :=
  repeat match goal with
         | |- context [indexeddb.is_tag ?t ?c] =>
             let r := eval vm_compute in (indexeddb.is_tag t c) in
             change (indexeddb.is_tag t c) with r
         end;
  cbn [orb]; cbv iota.

Ltac v8_step :=
  unfold v8_value at 1;
  match goal with
  | |- context [(2 * length (?b :: ?s) + 1)%nat] =>
      replace (2 * length (b :: s) + 1)%nat with (S (2 * length s + 2))
        by (cbn [length]; lia)
  end;
  cbn [indexeddb.v8_deserizlize_fuel];
  rewrite read_safe_cons; cbn [bind]; eval_tags.

(** A zero byte before a value is padding. *)
Lemma v8_value_padding (s : stream) : v8_value (x00 :: s) = v8_value s.
Proof. v8_step. apply v8_value_any. lia. Qed.

Lemma v8_value_object (s : stream) :
  v8_value (tag_byte "o" :: s) = v8_object s [].
Proof. v8_step. apply v8_object_any. lia. Qed.

Lemma v8_value_end (t : byte) (s : stream) :
  t = tag_byte "{" \/ t = tag_byte "$" ->
  v8_value (t :: s)
  = ('(count, s) <- util.read_varint64 s ;;
     Ok (indexeddb.VEndMarker count, s)).
Proof. intros [->| ->]; v8_step; reflexivity. Qed.

Lemma v8_value_dense (s : stream) :
  v8_value (tag_byte "A" :: s)
  = ('(arr_len1, s) <- util.read_varint32 s ;;
     '(arr, s) <- v8_dense_elements s arr_len1 [] ;;
     v8_dense_properties s arr 0 arr_len1).
Proof.
  v8_step.
  destruct (util.read_varint32 s) as [[n s1]|e] eqn:R; [|reflexivity].
  cbn [bind]. apply read_varint32_length in R.
  rewrite v8_dense_elements_any by lia.
  destruct (v8_dense_elements s1 n []) as [[arr s2]|e] eqn:E;
    [|reflexivity].
  cbn [bind]. apply v8_dense_elements_length in E.
  apply v8_dense_properties_any. lia.
Qed.

Lemma v8_object_step (s : stream) obj :
  v8_object s obj
  = ('(k, s) <- v8_value s ;;
     match k with
     | indexeddb.VEndMarker count =>
         _ <- assert (len obj =? count) "obj property count" ;;
         Ok (indexeddb.VDict obj, s)
     | _ =>
         '(val, s) <- v8_value s ;;
         obj <- indexeddb.setitem obj k val ;;
         v8_object s obj
     end).
Proof.
  unfold v8_object at 1.
  replace (2 * length s + 2)%nat with (S (2 * length s + 1)) by lia.
  cbn [indexeddb.object_loop]. fold (v8_value s).
  destruct (v8_value s) as [[k s1]|e] eqn:K; [|reflexivity].
  cbn [bind]. apply v8_value_length in K.
  destruct k; try reflexivity;
    (rewrite v8_value_any by lia;
     destruct (v8_value s1) as [[val s2]|e] eqn:V; [|reflexivity];
     cbn [bind]; apply v8_value_length in V;
     match goal with
     | |- bind ?m _ = _ => destruct m as [obj'|e]; [|reflexivity]
     end;
     cbn [bind]; apply v8_object_any; lia).
Qed.

Lemma v8_dense_elements_step (s : stream) n arr :
  v8_dense_elements s n arr
  = if n <=? 0 then Ok (arr, s)
    else '(val, s) <- v8_value s ;;
         v8_dense_elements s (n - 1) (arr ++ [val]).
Proof.
  unfold v8_dense_elements at 1.
  replace (2 * length s + 2)%nat with (S (2 * length s + 1)) by lia.
  cbn [indexeddb.dense_elements]. fold (v8_value s).
  destruct (n <=? 0); [reflexivity|].
  destruct (v8_value s) as [[val s1]|e] eqn:V; [|reflexivity].
  cbn [bind]. apply v8_value_length in V.
  apply v8_dense_elements_any. lia.
Qed.

Lemma v8_dense_properties_end (s s1 : stream) arr c n count :
  v8_value s = Ok (indexeddb.VEndMarker count, s1) ->
  v8_dense_properties s arr c n
  = (_ <- assert (c =? count) "arr property count" ;;
     '(arr_len2, s) <- util.read_varint32 s1 ;;
     _ <- assert (n =? arr_len2) "array length mismatch" ;;
     Ok (indexeddb.VList arr, s)).
Proof.
  intros K. unfold v8_dense_properties.
  replace (2 * length s + 2)%nat with (S (2 * length s + 1)) by lia.
  cbn [indexeddb.dense_properties]. fold (v8_value s). rewrite K.
  reflexivity.
Qed.

Lemma dict_set_fresh {K V : Type} (eqb : K -> K -> bool) (d : dict K V)
    (k : K) (v : V) :
  Forall (fun k' => eqb k k' = false) (dict_keys d) ->
  dict_set eqb d k v = d ++ [(k, v)].
Proof.
  induction d as [|[k' v'] d IH]; intros H; cbn [dict_set app];
    [reflexivity|].
  inversion H as [|? ? Hk Hd]; subst. cbn [fst] in Hk.
  rewrite Hk, (IH Hd). reflexivity.
Qed.

Lemma decode_ascii_replace_ascii (s : indexeddb.pystr) :
  Forall (fun c => 0 <= c < 128) s ->
  indexeddb.decode_ascii_replace (map B s) = s.
Proof.
  intros H. unfold indexeddb.decode_ascii_replace. rewrite map_map.
  induction H as [|c s Hc Hs IH]; cbn [map]; [reflexivity|].
  rewrite IH, byte_val_B by lia.
  replace (c <? 128) with true by (symmetry; apply Z.ltb_lt; lia).
  reflexivity.
Qed.

Lemma len_map {A B : Type} (f : A -> B) (l : list A) : len (map f l) = len l.
Proof. unfold len. rewrite length_map. reflexivity. Qed.

(** The elements of a dense array, one value after the other. *)
Lemma v8_dense_elements_items (items : list indexeddb.value) :
  Forall (fun v => forall rest,
              v8_value (v8_serialize v ++ rest) = Ok (v, rest)) items ->
  forall (arr : list indexeddb.value) (n : Z) (rest : bytes),
    n = len items ->
    v8_dense_elements (List.concat (map v8_serialize items) ++ rest) n arr
    = Ok (arr ++ items, rest).
Proof.
  induction 1 as [|v items Hv Hitems IH]; intros arr n rest Hn;
    rewrite v8_dense_elements_step.
  - subst n. change (len (@nil indexeddb.value) <=? 0) with true.
    cbv iota. rewrite app_nil_r. reflexivity.
  - rewrite len_cons in Hn. pose proof (len_nonneg items).
    replace (n <=? 0) with false by (symmetry; apply Z.leb_gt; lia).
    cbn [map List.concat]. rewrite <- app_assoc, Hv. cbn [bind].
    rewrite IH by lia. rewrite <- app_assoc. reflexivity.
Qed.

Lemma not_end_marker_step (k : indexeddb.value) (A : Type)
    (a b : Z -> A) (c : A) :
  match k with
  | indexeddb.VStr _ | indexeddb.VInt _ => True
  | _ => False
  end ->
  match k with
  | indexeddb.VEndMarker count => a count
  | _ => c
  end = c.
Proof. destruct k; intros H; try destruct H; reflexivity. Qed.

(** The properties of an object, one key and value after the other. *)
Lemma v8_object_items (items : list (indexeddb.value * indexeddb.value)) :
  Forall (fun kv =>
            (forall rest,
                v8_value (v8_serialize (fst kv) ++ rest) = Ok (fst kv, rest))
            /\ (forall rest,
                   v8_value (v8_serialize (snd kv) ++ rest)
                   = Ok (snd kv, rest))
            /\ match fst kv with
               | indexeddb.VStr _ | indexeddb.VInt _ => True
               | _ => False
               end) items ->
  forall (obj : list (indexeddb.value * indexeddb.value)) (rest : bytes),
    distinct_keys (map fst obj ++ map fst items) ->
    v8_object
      (List.concat
         (map (fun kv => let '(k, v) := kv in
                         v8_serialize k ++ v8_serialize v) items) ++ rest)
      obj
    = v8_object rest (obj ++ items).
Proof.
  induction 1 as [|[k v] items (Hk & Hv & Hkey) Hitems IH];
    intros obj rest Hd.
  - cbn [map List.concat app]. rewrite app_nil_r. reflexivity.
  - cbn [fst snd] in *. rewrite v8_object_step.
    cbn [map List.concat]. rewrite <- !app_assoc, Hk. cbn [bind].
    destruct k; try destruct Hkey;
      (rewrite Hv; cbn [bind indexeddb.setitem];
       rewrite dict_set_fresh;
       [cbn [bind]; rewrite IH;
        [rewrite <- app_assoc; reflexivity
        |rewrite map_app, <- app_assoc; exact Hd]
       |]).
    all: clear - Hd; unfold dict_keys;
      induction obj as [|[k' v'] obj IHo]; [constructor|];
      cbn [map app distinct_keys] in *; destruct Hd as [Hf Hd];
      constructor; [|apply IHo, Hd];
      cbn [fst]; apply Forall_app in Hf; destruct Hf as [_ Hf];
      inversion Hf; assumption.
Qed.

Lemma v8_serialize_roundtrip :
  forall v : indexeddb.value,
    serializable v ->
    forall rest : bytes, v8_value (v8_serialize v ++ rest) = Ok (v, rest).
Proof.
  fix IH 1. intros v Hs rest. destruct v as [|b|n|b|s|items|k v|items|c].
  - cbn [v8_serialize app]. v8_step. reflexivity.
  - destruct b; cbn [v8_serialize app]; v8_step; reflexivity.
  - inversion Hs; subst. cbn [v8_serialize app]. v8_step.
    rewrite read_sint32_roundtrip by assumption. reflexivity.
  - inversion Hs as [| | |? Hb| | |]; subst. cbn [v8_serialize app]. v8_step.
    rewrite <- Hb. rewrite read_safe_app by (rewrite Hb; ssize).
    reflexivity.
  - inversion Hs as [| | | |? Hc Hl| |]; subst.
    cbn [v8_serialize app]. v8_step.
    rewrite <- app_assoc. unfold util.read_varint32.
    pose proof (len_nonneg s).
    rewrite read_varint_varint by first [lia | split; [lia | exact Hl]].
    cbn [bind]. rewrite <- (len_map B s).
    rewrite read_safe_app
      by (rewrite len_map; change (2 ^ 35) with 34359738368 in Hl; ssize).
    cbn [bind]. rewrite decode_ascii_replace_ascii by assumption.
    reflexivity.
  - inversion Hs as [| | | | |? Hitems Hl|]; subst.
    assert (HP : Forall (fun v => forall rest,
                           v8_value (v8_serialize v ++ rest) = Ok (v, rest))
                   items).
    { clear - IH Hitems. induction items as [|x items IHl];
        constructor; inversion Hitems; subst; auto. }
    clear IH. cbn [v8_serialize app]. rewrite v8_value_dense.
    rewrite <- app_assoc. unfold util.read_varint32.
    pose proof (len_nonneg items).
    rewrite read_varint_varint by first [lia | split; [lia | exact Hl]].
    cbn [bind]. rewrite <- app_assoc.
    rewrite (v8_dense_elements_items items HP) by reflexivity.
    cbn [bind app].
    rewrite (v8_dense_properties_end _
               (sample.varint (len items) ++ rest) _ _ _ 0).
    + cbn [assert bind Z.eqb]. unfold util.read_varint32.
      rewrite read_varint_varint by first [lia | split; [lia | exact Hl]].
      cbn [bind]. rewrite Z.eqb_refl. reflexivity.
    + rewrite v8_value_end by (right; reflexivity).
      unfold util.read_varint64. rewrite <- app_assoc.
      rewrite read_varint_varint by first [lia | vm_compute; split; congruence].
      reflexivity.
  - inversion Hs.
  - inversion Hs as [| | | | | |? Hitems Hd Hl]; subst.
    assert (HP : Forall
                   (fun kv =>
                      (forall rest,
                          v8_value (v8_serialize (fst kv) ++ rest)
                          = Ok (fst kv, rest))
                      /\ (forall rest,
                             v8_value (v8_serialize (snd kv) ++ rest)
                             = Ok (snd kv, rest))
                      /\ match fst kv with
                         | indexeddb.VStr _ | indexeddb.VInt _ => True
                         | _ => False
                         end) items).
    { clear - IH Hitems. induction items as [|[k v] items IHl];
        constructor; inversion Hitems as [|? ? (H1 & H2 & H3) H4]; subst;
        cbn [fst snd] in *; auto. }
    clear IH. cbn [v8_serialize app]. rewrite v8_value_object.
    rewrite <- app_assoc.
    rewrite (v8_object_items items HP [] _ Hd). cbn [app].
    rewrite v8_object_step.
    rewrite v8_value_end by (left; reflexivity).
    unfold util.read_varint64. pose proof (len_nonneg items).
    rewrite read_varint_varint
      by first [lia | split; [lia|];
                      apply Z.lt_trans with (2 ^ 35);
                      [exact Hl | reflexivity]].
    cbn [bind]. rewrite Z.eqb_refl. reflexivity.
  - inversion Hs.
Qed.

(** X24.  [v8_deserizlize] reads back every value made of null, booleans,
    32-bit integers, doubles, ASCII strings, dense arrays and objects with
    distinct string or integer keys, nested, from its V8 serialisation, and
    leaves the bytes that follow it.  (The model has no limit on the depth
    of the recursion.) *)
Theorem v8_deserizlize_roundtrip (v : indexeddb.value) (rest : bytes) :
  serializable v ->
  indexeddb.v8_deserizlize (v8_serialize v ++ rest) = Ok (v, rest).
Proof.
  intros Hs. rewrite v8_deserizlize_value.
  apply v8_serialize_roundtrip, Hs.
Qed.

Lemma v8_deserizlize_roundtrip_witness :
  v8_serialize
    (indexeddb.VDict
       [(indexeddb.VStr (indexeddb.str_of_string "a"),
         indexeddb.VList [indexeddb.VInt 1; indexeddb.VInt (-2)]);
        (indexeddb.VInt 7, indexeddb.VNone)])
  = hex [0x6F; 0x22; 0x01; 0x61; 0x41; 0x02; 0x49; 0x02; 0x49; 0x03;
         0x24; 0x00; 0x02; 0x49; 0x0E; 0x30; 0x7B; 0x02]
  /\ indexeddb.v8_deserizlize
       (v8_serialize
          (indexeddb.VDict
             [(indexeddb.VStr (indexeddb.str_of_string "a"),
               indexeddb.VList [indexeddb.VInt 1; indexeddb.VInt (-2)]);
              (indexeddb.VInt 7, indexeddb.VNone)])
        ++ hex [0xFF])
     = Ok (indexeddb.VDict
             [(indexeddb.VStr (indexeddb.str_of_string "a"),
               indexeddb.VList [indexeddb.VInt 1; indexeddb.VInt (-2)]);
              (indexeddb.VInt 7, indexeddb.VNone)],
           hex [0xFF]).
Proof.
  split; [reflexivity|].
  apply (v8_deserizlize_roundtrip
           (indexeddb.VDict
              [(indexeddb.VStr (indexeddb.str_of_string "a"),
                indexeddb.VList [indexeddb.VInt 1; indexeddb.VInt (-2)]);
               (indexeddb.VInt 7, indexeddb.VNone)])
           (hex [0xFF])).
  apply ser_dict.
  - repeat constructor; try (vm_compute; congruence).
  - repeat constructor.
  - reflexivity.
Defined.

(** X25.  [IDBValue] reads such a value from a LevelDB value made of a
    database version, the two bytes [FF] and a wrapping version from
    [0x11] on, the tag [FF], a byte for the version of the serialisation
    and the serialisation of the value; bytes after it are an error. *)
Theorem IDBValue_roundtrip (version : Z) (h1 v8_version : byte)
    (v : indexeddb.value) :
  0 <= version < 2 ^ 70 -> 0x11 <= byte_val h1 -> serializable v ->
  indexeddb.IDBValue_init
    (sample.varint version ++ [B 0xFF; h1; B 0xFF; v8_version]
     ++ v8_serialize v)
  = Ok v
  /\ forall (x : byte) (rest : bytes),
       indexeddb.IDBValue_init
         (sample.varint version ++ [B 0xFF; h1; B 0xFF; v8_version]
          ++ v8_serialize v ++ x :: rest)
       = Raise (AssertionError "unexpected trailing data").
Proof.
  intros Hv Hh Hs.
  assert (G : forall rest : bytes,
             indexeddb.IDBValue_init
               (sample.varint version ++ [B 0xFF; h1; B 0xFF; v8_version]
                ++ v8_serialize v ++ rest)
             = (_ <- assert (util.bytes_left rest =? 0)
                       "unexpected trailing data" ;;
                Ok v)).
  { intros rest. unfold indexeddb.IDBValue_init, util.read_varint64.
    rewrite read_varint_varint by first [lia | exact Hv].
    cbn [bind].
    change ([B 0xFF; h1; B 0xFF; v8_version] ++ v8_serialize v ++ rest)
      with ([B 0xFF; h1] ++ B 0xFF :: v8_version :: v8_serialize v ++ rest).
    assert (R : forall tl : bytes,
               stream_read ([B 0xFF; h1] ++ tl) 2 = Ok ([B 0xFF; h1], tl)).
    { intros tl. unfold stream_read. change (2 >? ssize_max) with false.
      change (2 <? 0) with false. cbv iota.
      change 2 with (len [B 0xFF; h1]).
      rewrite take_app_len, drop_app_len. reflexivity. }
    rewrite R. cbn [bind].
    change (byte_val (B 0xFF) =? 0xFF) with true.
    replace (byte_val h1 <? 0x11) with false
      by (symmetry; apply Z.ltb_ge; exact Hh).
    cbn [negb orb assert bind]. rewrite read_safe_cons. cbn [bind].
    rewrite index_single. cbn [bind].
    change (byte_val (B 0xFF) =? 0x01) with false.
    change (byte_val (B 0xFF) =? 0xFF) with true. cbn [assert bind].
    rewrite read_safe_cons. cbn [bind]. rewrite index_single. cbn [bind].
    rewrite v8_deserizlize_value, v8_serialize_roundtrip by exact Hs.
    reflexivity. }
  split.
  - rewrite <- (app_nil_r (v8_serialize v)). rewrite (G []). reflexivity.
  - intros x rest. rewrite (G (x :: rest)).
    unfold util.bytes_left. rewrite len_cons.
    pose proof (len_nonneg rest).
    replace (1 + len rest =? 0) with false
      by (symmetry; apply Z.eqb_neq; lia).
    reflexivity.
Qed.

Lemma IDBValue_roundtrip_witness :
  indexeddb.IDBValue_init
    (sample.varint 2047 ++ [B 0xFF; B 0x11; B 0xFF; B 0x0D]
     ++ v8_serialize (indexeddb.VList [indexeddb.VInt 1; indexeddb.VInt 2]))
  = Ok (indexeddb.VList [indexeddb.VInt 1; indexeddb.VInt 2])
  /\ forall (x : byte) (rest : bytes),
       indexeddb.IDBValue_init
         (sample.varint 2047 ++ [B 0xFF; B 0x11; B 0xFF; B 0x0D]
          ++ v8_serialize
               (indexeddb.VList [indexeddb.VInt 1; indexeddb.VInt 2])
          ++ x :: rest)
       = Raise (AssertionError "unexpected trailing data").
Proof.
  apply (IDBValue_roundtrip 2047 (B 0x11) (B 0x0D)
           (indexeddb.VList [indexeddb.VInt 1; indexeddb.VInt 2])).
  - vm_compute. split; congruence.
  - vm_compute. congruence.
  - apply ser_list; [|reflexivity].
    repeat constructor; vm_compute; congruence.
Defined.

(** Zero bytes before a value are padding: [v8_deserizlize] skips them,
    whatever follows. *)
Lemma v8_deserizlize_padding (s : stream) :
  indexeddb.v8_deserizlize (x00 :: s) = indexeddb.v8_deserizlize s.
Proof.
  rewrite !v8_deserizlize_value. apply v8_value_padding.
Qed.

(** ** indexeddb: keys written and read back *)

Lemma parse_key_refines (fuel : nat) :
  forall fuel' : nat,
    (fuel <= fuel')%nat ->
    (forall s,
        refines (indexeddb.parse_key fuel s) (indexeddb.parse_key fuel' s))
    /\ (forall n s ret,
        refines (indexeddb.parse_key_array fuel n s ret)
                (indexeddb.parse_key_array fuel' n s ret)).
Proof.
  induction fuel as [|fuel IH]; intros fuel' Hf;
    [split; intros; left; reflexivity|].
  destruct fuel' as [|fuel']; [lia|].
  destruct (IH fuel' ltac:(lia)) as (IHK & IHA).
  split.
  - intros s. cbn [indexeddb.parse_key].
    apply refines_bind_same. intros [b s1].
    apply refines_bind_same. intros t.
    repeat (refines_if; [apply refines_refl|]).
    refines_if; [|apply refines_refl].
    apply refines_bind_same. intros [n s2].
    apply refines_bind; [apply IHA|]. intros [ret s3]. apply refines_refl.
  - intros n s ret. cbn [indexeddb.parse_key_array].
    refines_if; [apply refines_refl|].
    apply refines_bind; [apply IHK|]. intros [k s1]. apply IHA.
Qed.

Lemma key_value_any (fuel : nat) (s : stream) :
  (2 * length s + 1 <= fuel)%nat -> indexeddb.parse_key fuel s = key_value s.
Proof.
  intros Hf. symmetry. apply refines_fueled.
  - apply parse_key_refines, Hf.
  - apply parse_key_fueled. lia.
Qed.

Lemma key_array_any (fuel : nat) (n : Z) (s : stream) ret :
  (2 * length s + 2 <= fuel)%nat ->
  indexeddb.parse_key_array fuel n s ret = key_array n s ret.
Proof.
  intros Hf. symmetry. apply refines_fueled.
  - apply parse_key_refines, Hf.
  - apply parse_key_fueled. lia.
Qed.

Lemma key_value_length (s : stream) (k : indexeddb.key) (s' : stream) :
  key_value s = Ok (k, s') -> (length s' < length s)%nat.
Proof. apply parse_key_length. Qed.

Lemma key_array_step (n : Z) (s : stream) ret :
  key_array n s ret
  = if n <=? 0 then Ok (ret, s)
    else '(k, s) <- key_value s ;; key_array (n - 1) s (ret ++ [k]).
Proof.
  unfold key_array at 1.
  replace (2 * length s + 2)%nat with (S (2 * length s + 1)) by lia.
  cbn [indexeddb.parse_key_array]. fold (key_value s).
  destruct (n <=? 0); [reflexivity|].
  destruct (key_value s) as [[k s1]|e] eqn:K; [|reflexivity].
  cbn [bind]. apply key_value_length in K. apply key_array_any. lia.
Qed.

Ltac key_step :=
  unfold key_value at 1;
  match goal with
  | |- context [(2 * length (?b :: ?s) + 1)%nat] =>
      replace (2 * length (b :: s) + 1)%nat with (S (2 * length s + 2))
        by (cbn [length]; lia)
  end;
  cbn [indexeddb.parse_key];
  rewrite read_safe_cons; cbn [bind]; rewrite index_single; cbn [bind];
  repeat match goal with
         | |- context [byte_val (B ?n) =? ?m] =>
             let r := eval vm_compute in (byte_val (B n) =? m) in
             change (byte_val (B n) =? m) with r
         end;
  cbv iota.

Lemma len_utf16be (s : indexeddb.pystr) : len (utf16be s) = len s * 2.
Proof.
  unfold utf16be. induction s as [|c s IH]; [reflexivity|].
  cbn [map List.concat]. rewrite len_app, IH, (len_cons c s).
  change (len [B (c / 256); B (c mod 256)]) with 2. lia.
Qed.

Lemma utf16_units_utf16be (s : indexeddb.pystr) :
  Forall one_unit s -> indexeddb.utf16_units true (utf16be s) = Ok s.
Proof.
  intros H. unfold utf16be. induction H as [|c s Hc Hs IH]; [reflexivity|].
  cbn [map List.concat app indexeddb.utf16_units]. rewrite IH.
  cbn [bind].
  assert (0 <= c < 65536) by (destruct Hc; lia).
  rewrite !byte_val_B
    by first [apply Z.mod_pos_bound; lia
             | split; [apply Z.div_pos; lia
                      | apply Z.div_lt_upper_bound; lia]].
  pose proof (Z.div_mod c 256 ltac:(lia)).
  do 2 f_equal. lia.
Qed.

Lemma utf16_code_points_one_unit (s : indexeddb.pystr) :
  Forall one_unit s -> indexeddb.utf16_code_points s = Ok s.
Proof.
  intros H. induction H as [|c s Hc Hs IH]; [reflexivity|].
  cbn [indexeddb.utf16_code_points].
  replace ((0xD800 <=? c) && (c <=? 0xDBFF)) with false
    by (symmetry; apply andb_false_iff; destruct Hc;
        [left; apply Z.leb_gt | right; apply Z.leb_gt]; lia).
  replace ((0xDC00 <=? c) && (c <=? 0xDFFF)) with false
    by (symmetry; apply andb_false_iff; destruct Hc;
        [left; apply Z.leb_gt | right; apply Z.leb_gt]; lia).
  rewrite IH. reflexivity.
Qed.

Lemma decode_utf16be_utf16be (s : indexeddb.pystr) :
  Forall one_unit s -> indexeddb.decode_utf16be (utf16be s) = Ok s.
Proof.
  intros H. unfold indexeddb.decode_utf16be.
  rewrite utf16_units_utf16be by exact H. cbn [bind].
  apply utf16_code_points_one_unit, H.
Qed.

Lemma key_value_number (s : stream) :
  key_value (B 3 :: s)
  = ('(buf, s) <- util.read_safe s 8 ;; Ok (indexeddb.KNumber buf, s)).
Proof. key_step. reflexivity. Qed.

Lemma key_value_string (s : stream) :
  key_value (B 1 :: s)
  = ('(s_len, s) <- util.read_varint64 s ;;
     '(str, s) <- util.read_safe s (s_len * 2) ;;
     ret <- indexeddb.decode_utf16be str ;;
     Ok (indexeddb.KString ret, s)).
Proof. key_step. reflexivity. Qed.

Lemma key_value_binary (s : stream) :
  key_value (B 6 :: s)
  = ('(bin_len, s) <- util.read_varint64 s ;;
     '(ret, s) <- util.read_safe s bin_len ;;
     Ok (indexeddb.KBinary ret, s)).
Proof. key_step. reflexivity. Qed.

Lemma key_value_array (s : stream) :
  key_value (B 4 :: s)
  = ('(arr_len, s) <- util.read_varint64 s ;;
     '(ret, s) <- key_array arr_len s [] ;;
     Ok (indexeddb.KArray ret, s)).
Proof.
  key_step.
  destruct (util.read_varint64 s) as [[n s1]|e] eqn:R; [|reflexivity].
  cbn [bind]. apply read_varint64_length in R.
  rewrite key_array_any by lia. reflexivity.
Qed.

(** The elements of an array, one key after the other. *)
Lemma key_array_items (items : list indexeddb.key) :
  Forall (fun k => forall rest,
              key_value (encode_key k ++ rest) = Ok (k, rest)) items ->
  forall (ret : list indexeddb.key) (n : Z) (rest : bytes),
    n = len items ->
    key_array n (List.concat (map encode_key items) ++ rest) ret
    = Ok (ret ++ items, rest).
Proof.
  induction 1 as [|k items Hk Hitems IH]; intros ret n rest Hn;
    rewrite key_array_step.
  - subst n. change (len (@nil indexeddb.key) <=? 0) with true.
    cbv iota. rewrite app_nil_r. reflexivity.
  - rewrite len_cons in Hn. pose proof (len_nonneg items).
    replace (n <=? 0) with false by (symmetry; apply Z.leb_gt; lia).
    cbn [map List.concat]. rewrite <- app_assoc, Hk. cbn [bind].
    rewrite IH by lia. rewrite <- app_assoc. reflexivity.
Qed.

Lemma encode_key_roundtrip :
  forall k : indexeddb.key,
    encodable_key k ->
    forall rest : bytes, key_value (encode_key k ++ rest) = Ok (k, rest).
Proof.
  fix IH 1. intros k Hk rest. destruct k as [b|s|b|items].
  - inversion Hk as [? Hb| | |]; subst. cbn [encode_key app].
    rewrite key_value_number. rewrite <- Hb.
    rewrite read_safe_app by (rewrite Hb; ssize). reflexivity.
  - inversion Hk as [|? Hs Hl| |]; subst. cbn [encode_key app].
    rewrite key_value_string. rewrite <- app_assoc.
    unfold util.read_varint64. pose proof (len_nonneg s).
    rewrite read_varint_varint
      by first [lia | split; [lia|];
                      apply Z.lt_trans with (2 ^ 62);
                      [exact Hl | reflexivity]].
    cbn [bind]. rewrite <- len_utf16be.
    rewrite read_safe_app
      by (rewrite len_utf16be; change (2 ^ 62) with 4611686018427387904 in Hl;
          ssize).
    cbn [bind]. rewrite decode_utf16be_utf16be by exact Hs. reflexivity.
  - inversion Hk as [| |? Hl|]; subst. cbn [encode_key app].
    rewrite key_value_binary. rewrite <- app_assoc.
    unfold util.read_varint64. pose proof (len_nonneg b).
    rewrite read_varint_varint
      by first [lia | split; [lia|];
                      apply Z.lt_trans with (2 ^ 63);
                      [exact Hl | reflexivity]].
    cbn [bind].
    rewrite read_safe_app
      by (change (2 ^ 63) with 9223372036854775808 in Hl; ssize).
    reflexivity.
  - inversion Hk as [| | |? Hitems Hl]; subst.
    assert (HP : Forall (fun k => forall rest,
                           key_value (encode_key k ++ rest) = Ok (k, rest))
                   items).
    { clear - IH Hitems. induction items as [|x items IHl];
        constructor; inversion Hitems; subst; auto. }
    clear IH. cbn [encode_key app]. rewrite key_value_array.
    rewrite <- app_assoc. unfold util.read_varint64.
    pose proof (len_nonneg items).
    rewrite read_varint_varint by first [lia | split; [lia | exact Hl]].
    cbn [bind]. rewrite (key_array_items items HP) by reflexivity.
    reflexivity.
Qed.

(** X26.  [IDBKey] reads back a key made of the prefix of
    [encode_key_prefix] for ids below 256 and of the encoding of a key
    that is a number, a string, a byte string or an array of such keys:
    it returns the three ids and the key.  A byte after the encoding is an
    error.  (The model has no limit on the depth of the recursion.) *)
Theorem IDBKey_roundtrip (db store idx : Z) (k : indexeddb.key) :
  0 <= db < 256 -> 0 <= store < 256 -> 0 <= idx < 256 ->
  encodable_key k ->
  exists prefix : bytes,
    indexeddb.encode_key_prefix db store idx = Ok prefix
    /\ indexeddb.IDBKey_init (prefix ++ encode_key k)
       = Ok (indexeddb.mkIDBKey db store idx k)
    /\ forall (x : byte) (rest : bytes),
         indexeddb.IDBKey_init (prefix ++ encode_key k ++ x :: rest)
         = Raise (AssertionError "unexpected trailing data").
Proof.
  intros Hdb Hstore Hidx Hk. exists [B 0; B db; B store; B idx].
  split; [apply encode_key_prefix_short; assumption|].
  assert (G : forall rest : bytes,
             indexeddb.IDBKey_init
               ([B 0; B db; B store; B idx] ++ encode_key k ++ rest)
             = (_ <- assert (util.bytes_left rest =? 0)
                       "unexpected trailing data" ;;
                Ok (indexeddb.mkIDBKey db store idx k))).
  { intros rest. unfold indexeddb.IDBKey_init.
    rewrite IDBKey_read_ids_short by assumption. cbn [bind].
    fold (key_value (encode_key k ++ rest)).
    rewrite encode_key_roundtrip by exact Hk. reflexivity. }
  split.
  - rewrite <- (app_nil_r (encode_key k)). rewrite (G []). reflexivity.
  - intros x rest. rewrite (G (x :: rest)).
    unfold util.bytes_left. rewrite len_cons.
    pose proof (len_nonneg rest).
    replace (1 + len rest =? 0) with false
      by (symmetry; apply Z.eqb_neq; lia).
    reflexivity.
Qed.

Lemma IDBKey_roundtrip_witness :
  exists prefix : bytes,
    indexeddb.encode_key_prefix 1 2 1 = Ok prefix
    /\ indexeddb.IDBKey_init
         (prefix
          ++ encode_key
               (indexeddb.KArray
                  [indexeddb.KString (indexeddb.str_of_string "id");
                   indexeddb.KBinary (hex [0xAA; 0xBB])]))
       = Ok (indexeddb.mkIDBKey 1 2 1
               (indexeddb.KArray
                  [indexeddb.KString (indexeddb.str_of_string "id");
                   indexeddb.KBinary (hex [0xAA; 0xBB])]))
    /\ forall (x : byte) (rest : bytes),
         indexeddb.IDBKey_init
           (prefix
            ++ encode_key
                 (indexeddb.KArray
                    [indexeddb.KString (indexeddb.str_of_string "id");
                     indexeddb.KBinary (hex [0xAA; 0xBB])])
            ++ x :: rest)
         = Raise (AssertionError "unexpected trailing data").
Proof.
  apply (IDBKey_roundtrip 1 2 1
           (indexeddb.KArray
              [indexeddb.KString (indexeddb.str_of_string "id");
               indexeddb.KBinary (hex [0xAA; 0xBB])])); try lia.
  apply enc_array; [|reflexivity].
  repeat constructor; vm_compute; congruence.
Defined.

Lemma int64_to_bytes_compact_two (n : Z) :
  256 <= n < 65536 ->
  util.int64_to_bytes_compact n = Ok [B (n mod 256); B (n / 256)].
Proof.
  intros Hn.
  destruct (int64_to_bytes_compact_trimmed n) as (b & E & V & L & M).
  { split; [lia|]. apply Z.lt_trans with 65536; [lia | reflexivity]. }
  rewrite E. f_equal.
  destruct b as [|x [|y [|z b]]].
  - change (len (@nil byte)) with 0 in L. lia.
  - cbn [from_bytes_le] in V. pose proof (byte_val_range x). lia.
  - cbn [from_bytes_le] in V.
    pose proof (byte_val_range x). pose proof (byte_val_range y).
    replace (n mod 256) with (byte_val x)
      by (apply (Z.mod_unique n 256 (byte_val y)); lia).
    replace (n / 256) with (byte_val y)
      by (apply (Z.div_unique n 256 (byte_val y) (byte_val x)); lia).
    rewrite !B_byte_val. reflexivity.
  - exfalso. rewrite !len_cons in M, L. pose proof (len_nonneg b).
    destruct M as [M|M]; [lia|].
    assert (256 ^ 2 <= 256 ^ (1 + (1 + (1 + len b)) - 1))
      by (apply Z.pow_le_mono_r; lia).
    change (256 ^ 2) with 65536 in *. lia.
Qed.

(** X27.  A database id of two bytes is not read back: the prefix that
    [encode_key_prefix] builds for it has the first byte [20], in which
    [IDBKey] finds the lengths 1, 1 and 1; it reads the low byte of the id
    as the database, the high byte as the object store and the object
    store as the index, and takes the index for the first byte of the
    key. *)
Theorem IDBKey_wide_db_id (db store idx : Z) (rest : bytes) :
  256 <= db < 65536 -> 0 <= store < 256 -> 0 <= idx < 256 ->
  indexeddb.encode_key_prefix db store idx
  = Ok [B 0x20; B (db mod 256); B (db / 256); B store; B idx]
  /\ indexeddb.IDBKey_read_ids
       ([B 0x20; B (db mod 256); B (db / 256); B store; B idx] ++ rest)
     = Ok (db mod 256, db / 256, store, B idx :: rest)
  /\ forall key : indexeddb.IDBKey,
       indexeddb.IDBKey_init
         ([B 0x20; B (db mod 256); B (db / 256); B store; B idx] ++ rest)
       = Ok key ->
       indexeddb.db_id key <> db.
Proof.
  intros Hdb Hstore Hidx.
  assert (Hm : 0 <= db mod 256 < 256) by (apply Z.mod_pos_bound; lia).
  assert (Hd : 0 <= db / 256 < 256)
    by (split; [apply Z.div_pos; lia | apply Z.div_lt_upper_bound; lia]).
  assert (R : indexeddb.IDBKey_read_ids
                ([B 0x20; B (db mod 256); B (db / 256); B store; B idx]
                 ++ rest)
              = Ok (db mod 256, db / 256, store, B idx :: rest)).
  { cbn [app]. rewrite IDBKey_read_ids_lengths.
    change (Z.land (byte_val (B 0x20)) 7 + 1) with 1.
    change (Z.land (byte_val (B 0x20)) 3 + 1) with 1.
    repeat (rewrite read_safe_cons; cbn [bind]). cbn [from_bytes_le].
    rewrite !byte_val_B by assumption.
    rewrite !Z.mul_0_r, !Z.add_0_r. reflexivity. }
  split; [|split; [exact R|]].
  - unfold indexeddb.encode_key_prefix.
    replace ((db >=? 0) && (store >=? 0) && (idx >=? 0)) with true
      by (symmetry; rewrite !andb_true_iff, !Z.geb_le; lia).
    cbn [assert bind].
    rewrite int64_to_bytes_compact_two by assumption.
    rewrite !int64_to_bytes_compact_byte by assumption. reflexivity.
  - intros key H. unfold indexeddb.IDBKey_init in H. rewrite R in H.
    cbn [bind] in H. inv_bind H as [k s]. inv_bind H as u. inv_Ok H.
    cbn [indexeddb.db_id]. lia.
Qed.

Lemma IDBKey_wide_db_id_witness :
  indexeddb.encode_key_prefix 300 2 1
  = Ok [B 0x20; B (300 mod 256); B (300 / 256); B 2; B 1]
  /\ indexeddb.IDBKey_read_ids
       ([B 0x20; B (300 mod 256); B (300 / 256); B 2; B 1]
        ++ hex [0x06; 0x00])
     = Ok (300 mod 256, 300 / 256, 2, B 1 :: hex [0x06; 0x00])
  /\ forall key : indexeddb.IDBKey,
       indexeddb.IDBKey_init
         ([B 0x20; B (300 mod 256); B (300 / 256); B 2; B 1]
          ++ hex [0x06; 0x00])
       = Ok key ->
       indexeddb.db_id key <> 300.
Proof.
  apply (IDBKey_wide_db_id 300 2 1 (hex [0x06; 0x00])); lia.
Defined.

(** ** indexeddb: the object stores *)

Lemma startswith_app (b prefix : bytes) :
  IDB.startswith b prefix = true <-> exists rest, b = prefix ++ rest.
Proof.
  unfold IDB.startswith. rewrite bytes_eqb_eq. split.
  - intros H. exists (drop (len prefix) b).
    rewrite <- H at 1. symmetry. apply take_drop.
  - intros (rest & ->). apply take_app_len.
Qed.

Lemma read_entries_Ok (selected : list (bytes * bytes)) :
  forall es : list IDB.Entry,
    IDB.read_entries selected = Ok es ->
    Forall2 (fun e kv =>
               exists key : indexeddb.IDBKey,
                 indexeddb.IDBKey_init (fst kv) = Ok key
                 /\ indexeddb.IDBValue_init (snd kv) = Ok (IDB.value e)
                 /\ IDB.key e = indexeddb.key_ key)
            es selected.
Proof.
  unfold IDB.read_entries.
  assert (G : forall acc es,
             foldM (fun acc e =>
                      let '(k, v) := e in
                      key <- indexeddb.IDBKey_init k ;;
                      val <- indexeddb.IDBValue_init v ;;
                      Ok (acc ++ [IDB.mkEntry (indexeddb.key_ key) val]))
                   selected acc = Ok es ->
             exists es', es = acc ++ es'
               /\ Forall2 (fun e kv =>
                    exists key : indexeddb.IDBKey,
                      indexeddb.IDBKey_init (fst kv) = Ok key
                      /\ indexeddb.IDBValue_init (snd kv) = Ok (IDB.value e)
                      /\ IDB.key e = indexeddb.key_ key)
                    es' selected).
  { induction selected as [|[k v] selected IH]; intros acc es H;
      cbn [foldM] in H.
    - inv_Ok H. exists []. rewrite app_nil_r. split; [reflexivity|constructor].
    - inv_bind H as acc1. inv_bind Ha as key. inv_bind Ha as val. inv_Ok Ha.
      destruct (IH _ _ H) as (es' & -> & F).
      exists (IDB.mkEntry (indexeddb.key_ key) val :: es').
      rewrite <- app_assoc. split; [reflexivity|].
      constructor; [|exact F]. exists key. cbn [fst snd IDB.value IDB.key].
      auto. }
  intros es H. destruct (G [] es H) as (es' & -> & F). exact F.
Qed.

(** The entry [e] comes from the LevelDB entry [kv]: its key is the key
    part of [kv]'s key, which carries the ids [db], [store] and 1, and its
    value is [kv]'s value read as an IndexedDB value. *)
Lemma selected_entry (db store : Z) (e : IDB.Entry) (kv : bytes * bytes) :
  0 <= db < 256 -> 0 <= store < 256 ->
  IDB.startswith (fst kv) [B 0; B db; B store; B 1] = true ->
  (exists key : indexeddb.IDBKey,
      indexeddb.IDBKey_init (fst kv) = Ok key
      /\ indexeddb.IDBValue_init (snd kv) = Ok (IDB.value e)
      /\ IDB.key e = indexeddb.key_ key) ->
  entry_of db store e kv.
Proof.
  intros Hdb Hstore Hp (key & K & V & E). unfold entry_of.
  exists key. repeat (split; [assumption|]).
  apply startswith_app in Hp. destruct Hp as (rest & Hp).
  rewrite Hp in K. unfold indexeddb.IDBKey_init in K.
  rewrite IDBKey_read_ids_short in K by lia. cbn [bind] in K.
  inv_bind K as [k s]. inv_bind K as u. inv_Ok K.
  cbn [indexeddb.db_id indexeddb.obj_store_id indexeddb.index_id]. auto.
Qed.

Lemma Forall2_filter_impl {A B : Type} (R R' : A -> B -> Prop)
    (f : B -> bool) (l : list B) (es : list A) :
  (forall a b, f b = true -> R a b -> R' a b) ->
  Forall2 R es (filter f l) -> Forall2 R' es (filter f l).
Proof.
  intros H F. assert (Hall : Forall (fun b => f b = true) (filter f l)).
  { apply Forall_forall. intros b Hb. apply filter_In in Hb. apply Hb. }
  induction F as [|a b es l' Hab F IH]; constructor;
    inversion Hall; subst; auto.
Qed.

(** X28.  For a database and an object store with ids below 256,
    [get_obj_store_entries] returns one entry for each entry of the
    LevelDB maps whose key starts with the prefix of the store and of the
    index 1, in the order of the maps; the key of each entry is the key
    part of a LevelDB key in which [IDBKey] reads the ids of the database,
    of the store and the index 1, and its value is the LevelDB value as
    [IDBValue] reads it. *)
Theorem get_obj_store_entries_selected (entries deleted : dict bytes bytes)
    (db store : Z) (es ds : list IDB.Entry) :
  0 <= db < 256 -> 0 <= store < 256 ->
  IDB.get_obj_store_entries entries deleted db store = Ok (es, ds) ->
  Forall2 (entry_of db store) es
    (filter (fun kv => IDB.startswith (fst kv) [B 0; B db; B store; B 1])
       entries)
  /\ Forall2 (entry_of db store) ds
       (filter (fun kv => IDB.startswith (fst kv) [B 0; B db; B store; B 1])
          deleted).
Proof.
  intros Hdb Hstore H. unfold IDB.get_obj_store_entries in H.
  rewrite encode_key_prefix_short in H by lia. cbn [bind] in H.
  inv_bind H as es'. inv_bind H as ds'. inv_Ok H.
  apply read_entries_Ok in Ha, Ha0.
  split.
  - revert Ha. apply Forall2_filter_impl. intros e kv.
    apply selected_entry; assumption.
  - revert Ha0. apply Forall2_filter_impl. intros e kv.
    apply selected_entry; assumption.
Qed.

(** X29.  [get_obj_store_entries] fails when [deleted_entries] has the
    empty byte string as the value of a key with the prefix of the store:
    [IDBValue] finds no database version in it and raises [IndexError]. *)
Theorem get_obj_store_entries_empty_value (entries deleted : dict bytes bytes)
    (db store : Z) (k : bytes) :
  0 <= db < 256 -> 0 <= store < 256 ->
  In (k, []) deleted ->
  IDB.startswith k [B 0; B db; B store; B 1] = true ->
  indexeddb.IDBValue_init [] = Raise IndexError
  /\ forall r, IDB.get_obj_store_entries entries deleted db store <> Ok r.
Proof.
  intros Hdb Hstore Hin Hp. split; [reflexivity|].
  intros [es ds] H. unfold IDB.get_obj_store_entries in H.
  rewrite encode_key_prefix_short in H by lia. cbn [bind] in H.
  inv_bind H as es'. inv_bind H as ds'. inv_Ok H.
  apply read_entries_Ok in Ha0.
  assert (Hsel : In (k, [])
            (filter (fun kv => IDB.startswith (fst kv)
                                 [B 0; B db; B store; B 1]) deleted))
    by (apply filter_In; split; assumption).
  revert Hsel. generalize dependent ds.
  induction (filter _ deleted) as [|kv l IH]; intros ds F [].
  - subst kv. inversion F as [|e ? ? ? (key & _ & V & _) F']; subst.
    cbn [snd] in V. discriminate V.
  - inversion F; subst. eapply IH; eassumption.
Qed.

Lemma get_obj_store_entries_selected_witness :
  IDB.get_obj_store_entries idb_examples.live [] 1 2
  = Ok ([IDB.mkEntry (indexeddb.KBinary []) (indexeddb.VBool true);
         IDB.mkEntry (indexeddb.KBinary (hex [0xAA])) (indexeddb.VInt 7)],
        [])
  /\ Forall2 (entry_of 1 2)
       [IDB.mkEntry (indexeddb.KBinary []) (indexeddb.VBool true);
        IDB.mkEntry (indexeddb.KBinary (hex [0xAA])) (indexeddb.VInt 7)]
       (filter (fun kv => IDB.startswith (fst kv) [B 0; B 1; B 2; B 1])
          idb_examples.live)
  /\ Forall2 (entry_of 1 2) []
       (filter (fun kv => IDB.startswith (fst kv) [B 0; B 1; B 2; B 1]) []).
Proof.
  split; [reflexivity|].
  apply (get_obj_store_entries_selected idb_examples.live [] 1 2
           [IDB.mkEntry (indexeddb.KBinary []) (indexeddb.VBool true);
            IDB.mkEntry (indexeddb.KBinary (hex [0xAA])) (indexeddb.VInt 7)]
           []); [lia | lia | reflexivity].
Defined.

Lemma get_obj_store_entries_empty_value_witness :
  IDB.get_obj_store_entries idb_examples.live idb_examples.deleted 1 2
  = Raise IndexError
  /\ indexeddb.IDBValue_init [] = Raise IndexError
  /\ forall r,
       IDB.get_obj_store_entries idb_examples.live idb_examples.deleted 1 2
       <> Ok r.
Proof.
  split; [reflexivity|].
  apply (get_obj_store_entries_empty_value idb_examples.live
           idb_examples.deleted 1 2
           (hex [0x00; 0x01; 0x02; 0x01; 0x06; 0x01; 0xBB]));
    [lia | lia | left; reflexivity | reflexivity].
Defined.

(** ** indexeddb: the names of the databases *)

Lemma read_utf16be_string (s : indexeddb.pystr) (rest : bytes) :
  Forall one_unit s -> len s < 2 ^ 62 ->
  ('(n, st) <- util.read_varint64
                 (sample.varint (len s) ++ utf16be s ++ rest) ;;
   '(b, st) <- util.read_safe st (n * 2) ;;
   r <- indexeddb.decode_utf16be b ;;
   Ok (r, st))
  = Ok (s, rest).
Proof.
  intros Hs Hl. unfold util.read_varint64. pose proof (len_nonneg s).
  rewrite read_varint_varint
    by first [lia | split; [lia|];
                    apply Z.lt_trans with (2 ^ 62);
                    [exact Hl | reflexivity]].
  cbn [bind]. rewrite <- len_utf16be.
  rewrite read_safe_app
    by (rewrite len_utf16be; change (2 ^ 62) with 4611686018427387904 in Hl;
        ssize).
  cbn [bind]. rewrite decode_utf16be_utf16be by exact Hs. reflexivity.
Qed.

(** X30.  [__read_db_name_key] reads back an origin and a database name
    written as two strings with their lengths: the number of 16-bit units
    as a varint, then the units, big endian.  A byte after the second
    string is an error. *)
Theorem read_db_name_key_roundtrip (origin name : indexeddb.pystr) :
  Forall one_unit origin -> len origin < 2 ^ 62 ->
  Forall one_unit name -> len name < 2 ^ 62 ->
  IDB.read_db_name_key
    (sample.varint (len origin) ++ utf16be origin
     ++ sample.varint (len name) ++ utf16be name)
  = Ok (origin, name)
  /\ forall (x : byte) (rest : bytes),
       IDB.read_db_name_key
         (sample.varint (len origin) ++ utf16be origin
          ++ sample.varint (len name) ++ utf16be name ++ x :: rest)
       = Raise (AssertionError "unexpected trailing data").
Proof.
  intros Ho Hlo Hn Hln.
  assert (G : forall rest : bytes,
             IDB.read_db_name_key
               (sample.varint (len origin) ++ utf16be origin
                ++ sample.varint (len name) ++ utf16be name ++ rest)
             = (_ <- assert (util.bytes_left rest =? 0)
                       "unexpected trailing data" ;;
                Ok (origin, name))).
  { intros rest. unfold IDB.read_db_name_key.
    pose proof (read_utf16be_string origin
                  (sample.varint (len name) ++ utf16be name ++ rest)
                  Ho Hlo) as R1.
    destruct (util.read_varint64 _) as [[n1 s1]|e]; [|discriminate R1].
    cbn [bind] in R1 |- *.
    destruct (util.read_safe s1 (n1 * 2)) as [[b1 s2]|e];
      [|discriminate R1].
    cbn [bind] in R1 |- *.
    destruct (indexeddb.decode_utf16be b1) as [o|e]; [|discriminate R1].
    cbn [bind] in R1 |- *. inv_Ok R1.
    pose proof (read_utf16be_string name rest Hn Hln) as R2.
    destruct (util.read_varint64 _) as [[n2 s3]|e]; [|discriminate R2].
    cbn [bind] in R2 |- *.
    destruct (util.read_safe s3 (n2 * 2)) as [[b2 s4]|e];
      [|discriminate R2].
    cbn [bind] in R2 |- *.
    destruct (indexeddb.decode_utf16be b2) as [m|e]; [|discriminate R2].
    cbn [bind] in R2 |- *. inv_Ok R2. reflexivity. }
  split.
  - rewrite <- (app_nil_r (utf16be name)). rewrite (G []). reflexivity.
  - intros x rest. rewrite (G (x :: rest)).
    unfold util.bytes_left. rewrite len_cons.
    pose proof (len_nonneg rest).
    replace (1 + len rest =? 0) with false
      by (symmetry; apply Z.eqb_neq; lia).
    reflexivity.
Qed.

Lemma read_db_name_key_roundtrip_witness :
  IDB.read_db_name_key
    (sample.varint (len (indexeddb.str_of_string "https_a.b_0@1"))
     ++ utf16be (indexeddb.str_of_string "https_a.b_0@1")
     ++ sample.varint (len (indexeddb.str_of_string "db"))
     ++ utf16be (indexeddb.str_of_string "db"))
  = Ok (indexeddb.str_of_string "https_a.b_0@1",
        indexeddb.str_of_string "db")
  /\ forall (x : byte) (rest : bytes),
       IDB.read_db_name_key
         (sample.varint (len (indexeddb.str_of_string "https_a.b_0@1"))
          ++ utf16be (indexeddb.str_of_string "https_a.b_0@1")
          ++ sample.varint (len (indexeddb.str_of_string "db"))
          ++ utf16be (indexeddb.str_of_string "db") ++ x :: rest)
       = Raise (AssertionError "unexpected trailing data").
Proof.
  apply (read_db_name_key_roundtrip
           (indexeddb.str_of_string "https_a.b_0@1")
           (indexeddb.str_of_string "db")).
  - repeat (apply Forall_cons; [left; vm_compute; split; congruence|]).
    apply Forall_nil.
  - reflexivity.
  - repeat (apply Forall_cons; [left; vm_compute; split; congruence|]).
    apply Forall_nil.
  - reflexivity.
Defined.
